(** * nezha-dash-v1 (Komari backend): transport client and roster reconciler

    A shallow embedding of [src/lib/rpc2.ts] (class [RPC2Client]) and of the
    reconciliation part of [src/lib/utils.ts]
    ([uuidToNumber], [countryFlagToCode], [komariToNezhaWebsocketResponse]),
    with the properties of the specification stated over it; then the
    other helpers of [src/lib/utils.ts], [batchCall] and [fetchServerGroup],
    with properties of their own. *)

From Stdlib Require Import ZArith QArith List String Ascii Bool Lia Permutation.
From Stdlib Require Import Sorting.Sorted.
From stdpp Require Import base option list gmap pretty.
Import ListNotations.

Local Open Scope Z_scope.
Set Warnings "-register-all".

(* ===================================================================== *)
(** ** JavaScript values                                                  *)
(* ===================================================================== *)

Module Js.

(** A JavaScript string is a sequence of UTF-16 code units. *)
Definition jsstring := list Z.

(** Literal of an ASCII text. *)
Definition js (s : string) : jsstring :=
  map (fun a => Z.of_nat (nat_of_ascii a)) (list_ascii_of_string s).

(** The values [JSON.parse] produces, plus [undefined] (a missing property).
    A JSON number is a rational; [NaN] only shows up as the result of a
    conversion and is the [None] of [jsnum]. *)
Inductive value :=
| VUndefined
| VNull
| VBool (b : bool)
| VNum (q : Q)
| VStr (s : jsstring)
| VArr (items : list value)
| VObj (fields : list (jsstring * value)).

Definition jsnum := option Q.

Definition is_zero (q : Q) : bool := (Qnum q =? 0)%Z.
Definition is_pos (q : Q) : bool := (0 <? Qnum q)%Z.

(** ToBoolean. *)
Definition truthy (v : value) : bool :=
  match v with
  | VUndefined | VNull => false
  | VBool b => b
  | VNum q => negb (is_zero q)
  | VStr s => match s with [] => false | _ => true end
  | VArr _ | VObj _ => true
  end.

(** [a || b] *)
Definition or_else (a b : value) : value := if truthy a then a else b.

Inductive jstype := TUndefined | TObject | TBoolean | TNumber | TString.

Definition typeof (v : value) : jstype :=
  match v with
  | VUndefined => TUndefined
  | VNull | VArr _ | VObj _ => TObject
  | VBool _ => TBoolean
  | VNum _ => TNumber
  | VStr _ => TString
  end.

Definition is_number (v : value) : bool :=
  match typeof v with TNumber => true | _ => false end.

(** What the source leaves to the JavaScript runtime: the numeric reading of
    a string or of an object, and the [Date] arithmetic of the boot time,
    [new Date(time).getTime() / 1000 - uptime]. *)
Class Runtime := {
  StringToNumber : jsstring -> jsnum;
  ObjectToNumber : value -> jsnum;
  bootTimeOf : value -> value -> value;
}.

Section Conversions.
Context `{RT : Runtime}.

(** ToNumber. *)
Definition ToNumber (v : value) : jsnum :=
  match v with
  | VUndefined => None
  | VNull => Some 0%Q
  | VBool b => Some (if b then 1%Q else 0%Q)
  | VNum q => Some q
  | VStr s => StringToNumber s
  | VArr _ | VObj _ => ObjectToNumber v
  end.

(** [v > 0] *)
Definition gt_zero (v : value) : bool :=
  match ToNumber v with
  | Some q => is_pos q
  | None => false
  end.

(** [-v || 0] *)
Definition neg_or_zero (v : value) : value :=
  match ToNumber v with
  | Some q => if is_zero q then VNum 0%Q else VNum (- q)%Q
  | None => VNum 0%Q
  end.
End Conversions.

(** ToInt32 and ToUint32 of an integral number. *)
Definition ToInt32 (z : Z) : Z :=
  let m := z mod 2 ^ 32 in if m <? 2 ^ 31 then m else m - 2 ^ 32.
Definition ToUint32 (z : Z) : Z := z mod 2 ^ 32.
Definition ToUint16 (z : Z) : Z := z mod 2 ^ 16.

(** [a << n] *)
Definition shl (a n : Z) : Z := ToInt32 (Z.shiftl (ToInt32 a) (n mod 32)).

(** The code points the string iterator [[...s]] yields: a high surrogate
    followed by a low one is one code point, any other unit stands alone. *)
Fixpoint codePoints (s : jsstring) : list Z :=
  match s with
  | [] => []
  | hi :: rest =>
      match rest with
      | lo :: rest' =>
          if (55296 <=? hi) && (hi <=? 56319) && (56320 <=? lo) && (lo <=? 57343)
          then (65536 + (hi - 55296) * 1024 + (lo - 56320)) :: codePoints rest'
          else hi :: codePoints rest
      | [] => [hi]
      end
  end.

(** [String.prototype.startsWith] *)
Fixpoint startsWith (s prefix : jsstring) : bool :=
  match prefix, s with
  | [], _ => true
  | p :: prefix', c :: s' => (p =? c) && startsWith s' prefix'
  | _ :: _, [] => false
  end.

(** A JavaScript [Map]: the entries in insertion order, every key at most
    once. *)
Abbreviation Map K V := (list (K * V)) (only parsing).

Section JsMap.
Context {K V : Type} `{EqDecision K}.

Fixpoint Map_get (m : Map K V) (k : K) : option V :=
  match m with
  | [] => None
  | (k', v) :: m' => if decide (k' = k) then Some v else Map_get m' k
  end.

Definition Map_has (m : Map K V) (k : K) : bool :=
  match Map_get m k with Some _ => true | None => false end.

Fixpoint Map_delete (m : Map K V) (k : K) : Map K V :=
  match m with
  | [] => []
  | (k', v) :: m' => if decide (k' = k) then m' else (k', v) :: Map_delete m' k
  end.

(** [set] keeps the position of a key that is already there. *)
Fixpoint Map_set (m : Map K V) (k : K) (v : V) : Map K V :=
  match m with
  | [] => [(k, v)]
  | (k', v') :: m' =>
      if decide (k' = k) then (k, v) :: m' else (k', v') :: Map_set m' k v
  end.

(** [new Map(entries)] *)
Definition Map_new (entries : list (K * V)) : Map K V :=
  fold_left (fun m kv => Map_set m (fst kv) (snd kv)) entries [].

Definition Map_keys (m : Map K V) : list K := map fst m.
End JsMap.

End Js.

(* ===================================================================== *)
(** ** The roster reconciler ([src/lib/utils.ts])                         *)
(* ===================================================================== *)

Module Komari.
Import Js.

(** One live-status record of the feed.  The fields the code only copies or
    tests are arbitrary values; [region], which the code iterates, is a
    string (the empty string when the record has none). *)
Module Status.
Record t := {
  os : value; kernel_version : value; cpu_name : value; gpu_name : value;
  ram_total : value; disk_total : value; swap_total : value; arch : value;
  time : value; uptime : value;
  cpu : value; ram : value; swap : value; disk : value;
  net_total_down : value; net_total_up : value; net_in : value; net_out : value;
  load : value; load5 : value; load15 : value;
  connections : value; connections_udp : value; process : value;
  temp : value; gpu : value;
  name : value; region : jsstring;
}.
End Status.

(** One entry of the roster, [km_servers_cache]. *)
Module Node.
Record t := {
  uuid : jsstring; name : value; public_note : value; region : jsstring;
  weight : value;
  os : value; kernel_version : value; cpu_name : value; gpu_name : value;
  mem_total : value; disk_total : value; swap_total : value; arch : value;
}.
End Node.

(** The entities of the reconciled view ([NezhaServer]). *)
Record Host := {
  platform : value; platform_version : value;
  host_cpu : list value; host_gpu : list value;
  mem_total : value; disk_total : value; swap_total : value;
  arch : value; boot_time : value; version : jsstring;
}.

Record Reading := { Name : jsstring; Temperature : value }.

Record State := {
  cpu : value; mem_used : value; swap_used : value; disk_used : value;
  net_in_transfer : value; net_out_transfer : value;
  net_in_speed : value; net_out_speed : value;
  uptime : value; load_1 : value; load_5 : value; load_15 : value;
  tcp_conn_count : value; udp_conn_count : value; process_count : value;
  temperatures : list Reading; gpu : list value;
}.

Record Server := {
  id : Z; name : value; public_note : value; last_active : value;
  country_code : jsstring; display_index : value;
  host : Host; state : State;
}.

Record NezhaWebsocketResponse := { now : Z; servers : list Server }.

(** [uuidToNumber]: [hash = charCode + ((hash << 5) - hash)] over the code
    units, then [hash >>> 0]. *)
Definition uuidToNumber (uuid : jsstring) : Z :=
  let hash := fold_left (fun hash charCode => charCode + (shl hash 5 - hash)) uuid 0 in
  ToUint32 hash.

(** [countryFlagToCode] *)
Definition countryFlagToCode (flag : jsstring) : jsstring :=
  map (fun c => ToUint16 (c - 127397 + 32)) (codePoints flag).

Definition zero : value := VNum 0%Q.

Section Reconciler.
Context `{RT : Runtime}.

(** [status.temp > 0 ? [{ Name: "CPU", Temperature: status.temp }] : []] *)
Definition temperaturesOf (status : Status.t) : list Reading :=
  if gt_zero (Status.temp status)
  then [ {| Name := js "CPU"; Temperature := Status.temp status |} ]
  else [].

Definition singleton_if (v : value) : list value := if truthy v then [v] else [].

(** The entity built from a live-status record alone: the body of the
    [reduce] callback of the path without a roster (lines 352-394), and,
    word for word the same, of the appending loop (lines 483-525). *)
Definition statusServer (uuid : jsstring) (status : Status.t) : Server :=
  let host := {|
    platform := or_else (Status.os status) (VStr (js ""));
    platform_version := or_else (Status.kernel_version status) (VStr (js ""));
    host_cpu := singleton_if (Status.cpu_name status);
    host_gpu := singleton_if (Status.gpu_name status);
    mem_total := or_else (Status.ram_total status) zero;
    disk_total := or_else (Status.disk_total status) zero;
    swap_total := or_else (Status.swap_total status) zero;
    arch := or_else (Status.arch status) (VStr (js ""));
    boot_time := bootTimeOf (Status.time status) (or_else (Status.uptime status) zero);
    version := js "";
  |} in
  let state := {|
    cpu := or_else (Status.cpu status) zero;
    mem_used := or_else (Status.ram status) zero;
    swap_used := or_else (Status.swap status) zero;
    disk_used := or_else (Status.disk status) zero;
    net_in_transfer := or_else (Status.net_total_down status) zero;
    net_out_transfer := or_else (Status.net_total_up status) zero;
    net_in_speed := or_else (Status.net_in status) zero;
    net_out_speed := or_else (Status.net_out status) zero;
    uptime := or_else (Status.uptime status) zero;
    load_1 := or_else (Status.load status) zero;
    load_5 := or_else (Status.load5 status) zero;
    load_15 := or_else (Status.load15 status) zero;
    tcp_conn_count := or_else (Status.connections status) zero;
    udp_conn_count := or_else (Status.connections_udp status) zero;
    process_count := or_else (Status.process status) zero;
    temperatures := temperaturesOf status;
    gpu := if is_number (Status.gpu status) then [Status.gpu status] else [];
  |} in
  {| id := uuidToNumber uuid;
     name := or_else (Status.name status) (VStr uuid);
     public_note := VStr (js "");
     last_active := Status.time status;
     country_code :=
       match Status.region status with
       | [] => js ""
       | _ => countryFlagToCode (Status.region status)
       end;
     display_index := zero;
     host := host;
     state := state |}.

(** The state of a roster entry that has no live record. *)
Definition offlineState : State := {|
  cpu := zero; mem_used := zero; swap_used := zero; disk_used := zero;
  net_in_transfer := zero; net_out_transfer := zero;
  net_in_speed := zero; net_out_speed := zero;
  uptime := zero; load_1 := zero; load_5 := zero; load_15 := zero;
  tcp_conn_count := zero; udp_conn_count := zero; process_count := zero;
  temperatures := []; gpu := [];
|}.

(** The entity built from a roster entry and the record found for its
    uuid, if any: the callback of [km_servers_cache.map] (lines 414-478). *)
Definition rosterServer (server : Node.t) (status : option Status.t) : Server :=
  let bootTime :=
    match status with
    | Some status => bootTimeOf (Status.time status) (or_else (Status.uptime status) zero)
    | None => zero
    end in
  let host := {|
    platform := Node.os server;
    platform_version := Node.kernel_version server;
    host_cpu := [Node.cpu_name server];
    host_gpu := singleton_if (Node.gpu_name server);
    mem_total := Node.mem_total server;
    disk_total := Node.disk_total server;
    swap_total := Node.swap_total server;
    arch := Node.arch server;
    boot_time := bootTime;
    version := js "";
  |} in
  let state :=
    match status with
    | Some status => {|
        cpu := or_else (Status.cpu status) zero;
        mem_used := or_else (Status.ram status) zero;
        swap_used := or_else (Status.swap status) zero;
        disk_used := or_else (Status.disk status) zero;
        net_in_transfer := or_else (Status.net_total_down status) zero;
        net_out_transfer := or_else (Status.net_total_up status) zero;
        net_in_speed := or_else (Status.net_in status) zero;
        net_out_speed := or_else (Status.net_out status) zero;
        uptime := or_else (Status.uptime status) zero;
        load_1 := or_else (Status.load status) zero;
        load_5 := or_else (Status.load5 status) zero;
        load_15 := or_else (Status.load15 status) zero;
        tcp_conn_count := or_else (Status.connections status) zero;
        udp_conn_count := or_else (Status.connections_udp status) zero;
        process_count := or_else (Status.process status) zero;
        temperatures := temperaturesOf status;
        gpu := if truthy (Node.gpu_name server) && is_number (Status.gpu status)
               then [Status.gpu status] else [];
      |}
    | None => offlineState
    end in
  {| id := uuidToNumber (Node.uuid server);
     name := Node.name server;
     public_note := or_else (Node.public_note server) (VStr (js ""));
     last_active :=
       match status with
       | Some status => Status.time status
       | None => VStr (js "0000-00-00T00:00:00Z")
       end;
     country_code := countryFlagToCode (Node.region server);
     display_index := neg_or_zero (Node.weight server);
     host := host;
     state := state |}.

(** [km_servers_cache.map(...)]: the callback reads [statusMap] and deletes
    the uuid it has handled, so the map is threaded through the entries. *)
Fixpoint rosterPass (cache : list Node.t) (statusMap : Map jsstring Status.t)
  : list Server * Map jsstring Status.t :=
  match cache with
  | [] => ([], statusMap)
  | server :: cache' =>
      let uuid := Node.uuid server in
      let status := Map_get statusMap uuid in
      let statusMap' :=
        if Map_has statusMap uuid then Map_delete statusMap uuid else statusMap in
      let '(rest, final) := rosterPass cache' statusMap' in
      (rosterServer server status :: rest, final)
  end.

(** What a call asks of its environment. *)
Inductive Effect := CallGetNodes.

(** [komariToNezhaWebsocketResponse].  [cache] is the module variable
    [km_servers_cache] at the time of the call, [data] the entries of the
    payload, [Object.entries(data || {})], and [clock] is [Date.now()].
    The roster request of an empty cache is returned as an effect; its
    answer replaces the cache later. *)
Definition komariToNezhaWebsocketResponse
    (cache : list Node.t) (clock : Z) (data : list (jsstring * Status.t))
  : NezhaWebsocketResponse * list Effect :=
  let effects := match cache with [] => [CallGetNodes] | _ => [] end in
  match cache with
  | [] =>
      let servers :=
        fold_left (fun acc kv => acc ++ [statusServer (fst kv) (snd kv)]) data [] in
      ({| now := clock; servers := servers |}, effects)
  | _ =>
      let statusMap := Map_new data in
      let '(servers, rest) := rosterPass cache statusMap in
      let servers :=
        fold_left (fun acc kv => acc ++ [statusServer (fst kv) (snd kv)]) rest servers in
      ({| now := clock; servers := servers |}, effects)
  end.

(** The part of [formatNezhaInfo] that reads [last_active] (lines 12 and
    20).  [parse] stands for [parseISOTimestamp], the time value of
    [new Date(last_active)] with [None] for [NaN], and [format] for dayjs.
    A marker that starts with "000" is the time 0, and the displayed
    last-active text is empty when the time is 0 or [NaN]. *)
Definition last_active_time_string (parse : jsstring -> option Z) (format : Z -> jsstring)
    (last_active : jsstring) : jsstring :=
  let lastActiveTime :=
    if startsWith last_active (js "000") then Some 0 else parse last_active in
  match lastActiveTime with
  | Some t => if t =? 0 then js "" else format t
  | None => js ""
  end.
End Reconciler.

End Komari.

(* ===================================================================== *)
(** ** The transport client ([src/lib/rpc2.ts])                           *)
(* ===================================================================== *)

Module RPC2.
Import Js.

Inductive RPC2ConnectionState :=
| DISCONNECTED | CONNECTING | CONNECTED | RECONNECTING | ERROR.

#[global] Instance RPC2ConnectionState_eq_dec : EqDecision RPC2ConnectionState.
Proof. solve_decision. Defined.

(** [Required<RPC2ConnectionOptions>] *)
Module Options.
Record t := {
  autoConnect : bool;
  autoReconnect : bool;
  reconnectInterval : Z;
  maxReconnectAttempts : Z;
  requestTimeout : Z;
  enableHeartbeat : bool;
  heartbeatInterval : Z;
  headers : list (jsstring * jsstring);
}.

(** The defaults of the constructor. *)
Definition defaults : t := {|
  autoConnect := true;
  autoReconnect := true;
  reconnectInterval := 3000;
  maxReconnectAttempts := 5;
  requestTimeout := 30000;
  enableHeartbeat := true;
  heartbeatInterval := 15000;
  headers := [(js "Content-Type", js "application/json")];
|}.

Definition set_autoReconnect (b : bool) (o : t) : t := {|
  autoConnect := autoConnect o;
  autoReconnect := b;
  reconnectInterval := reconnectInterval o;
  maxReconnectAttempts := maxReconnectAttempts o;
  requestTimeout := requestTimeout o;
  enableHeartbeat := enableHeartbeat o;
  heartbeatInterval := heartbeatInterval o;
  headers := headers o;
|}.
End Options.

(** [RPC2CallOptions]; a missing [notification] is [false]. *)
Module CallOptions.
Record t := { timeout : option Z; notification : bool }.
End CallOptions.

(** The [id] member of a message: missing, [null], a number or a string. *)
Inductive RpcId := IdAbsent | IdNull | IdNum (n : Z) | IdStr (s : jsstring).

#[global] Instance RpcId_eq_dec : EqDecision RpcId.
Proof. solve_decision. Defined.

(** ToBoolean of an id: [!data.id] is its negation. *)
Definition id_truthy (i : RpcId) : bool :=
  match i with
  | IdAbsent | IdNull => false
  | IdNum n => negb (n =? 0)
  | IdStr s => match s with [] => false | _ => true end
  end.

Record JSONRPC2Request := { method : jsstring; params : value; id : RpcId }.

(** [JSONRPC2Response] as [JSON.parse] and [response.json()] give it: the
    message has no [error] member, or it has one.  The interface declares
    that member an error object; a peer can as well send [error: null]
    beside the result, and then ["error" in data] holds all the same. *)
Inductive JSONRPC2Response :=
| SuccessResponse (id : RpcId) (result : value)
| ErrorResponse (id : RpcId) (code : Q) (message : jsstring)
| NullErrorResponse (id : RpcId) (result : value).

Definition response_id (data : JSONRPC2Response) : RpcId :=
  match data with
  | SuccessResponse i _ | ErrorResponse i _ _ | NullErrorResponse i _ => i
  end.

(** What an incoming frame is after [JSON.parse].  It is [Unparsable] when
    [JSON.parse] throws, and also when it gives [null]: the read of
    [data.id] then throws before anything is done. *)
Inductive Frame := Unparsable | Parsed (data : JSONRPC2Response).

(** The errors the client raises.  [Err m] is [new Error(m)]; the two next
    are the messages built from numbers,
    [`RPC Error ${code}: ${message}`] and [`HTTP ${status}: ${statusText}`];
    [ErrType] is the [TypeError] of the engine when [data.error.code] is
    read and [data.error] is [null]. *)
Inductive Error :=
| Err (message : jsstring)
| ErrRpc (code : Q) (message : jsstring)
| ErrHttp (status : Z) (statusText : jsstring)
| ErrType.

(** "WebSocket 未连接" *)
Definition WS_NOT_CONNECTED : jsstring := js "WebSocket " ++ [26410; 36830; 25509].
(** "连接已断开" *)
Definition CONNECTION_CLOSED : jsstring := [36830; 25509; 24050; 26029; 24320].
(** "请求超时: " *)
Definition REQUEST_TIMED_OUT : jsstring := [35831; 27714; 36229; 26102] ++ js ": ".
(** "请求失败: " *)
Definition REQUEST_FAILED : jsstring := [35831; 27714; 22833; 36133] ++ js ": ".
(** "WebSocket 连接失败" *)
Definition WS_CONNECT_FAILED : jsstring := js "WebSocket " ++ [36830; 25509; 22833; 36133].
(** "WebSocket 连接超时" *)
Definition WS_CONNECT_TIMEOUT : jsstring := js "WebSocket " ++ [36830; 25509; 36229; 26102].
(** "WebSocket 连接错误" *)
Definition WS_CONNECTION_ERROR : jsstring := js "WebSocket " ++ [36830; 25509; 38169; 35823].

Inductive Outcome := Resolved (v : value) | Rejected (e : Error).

(** The promises the client hands out, by the method that returned them. *)
Inductive promise :=
| WsCall (n : nat)      (* callViaWebSocket *)
| HttpCall (n : nat)    (* callViaHTTP *)
| Call (n : nat)        (* call *)
| Connect (n : nat).    (* connect *)

(** An entry of [pendingRequests]: [resolve] and [reject] are the two
    continuations of one promise of [callViaWebSocket]. *)
Record PendingRequest := { settles : nat; timeout : option nat }.

Record RPC2Client := {
  ws : option nat;
  connectionState : RPC2ConnectionState;
  requestId : Z;
  pendingRequests : Map RpcId PendingRequest;
  reconnectAttempts : Z;
  reconnectTimeout : option nat;
  heartbeatInterval : option nat;
  options : Options.t;
}.

(** The closures given to [setTimeout] and [setInterval]. *)
Inductive TimerAction :=
| RequestTimeout (id : RpcId) (p : nat) (method : jsstring)
| ConnectTimeout (s : nat)
| Reconnect
| Heartbeat.

Record Timer := { action : TimerAction; delay : Z }.

Inductive ReadyState := WS_CONNECTING | WS_OPEN | WS_CLOSING | WS_CLOSED.

(** The [catch] of [call], waiting on the promise of [callViaWebSocket]. *)
Record CallCtx := {
  outer : nat;
  c_method : jsstring;
  c_params : value;
  c_options : CallOptions.t;
}.

(** A [fetch] in flight, with what [callViaHTTP] does with its answer and
    the promise of [call] that returns it, if any. *)
Record Exchange := {
  x_promise : nat;
  x_adopt : option nat;
  x_method : jsstring;
  x_notification : bool;
}.

Inductive Path := ViaWebSocket | ViaHTTP.

Inductive ListenerCall :=
| onConnect
| onDisconnect
| onError (e : Error)
| onReconnecting (attempt : Z)
| onMessage (data : JSONRPC2Response).

(** What can be observed of a run. *)
Inductive Event :=
| Issued (q : nat) (state : RPC2ConnectionState)
    (* [call] entered, with the connection state it found *)
| Attempt (path : Path) (inner : promise) (caller : option nat)
    (* [callViaWebSocket] or [callViaHTTP] entered, for [call] number [caller] *)
| Send (s : nat) (request : JSONRPC2Request)
| Fetch (x : nat) (request : JSONRPC2Request) (abort_after : option Z)
| Settle (p : promise) (o : Outcome)
    (* [resolve] or [reject] of the promise invoked *)
| NewWebSocket (s : nat)
| CloseSocket (s : nat)
| Notify (l : ListenerCall).

(** Reactions waiting for the end of the running handler. *)
Inductive Job :=
| Fallback (ctx : CallCtx) (o : Outcome)   (* the rest of [call] after its [await] *)
| Adopt (q : nat) (o : Outcome)            (* [call] returning what [callViaHTTP] gave *)
| ConnectCatch (c : nat) (e : Error).      (* the [catch] of [connect] *)

(** The client and the part of the browser it lives in. *)
Record World := {
  client : RPC2Client;
  sockets : gmap nat ReadyState;
  nextSocket : nat;
  opening : gmap nat (nat * nat);
    (* sockets with the [open]/[error] listeners of a [connect] still on:
       its promise and its 10 s timer *)
  timers : gmap nat Timer;
  nextTimer : nat;
  nextPromise : nat;
  fallbacks : gmap nat CallCtx;
  exchanges : gmap nat Exchange;
  nextExchange : nat;
  microtasks : list Job;
  trace : list Event;
}.

(** *** Field updates *)

Definition set_ws (v : option nat) (c : RPC2Client) : RPC2Client :=
  {| ws := v; connectionState := connectionState c; requestId := requestId c;
     pendingRequests := pendingRequests c; reconnectAttempts := reconnectAttempts c;
     reconnectTimeout := reconnectTimeout c; heartbeatInterval := heartbeatInterval c;
     options := options c |}.

Definition set_connectionState (v : RPC2ConnectionState) (c : RPC2Client) : RPC2Client :=
  {| ws := ws c; connectionState := v; requestId := requestId c;
     pendingRequests := pendingRequests c; reconnectAttempts := reconnectAttempts c;
     reconnectTimeout := reconnectTimeout c; heartbeatInterval := heartbeatInterval c;
     options := options c |}.

Definition set_requestId (v : Z) (c : RPC2Client) : RPC2Client :=
  {| ws := ws c; connectionState := connectionState c; requestId := v;
     pendingRequests := pendingRequests c; reconnectAttempts := reconnectAttempts c;
     reconnectTimeout := reconnectTimeout c; heartbeatInterval := heartbeatInterval c;
     options := options c |}.

Definition set_pendingRequests (v : Map RpcId PendingRequest) (c : RPC2Client) : RPC2Client :=
  {| ws := ws c; connectionState := connectionState c; requestId := requestId c;
     pendingRequests := v; reconnectAttempts := reconnectAttempts c;
     reconnectTimeout := reconnectTimeout c; heartbeatInterval := heartbeatInterval c;
     options := options c |}.

Definition set_reconnectAttempts (v : Z) (c : RPC2Client) : RPC2Client :=
  {| ws := ws c; connectionState := connectionState c; requestId := requestId c;
     pendingRequests := pendingRequests c; reconnectAttempts := v;
     reconnectTimeout := reconnectTimeout c; heartbeatInterval := heartbeatInterval c;
     options := options c |}.

Definition set_reconnectTimeout (v : option nat) (c : RPC2Client) : RPC2Client :=
  {| ws := ws c; connectionState := connectionState c; requestId := requestId c;
     pendingRequests := pendingRequests c; reconnectAttempts := reconnectAttempts c;
     reconnectTimeout := v; heartbeatInterval := heartbeatInterval c;
     options := options c |}.

Definition set_heartbeatInterval (v : option nat) (c : RPC2Client) : RPC2Client :=
  {| ws := ws c; connectionState := connectionState c; requestId := requestId c;
     pendingRequests := pendingRequests c; reconnectAttempts := reconnectAttempts c;
     reconnectTimeout := reconnectTimeout c; heartbeatInterval := v;
     options := options c |}.

Definition set_options (v : Options.t) (c : RPC2Client) : RPC2Client :=
  {| ws := ws c; connectionState := connectionState c; requestId := requestId c;
     pendingRequests := pendingRequests c; reconnectAttempts := reconnectAttempts c;
     reconnectTimeout := reconnectTimeout c; heartbeatInterval := heartbeatInterval c;
     options := v |}.

Definition with_client (f : RPC2Client -> RPC2Client) (w : World) : World :=
  {| client := f (client w); sockets := sockets w; nextSocket := nextSocket w;
     opening := opening w; timers := timers w; nextTimer := nextTimer w;
     nextPromise := nextPromise w; fallbacks := fallbacks w;
     exchanges := exchanges w; nextExchange := nextExchange w;
     microtasks := microtasks w; trace := trace w |}.

Definition with_sockets (f : gmap nat ReadyState -> gmap nat ReadyState) (w : World) : World :=
  {| client := client w; sockets := f (sockets w); nextSocket := nextSocket w;
     opening := opening w; timers := timers w; nextTimer := nextTimer w;
     nextPromise := nextPromise w; fallbacks := fallbacks w;
     exchanges := exchanges w; nextExchange := nextExchange w;
     microtasks := microtasks w; trace := trace w |}.

Definition with_opening (f : gmap nat (nat * nat) -> gmap nat (nat * nat)) (w : World) : World :=
  {| client := client w; sockets := sockets w; nextSocket := nextSocket w;
     opening := f (opening w); timers := timers w; nextTimer := nextTimer w;
     nextPromise := nextPromise w; fallbacks := fallbacks w;
     exchanges := exchanges w; nextExchange := nextExchange w;
     microtasks := microtasks w; trace := trace w |}.

Definition with_timers (f : gmap nat Timer -> gmap nat Timer) (w : World) : World :=
  {| client := client w; sockets := sockets w; nextSocket := nextSocket w;
     opening := opening w; timers := f (timers w); nextTimer := nextTimer w;
     nextPromise := nextPromise w; fallbacks := fallbacks w;
     exchanges := exchanges w; nextExchange := nextExchange w;
     microtasks := microtasks w; trace := trace w |}.

Definition with_fallbacks (f : gmap nat CallCtx -> gmap nat CallCtx) (w : World) : World :=
  {| client := client w; sockets := sockets w; nextSocket := nextSocket w;
     opening := opening w; timers := timers w; nextTimer := nextTimer w;
     nextPromise := nextPromise w; fallbacks := f (fallbacks w);
     exchanges := exchanges w; nextExchange := nextExchange w;
     microtasks := microtasks w; trace := trace w |}.

Definition with_exchanges (f : gmap nat Exchange -> gmap nat Exchange) (w : World) : World :=
  {| client := client w; sockets := sockets w; nextSocket := nextSocket w;
     opening := opening w; timers := timers w; nextTimer := nextTimer w;
     nextPromise := nextPromise w; fallbacks := fallbacks w;
     exchanges := f (exchanges w); nextExchange := nextExchange w;
     microtasks := microtasks w; trace := trace w |}.

Definition with_microtasks (f : list Job -> list Job) (w : World) : World :=
  {| client := client w; sockets := sockets w; nextSocket := nextSocket w;
     opening := opening w; timers := timers w; nextTimer := nextTimer w;
     nextPromise := nextPromise w; fallbacks := fallbacks w;
     exchanges := exchanges w; nextExchange := nextExchange w;
     microtasks := f (microtasks w); trace := trace w |}.

(** Appends an event to the trace. *)
Definition emit (e : Event) (w : World) : World :=
  {| client := client w; sockets := sockets w; nextSocket := nextSocket w;
     opening := opening w; timers := timers w; nextTimer := nextTimer w;
     nextPromise := nextPromise w; fallbacks := fallbacks w;
     exchanges := exchanges w; nextExchange := nextExchange w;
     microtasks := microtasks w; trace := trace w ++ [e] |}.

(** *** The browser *)

(** A fresh promise number. *)
Definition newPromise (w : World) : nat * World :=
  (nextPromise w,
   {| client := client w; sockets := sockets w; nextSocket := nextSocket w;
      opening := opening w; timers := timers w; nextTimer := nextTimer w;
      nextPromise := S (nextPromise w); fallbacks := fallbacks w;
      exchanges := exchanges w; nextExchange := nextExchange w;
      microtasks := microtasks w; trace := trace w |}).

(** [setTimeout] and [setInterval]: a fresh handle, never 0. *)
Definition setTimer (a : TimerAction) (ms : Z) (w : World) : nat * World :=
  (nextTimer w,
   {| client := client w; sockets := sockets w; nextSocket := nextSocket w;
      opening := opening w;
      timers := <[nextTimer w := {| action := a; delay := ms |}]> (timers w);
      nextTimer := S (nextTimer w);
      nextPromise := nextPromise w; fallbacks := fallbacks w;
      exchanges := exchanges w; nextExchange := nextExchange w;
      microtasks := microtasks w; trace := trace w |}).

(** [clearTimeout] and [clearInterval]; a handle that is not armed is
    ignored. *)
Definition clearTimer (t : nat) (w : World) : World := with_timers (delete t) w.

(** [if (handle) clearTimeout(handle)] *)
Definition clearTimer_if (handle : option nat) (w : World) : World :=
  match handle with
  | Some t => clearTimer t w
  | None => w
  end.

(** [new WebSocket(url)] *)
Definition newWebSocket (w : World) : nat * World :=
  (nextSocket w,
   emit (NewWebSocket (nextSocket w))
     {| client := client w;
        sockets := <[nextSocket w := WS_CONNECTING]> (sockets w);
        nextSocket := S (nextSocket w);
        opening := opening w; timers := timers w; nextTimer := nextTimer w;
        nextPromise := nextPromise w; fallbacks := fallbacks w;
        exchanges := exchanges w; nextExchange := nextExchange w;
        microtasks := microtasks w; trace := trace w |}).

(** [ws.close()] *)
Definition closeSocket (s : nat) (w : World) : World :=
  emit (CloseSocket s)
    (with_sockets
       (fun m => match m !! s with
                 | Some WS_CLOSED | None => m
                 | Some _ => <[s := WS_CLOSING]> m
                 end) w).

(** A fresh exchange for [fetch]. *)
Definition newExchange (x : Exchange) (w : World) : nat * World :=
  (nextExchange w,
   {| client := client w; sockets := sockets w; nextSocket := nextSocket w;
      opening := opening w; timers := timers w; nextTimer := nextTimer w;
      nextPromise := nextPromise w; fallbacks := fallbacks w;
      exchanges := <[nextExchange w := x]> (exchanges w);
      nextExchange := S (nextExchange w);
      microtasks := microtasks w; trace := trace w |}).

(** [++] on a number: exact below 2^53, where a double stops counting. *)
Definition js_incr (n : Z) : Z := if n <? 2 ^ 53 then n + 1 else n.

(** *** The methods of [RPC2Client] *)

Definition setConnectionState (state : RPC2ConnectionState) (w : World) : World :=
  with_client (set_connectionState state) w.

(** [return ++this.requestId] *)
Definition generateRequestId (w : World) : Z * World :=
  let n := js_incr (requestId (client w)) in
  (n, with_client (set_requestId n) w).

(** [resolve] or [reject] of a promise of [callViaWebSocket] is invoked.
    The [call] that awaits it, if any, goes on once the running handler has
    ended, and only the first time. *)
Definition settleWs (p : nat) (o : Outcome) (w : World) : World :=
  let w := emit (Settle (WsCall p) o) w in
  match fallbacks w !! p with
  | Some ctx =>
      with_microtasks (fun jobs => jobs ++ [Fallback ctx o]) (with_fallbacks (delete p) w)
  | None => w
  end.

(** [sendMessage]; [None] when it throws "WebSocket 未连接". *)
Definition sendMessage (message : JSONRPC2Request) (w : World) : option World :=
  match ws (client w) with
  | Some s =>
      match sockets w !! s with
      | Some WS_OPEN => Some (emit (Send s message) w)
      | _ => None
      end
  | None => None
  end.

(** [a || b] on a delay *)
Definition delay_or (a : option Z) (b : Z) : Z :=
  match a with
  | Some t => if t =? 0 then b else t
  | None => b
  end.

(** [callViaWebSocket]; [caller] is the [call] that awaits the result, if
    the method was not called directly. *)
Definition callViaWebSocket_ (caller : option CallCtx)
    (method : jsstring) (params : value) (opts : CallOptions.t) (w : World)
  : nat * World :=
  let '(p, w) := newPromise w in
  let w := emit (Attempt ViaWebSocket (WsCall p) (outer <$> caller)) w in
  let w := match caller with
           | Some ctx => with_fallbacks (insert p ctx) w
           | None => w
           end in
  if decide (connectionState (client w) = CONNECTED) then
    if CallOptions.notification opts then
      let request := {| method := method; params := params; id := IdAbsent |} in
      match sendMessage request w with
      | Some w => (p, settleWs p (Resolved VUndefined) w)
      | None => (p, settleWs p (Rejected (Err WS_NOT_CONNECTED)) w)
      end
    else
      let '(n, w) := generateRequestId w in
      let request := {| method := method; params := params; id := IdNum n |} in
      let ms := delay_or (CallOptions.timeout opts)
                         (Options.requestTimeout (options (client w))) in
      let '(t, w) := setTimer (RequestTimeout (IdNum n) p method) ms w in
      let w := with_client
                 (fun c => set_pendingRequests
                             (Map_set (pendingRequests c) (IdNum n)
                                      {| settles := p; timeout := Some t |}) c) w in
      match sendMessage request w with
      | Some w => (p, w)
      | None => (p, settleWs p (Rejected (Err WS_NOT_CONNECTED)) w)
      end
  else (p, settleWs p (Rejected (Err WS_NOT_CONNECTED)) w).

Definition callViaWebSocket := callViaWebSocket_ None.

(** [callViaHTTP] up to its [await fetch(...)]; [caller] is the [call] that
    returns the result, if the method was not called directly. *)
Definition callViaHTTP_ (caller : option nat)
    (method : jsstring) (params : value) (opts : CallOptions.t) (w : World)
  : nat * World :=
  let '(h, w) := newPromise w in
  let w := emit (Attempt ViaHTTP (HttpCall h) caller) w in
  let '(i, w) :=
    if CallOptions.notification opts then (IdAbsent, w)
    else let '(n, w) := generateRequestId w in (IdNum n, w) in
  let request := {| method := method; params := params; id := i |} in
  let '(x, w) := newExchange {| x_promise := h; x_adopt := caller;
                                x_method := method;
                                x_notification := CallOptions.notification opts |} w in
  let abort := match CallOptions.timeout opts with
               | Some t => if t =? 0 then None else Some t
               | None => None
               end in
  (h, emit (Fetch x request abort) w).

Definition callViaHTTP := callViaHTTP_ None.

(** What [fetch] and [response.json()] can do. *)
Inductive Thrown := ThrownError (e : Error) | ThrownOther.
Inductive Body := Json (data : JSONRPC2Response) | NotJson (why : Error).
Inductive HttpReply :=
| FetchRejects (why : Thrown)
| Responds (ok : bool) (status : Z) (statusText : jsstring) (body : Body).

(** The rest of [callViaHTTP], from the answer of [fetch]. *)
Definition callViaHTTP_result (method : jsstring) (notification : bool) (reply : HttpReply)
  : Outcome :=
  match reply with
  | FetchRejects (ThrownError e) => Rejected e
  | FetchRejects ThrownOther => Rejected (Err (REQUEST_FAILED ++ method))
  | Responds ok status statusText body =>
      if negb ok then Rejected (ErrHttp status statusText)
      else if notification then Resolved VUndefined
      else match body with
           | NotJson e => Rejected e
           | Json (ErrorResponse _ code message) => Rejected (ErrRpc code message)
           | Json (NullErrorResponse _ _) => Rejected ErrType
           | Json (SuccessResponse _ result) => Resolved result
           end
  end.

(** [connect] up to its [await]. *)
Definition connect (w : World) : nat * World :=
  let '(c, w) := newPromise w in
  if bool_decide (connectionState (client w) = CONNECTED)
     || bool_decide (connectionState (client w) = CONNECTING)
  then (c, emit (Settle (Connect c) (Resolved VUndefined)) w)
  else
    let w := setConnectionState CONNECTING w in
    let '(s, w) := newWebSocket w in
    let w := with_client (set_ws (Some s)) w in
    let '(t, w) := setTimer (ConnectTimeout s) 10000 w in
    (c, with_opening (insert s (c, t)) w).

Definition autoConnect (w : World) : World :=
  if decide (connectionState (client w) = DISCONNECTED) then snd (connect w) else w.

Definition stopHeartbeat (w : World) : World :=
  match heartbeatInterval (client w) with
  | Some t => with_client (set_heartbeatInterval None) (clearTimer t w)
  | None => w
  end.

Definition startHeartbeat (w : World) : World :=
  if Options.enableHeartbeat (options (client w)) then
    let w := stopHeartbeat w in
    let '(t, w) := setTimer Heartbeat (Options.heartbeatInterval (options (client w))) w in
    with_client (set_heartbeatInterval (Some t)) w
  else w.

Definition attemptReconnect (w : World) : World :=
  let w := with_client (fun c => set_reconnectAttempts (js_incr (reconnectAttempts c)) c) w in
  let w := setConnectionState RECONNECTING w in
  let w := emit (Notify (onReconnecting (reconnectAttempts (client w)))) w in
  let '(t, w) := setTimer Reconnect (Options.reconnectInterval (options (client w))) w in
  with_client (set_reconnectTimeout (Some t)) w.

Definition clearPendingRequests (error : Error) (w : World) : World :=
  let w := fold_left
             (fun w entry =>
                let pending := snd entry in
                settleWs (settles pending) (Rejected error)
                         (clearTimer_if (timeout pending) w))
             (pendingRequests (client w)) w in
  with_client (set_pendingRequests []) w.

Definition disconnect (w : World) : World :=
  let w := with_client (fun c => set_options (Options.set_autoReconnect false (options c)) c) w in
  let w := match reconnectTimeout (client w) with
           | Some t => with_client (set_reconnectTimeout None) (clearTimer t w)
           | None => w
           end in
  let w := match heartbeatInterval (client w) with
           | Some t => with_client (set_heartbeatInterval None) (clearTimer t w)
           | None => w
           end in
  let w := match ws (client w) with
           | Some s => with_client (set_ws None) (closeSocket s w)
           | None => w
           end in
  let w := setConnectionState DISCONNECTED w in
  clearPendingRequests (Err CONNECTION_CLOSED) w.

(** How a method ends: it returns, or it throws. *)
Inductive Completion := Returns (w : World) | Throws (e : Error) (w : World).

(** The world a method leaves, however it ends. *)
Definition leaves (c : Completion) : World :=
  match c with
  | Returns w | Throws _ w => w
  end.

(** [handleMessage].  With [error: null] in the message the entry is taken
    off the table and its timeout cleared, and then the read of
    [data.error.code] throws: neither [reject] nor [resolve] is reached. *)
Definition handleMessage (data : JSONRPC2Response) (w : World) : Completion :=
  if negb (id_truthy (response_id data)) then Returns w
  else
    match Map_get (pendingRequests (client w)) (response_id data) with
    | None => Returns w
    | Some pending =>
        let w := with_client
                   (fun c => set_pendingRequests
                               (Map_delete (pendingRequests c) (response_id data)) c) w in
        let w := clearTimer_if (timeout pending) w in
        match data with
        | ErrorResponse _ code message =>
            Returns (settleWs (settles pending) (Rejected (ErrRpc code message)) w)
        | NullErrorResponse _ _ => Throws ErrType w
        | SuccessResponse _ result =>
            Returns (settleWs (settles pending) (Resolved result) w)
        end
    end.

(** The four handlers [setupWebSocketHandlers] installs. *)
Definition onopen (w : World) : World :=
  let w := setConnectionState CONNECTED w in
  let w := with_client (set_reconnectAttempts 0) w in
  let w := startHeartbeat w in
  emit (Notify onConnect) w.

(** [onmessage]: the listener is called when [handleMessage] has returned;
    what is thrown inside the [try] is caught and logged. *)
Definition onmessage (frame : Frame) (w : World) : World :=
  match frame with
  | Unparsable => w
  | Parsed data =>
      match handleMessage data w with
      | Returns w => emit (Notify (onMessage data)) w
      | Throws _ w => w
      end
  end.

Definition onclose (w : World) : World :=
  let w := setConnectionState DISCONNECTED w in
  let w := stopHeartbeat w in
  let w := emit (Notify onDisconnect) w in
  if Options.autoReconnect (options (client w))
     && (reconnectAttempts (client w) <? Options.maxReconnectAttempts (options (client w)))
  then attemptReconnect w
  else w.

Definition onerror (w : World) : World :=
  emit (Notify (onError (Err WS_CONNECTION_ERROR))) w.

(** [call] *)
Definition call (method : jsstring) (params : value) (opts : CallOptions.t) (w : World)
  : nat * World :=
  let '(q, w) := newPromise w in
  let w := emit (Issued q (connectionState (client w))) w in
  let w := if Options.autoConnect (options (client w))
              && bool_decide (connectionState (client w) = DISCONNECTED)
           then autoConnect w else w in
  if decide (connectionState (client w) = CONNECTED) then
    let ctx := {| outer := q; c_method := method; c_params := params; c_options := opts |} in
    (q, snd (callViaWebSocket_ (Some ctx) method params opts w))
  else
    (q, snd (callViaHTTP_ (Some q) method params opts w)).

(** *** The event loop *)

Definition enqueue (j : Job) (w : World) : World :=
  with_microtasks (fun jobs => jobs ++ [j]) w.

Definition runJob (j : Job) (w : World) : World :=
  match j with
  | Fallback ctx (Resolved v) => emit (Settle (Call (outer ctx)) (Resolved v)) w
  | Fallback ctx (Rejected _) =>
      snd (callViaHTTP_ (Some (outer ctx)) (c_method ctx) (c_params ctx) (c_options ctx) w)
  | Adopt q o => emit (Settle (Call q) o) w
  | ConnectCatch c e =>
      let w := setConnectionState ERROR w in
      let w := emit (Notify (onError e)) w in
      emit (Settle (Connect c) (Rejected e)) w
  end.

(** The microtasks run when the running handler has ended, each one taken
    off the queue before it runs. *)
Definition dequeue (w : World) : World := with_microtasks (fun jobs => tail jobs) w.

Definition drain (w : World) : World :=
  fold_left (fun w j => runJob j (dequeue w)) (microtasks w) w.

(** The [open] event: the [onopen] handler, then the listener of [connect]
    if it is still on. *)
Definition socketOpens (s : nat) (w : World) : World :=
  match sockets w !! s with
  | Some WS_CONNECTING =>
      let w := with_sockets (insert s WS_OPEN) w in
      let w := onopen w in
      match opening w !! s with
      | Some (c, t) =>
          let w := clearTimer t w in
          let w := with_opening (delete s) w in
          emit (Settle (Connect c) (Resolved VUndefined)) w
      | None => w
      end
  | _ => w
  end.

(** The closing handshake has begun. *)
Definition socketClosing (s : nat) (w : World) : World :=
  match sockets w !! s with
  | Some WS_OPEN => with_sockets (insert s WS_CLOSING) w
  | _ => w
  end.

(** The [error] event. *)
Definition socketErrors (s : nat) (w : World) : World :=
  match sockets w !! s with
  | Some _ =>
      let w := onerror w in
      match opening w !! s with
      | Some (c, t) =>
          let w := clearTimer t w in
          let w := with_opening (delete s) w in
          enqueue (ConnectCatch c (Err WS_CONNECT_FAILED)) w
      | None => w
      end
  | None => w
  end.

(** The [close] event. *)
Definition socketCloses (s : nat) (w : World) : World :=
  match sockets w !! s with
  | Some WS_CLOSED | None => w
  | Some _ => onclose (with_sockets (insert s WS_CLOSED) w)
  end.

(** The [message] event. *)
Definition socketMessage (s : nat) (frame : Frame) (w : World) : World :=
  match sockets w !! s with
  | Some WS_OPEN | Some WS_CLOSING => onmessage frame w
  | _ => w
  end.

(** The notification of the heartbeat, [rpc.ping]. *)
Definition heartbeatRequest (clock : Z) : JSONRPC2Request :=
  {| method := js "rpc.ping";
     params := VObj [(js "timestamp", VNum (inject_Z clock))];
     id := IdAbsent |}.

(** A timer goes off; [clock] is [Date.now()]. *)
Definition timerFires (t : nat) (clock : Z) (w : World) : World :=
  match timers w !! t with
  | Some {| action := RequestTimeout i p method |} =>
      let w := clearTimer t w in
      let w := with_client
                 (fun c => set_pendingRequests (Map_delete (pendingRequests c) i) c) w in
      settleWs p (Rejected (Err (REQUEST_TIMED_OUT ++ method))) w
  | Some {| action := ConnectTimeout s |} =>
      let w := clearTimer t w in
      match opening w !! s with
      | Some (c, t') =>
          let w := clearTimer t' w in
          let w := with_opening (delete s) w in
          enqueue (ConnectCatch c (Err WS_CONNECT_TIMEOUT)) w
      | None => w
      end
  | Some {| action := Reconnect |} =>
      snd (connect (clearTimer t w))
  | Some {| action := Heartbeat |} =>
      match ws (client w) with
      | Some s =>
          match sockets w !! s with
          | Some WS_OPEN => emit (Send s (heartbeatRequest clock)) w
          | _ => w
          end
      | None => w
      end
  | None => w
  end.

(** The answer to a [fetch]. *)
Definition httpReplies (x : nat) (reply : HttpReply) (w : World) : World :=
  match exchanges w !! x with
  | Some ex =>
      let o := callViaHTTP_result (x_method ex) (x_notification ex) reply in
      let w := with_exchanges (delete x) w in
      let w := emit (Settle (HttpCall (x_promise ex)) o) w in
      match x_adopt ex with
      | Some q => enqueue (Adopt q o) w
      | None => w
      end
  | None => w
  end.

(** What happens to a client: its user calls a method, from inside some
    handler, or the browser delivers an event. *)
Inductive Input :=
| DoConnect
| DoDisconnect
| DoCall (method : jsstring) (params : value) (opts : CallOptions.t)
| DoCallViaWebSocket (method : jsstring) (params : value) (opts : CallOptions.t)
| DoCallViaHTTP (method : jsstring) (params : value) (opts : CallOptions.t)
| Checkpoint
| SocketOpens (s : nat)
| SocketClosing (s : nat)
| SocketErrors (s : nat)
| SocketCloses (s : nat)
| SocketMessage (s : nat) (frame : Frame)
| TimerFires (t : nat) (clock : Z)
| HttpReplies (x : nat) (reply : HttpReply).

(** The handler of an input, without the microtasks around it. *)
Definition handle (i : Input) (w : World) : World :=
  match i with
  | DoConnect => snd (connect w)
  | DoDisconnect => disconnect w
  | DoCall method params opts => snd (call method params opts w)
  | DoCallViaWebSocket method params opts => snd (callViaWebSocket method params opts w)
  | DoCallViaHTTP method params opts => snd (callViaHTTP method params opts w)
  | Checkpoint => w
  | SocketOpens s => socketOpens s w
  | SocketClosing s => socketClosing s w
  | SocketErrors s => socketErrors s w
  | SocketCloses s => socketCloses s w
  | SocketMessage s frame => socketMessage s frame w
  | TimerFires t clock => timerFires t clock w
  | HttpReplies x reply => httpReplies x reply w
  end.

Definition from_user (i : Input) : bool :=
  match i with
  | DoConnect | DoDisconnect | DoCall _ _ _
  | DoCallViaWebSocket _ _ _ | DoCallViaHTTP _ _ _ => true
  | _ => false
  end.

(** A method called by the user runs inside the handler that is running; an
    event of the browser starts a handler of its own, after the microtasks
    of the one before, and its own microtasks follow it. *)
Definition step (w : World) (i : Input) : World :=
  if from_user i then handle i w else drain (handle i (drain w)).

Definition run (w : World) (inputs : list Input) : World := fold_left step inputs w.

(** [new RPC2Client(baseUrl, options)] *)
Definition initialClient (opts : Options.t) : RPC2Client :=
  {| ws := None; connectionState := DISCONNECTED; requestId := 0;
     pendingRequests := []; reconnectAttempts := 0;
     reconnectTimeout := None; heartbeatInterval := None; options := opts |}.

Definition construct (opts : Options.t) : World :=
  let w := {| client := initialClient opts; sockets := ∅; nextSocket := 0;
              opening := ∅; timers := ∅; nextTimer := 1; nextPromise := 0;
              fallbacks := ∅; exchanges := ∅; nextExchange := 0;
              microtasks := []; trace := [] |} in
  if Options.autoConnect opts then autoConnect w else w.

(** The worlds a client can be in. *)
Inductive reachable (opts : Options.t) : World -> Prop :=
| reachable_construct : reachable opts (construct opts)
| reachable_step w i : reachable opts w -> reachable opts (step w i).

End RPC2.

(* ===================================================================== *)
(** ** The reconciler as the specification words it                       *)
(* ===================================================================== *)

Module KomariSpec.
Import Js Komari.

(** The keys of the reconciled view, in order: those of the roster, then
    the keys of the feed that the roster does not have. *)
Definition reconciled_keys (cache : list Node.t) (data : list (jsstring * Status.t))
  : list jsstring :=
  map Node.uuid cache ++ filter (fun k => k ∉ map Node.uuid cache) (map fst data).

(** Every dynamic field is zero and both lists are empty. *)
Definition all_zero (s : State) : Prop :=
  cpu s = zero /\ mem_used s = zero /\ swap_used s = zero /\ disk_used s = zero /\
  net_in_transfer s = zero /\ net_out_transfer s = zero /\
  net_in_speed s = zero /\ net_out_speed s = zero /\
  uptime s = zero /\ load_1 s = zero /\ load_5 s = zero /\ load_15 s = zero /\
  tcp_conn_count s = zero /\ udp_conn_count s = zero /\ process_count s = zero /\
  temperatures s = [] /\ gpu s = [].

(** A temperature that is missing or zero. *)
Definition no_temperature (v : value) : Prop :=
  v = VUndefined \/ exists q, v = VNum q /\ is_zero q = true.

Section Order.
Context `{RT : Runtime}.

(** The display weight as a number; what is no number weighs nothing. *)
Definition weight_of (server : Node.t) : Q :=
  match ToNumber (Node.weight server) with
  | Some q => q
  | None => 0%Q
  end.

(** Descending weight, ties by original order: an entry goes before the
    first entry of the sorted rest that does not weigh more. *)
Fixpoint insert_by_weight (server : Node.t) (sorted : list Node.t) : list Node.t :=
  match sorted with
  | [] => [server]
  | s :: rest =>
      if Qle_bool (weight_of s) (weight_of server)
      then server :: s :: rest
      else s :: insert_by_weight server rest
  end.

Definition sort_by_weight (cache : list Node.t) : list Node.t :=
  foldr insert_by_weight [] cache.

(** The roster part of the view as the specification orders it. *)
Definition roster_by_descending_weight
    (cache : list Node.t) (data : list (jsstring * Status.t)) : list Server :=
  map (fun server => rosterServer server (Map_get (Map_new data) (Node.uuid server)))
      (sort_by_weight cache).

(** The record that is merged into the roster entry at position [i]: the
    record of the feed under the key of the entry, unless an entry before
    it has the same key. *)
Definition found_record
    (cache : list Node.t) (data : list (jsstring * Status.t)) (i : nat)
  : option Status.t :=
  match cache !! i with
  | Some server =>
      if decide (Node.uuid server ∈ map Node.uuid (take i cache)) then None
      else Map_get data (Node.uuid server)
  | None => None
  end.

(** The records of the feed whose key the roster lacks, in feed order. *)
Definition appended_records
    (cache : list Node.t) (data : list (jsstring * Status.t))
  : list (jsstring * Status.t) :=
  filter (fun kv => kv.1 ∉ map Node.uuid cache) data.

(** The dynamic fields of [s] but [gpu] are read from the record [st], 0
    standing for a field that is missing or falsy, and the temperature is
    listed if it is above zero. *)
Definition live_state (st : Status.t) (s : State) : Prop :=
  cpu s = or_else (Status.cpu st) zero
  /\ mem_used s = or_else (Status.ram st) zero
  /\ swap_used s = or_else (Status.swap st) zero
  /\ disk_used s = or_else (Status.disk st) zero
  /\ net_in_transfer s = or_else (Status.net_total_down st) zero
  /\ net_out_transfer s = or_else (Status.net_total_up st) zero
  /\ net_in_speed s = or_else (Status.net_in st) zero
  /\ net_out_speed s = or_else (Status.net_out st) zero
  /\ uptime s = or_else (Status.uptime st) zero
  /\ load_1 s = or_else (Status.load st) zero
  /\ load_5 s = or_else (Status.load5 st) zero
  /\ load_15 s = or_else (Status.load15 st) zero
  /\ tcp_conn_count s = or_else (Status.connections st) zero
  /\ udp_conn_count s = or_else (Status.connections_udp st) zero
  /\ process_count s = or_else (Status.process st) zero
  /\ temperatures s
     = (if gt_zero (Status.temp st)
        then [ {| Name := js "CPU"; Temperature := Status.temp st |} ]
        else []).

(** [e] is the roster entry [server] merged with the record [found] for it:
    the identity and the host are those of the roster entry, the dynamic
    fields, the boot time and [last_active] those of the record; without a
    record the entity is offline. *)
Definition merged (server : Node.t) (found : option Status.t) (e : Server) : Prop :=
  id e = uuidToNumber (Node.uuid server)
  /\ name e = Node.name server
  /\ public_note e = or_else (Node.public_note server) (VStr (js ""))
  /\ country_code e = countryFlagToCode (Node.region server)
  /\ display_index e = neg_or_zero (Node.weight server)
  /\ platform (host e) = Node.os server
  /\ platform_version (host e) = Node.kernel_version server
  /\ host_cpu (host e) = [Node.cpu_name server]
  /\ host_gpu (host e)
     = (if truthy (Node.gpu_name server) then [Node.gpu_name server] else [])
  /\ mem_total (host e) = Node.mem_total server
  /\ disk_total (host e) = Node.disk_total server
  /\ swap_total (host e) = Node.swap_total server
  /\ arch (host e) = Node.arch server
  /\ version (host e) = js ""
  /\ match found with
     | Some st =>
         last_active e = Status.time st
         /\ boot_time (host e)
            = bootTimeOf (Status.time st) (or_else (Status.uptime st) zero)
         /\ live_state st (state e)
         /\ gpu (state e)
            = (if truthy (Node.gpu_name server) && is_number (Status.gpu st)
               then [Status.gpu st] else [])
     | None =>
         last_active e = VStr (js "0000-00-00T00:00:00Z")
         /\ boot_time (host e) = zero
         /\ all_zero (state e)
     end.

(** [e] is synthesized from the record [st] of the key [k] alone. *)
Definition synthesized (k : jsstring) (st : Status.t) (e : Server) : Prop :=
  id e = uuidToNumber k
  /\ name e = or_else (Status.name st) (VStr k)
  /\ public_note e = VStr (js "")
  /\ last_active e = Status.time st
  /\ country_code e
     = match Status.region st with
       | [] => js ""
       | _ => countryFlagToCode (Status.region st)
       end
  /\ display_index e = zero
  /\ platform (host e) = or_else (Status.os st) (VStr (js ""))
  /\ platform_version (host e) = or_else (Status.kernel_version st) (VStr (js ""))
  /\ host_cpu (host e)
     = (if truthy (Status.cpu_name st) then [Status.cpu_name st] else [])
  /\ host_gpu (host e)
     = (if truthy (Status.gpu_name st) then [Status.gpu_name st] else [])
  /\ mem_total (host e) = or_else (Status.ram_total st) zero
  /\ disk_total (host e) = or_else (Status.disk_total st) zero
  /\ swap_total (host e) = or_else (Status.swap_total st) zero
  /\ arch (host e) = or_else (Status.arch st) (VStr (js ""))
  /\ boot_time (host e) = bootTimeOf (Status.time st) (or_else (Status.uptime st) zero)
  /\ version (host e) = js ""
  /\ live_state st (state e)
  /\ gpu (state e) = (if is_number (Status.gpu st) then [Status.gpu st] else []).

(** For a cached roster: the entity of a roster entry whose record has a
    numeric [gpu] lists that number. *)
Definition numeric_gpu_is_wrapped
    (cache : list Node.t) (clock : Z) (data : list (jsstring * Status.t)) : Prop :=
  forall i server st,
    cache !! i = Some server ->
    Map_get (Map_new data) (Node.uuid server) = Some st ->
    is_number (Status.gpu st) = true ->
    exists e, servers (komariToNezhaWebsocketResponse cache clock data).1 !! i = Some e
              /\ gpu (state e) = [Status.gpu st].

(** The roster part of the view in the order of the cache. *)
Definition roster_in_cache_order
    (cache : list Node.t) (data : list (jsstring * Status.t)) : list Server :=
  map (fun server => rosterServer server (Map_get (Map_new data) (Node.uuid server)))
      cache.
End Order.

(** A runtime for the examples: it reads no string and no object as a
    number, and every boot time is 0. *)
Definition sample_runtime : Runtime :=
  {| StringToNumber := fun _ => None;
     ObjectToNumber := fun _ => None;
     bootTimeOf := fun _ _ => zero |}.

Definition sample_node (uuid : string) (weight : Z) (gpu_name : value) : Node.t :=
  {| Node.uuid := js uuid; Node.name := VStr (js uuid); Node.public_note := VUndefined;
     Node.region := []; Node.weight := VNum (inject_Z weight);
     Node.os := VStr (js "linux"); Node.kernel_version := VUndefined;
     Node.cpu_name := VStr (js "cpu"); Node.gpu_name := gpu_name;
     Node.mem_total := VNum 1024; Node.disk_total := VNum 2048;
     Node.swap_total := VNum 0; Node.arch := VStr (js "amd64") |}.

Definition sample_status (cpu temp gpu : value) : Status.t :=
  {| Status.os := VUndefined; Status.kernel_version := VUndefined;
     Status.cpu_name := VUndefined; Status.gpu_name := VUndefined;
     Status.ram_total := VUndefined; Status.disk_total := VUndefined;
     Status.swap_total := VUndefined; Status.arch := VUndefined;
     Status.time := VStr (js "2025-01-01T00:00:00Z"); Status.uptime := VUndefined;
     Status.cpu := cpu; Status.ram := VUndefined; Status.swap := VUndefined;
     Status.disk := VUndefined; Status.net_total_down := VUndefined;
     Status.net_total_up := VUndefined; Status.net_in := VUndefined;
     Status.net_out := VUndefined; Status.load := VUndefined;
     Status.load5 := VUndefined; Status.load15 := VUndefined;
     Status.connections := VUndefined; Status.connections_udp := VUndefined;
     Status.process := VUndefined; Status.temp := temp; Status.gpu := gpu;
     Status.name := VUndefined; Status.region := [] |}.

End KomariSpec.

(* ===================================================================== *)
(** ** Vocabulary for the properties of the client                        *)
(* ===================================================================== *)

Module RPC2Spec.
Import Js RPC2.

(** The timeout handles of the entries of a correlation table. *)
Definition timeouts_of (pending : Map RpcId PendingRequest) : list nat :=
  omap (fun entry => timeout entry.2) pending.

(** The rejections [clearPendingRequests] makes. *)
Definition rejections (error : Error) (pending : Map RpcId PendingRequest) : list Event :=
  map (fun entry => Settle (WsCall (settles entry.2)) (Rejected error)) pending.

(** What a matching response settles a pending call with; with
    [error: null] it settles nothing. *)
Definition response_outcome (data : JSONRPC2Response) : option Outcome :=
  match data with
  | SuccessResponse _ result => Some (Resolved result)
  | ErrorResponse _ code message => Some (Rejected (ErrRpc code message))
  | NullErrorResponse _ _ => None
  end.

(** The settlement a matching response makes of promise [p]. *)
Definition response_settles (p : nat) (data : JSONRPC2Response) : list Event :=
  match response_outcome data with
  | Some o => [Settle (WsCall p) o]
  | None => []
  end.

(** The counter of reconnects stays within the configured maximum [M]. *)
Definition attempts_bounded (M : Z) (w : World) : Prop :=
  0 <= reconnectAttempts (client w) <= Z.max 0 M
  /\ Options.maxReconnectAttempts (options (client w)) = M.

(** [e] tells the listeners of a reconnect that is scheduled. *)
Definition is_reconnecting (e : Event) : bool :=
  match e with
  | Notify (onReconnecting _) => true
  | _ => false
  end.

(** The input is the [open] event of a socket. *)
Definition is_open (i : Input) : bool :=
  match i with
  | SocketOpens _ => true
  | _ => false
  end.

(** The counter of reconnects has reached the configured maximum. *)
Definition at_maximum (w : World) : Prop :=
  Options.maxReconnectAttempts (options (client w)) <= reconnectAttempts (client w).

(** A step of a client whose counter of reconnects has reached the
    maximum: the counter and the maximum are what they were, no reconnect
    is announced and no reconnect timer is armed. *)
Definition halted (w w' : World) : Prop :=
  at_maximum w'
  /\ reconnectAttempts (client w') = reconnectAttempts (client w)
  /\ Options.maxReconnectAttempts (options (client w'))
     = Options.maxReconnectAttempts (options (client w))
  /\ (exists evs, trace w' = trace w ++ evs
                  /\ forallb (fun e => negb (is_reconnecting e)) evs = true)
  /\ (forall t tm, timers w' !! t = Some tm -> action tm = Reconnect ->
        timers w !! t = Some tm).

(** The ids in flight are numbers from 1 to the last id handed out, each at
    most once. *)
Definition ids_wf_at (rid : Z) (pending : Map RpcId PendingRequest) : Prop :=
  0 <= rid
  /\ NoDup (map fst pending)
  /\ forall i, i ∈ map fst pending -> exists n, i = IdNum n /\ 1 <= n <= rid.

Definition ids_wf (w : World) : Prop :=
  ids_wf_at (requestId (client w)) (pendingRequests (client w)).

(** [e] is an invocation of [resolve] or [reject] of promise [p] of
    [callViaWebSocket]. *)
Definition settles_ws (p : nat) (e : Event) : bool :=
  match e with
  | Settle (WsCall p') _ => bool_decide (p' = p)
  | _ => false
  end.

(** How often the promise was settled in a trace. *)
Definition settlements (p : nat) (tr : list Event) : nat :=
  length (List.filter (settles_ws p) tr).

(** The call was refused for want of an open socket: it was not sent. *)
Definition refused (p : nat) (tr : list Event) : Prop :=
  Settle (WsCall p) (Rejected (Err WS_NOT_CONNECTED)) ∈ tr.


(** [e] settles some promise of [callViaWebSocket]. *)
Definition is_ws_settle (e : Event) : bool :=
  match e with
  | Settle (WsCall _) _ => true
  | _ => false
  end.

(** Timer [t] is armed with the timeout of the request [i] of promise
    [p]. *)
Definition request_timer (w : World) (t : nat) (i : RpcId) (p : nat) : Prop :=
  exists method ms,
    timers w !! t = Some {| action := RequestTimeout i p method; delay := ms |}.

Definition is_request_timer (tm : Timer) : bool :=
  match action tm with
  | RequestTimeout _ _ _ => true
  | _ => false
  end.

(** What holds of the correlation table, the timeouts and the settlements
    in every world a client can reach. *)
Record once_inv (w : World) : Prop := {
  once_keys : NoDup (map fst (pendingRequests (client w)));
  once_entry : forall i entry,
    (i, entry) ∈ pendingRequests (client w) ->
    (settles entry < nextPromise w)%nat
    /\ (~ refused (settles entry) (trace w) -> settlements (settles entry) (trace w) = 0%nat)
    /\ (forall i2 entry2, (i2, entry2) ∈ pendingRequests (client w) ->
          settles entry2 = settles entry -> i2 = i)
    /\ (forall t i', request_timer w t i' (settles entry) ->
          i' = i /\ timeout entry = Some t);
  once_timer : forall t i p,
    request_timer w t i p ->
    (p < nextPromise w)%nat
    /\ (~ refused p (trace w) -> settlements p (trace w) = 0%nat)
    /\ (forall t' i', request_timer w t' i' p -> t' = t);
  once_settled : forall p, ~ refused p (trace w) -> (settlements p (trace w) <= 1)%nat;
  once_fresh : forall p, (nextPromise w <= p)%nat -> settlements p (trace w) = 0%nat;
}.

(** A step that leaves the table alone, arms no timeout of a request and
    settles no promise of [callViaWebSocket]. *)
Definition frames (w w' : World) : Prop :=
  pendingRequests (client w') = pendingRequests (client w)
  /\ (nextPromise w <= nextPromise w')%nat
  /\ (forall t tm, timers w' !! t = Some tm -> is_request_timer tm = true ->
        timers w !! t = Some tm)
  /\ exists evs, trace w' = trace w ++ evs /\ forallb (fun e => negb (is_ws_settle e)) evs = true.



(** *** What a trace says of a call

    The projections of a trace that concern the call [q], a promise [p] of
    [callViaWebSocket] or a promise [h] of [callViaHTTP]. *)

Definition attempt_for (q : nat) (e : Event) : option Path :=
  match e with
  | Attempt path _ (Some q') => if decide (q' = q) then Some path else None
  | _ => None
  end.

(** The paths attempted for the call [q], in order. *)
Definition attempts_for (q : nat) (tr : list Event) : list Path := omap (attempt_for q) tr.

Definition issue_of (q : nat) (e : Event) : option RPC2ConnectionState :=
  match e with
  | Issued q' st => if decide (q' = q) then Some st else None
  | _ => None
  end.

(** The connection states the call [q] was issued in. *)
Definition issued (q : nat) (tr : list Event) : list RPC2ConnectionState :=
  omap (issue_of q) tr.

Definition final_of (q : nat) (e : Event) : option Outcome :=
  match e with
  | Settle (Call q') o => if decide (q' = q) then Some o else None
  | _ => None
  end.

(** The outcomes the promise of the call [q] was settled with. *)
Definition finals (q : nat) (tr : list Event) : list Outcome := omap (final_of q) tr.

Definition ws_outcome (p : nat) (e : Event) : option Outcome :=
  match e with
  | Settle (WsCall p') o => if decide (p' = p) then Some o else None
  | _ => None
  end.

Definition ws_outcomes (p : nat) (tr : list Event) : list Outcome := omap (ws_outcome p) tr.

(** The outcome of the promise [p], which is its first settlement. *)
Definition first_settle (p : nat) (tr : list Event) : option Outcome :=
  head (ws_outcomes p tr).

Definition http_outcome (h : nat) (e : Event) : option Outcome :=
  match e with
  | Settle (HttpCall h') o => if decide (h' = h) then Some o else None
  | _ => None
  end.

Definition http_outcomes (h : nat) (tr : list Event) : list Outcome :=
  omap (http_outcome h) tr.

(** The call a microtask belongs to. *)
Definition job_call (j : Job) : option nat :=
  match j with
  | Fallback ctx _ => Some (outer ctx)
  | Adopt q _ => Some q
  | ConnectCatch _ _ => None
  end.

Definition jobs_for (q : nat) (jobs : list Job) : list Job :=
  filter (fun j => job_call j = Some q) jobs.

(** An event that concerns no call and settles no promise of a path. *)
Definition neutral (e : Event) : bool :=
  match e with
  | Issued _ _ => false
  | Attempt _ _ (Some _) => false
  | Settle (Connect _) _ => true
  | Settle _ _ => false
  | _ => true
  end.

(** Where a call is on its way. *)
Inductive Phase :=
| PUnborn
| PAwaitWs (p : nat)
| PWsSettled (p : nat) (ctx : CallCtx) (o : Outcome)
| PAwaitHttp (via : option nat) (h x : nat)
| PHttpSettled (via : option nat) (h : nat) (o : Outcome)
| PDoneWs (p : nat) (v : value)
| PDoneHttp (via : option nat) (h : nat) (o : Outcome).

(** The call was issued while connected and its only attempt so far is the
    one by socket, with promise [p]. *)
Definition on_ws (q p : nat) (tr : list Event) : Prop :=
  issued q tr = [CONNECTED]
  /\ attempts_for q tr = [ViaWebSocket]
  /\ Attempt ViaWebSocket (WsCall p) (Some q) ∈ tr.

(** How the call came to its attempt by HTTP, with promise [h]: at once,
    issued while not connected, or after the attempt by socket with promise
    [p] was rejected. *)
Definition came_by (via : option nat) (q h : nat) (tr : list Event) : Prop :=
  Attempt ViaHTTP (HttpCall h) (Some q) ∈ tr
  /\ match via with
     | None =>
         (exists st, issued q tr = [st] /\ st <> CONNECTED)
         /\ attempts_for q tr = [ViaHTTP]
     | Some p =>
         issued q tr = [CONNECTED]
         /\ attempts_for q tr = [ViaWebSocket; ViaHTTP]
         /\ Attempt ViaWebSocket (WsCall p) (Some q) ∈ tr
         /\ exists e, first_settle p tr = Some (Rejected e)
     end.

Definition phase_trace (q : nat) (ph : Phase) (tr : list Event) : Prop :=
  match ph with
  | PUnborn => issued q tr = [] /\ attempts_for q tr = [] /\ finals q tr = []
  | PAwaitWs p => on_ws q p tr /\ ws_outcomes p tr = [] /\ finals q tr = []
  | PWsSettled p ctx o =>
      on_ws q p tr /\ outer ctx = q /\ first_settle p tr = Some o /\ finals q tr = []
  | PAwaitHttp via h x => came_by via q h tr /\ http_outcomes h tr = [] /\ finals q tr = []
  | PHttpSettled via h o => came_by via q h tr /\ http_outcomes h tr = [o] /\ finals q tr = []
  | PDoneWs p v =>
      on_ws q p tr /\ first_settle p tr = Some (Resolved v) /\ finals q tr = [Resolved v]
  | PDoneHttp via h o => came_by via q h tr /\ http_outcomes h tr = [o] /\ finals q tr = [o]
  end.

Definition phase_fallbacks (q : nat) (ph : Phase) (fbs : gmap nat CallCtx) : Prop :=
  match ph with
  | PAwaitWs p =>
      (exists ctx, fbs !! p = Some ctx /\ outer ctx = q)
      /\ forall p' ctx', fbs !! p' = Some ctx' -> outer ctx' = q -> p' = p
  | _ => forall p' ctx', fbs !! p' = Some ctx' -> outer ctx' <> q
  end.

Definition phase_jobs (q : nat) (ph : Phase) : list Job :=
  match ph with
  | PWsSettled _ ctx o => [Fallback ctx o]
  | PHttpSettled _ _ o => [Adopt q o]
  | _ => []
  end.

Definition phase_exchanges (q : nat) (ph : Phase) (exs : gmap nat Exchange) : Prop :=
  match ph with
  | PAwaitHttp _ h x =>
      (exists ex, exs !! x = Some ex /\ x_adopt ex = Some q /\ x_promise ex = h)
      /\ forall x' ex', exs !! x' = Some ex' -> x_adopt ex' = Some q -> x' = x
  | _ => forall x' ex', exs !! x' = Some ex' -> x_adopt ex' <> Some q
  end.

Definition phase_holds (w : World) (q : nat) (ph : Phase) : Prop :=
  phase_trace q ph (trace w)
  /\ phase_fallbacks q ph (fallbacks w)
  /\ jobs_for q (microtasks w) = phase_jobs q ph
  /\ phase_exchanges q ph (exchanges w).

(** What holds of the calls in every world a client can reach. *)
Record call_inv (w : World) : Prop := {
  ci_phase : forall q, exists ph, phase_holds w q ph;
  ci_fresh : forall n, (nextPromise w <= n)%nat ->
    phase_holds w n PUnborn
    /\ ws_outcomes n (trace w) = []
    /\ http_outcomes n (trace w) = []
    /\ fallbacks w !! n = None;
  ci_exchange : forall x ex, exchanges w !! x = Some ex ->
    (x < nextExchange w)%nat
    /\ (x_promise ex < nextPromise w)%nat
    /\ http_outcomes (x_promise ex) (trace w) = []
    /\ forall x' ex', exchanges w !! x' = Some ex' -> x_promise ex' = x_promise ex -> x' = x;
}.

(** The promise of [callViaHTTP] a phase speaks of. *)
Definition phase_http (ph : Phase) : option nat :=
  match ph with
  | PAwaitHttp _ h _ | PHttpSettled _ h _ | PDoneHttp _ h _ => Some h
  | _ => None
  end.

(** A step that concerns no call: no reaction, exchange or microtask of a
    call is touched and the events are neutral. *)
Definition quiet (w w' : World) : Prop :=
  fallbacks w' = fallbacks w
  /\ exchanges w' = exchanges w
  /\ (forall q, jobs_for q (microtasks w') = jobs_for q (microtasks w))
  /\ (nextPromise w <= nextPromise w')%nat
  /\ nextExchange w' = nextExchange w
  /\ exists evs, trace w' = trace w ++ evs /\ forallb neutral evs = true.

(** Every [fetch] in flight has a promise of its own, not settled yet. *)
Definition exchanges_wf (w : World) : Prop :=
  forall x ex, exchanges w !! x = Some ex ->
    (x < nextExchange w)%nat
    /\ (x_promise ex < nextPromise w)%nat
    /\ http_outcomes (x_promise ex) (trace w) = []
    /\ forall x' ex', exchanges w !! x' = Some ex' -> x_promise ex' = x_promise ex -> x' = x.



End RPC2Spec.

(* ===================================================================== *)
(** ** The other helpers of [src/lib/utils.ts]                            *)
(* ===================================================================== *)

Module Utils.
Import Js.

(** What the helpers leave to the platform. *)
Class Platform := {
  (** [JSON.parse(text)]; [None] when it throws. *)
  JSON_parse : jsstring -> option value;
  (** [new Date(text).getTime()]; [None] is [NaN], the time of an invalid
      date. *)
  Date_getTime : jsstring -> option Z;
  (** [dayjs(t).add(months, "month").valueOf()] *)
  dayjs_add_months : Z -> Z -> Z;
}.

(** The text of an integral number in a template literal. *)
Definition numberToString (n : Z) : jsstring := js (pretty n).

(** [formatRelativeTime(timestamp)]; [clock] is [Date.now()].  The times
    are whole milliseconds, [Math.floor(a / b)] is [a / b] and [a % b] is
    [Z.rem a b]: the doubles of the source count exactly as long as the
    difference of the two times is at most 2^53 in size. *)
Definition formatRelativeTime (clock timestamp : Z) : jsstring :=
  let diff := clock - timestamp in
  let hours := diff / (1000 * 60 * 60) in
  let minutes := Z.rem diff (1000 * 60 * 60) / (1000 * 60) in
  let seconds := Z.rem diff (1000 * 60) / 1000 in
  if 24 <? hours then
    let days := hours / 24 in
    numberToString days ++ js "d"
  else if 0 <? hours then numberToString hours ++ js "h"
  else if 0 <? minutes then numberToString minutes ++ js "m"
  else if 0 <=? seconds then numberToString seconds ++ js "s"
  else js "0s".

(** [Math.round(n / d)] for a whole [n] and a positive whole [d]: the
    nearest integer, the upper one of two that are equally near. *)
Definition Math_round_div (n d : Z) : Z := (2 * n + d) / (2 * d).

(** Reading a property that no primitive and no array has, of a value that
    is neither [null] nor [undefined]. *)
Definition prop (v : value) (k : string) : value :=
  match v with
  | VObj fields => default VUndefined (Map_get fields (js k))
  | _ => VUndefined
  end.

Record BillingData := {
  startDate : value; endDate : value; autoRenewal : value; cycle : value; amount : value;
}.

Record PlanData := {
  bandwidth : value; trafficVol : value; trafficType : value;
  IPv4 : value; IPv6 : value; networkRoute : value; extra : value;
}.

Record PublicNoteData := {
  billingDataMod : option BillingData;
  planDataMod : option PlanData;
}.

Definition emptyString : value := VStr [].

(** The object built from [data.billingDataMod] (lines 261-267 and
    285-291). *)
Definition billingOf (b : value) : BillingData := {|
  startDate := or_else (prop b "startDate") emptyString;
  endDate := prop b "endDate";
  autoRenewal := or_else (prop b "autoRenewal") emptyString;
  cycle := or_else (prop b "cycle") emptyString;
  amount := or_else (prop b "amount") emptyString;
|}.

(** The object built from [data.planDataMod] (lines 272-280 and 292-300). *)
Definition planOf (p : value) : PlanData := {|
  bandwidth := or_else (prop p "bandwidth") emptyString;
  trafficVol := or_else (prop p "trafficVol") emptyString;
  trafficType := or_else (prop p "trafficType") emptyString;
  IPv4 := or_else (prop p "IPv4") emptyString;
  IPv6 := or_else (prop p "IPv6") emptyString;
  networkRoute := or_else (prop p "networkRoute") emptyString;
  extra := or_else (prop p "extra") emptyString;
|}.

Section WithPlatform.
Context `{PF : Platform}.

(** [parsePublicNote]; [None] is [null].  Whatever is thrown inside, by
    [JSON.parse] or by reading a property of [null], is caught and gives
    [null]. *)
Definition parsePublicNote (publicNote : jsstring) : option PublicNoteData :=
  match publicNote with
  | [] => None
  | _ =>
      match JSON_parse publicNote with
      | None => None
      | Some VNull | Some VUndefined => None
      | Some data =>
          let b := prop data "billingDataMod" in
          let p := prop data "planDataMod" in
          if negb (truthy b) && negb (truthy p) then None
          else if truthy b && negb (truthy p) then
            Some {| billingDataMod := Some (billingOf b); planDataMod := None |}
          else if negb (truthy b) && truthy p then
            Some {| billingDataMod := None; planDataMod := Some (planOf p) |}
          else
            Some {| billingDataMod := Some (billingOf b); planDataMod := Some (planOf p) |}
      end
  end.

(** [getDaysBetweenDates]; [None] is [NaN].  The quotient of the source is
    a double; it rounds as the exact quotient does as long as the two
    times are less than 2^26 days apart. *)
Definition getDaysBetweenDates (date1 date2 : jsstring) : option Z :=
  let oneDay := 24 * 60 * 60 * 1000 in
  match Date_getTime date1, Date_getTime date2 with
  | Some firstDate, Some secondDate => Some (Math_round_div (firstDate - secondDate) oneDay)
  | _, _ => None
  end.

(** The loop of [getNextCycleTime]: a cycle is added until the date is
    later than the one to check. *)
Fixpoint nextCycle (fuel : nat) (months checkDate nextDate : Z) : option Z :=
  match fuel with
  | O => None
  | S fuel' =>
      let nextDate := dayjs_add_months nextDate months in
      if nextDate <=? checkDate then nextCycle fuel' months checkDate nextDate
      else Some nextDate
  end.

(** A time that [Date] can hold: [dayjs(t).isValid()]. *)
Definition validTime (t : Z) : bool := Z.abs t <=? 8640000000000000.

Inductive Raised := InvalidArguments.

(** [getNextCycleTime]; [None] when the loop is still running after [fuel]
    rounds. *)
Definition getNextCycleTime (fuel : nat) (startDate months specifiedDate : Z)
  : option (Raised + Z) :=
  if negb (validTime startDate) || (months <=? 0) then Some (inl InvalidArguments)
  else inr <$> nextCycle fuel months specifiedDate startDate.

(** [parseISOTimestamp] *)
Definition parseISOTimestamp (isoString : jsstring) : option Z := Date_getTime isoString.

(** The [lastActiveTime] of [formatNezhaInfo] (line 12).  The outer [None]
    is the [TypeError] of calling [startsWith] on what is no string, the
    inner one is [NaN]. *)
Definition lastActiveTime (last_active : value) : option (option Z) :=
  match last_active with
  | VStr s => Some (if startsWith s (js "000") then Some 0 else parseISOTimestamp s)
  | _ => None
  end.

(** The field [online] of [formatNezhaInfo] (line 21):
    [now - lastActiveTime <= 30000], false for [NaN]. *)
Definition online (now : Z) (last_active : value) : option bool :=
  match lastActiveTime last_active with
  | Some (Some t) => Some (now - t <=? 30000)
  | Some None => Some false
  | None => None
  end.

End WithPlatform.

Definition storageKey (serverId : Z) : jsstring :=
  js "server_" ++ numberToString serverId ++ js "_public_note".

(** [handlePublicNote]: the note and the storage it leaves.
    [sessionStorage] holds text under text. *)
Definition handlePublicNote (serverId : Z) (publicNote : jsstring)
    (sessionStorage : gmap jsstring jsstring)
  : jsstring * gmap jsstring jsstring :=
  let key := storageKey serverId in
  let storedNote := sessionStorage !! key in
  match publicNote, storedNote with
  | [], Some (c :: note) => (c :: note, sessionStorage)
  | [], _ => (js "", sessionStorage)
  | _, _ => (publicNote, <[key := publicNote]> sessionStorage)
  end.

End Utils.

Module UtilsSpec.
Import Js Utils.

(** A value that a default has gone over: the empty text or truthy. *)
Definition defaulted (v : value) : Prop := v = emptyString \/ truthy v = true.

(** [field] is what the note says, [noted], if that is truthy, and the
    empty text if it is not. *)
Definition kept_or_empty (noted field : value) : Prop :=
  (truthy noted = true -> field = noted)
  /\ (truthy noted = false -> field = emptyString).

(** [n] cycles after [t]. *)
Fixpoint cycles `{PF : Platform} (n : nat) (months t : Z) : Z :=
  match n with
  | O => t
  | S n' => dayjs_add_months (cycles n' months t) months
  end.

(** A platform whose months have thirty days and that reads two dates, for
    examples. *)
Definition sample_platform : Platform := {|
  JSON_parse := fun _ => None;
  Date_getTime := fun text =>
    if bool_decide (text = js "1970-01-01T00:00:00.000Z") then Some 0
    else if bool_decide (text = js "1970-01-02T12:00:00.000Z") then Some 129600000
    else None;
  dayjs_add_months := fun t months => t + months * 2592000000;
|}.

End UtilsSpec.

(* ===================================================================== *)
(** ** What [uuidToNumber] and [countryFlagToCode] are compared with     *)
(* ===================================================================== *)

Module KomariHelpersSpec.
Import Js Komari.

(** The running hash of [uuidToNumber], before [>>> 0]. *)
Definition uuidHash (uuid : jsstring) : Z :=
  fold_left (fun hash charCode => charCode + (shl hash 5 - hash)) uuid 0.

(** The polynomial [c0 * 31^(n-1) + ... + c(n-1)] of the code units. *)
Definition polyHash (uuid : jsstring) : Z :=
  fold_left (fun h c => 31 * h + c) uuid 0.

(** The flag of a country code in capital letters: one regional indicator
    symbol, U+1F1E6 to U+1F1FF, for each letter, as UTF-16 surrogate pairs. *)
Definition regionalIndicators (code : jsstring) : jsstring :=
  flat_map (fun c => [55356; 56741 + c]) code.

(** [String.prototype.toLowerCase] on capital ASCII letters. *)
Definition lowerAscii (code : jsstring) : jsstring := map (fun c => c + 32) code.

End KomariHelpersSpec.

(* ===================================================================== *)
(** ** The timers of the transport client                                 *)
(* ===================================================================== *)

Module RPC2Timers.
Import Js RPC2 RPC2Spec.

(** The part of a world the timers and their handles live in. *)
Definition timer_view (w : World) :=
  (timers w, nextTimer w, opening w,
   (heartbeatInterval (client w), reconnectTimeout (client w), pendingRequests (client w)),
   (Options.enableHeartbeat (options (client w)),
    Options.heartbeatInterval (options (client w)))).

(** Every handle the client holds is one the browser gave out, and the
    timer under it, as long as it is armed, is of the kind the handle was
    taken for; the only heartbeat that is armed is the one the client holds;
    and every request in the table has its timeout armed. *)
Record timers_inv (w : World) : Prop := {
  ti_bound : forall t tm, timers w !! t = Some tm -> (t < nextTimer w)%nat;
  ti_heartbeat : forall hb tm,
    heartbeatInterval (client w) = Some hb -> timers w !! hb = Some tm ->
    action tm = Heartbeat;
  ti_reconnect : forall rt tm,
    reconnectTimeout (client w) = Some rt -> timers w !! rt = Some tm ->
    action tm = Reconnect;
  ti_opening : forall s c t tm,
    opening w !! s = Some (c, t) -> timers w !! t = Some tm ->
    action tm = ConnectTimeout s;
  ti_handles :
    (forall hb, heartbeatInterval (client w) = Some hb -> (hb < nextTimer w)%nat)
    /\ (forall rt, reconnectTimeout (client w) = Some rt -> (rt < nextTimer w)%nat)
    /\ (forall s c t, opening w !! s = Some (c, t) -> (t < nextTimer w)%nat);
  ti_beat : forall t tm,
    timers w !! t = Some tm -> action tm = Heartbeat ->
    heartbeatInterval (client w) = Some t
    /\ Options.enableHeartbeat (options (client w)) = true
    /\ delay tm = Options.heartbeatInterval (options (client w));
  ti_pending : forall i entry,
    (i, entry) ∈ pendingRequests (client w) ->
    exists t method ms,
      timeout entry = Some t
      /\ timers w !! t
         = Some {| action := RequestTimeout i (settles entry) method; delay := ms |};
}.

End RPC2Timers.

(* ===================================================================== *)
(** ** What the transport client puts on the wire, and what it does after
       [disconnect]                                                      *)
(* ===================================================================== *)

Module RPC2Wire.
Import Js RPC2 RPC2Spec.

(** The id of a request that goes out, by socket or by HTTP. *)
Definition wire_id (e : Event) : option Z :=
  match e with
  | Send _ request | Fetch _ request _ =>
      match id request with
      | IdNum n => Some n
      | _ => None
      end
  | _ => None
  end.

(** The ids of the requests of a trace, in the order they went out. *)
Definition wire_ids (tr : list Event) : list Z := omap wire_id tr.

(** As long as a double counts the ids exactly, the ids that went out are
    increasing and none is above the last id handed out. *)
Definition wire_inv (w : World) : Prop :=
  0 <= requestId (client w)
  /\ (requestId (client w) < 2 ^ 53 ->
      StronglySorted Z.lt (wire_ids (trace w))
      /\ Forall (fun n => 1 <= n <= requestId (client w)) (wire_ids (trace w))).

(** A step that hands out no id and sends no request with one, or hands
    out one id and sends at most the request that carries it. *)
Definition wire_step (w w' : World) : Prop :=
  exists evs,
    trace w' = trace w ++ evs
    /\ ((requestId (client w') = requestId (client w) /\ wire_ids evs = [])
        \/ (requestId (client w') = js_incr (requestId (client w))
            /\ (wire_ids evs = [] \/ wire_ids evs = [requestId (client w')]))).

(** A step of a client that does not reconnect by itself: [autoReconnect]
    stays off, no reconnect is announced and no reconnect timer is armed. *)
Definition calm (w w' : World) : Prop :=
  Options.autoReconnect (options (client w')) = false
  /\ (exists evs, trace w' = trace w ++ evs /\ forallb (fun e => negb (is_reconnecting e)) evs = true)
  /\ (forall t tm, timers w' !! t = Some tm -> action tm = Reconnect ->
        timers w !! t = Some tm).

End RPC2Wire.

(* ===================================================================== *)
(** ** [batchCall]                                                        *)
(* ===================================================================== *)

Module RPC2Batch.
Import Js RPC2 RPC2Spec.

(** One request of a batch, as [batchCall] is given it. *)
Record BatchItem := { b_method : jsstring; b_params : value; b_notification : bool }.

(** The batch request, [requests.map(req => ...)]: every request that is
    no notification takes the next id, in the order of the batch. *)
Fixpoint batchRequest (requests : list BatchItem) (w : World)
  : list JSONRPC2Request * World :=
  match requests with
  | [] => ([], w)
  | req :: rest =>
      let '(i, w) :=
        if b_notification req then (IdAbsent, w)
        else let '(n, w) := generateRequestId w in (IdNum n, w) in
      let '(batch, w) := batchRequest rest w in
      ({| method := b_method req; params := b_params req; id := i |} :: batch, w)
  end.

(** What [response.json()] gives for a batch: an array of responses, or
    something that is thrown, by [json()] itself or by [jsonResponse.map]
    when the body is no array. *)
Inductive BatchBody := JsonBatch (responses : list JSONRPC2Response) | NotBatch (why : Error).

Inductive BatchReply :=
| BatchFetchRejects (why : Thrown)
| BatchResponds (ok : bool) (status : Z) (statusText : jsstring) (body : BatchBody).

(** "批量请求失败" *)
Definition BATCH_FAILED : jsstring := [25209; 37327; 35831; 27714; 22833; 36133].

(** [jsonResponse.map(res => ...)]: the results in the order of the
    responses, or what the first response with an [error] member makes it
    throw: the error built from the member, or the [TypeError] of the read
    of [res.error.code] when the member is [null]. *)
Fixpoint batchResults (responses : list JSONRPC2Response) : Error + list value :=
  match responses with
  | [] => inr []
  | ErrorResponse _ code message :: _ => inl (ErrRpc code message)
  | NullErrorResponse _ _ :: _ => inl ErrType
  | SuccessResponse _ result :: rest =>
      match batchResults rest with
      | inl e => inl e
      | inr results => inr (result :: results)
      end
  end.

(** The rest of [batchCall], from the answer of [fetch]. *)
Definition batchCall_result (reply : BatchReply) : Outcome :=
  match reply with
  | BatchFetchRejects (ThrownError e) => Rejected e
  | BatchFetchRejects ThrownOther => Rejected (Err BATCH_FAILED)
  | BatchResponds ok status statusText body =>
      if negb ok then Rejected (ErrHttp status statusText)
      else match body with
           | NotBatch e => Rejected e
           | JsonBatch responses =>
               match batchResults responses with
               | inl e => Rejected e
               | inr results => Resolved (VArr results)
               end
           end
  end.

(** The requests of a batch that expect a response. *)
Definition correlated (requests : list BatchItem) : list BatchItem :=
  filter (fun req => b_notification req = false) requests.

(** The numeric ids of a batch request, in order. *)
Definition batch_ids (batch : list JSONRPC2Request) : list Z :=
  omap (fun request => match id request with IdNum n => Some n | _ => None end) batch.

(** ["error" in res] *)
Definition is_error (data : JSONRPC2Response) : bool :=
  match data with
  | ErrorResponse _ _ _ | NullErrorResponse _ _ => true
  | SuccessResponse _ _ => false
  end.

(** [res.result] *)
Definition result_of (data : JSONRPC2Response) : value :=
  match data with
  | SuccessResponse _ result | NullErrorResponse _ result => result
  | ErrorResponse _ _ _ => VUndefined
  end.

End RPC2Batch.

(* ===================================================================== *)
(** ** The promise of [connect]                                           *)
(* ===================================================================== *)

Module RPC2Connect.
Import Js RPC2 RPC2Spec.

Definition connect_outcome (c : nat) (e : Event) : option Outcome :=
  match e with
  | Settle (Connect c') o => if decide (c' = c) then Some o else None
  | _ => None
  end.

(** The outcomes the promise [c] of [connect] was settled with. *)
Definition connect_outcomes (c : nat) (tr : list Event) : list Outcome :=
  omap (connect_outcome c) tr.

Definition catch_of (c : nat) (j : Job) : option Error :=
  match j with
  | ConnectCatch c' e => if decide (c' = c) then Some e else None
  | _ => None
  end.

(** The errors the [catch] of the [connect] with promise [c] is waiting to
    run with. *)
Definition catches (c : nat) (jobs : list Job) : list Error := omap (catch_of c) jobs.

(** The timer of the promise executor of [connect], for the socket [s]. *)
Definition connect_timer (s : nat) : Timer :=
  {| action := ConnectTimeout s; delay := 10000 |}.

(** The two errors the executor rejects with. *)
Definition connect_error (e : Error) : Prop :=
  e = Err WS_CONNECT_FAILED \/ e = Err WS_CONNECT_TIMEOUT.

Definition not_waiting (w : World) (c : nat) : Prop :=
  forall s t, opening w !! s <> Some (c, t).

(** Where a [connect] is on its way: not entered; waiting for the socket
    [s], with the timer [t]; rejected by the executor, its [catch] not run
    yet; settled. *)
Inductive ConnectStatus :=
| Unborn
| Waiting (s t : nat)
| Failing (e : Error)
| Settled (o : Outcome).

Definition begun (st : ConnectStatus) : bool :=
  match st with
  | Unborn => false
  | _ => true
  end.

Definition status_holds (w : World) (c : nat) (st : ConnectStatus) : Prop :=
  match st with
  | Unborn =>
      not_waiting w c
      /\ catches c (microtasks w) = []
      /\ connect_outcomes c (trace w) = []
  | Waiting s t =>
      opening w !! s = Some (c, t)
      /\ (forall s' t', opening w !! s' = Some (c, t') -> s' = s)
      /\ timers w !! t = Some (connect_timer s)
      /\ catches c (microtasks w) = []
      /\ connect_outcomes c (trace w) = []
  | Failing e =>
      not_waiting w c
      /\ catches c (microtasks w) = [e]
      /\ connect_outcomes c (trace w) = []
      /\ connect_error e
  | Settled o =>
      not_waiting w c
      /\ catches c (microtasks w) = []
      /\ connect_outcomes c (trace w) = [o]
      /\ (o = Resolved VUndefined \/ exists e, o = Rejected e /\ connect_error e)
  end.

(** What holds of the promises of [connect] in every world a client can
    reach. *)
Record conn_inv (w : World) : Prop := {
  cn_status : forall c, exists st, status_holds w c st;
  cn_fresh : forall c, (nextPromise w <= c)%nat -> status_holds w c Unborn;
  cn_opening : forall s c t, opening w !! s = Some (c, t) ->
    (s < nextSocket w)%nat /\ (t < nextTimer w)%nat;
}.

(** A step after which every [connect] has a status again, and one that
    was entered still counts as entered. *)
Definition evolves (w w' : World) : Prop :=
  conn_inv w'
  /\ forall c st, status_holds w c st ->
       exists st', status_holds w' c st' /\ (begun st = true -> begun st' = true).

(** A step that concerns no [connect]. *)
Definition cstep (w w' : World) : Prop :=
  nextSocket w' = nextSocket w
  /\ (nextPromise w <= nextPromise w')%nat
  /\ (nextTimer w <= nextTimer w')%nat
  /\ opening w' = opening w
  /\ (forall s c t, opening w !! s = Some (c, t) -> timers w' !! t = timers w !! t)
  /\ (forall c, catches c (microtasks w') = catches c (microtasks w))
  /\ (forall c, connect_outcomes c (trace w') = connect_outcomes c (trace w)).

(** A step that concerns no [connect] but the one with promise [c0]. *)
Definition cstep_but (c0 : nat) (w w' : World) : Prop :=
  (forall s c t, c <> c0 -> opening w' !! s = Some (c, t) <-> opening w !! s = Some (c, t))
  /\ (forall s c t, c <> c0 -> opening w !! s = Some (c, t) -> timers w' !! t = timers w !! t)
  /\ (forall c, c <> c0 -> catches c (microtasks w') = catches c (microtasks w))
  /\ (forall c, c <> c0 -> connect_outcomes c (trace w') = connect_outcomes c (trace w)).

(** The handle [t] is the timer of no [connect] that waits. *)
Definition frees (w : World) (t : nat) : Prop :=
  forall s c, opening w !! s <> Some (c, t).

(** The timers of the connects that wait were given out. *)
Definition handles_bound (w : World) : Prop :=
  forall s c t, opening w !! s = Some (c, t) -> (t < nextTimer w)%nat.

End RPC2Connect.

(* ===================================================================== *)
(** ** The server groups ([fetchServerGroup])                             *)
(* ===================================================================== *)

Module NezhaApi.
Import Js Komari Utils.

(** [Object.entries(v)], the properties of an object in the order it lists
    them; [None] is the [TypeError] of [null] and [undefined]. *)
Definition Object_entries (v : value) : option (list (jsstring * value)) :=
  match v with
  | VUndefined | VNull => None
  | VBool _ | VNum _ => Some []
  | VStr s => Some (imap (fun i c => (numberToString (Z.of_nat i), VStr [c])) s)
  | VArr items => Some (imap (fun i x => (numberToString (Z.of_nat i), x)) items)
  | VObj fields => Some fields
  end.

(** [v.k]; [None] is the [TypeError] of reading a property of [null] or
    [undefined]. *)
Definition member (v : value) (k : string) : option value :=
  match v with
  | VUndefined | VNull => None
  | _ => Some (prop v k)
  end.

(** [v?.k] *)
Definition optional_member (v : value) (k : string) : value :=
  match v with
  | VUndefined | VNull => VUndefined
  | _ => prop v k
  end.

(** [a === b] of two values of a parsed JSON text, which holds no [NaN];
    [same] tells whether [a] and [b] are one and the same object. *)
Definition strict_equal (same : bool) (a b : value) : bool :=
  match a, b with
  | VUndefined, VUndefined | VNull, VNull => true
  | VBool x, VBool y => eqb x y
  | VNum x, VNum y => Qeq_bool x y
  | VStr x, VStr y => bool_decide (x = y)
  | VArr _, VArr _ | VObj _, VObj _ => same
  | _, _ => false
  end.

(** The entries with their positions. *)
Fixpoint indexed_from {A : Type} (n : nat) (l : list A) : list (nat * A) :=
  match l with
  | [] => []
  | x :: l' => (n, x) :: indexed_from (S n) l'
  end.

Definition indexed {A : Type} (l : list A) : list (nat * A) := indexed_from 0 l.

(** A [group] member with the position of the entry it was read from: two
    of them are one object exactly when they were read from one entry. *)
Definition GroupRef : Type := nat * value.

Definition group_of (entry : nat * (jsstring * value)) : GroupRef :=
  (entry.1, prop entry.2.2 "group").

Definition same_group (a b : GroupRef) : bool :=
  strict_equal (bool_decide (a.1 = b.1)) a.2 b.2.

(** The callback of the [forEach] (lines 18-22); [None] when it throws. *)
Definition collect (groups : list GroupRef) (entry : nat * (jsstring * value))
  : option (list GroupRef) :=
  match member entry.2.2 "group" with
  | None => None
  | Some g =>
      if truthy g && negb (existsb (same_group (entry.1, g)) groups)
      then Some (groups ++ [(entry.1, g)])
      else Some groups
  end.

(** The [forEach] that extracts the groups; it stops where its callback
    throws. *)
Fixpoint extractGroups (groups : list GroupRef) (entries : list (nat * (jsstring * value)))
  : option (list GroupRef) :=
  match entries with
  | [] => Some groups
  | entry :: entries' =>
      match collect groups entry with
      | None => None
      | Some groups' => extractGroups groups' entries'
      end
  end.

Record Group := {
  id : nat;
  created_at : jsstring;
  updated_at : jsstring;
  name : value;
}.

Record ServerGroup := { group : Group; servers : list Z }.

Record ServerGroupResponse := { success : bool; data : list ServerGroup }.

(** The [servers] of a group (lines 33-35).  Every value has been read by
    the [forEach] before, so none is [null] or [undefined] here. *)
Definition serversOf (entries : list (jsstring * value)) (g : GroupRef) : list Z :=
  map (fun entry => uuidToNumber entry.2.1)
      (filter (fun entry => same_group (group_of entry) g = true) (indexed entries)).

Inductive Answer :=
| Returns (response : ServerGroupResponse)
| ThrowsError (message : value)      (* [throw new Error(kmNodes.error)] *)
| ThrowsTypeError.

(** [fetchServerGroup], from the answer [kmNodes] of the call
    "common:getNodes" on.  [stamp n] is what the [n]-th
    [DateTime.now().toISO() || ""] gives. *)
Definition fetchServerGroup (stamp : nat -> jsstring) (kmNodes : value) : Answer :=
  if truthy (optional_member kmNodes "error")
  then ThrowsError (optional_member kmNodes "error")
  else
    match Object_entries kmNodes with
    | None => ThrowsTypeError
    | Some entries =>
        match extractGroups [] (indexed entries) with
        | None => ThrowsTypeError
        | Some groups =>
            Returns
              {| success := true;
                 data :=
                   imap (fun index g =>
                           {| group := {| id := index;
                                          created_at := stamp (2 * index)%nat;
                                          updated_at := stamp (2 * index + 1)%nat;
                                          name := g.2 |};
                              servers := serversOf entries g |})
                        groups |}
        end
    end.

End NezhaApi.

Module NezhaApiSpec.
Import Js Komari Utils NezhaApi.

(** The representatives of the classes of a relation, each the first of its
    class, in the order they come. *)
Definition add_rep {A : Type} (eqv : A -> A -> bool) (acc : list A) (x : A) : list A :=
  if existsb (eqv x) acc then acc else acc ++ [x].

Definition reps {A : Type} (eqv : A -> A -> bool) (l : list A) : list A :=
  fold_left (add_rep eqv) l [].

(** The members of the class of [r] that are in [l]. *)
Definition class_in {A : Type} (eqv : A -> A -> bool) (l : list A) (r : A) : list A :=
  filter (fun y => eqv y r = true) l.

(** What the representatives [R] of the classes of [l] are. *)
Record reps_inv {A : Type} (eqv : A -> A -> bool) (l R : list A) : Prop := {
  ri_in : forall r, r ∈ R -> r ∈ l;
  ri_apart : forall i j ri rj,
    R !! i = Some ri -> R !! j = Some rj -> eqv ri rj = true -> i = j;
  ri_cover : forall x, x ∈ l -> exists r, r ∈ R /\ eqv x r = true;
  ri_perm : Permutation (concat (map (class_in eqv l) R)) l;
}.

(** Two entries are of one group. *)
Definition grouped_with (a b : nat * (jsstring * value)) : bool :=
  same_group (group_of a) (group_of b).

(** The entry has a group. *)
Definition has_group (entry : jsstring * value) : bool := truthy (prop entry.2 "group").

(** The value is [null] or [undefined]. *)
Definition nullish (v : value) : bool :=
  match v with
  | VUndefined | VNull => true
  | _ => false
  end.

End NezhaApiSpec.

(* ===================================================================== *)
(** ** What the view is compared with, beyond the specification          *)
(* ===================================================================== *)

Module KomariViewSpec.
Import Js Komari.

(** A number that [|| 0] has gone over: 0, or a value that counts as
    true. *)
Definition number_or_zero (v : value) : Prop := v = zero \/ truthy v = true.

(** Every dynamic field of a state is such a number. *)
Definition state_defaulted (s : State) : Prop :=
  number_or_zero (cpu s) /\ number_or_zero (mem_used s) /\
  number_or_zero (swap_used s) /\ number_or_zero (disk_used s) /\
  number_or_zero (net_in_transfer s) /\ number_or_zero (net_out_transfer s) /\
  number_or_zero (net_in_speed s) /\ number_or_zero (net_out_speed s) /\
  number_or_zero (uptime s) /\ number_or_zero (load_1 s) /\
  number_or_zero (load_5 s) /\ number_or_zero (load_15 s) /\
  number_or_zero (tcp_conn_count s) /\ number_or_zero (udp_conn_count s) /\
  number_or_zero (process_count s).

End KomariViewSpec.

(* ===================================================================== *)
(** ** What the connection state stands for                               *)
(* ===================================================================== *)

Module RPC2State.
Import Js RPC2 RPC2Spec RPC2Connect.

Definition is_catch (j : Job) : bool :=
  match j with
  | ConnectCatch _ _ => true
  | _ => false
  end.

(** The connect of the client's socket is waiting, its timer armed. *)
Definition connecting (w : World) : Prop :=
  exists s c t,
    ws (client w) = Some s
    /\ opening w !! s = Some (c, t)
    /\ timers w !! t = Some (connect_timer s).

(** The reconnect the client holds the handle of is armed, with the
    configured delay. *)
Definition reconnect_armed (w : World) : Prop :=
  exists t,
    reconnectTimeout (client w) = Some t
    /\ timers w !! t
       = Some {| action := Reconnect;
                 delay := Options.reconnectInterval (options (client w)) |}.

(** The heartbeat the client holds the handle of is armed, with the
    configured period. *)
Definition heartbeat_armed (w : World) : Prop :=
  exists t,
    heartbeatInterval (client w) = Some t
    /\ timers w !! t
       = Some {| action := Heartbeat;
                 delay := Options.heartbeatInterval (options (client w)) |}.

(** What the three states in which the client waits or beats stand for.  A
    [connect] whose [catch] is queued is about to leave [CONNECTING]. *)
Record state_inv (w : World) : Prop := {
  si_connecting :
    connectionState (client w) = CONNECTING ->
    existsb is_catch (microtasks w) = false -> connecting w;
  si_reconnecting :
    connectionState (client w) = RECONNECTING -> reconnect_armed w;
  si_connected :
    connectionState (client w) = CONNECTED ->
    Options.enableHeartbeat (options (client w)) = true -> heartbeat_armed w;
}.

(** The facts about the timers a proof about the handlers needs. *)
Record timer_facts (w : World) : Prop := {
  tf_bound : forall t tm, timers w !! t = Some tm -> (t < nextTimer w)%nat;
  tf_heartbeat : forall hb tm,
    heartbeatInterval (client w) = Some hb -> timers w !! hb = Some tm ->
    action tm = Heartbeat;
  tf_reconnect : forall rt tm,
    reconnectTimeout (client w) = Some rt -> timers w !! rt = Some tm ->
    action tm = Reconnect;
  tf_opening : forall s c t,
    opening w !! s = Some (c, t) ->
    timers w !! t = Some (connect_timer s) /\ (t < nextTimer w)%nat;
  tf_pending : forall i entry t tm,
    (i, entry) ∈ pendingRequests (client w) -> timeout entry = Some t ->
    timers w !! t = Some tm -> is_request_timer tm = true;
}.

(** A step that leaves the state of the connection, the handles the client
    holds and the connects that wait alone, and disarms timeouts of
    requests only. *)
Definition sstep (w w' : World) : Prop :=
  connectionState (client w') = connectionState (client w)
  /\ ws (client w') = ws (client w)
  /\ reconnectTimeout (client w') = reconnectTimeout (client w)
  /\ heartbeatInterval (client w') = heartbeatInterval (client w)
  /\ options (client w') = options (client w)
  /\ opening w' = opening w
  /\ (forall t tm, timers w !! t = Some tm -> is_request_timer tm = false ->
        timers w' !! t = Some tm)
  /\ existsb is_catch (microtasks w') = existsb is_catch (microtasks w).

End RPC2State.

(* ===================================================================== *)
(** ** Facts about [Map]                                                  *)
(* ===================================================================== *)

Module MapFacts.
Import Js.

Section Facts.
Context {K V : Type} `{EqDecision K}.
Implicit Types (m : Map K V) (k : K) (v : V).

Lemma Map_get_Some_elem m k v : Map_get m k = Some v -> (k, v) ∈ m.
Proof.
  induction m as [|[k' v'] m IH]; simpl; [done|].
  destruct (decide (k' = k)) as [->|].
  - intros [= ->]. left.
  - intros. right. auto.
Qed.

Lemma Map_get_None m k : Map_get m k = None <-> k ∉ map fst m.
Proof.
  induction m as [|[k' v'] m IH]; simpl.
  - split; [intros _; apply not_elem_of_nil | done].
  - rewrite not_elem_of_cons. destruct (decide (k' = k)) as [->|Hne].
    + split; [done | intros [? _]; done].
    + rewrite IH. split; [intros; split; congruence | intros [_ ?]; done].
Qed.

Lemma Map_get_is_Some m k : is_Some (Map_get m k) <-> k ∈ map fst m.
Proof.
  destruct (Map_get m k) eqn:E.
  - split; [intros _ | eauto]. apply Map_get_Some_elem in E.
    apply (list_elem_of_fmap_2 fst) in E. exact E.
  - apply Map_get_None in E. split; [intros [? ?]; done | done].
Qed.

Lemma Map_get_NoDup m k v :
  NoDup (map fst m) -> (k, v) ∈ m -> Map_get m k = Some v.
Proof.
  induction m as [|[k' v'] m IH]; simpl; intros Hnd Hin.
  - by apply elem_of_nil in Hin.
  - apply NoDup_cons in Hnd as [Hk' Hnd]. apply elem_of_cons in Hin as [[= <- <-]|Hin].
    + by rewrite decide_True.
    + destruct (decide (k' = k)) as [->|]; [|auto].
      exfalso. apply Hk'. by apply (list_elem_of_fmap_2 fst) in Hin.
Qed.

Lemma filter_all {A} (P : A -> Prop) `{forall x, Decision (P x)} (l : list A) :
  (forall x, x ∈ l -> P x) -> filter P l = l.
Proof.
  induction l as [|x l IH]; intros Hall; [done|].
  rewrite filter_cons_True by (apply Hall; left).
  f_equal. apply IH. intros y Hy. apply Hall. by right.
Qed.

Lemma Map_delete_filter m k :
  NoDup (map fst m) -> Map_delete m k = filter (fun kv => fst kv <> k) m.
Proof.
  induction m as [|[k' v'] m IH]; intros Hnd; [done|].
  cbn [map fst] in Hnd. apply NoDup_cons in Hnd as [Hk' Hnd].
  rewrite filter_cons. cbn [Map_delete fst].
  destruct (decide (k' = k)) as [->|Hne].
  - rewrite decide_False by auto.
    symmetry. apply filter_all. intros [k2 v2] Hin. simpl. intros ->.
    apply Hk'. by apply (list_elem_of_fmap_2 fst) in Hin.
  - rewrite decide_True by done. f_equal. auto.
Qed.

Lemma Map_delete_absent m k : k ∉ map fst m -> Map_delete m k = m.
Proof.
  induction m as [|[k' v'] m IH]; simpl; [done|].
  rewrite not_elem_of_cons. intros [Hne Hk].
  rewrite decide_False by congruence. f_equal. auto.
Qed.

Lemma Map_get_delete_ne m k k' :
  k <> k' -> Map_get (Map_delete m k) k' = Map_get m k'.
Proof.
  intros Hne. induction m as [|[k2 v2] m IH]; simpl; [done|].
  destruct (decide (k2 = k)) as [->|].
  - by rewrite decide_False.
  - simpl. destruct (decide (k2 = k')); auto.
Qed.

Lemma Map_delete_sublist m k : sublist (Map_delete m k) m.
Proof.
  induction m as [|[k' v'] m IH]; simpl; [done|].
  destruct (decide (k' = k)).
  - by apply sublist_cons.
  - by apply sublist_skip.
Qed.

Lemma Map_delete_NoDup m k : NoDup (map fst m) -> NoDup (map fst (Map_delete m k)).
Proof.
  intros Hnd. eapply sublist_NoDup; [exact Hnd|].
  apply (fmap_sublist fst), Map_delete_sublist.
Qed.

Lemma Map_get_delete_eq m k : NoDup (map fst m) -> Map_get (Map_delete m k) k = None.
Proof.
  intros Hnd. apply Map_get_None. rewrite Map_delete_filter by done.
  intros Hin. apply list_elem_of_fmap in Hin as [[k' v'] [-> Hin]].
  apply list_elem_of_filter in Hin as [Hne _]. by apply Hne.
Qed.

Lemma Map_set_absent m k v : k ∉ map fst m -> Map_set m k v = m ++ [(k, v)].
Proof.
  induction m as [|[k' v'] m IH]; simpl; [done|].
  rewrite not_elem_of_cons. intros [Hne Hk].
  rewrite decide_False by congruence. f_equal. auto.
Qed.

Lemma Map_set_keys m k v :
  map fst (Map_set m k v) = if decide (k ∈ map fst m) then map fst m else map fst m ++ [k].
Proof.
  induction m as [|[k' v'] m IH]; cbn [Map_set map fst].
  - destruct (decide (k ∈ [])) as [H0|_]; [by apply elem_of_nil in H0 | done].
  - destruct (decide (k' = k)) as [->|Hne]; cbn [map fst].
    + destruct (decide (k ∈ k :: map fst m)) as [_|Hn]; [done|]. exfalso. apply Hn. left.
    + rewrite IH. destruct (decide (k ∈ map fst m)) as [Hin|Hnin].
      * destruct (decide (k ∈ k' :: map fst m)) as [_|Hn]; [done|]. exfalso. apply Hn. by right.
      * destruct (decide (k ∈ k' :: map fst m)) as [Hin|_]; [|done].
        apply elem_of_cons in Hin as [->|Hin]; done.
Qed.

Lemma Map_set_NoDup m k v : NoDup (map fst m) -> NoDup (map fst (Map_set m k v)).
Proof.
  intros Hnd. rewrite Map_set_keys. destruct (decide (k ∈ map fst m)); [done|].
  apply NoDup_app. repeat split; [done | | apply NoDup_singleton].
  intros x Hx Hx'. apply list_elem_of_singleton in Hx'. by subst.
Qed.

Lemma Map_fold_set_NoDup (entries : list (K * V)) m :
  NoDup (map fst m) ->
  NoDup (map fst (fold_left (fun m kv => Map_set m (fst kv) (snd kv)) entries m)).
Proof.
  revert m. induction entries as [|[k v] entries IH]; simpl; intros m Hnd; [done|].
  apply IH. by apply Map_set_NoDup.
Qed.

Lemma Map_new_NoDup (entries : list (K * V)) : NoDup (map fst (Map_new entries)).
Proof. apply Map_fold_set_NoDup. simpl. apply NoDup_nil_2. Qed.

Lemma Map_fold_set_fresh (entries : list (K * V)) m :
  NoDup (map fst (m ++ entries)) ->
  fold_left (fun m kv => Map_set m (fst kv) (snd kv)) entries m = m ++ entries.
Proof.
  revert m. induction entries as [|[k v] entries IH]; simpl; intros m Hnd.
  - by rewrite app_nil_r.
  - rewrite Map_set_absent.
    + rewrite IH; rewrite <- app_assoc; done.
    + rewrite map_app in Hnd. apply NoDup_app in Hnd as (_ & Hd & _).
      intros Hk. apply (Hd k Hk). simpl. left.
Qed.

(** The entries of an object have pairwise distinct keys, and the map made
    of them is the list itself. *)
Lemma Map_new_entries (entries : list (K * V)) :
  NoDup (map fst entries) -> Map_new entries = entries.
Proof. intros Hnd. unfold Map_new. by rewrite Map_fold_set_fresh. Qed.

Lemma Map_fold_set_keys (entries : list (K * V)) m k :
  k ∈ map fst (fold_left (fun m kv => Map_set m (fst kv) (snd kv)) entries m)
  <-> k ∈ map fst m \/ k ∈ map fst entries.
Proof.
  revert m. induction entries as [|[k' v'] entries IH]; simpl; intros m.
  - split; [auto | intros [?|H']; [done | by apply elem_of_nil in H']].
  - rewrite IH, Map_set_keys, elem_of_cons.
    destruct (decide (k' ∈ map fst m)) as [Hin|Hnin].
    + split; [tauto|]. intros [?|[->|?]]; auto.
    + rewrite elem_of_app, list_elem_of_singleton. tauto.
Qed.

Lemma Map_new_keys (entries : list (K * V)) k :
  k ∈ map fst (Map_new entries) <-> k ∈ map fst entries.
Proof.
  unfold Map_new. rewrite Map_fold_set_keys. simpl.
  split; [intros [H'|?]; [by apply elem_of_nil in H' | done] | auto].
Qed.
End Facts.

End MapFacts.

(* ===================================================================== *)
(** ** Properties of the reconciler                                       *)
(* ===================================================================== *)

Module KomariFacts.
Import Js Komari KomariSpec MapFacts.

Section Facts.
Context `{RT : Runtime}.
Implicit Types (cache : list Node.t) (data m : list (jsstring * Status.t)).

Lemma push_all {A B} (f : A -> B) (l : list A) (acc : list B) :
  fold_left (fun acc x => acc ++ [f x]) l acc = acc ++ map f l.
Proof.
  revert acc. induction l as [|x l IH]; intros acc; simpl.
  - by rewrite app_nil_r.
  - rewrite IH, <- app_assoc. done.
Qed.

(** Deleting behind the [has] test is deleting. *)
Lemma has_then_delete m (k : jsstring) :
  (if Map_has m k then Map_delete m k else m) = Map_delete m k.
Proof.
  unfold Map_has. destruct (Map_get m k) eqn:E; [done|].
  symmetry. apply Map_delete_absent. by apply Map_get_None.
Qed.

Lemma rosterPass_cons server cache m :
  rosterPass (server :: cache) m =
  (rosterServer server (Map_get m (Node.uuid server))
     :: (rosterPass cache (Map_delete m (Node.uuid server))).1,
   (rosterPass cache (Map_delete m (Node.uuid server))).2).
Proof.
  cbn [rosterPass]. rewrite has_then_delete.
  by destruct (rosterPass cache (Map_delete m (Node.uuid server))).
Qed.

Lemma rosterPass_length cache m : length (rosterPass cache m).1 = length cache.
Proof.
  revert m. induction cache as [|server cache IH]; intros m; [done|].
  rewrite rosterPass_cons. simpl. by rewrite IH.
Qed.

(** The entity at a position of the roster part is built from the roster
    entry at that position, with a record of the feed or with none. *)
Lemma rosterPass_lookup cache m i server :
  cache !! i = Some server ->
  exists st, (rosterPass cache m).1 !! i = Some (rosterServer server st)
             /\ (forall s, st = Some s -> (Node.uuid server, s) ∈ m)
             /\ (Node.uuid server ∉ map fst m -> st = None).
Proof.
  revert m i. induction cache as [|server0 cache IH]; intros m i Hi; [done|].
  rewrite rosterPass_cons. destruct i as [|i]; simpl in *.
  - injection Hi as ->. exists (Map_get m (Node.uuid server)). split; [done|]. split.
    + intros s Hs. by apply Map_get_Some_elem.
    + intros Hk. by apply Map_get_None.
  - destruct (IH (Map_delete m (Node.uuid server0)) i Hi) as (st & Hst & Hin & Hout).
    exists st. split; [done|]. split.
    + intros s Hs. eapply elem_of_sublist; [|apply Map_delete_sublist]. eauto.
    + intros Hk. apply Hout. intros Hk'. apply Hk.
      eapply elem_of_sublist; [exact Hk'|]. apply (fmap_sublist fst), Map_delete_sublist.
Qed.

Lemma rosterPass_lookup_NoDup cache m i server :
  NoDup (map Node.uuid cache) ->
  cache !! i = Some server ->
  (rosterPass cache m).1 !! i = Some (rosterServer server (Map_get m (Node.uuid server))).
Proof.
  revert m i. induction cache as [|server0 cache IH]; intros m i Hnd Hi; [done|].
  rewrite rosterPass_cons. cbn [map] in Hnd. apply NoDup_cons in Hnd as [Hfresh Hnd].
  destruct i as [|i]; simpl in *.
  - by injection Hi as ->.
  - rewrite (IH _ _ Hnd Hi). rewrite Map_get_delete_ne; [done|].
    intros Heq. apply Hfresh. rewrite Heq.
    apply (list_elem_of_fmap_2 Node.uuid). by eapply list_elem_of_lookup_2.
Qed.

(** What the roster pass leaves of the feed: the records whose key the
    roster does not have. *)
Lemma rosterPass_rest cache m :
  NoDup (map fst m) ->
  (rosterPass cache m).2 = filter (fun kv => kv.1 ∉ map Node.uuid cache) m.
Proof.
  revert m. induction cache as [|server cache IH]; intros m Hnd.
  - simpl. symmetry. apply filter_all. intros ? _. apply not_elem_of_nil.
  - rewrite rosterPass_cons. cbn [snd map].
    rewrite IH by by apply Map_delete_NoDup.
    rewrite Map_delete_filter by done. rewrite list_filter_filter.
    apply list_filter_iff. intros [k v]. simpl. rewrite not_elem_of_cons. tauto.
Qed.

Lemma servers_without_roster clock data :
  servers (komariToNezhaWebsocketResponse [] clock data).1
  = map (fun kv => statusServer kv.1 kv.2) data.
Proof. unfold komariToNezhaWebsocketResponse. simpl. by rewrite push_all. Qed.

Lemma servers_with_roster cache clock data :
  cache <> [] ->
  servers (komariToNezhaWebsocketResponse cache clock data).1
  = (rosterPass cache (Map_new data)).1
    ++ map (fun kv => statusServer kv.1 kv.2) (rosterPass cache (Map_new data)).2.
Proof.
  intros Hne. unfold komariToNezhaWebsocketResponse.
  destruct cache as [|server cache]; [done|].
  destruct (rosterPass (server :: cache) (Map_new data)) as [roster rest].
  simpl. by rewrite push_all.
Qed.


Lemma keys_of_filter (R : list jsstring) m :
  map fst (filter (fun kv => kv.1 ∉ R) m) = filter (fun k => k ∉ R) (map fst m).
Proof.
  induction m as [|[k v] m IH]; [done|].
  cbn [map fst]. rewrite !filter_cons. simpl.
  destruct (decide (k ∉ R)); simpl; by rewrite IH.
Qed.

Lemma reconciled_keys_NoDup cache data :
  NoDup (map Node.uuid cache) -> NoDup (map fst data) -> NoDup (reconciled_keys cache data).
Proof.
  intros Hc Hd. unfold reconciled_keys. apply NoDup_app. repeat split; [done| |].
  - intros k Hk Hk'. by apply list_elem_of_filter in Hk' as [Hn _].
  - by apply NoDup_filter.
Qed.

Lemma reconciled_keys_elem cache data k :
  k ∈ reconciled_keys cache data <-> k ∈ map Node.uuid cache \/ k ∈ map fst data.
Proof.
  unfold reconciled_keys. rewrite elem_of_app, list_elem_of_filter.
  destruct (decide (k ∈ map Node.uuid cache)); tauto.
Qed.

(** The entity at a position of the roster part is the roster entry at
    that position with the record found for it. *)
Lemma rosterPass_lookup_found cache m i server :
  NoDup (map fst m) ->
  cache !! i = Some server ->
  (rosterPass cache m).1 !! i = Some (rosterServer server (found_record cache m i)).
Proof.
  revert m i. induction cache as [|server0 cache IH]; intros m i Hnd Hi; [done|].
  rewrite rosterPass_cons. unfold found_record. rewrite Hi.
  destruct i as [|i]; simpl in *.
  - by injection Hi as ->.
  - rewrite (IH _ _ (Map_delete_NoDup _ (Node.uuid server0) Hnd) Hi).
    unfold found_record. rewrite Hi. do 2 f_equal.
    destruct (decide (Node.uuid server = Node.uuid server0)) as [Heq|Hne].
    + rewrite (decide_True (P := _ ∈ _ :: _)) by (rewrite Heq; left).
      case_decide; [done|]. rewrite Heq. by apply Map_get_delete_eq.
    + rewrite Map_get_delete_ne by done.
      destruct (decide (Node.uuid server ∈ map Node.uuid (take i cache))) as [Hin|Hnin].
      * rewrite decide_True; [done | by right].
      * rewrite decide_False; [done|]. rewrite not_elem_of_cons. done.
Qed.

Lemma rosterServer_merged server found : merged server found (rosterServer server found).
Proof. unfold merged, live_state, all_zero. destruct found; repeat split. Qed.

Lemma statusServer_synthesized k st : synthesized k st (statusServer k st).
Proof. unfold synthesized, live_state. repeat split. Qed.

(** The first roster entry with a key takes the record of that key; the
    later entries with the same key find none. *)
Lemma found_record_first cache data k st :
  NoDup (map fst data) ->
  (k, st) ∈ data ->
  k ∈ map Node.uuid cache ->
  exists i server,
    cache !! i = Some server /\ Node.uuid server = k
    /\ found_record cache data i = Some st
    /\ forall i' server', cache !! i' = Some server' -> Node.uuid server' = k ->
         i' <> i -> found_record cache data i' = None.
Proof.
  intros Hd Hin Hk.
  apply list_elem_of_fmap in Hk as (server0 & -> & Hs0).
  destruct (list_find_elem_of (fun s => Node.uuid s = Node.uuid server0) cache server0 Hs0 eq_refl)
    as [[i server] Hfind].
  apply list_find_Some in Hfind as (Hi & Hu & Hfirst).
  exists i, server. split; [done|]. split; [done|]. split.
  - unfold found_record. rewrite Hi, Hu. rewrite decide_False.
    + by apply Map_get_NoDup.
    + intros Hin'. apply list_elem_of_fmap in Hin' as (y & Hy & Hyin).
      apply list_elem_of_lookup in Hyin as [j Hj].
      apply lookup_take_Some in Hj as [Hj Hlt]. by apply (Hfirst j y).
  - intros i' server' Hi' Hu' Hne. unfold found_record. rewrite Hi'.
    rewrite decide_True; [done|].
    assert (Hlt : (i < i')%nat).
    { destruct (decide (i' < i)%nat) as [Hlt|Hge]; [|lia].
      by destruct (Hfirst i' server' Hi' Hlt). }
    apply list_elem_of_fmap. exists server. split; [congruence|].
    apply list_elem_of_lookup. exists i. by apply lookup_take_Some.
Qed.

(** C2, as amended.  With a roster cached, the view holds one entity for
    each entry of the roster, in roster order, and then one for each record
    of the feed whose key the roster lacks, in feed order; the feed is the
    map the code builds from the payload, which is the payload itself when
    its keys are distinct.  The entity of a roster entry carries the
    identity and the host of the entry and the dynamic fields of the record
    merged into it, or is offline without one; an appended entity is read
    from its record alone.  Every record of the feed is shown by exactly
    one entity: it is merged into the first roster entry with its key (the
    later entries with that key are offline), or it is appended.  A roster
    of distinct keys gives a view with every key once.  The view is at
    least as long as the roster and as the feed. *)
Theorem reconciliation_covers_roster_and_feed cache clock data :
  cache <> [] ->
  let out := servers (komariToNezhaWebsocketResponse cache clock data).1 in
  let feed := Map_new data in
  let keys := reconciled_keys cache feed in
  let rest := appended_records cache feed in
  Forall2 (fun k e => id e = uuidToNumber k) keys out
  /\ (forall i server, cache !! i = Some server ->
        exists e, out !! i = Some e /\ merged server (found_record cache feed i) e)
  /\ (forall j k st, rest !! j = Some (k, st) ->
        exists e, out !! (length cache + j)%nat = Some e /\ synthesized k st e)
  /\ (forall k st, (k, st) ∈ feed -> k ∈ map Node.uuid cache ->
        exists i server,
          cache !! i = Some server /\ Node.uuid server = k
          /\ found_record cache feed i = Some st
          /\ forall i' server', cache !! i' = Some server' -> Node.uuid server' = k ->
               i' <> i -> found_record cache feed i' = None)
  /\ (forall k st, (k, st) ∈ feed -> k ∉ map Node.uuid cache ->
        exists j, rest !! j = Some (k, st)
                  /\ forall j' st', rest !! j' = Some (k, st') -> j' = j)
  /\ (forall k, k ∈ keys <-> k ∈ map Node.uuid cache \/ k ∈ map fst data)
  /\ (NoDup (map Node.uuid cache) ->
        NoDup keys
        /\ forall i server, cache !! i = Some server ->
             found_record cache feed i = Map_get feed (Node.uuid server))
  /\ (NoDup (map fst data) -> feed = data)
  /\ NoDup (map fst feed)
  /\ length out = (length cache + length rest)%nat
  /\ (length cache <= length out)%nat
  /\ (length feed <= length out)%nat.
Proof.
  intros Hne out feed keys rest.
  assert (Hd : NoDup (map fst feed)) by apply Map_new_NoDup.
  assert (Hout : out = (rosterPass cache feed).1
                       ++ map (fun kv => statusServer kv.1 kv.2) rest).
  { subst out rest. rewrite servers_with_roster by done. by rewrite rosterPass_rest. }
  assert (HF : Forall2 (fun k e => id e = uuidToNumber k) keys out).
  { rewrite Hout. subst keys rest. unfold reconciled_keys, appended_records.
    apply Forall2_app.
    - apply Forall2_same_length_lookup_2.
      + rewrite length_map, rosterPass_length. done.
      + intros i k e Hk He. rewrite list_lookup_fmap in Hk.
        destruct (cache !! i) as [server|] eqn:Hi; [|done]. injection Hk as <-.
        rewrite (rosterPass_lookup_found _ _ _ _ Hd Hi) in He. by injection He as <-.
    - rewrite <- keys_of_filter.
      apply Forall2_fmap, Forall_Forall2_diag, Forall_forall. by intros [k st] _. }
  assert (Hlen : length keys = length out) by (by eapply Forall2_length).
  assert (Hlen' : length out = (length cache + length rest)%nat).
  { by rewrite Hout, length_app, rosterPass_length, length_map. }
  split; [exact HF|]. split; [|split; [|split; [|split]]].
  - intros i server Hi. exists (rosterServer server (found_record cache feed i)). split.
    + rewrite Hout, lookup_app_l by (rewrite rosterPass_length; by eapply lookup_lt_Some).
      by apply rosterPass_lookup_found.
    + apply rosterServer_merged.
  - intros j k st Hj. exists (statusServer k st). split.
    + rewrite Hout, <- (rosterPass_length cache feed), lookup_app_r by lia.
      replace (length (rosterPass cache feed).1 + j - length (rosterPass cache feed).1)%nat
        with j by lia.
      by rewrite list_lookup_fmap, Hj.
    + apply statusServer_synthesized.
  - intros k st Hin Hk. by apply found_record_first.
  - intros k st Hin Hk.
    assert (Hin' : (k, st) ∈ rest) by (by apply list_elem_of_filter).
    apply list_elem_of_lookup in Hin' as [j Hj]. exists j. split; [done|].
    intros j' st' Hj'.
    assert (Hnd : NoDup (map fst rest)).
    { eapply sublist_NoDup; [exact Hd|]. apply (fmap_sublist fst), sublist_filter. }
    apply (NoDup_lookup _ j' j k Hnd); by rewrite list_lookup_fmap, ?Hj, ?Hj'.
  - split.
    { intros k. subst keys feed. rewrite reconciled_keys_elem. by rewrite Map_new_keys. }
    split; [|split; [apply Map_new_entries|split; [done|split; [done|split]]]].
    + intros Hc. split; [by apply reconciled_keys_NoDup|].
      intros i server Hi. unfold found_record. rewrite Hi. rewrite decide_False; [done|].
      intros Hin. apply list_elem_of_fmap in Hin as (y & Hy & Hyin).
      apply list_elem_of_lookup in Hyin as [j Hj].
      apply lookup_take_Some in Hj as [Hj Hlt].
      assert (j = i); [|lia].
      apply (NoDup_lookup _ j i (Node.uuid server) Hc);
        rewrite list_lookup_fmap, ?Hj, ?Hi; simpl; congruence.
    + lia.
    + rewrite <- Hlen, <- (length_map fst feed).
      apply submseteq_length, NoDup_submseteq; [done|].
      intros k Hk. apply reconciled_keys_elem. by right.
Qed.


Lemma roster_part_lookup cache clock data i :
  cache <> [] -> (i < length cache)%nat ->
  servers (komariToNezhaWebsocketResponse cache clock data).1 !! i
  = (rosterPass cache (Map_new data)).1 !! i.
Proof.
  intros Hne Hi. rewrite servers_with_roster by done.
  apply lookup_app_l. by rewrite rosterPass_length.
Qed.

Lemma roster_part_take cache clock data :
  cache <> [] ->
  take (length cache) (servers (komariToNezhaWebsocketResponse cache clock data).1)
  = (rosterPass cache (Map_new data)).1.
Proof.
  intros Hne. rewrite servers_with_roster by done.
  rewrite <- (rosterPass_length cache (Map_new data)). apply take_app_length.
Qed.

Lemma appended_part_drop cache clock data :
  cache <> [] ->
  drop (length cache) (servers (komariToNezhaWebsocketResponse cache clock data).1)
  = map (fun kv => statusServer kv.1 kv.2)
        (filter (fun kv => kv.1 ∉ map Node.uuid cache) (Map_new data)).
Proof.
  intros Hne. rewrite servers_with_roster by done.
  rewrite <- (rosterPass_length cache (Map_new data)) at 1. rewrite drop_app_length.
  rewrite rosterPass_rest; [done | apply Map_new_NoDup].
Qed.

(** C3, as amended.  With a roster cached, the view lists the roster entries
    in the order of the cache: the entity at a position is built from the
    roster entry at that position, its [display_index] is the negated weight
    (0 for a weight that is zero or no number), nothing is sorted; the
    entities of the records the roster lacks follow, with [display_index]
    0. *)
Theorem roster_part_in_cache_order cache clock data :
  cache <> [] ->
  let out := servers (komariToNezhaWebsocketResponse cache clock data).1 in
  (forall i server, cache !! i = Some server ->
     exists st, out !! i = Some (rosterServer server st))
  /\ map id (take (length cache) out) = map (fun server => uuidToNumber (Node.uuid server)) cache
  /\ map display_index (take (length cache) out)
     = map (fun server => neg_or_zero (Node.weight server)) cache
  /\ (NoDup (map Node.uuid cache) ->
      take (length cache) out = roster_in_cache_order cache data)
  /\ drop (length cache) out
     = map (fun kv => statusServer kv.1 kv.2)
           (filter (fun kv => kv.1 ∉ map Node.uuid cache) (Map_new data))
  /\ (forall e, e ∈ drop (length cache) out -> display_index e = zero).
Proof.
  intros Hne out.
  assert (Hpos : forall i server, cache !! i = Some server ->
            exists st, out !! i = Some (rosterServer server st)).
  { intros i server Hi. subst out.
    rewrite roster_part_lookup by (done || by eapply lookup_lt_Some).
    destruct (rosterPass_lookup cache (Map_new data) i server Hi) as (st & Hst & _). eauto. }
  assert (Hproj : forall {B} (f : Server -> B) (g : Node.t -> B),
            (forall server st, f (rosterServer server st) = g server) ->
            map f (take (length cache) out) = map g cache).
  { intros B f g Hfg. apply list_eq. intros i.
    rewrite !list_lookup_fmap. destruct (cache !! i) as [server|] eqn:Hi; simpl.
    - destruct (Hpos i server Hi) as (st & Hst).
      rewrite lookup_take_lt by by eapply lookup_lt_Some.
      rewrite Hst. simpl. by rewrite Hfg.
    - apply lookup_ge_None in Hi. rewrite lookup_take_ge; done. }
  split; [exact Hpos|]. split; [by apply Hproj|]. split; [by apply Hproj|].
  split; [|split].
  - intros Hc. subst out. rewrite roster_part_take by done.
    apply list_eq. intros i. unfold roster_in_cache_order. rewrite list_lookup_fmap.
    destruct (cache !! i) as [server|] eqn:Hi; simpl.
    + by apply rosterPass_lookup_NoDup.
    + apply lookup_ge_None. rewrite rosterPass_length. by apply lookup_ge_None.
  - by apply appended_part_drop.
  - subst out. rewrite appended_part_drop by done. intros e He.
    apply list_elem_of_fmap in He as (kv & -> & _). done.
Qed.

(** C7. A roster entry whose key the feed does not have is listed, at its
    position, with every dynamic field zero, no temperature and no GPU
    reading, boot time 0, and the marker "0000-00-00T00:00:00Z" as
    [last_active], which [formatNezhaInfo] shows as the empty text. *)
Theorem roster_entry_without_record_is_offline cache clock data i server :
  cache !! i = Some server ->
  Node.uuid server ∉ map fst data ->
  exists e,
    servers (komariToNezhaWebsocketResponse cache clock data).1 !! i = Some e
    /\ e = rosterServer server None
    /\ id e = uuidToNumber (Node.uuid server)
    /\ all_zero (state e)
    /\ boot_time (host e) = zero
    /\ last_active e = VStr (js "0000-00-00T00:00:00Z")
    /\ forall parse format,
         last_active_time_string parse format (js "0000-00-00T00:00:00Z") = js "".
Proof.
  intros Hi Hk.
  assert (Hne : cache <> []) by (intros ->; done).
  destruct (rosterPass_lookup cache (Map_new data) i server Hi) as (st & Hst & _ & Hnone).
  rewrite Hnone in Hst by by rewrite Map_new_keys.
  exists (rosterServer server None). split.
  { rewrite roster_part_lookup; [done | done | by eapply lookup_lt_Some]. }
  repeat split.
Qed.

Lemma no_temperature_not_positive (v : value) : no_temperature v -> gt_zero v = false.
Proof.
  intros [->|(q & -> & Hq)]; [done|]. unfold gt_zero, is_pos. simpl.
  unfold is_zero in Hq. apply Z.eqb_eq in Hq. rewrite Hq. done.
Qed.

Lemma temperaturesOf_positive (st : Status.t) r :
  r ∈ temperaturesOf st -> gt_zero (Temperature r) = true /\ Name r = js "CPU".
Proof.
  unfold temperaturesOf. destruct (gt_zero (Status.temp st)) eqn:E.
  - intros ->%list_elem_of_singleton. done.
  - intros H'. by apply elem_of_nil in H'.
Qed.

(** C8, as amended.  No entity of a view, in either path, has a temperature
    reading that is not above zero; an entity built from a record with a
    missing or zero temperature has no reading.  An entity built from a
    record alone (no roster cached, or a key the roster lacks) lists a
    numeric [gpu] as its single GPU reading.  An entity built from a roster
    entry and its record does so only if the roster entry has a GPU name;
    without one its GPU list is empty. *)
Theorem temperature_and_gpu_policy cache clock data :
  let out := servers (komariToNezhaWebsocketResponse cache clock data).1 in
  (forall e r, e ∈ out -> r ∈ temperatures (state e) ->
     gt_zero (Temperature r) = true /\ Name r = js "CPU")
  /\ (cache = [] -> forall i k st, data !! i = Some (k, st) ->
       exists e, out !! i = Some e
         /\ (no_temperature (Status.temp st) -> temperatures (state e) = [])
         /\ (is_number (Status.gpu st) = true -> gpu (state e) = [Status.gpu st]))
  /\ (cache <> [] -> forall k st, (k, st) ∈ Map_new data -> k ∉ map Node.uuid cache ->
       exists e, e ∈ drop (length cache) out
         /\ id e = uuidToNumber k
         /\ (no_temperature (Status.temp st) -> temperatures (state e) = [])
         /\ (is_number (Status.gpu st) = true -> gpu (state e) = [Status.gpu st]))
  /\ (NoDup (map Node.uuid cache) -> forall i server st,
       cache !! i = Some server ->
       Map_get (Map_new data) (Node.uuid server) = Some st ->
       exists e, out !! i = Some e
         /\ (no_temperature (Status.temp st) -> temperatures (state e) = [])
         /\ (truthy (Node.gpu_name server) = true -> is_number (Status.gpu st) = true ->
             gpu (state e) = [Status.gpu st])
         /\ (truthy (Node.gpu_name server) = false -> gpu (state e) = [])).
Proof.
  intros out.
  assert (Hstatus : forall k st,
            (no_temperature (Status.temp st) -> temperatures (state (statusServer k st)) = [])
            /\ (is_number (Status.gpu st) = true ->
                gpu (state (statusServer k st)) = [Status.gpu st])).
  { intros k st. split; simpl.
    - intros Ht. unfold temperaturesOf. by rewrite no_temperature_not_positive.
    - by intros ->. }
  split; [|split; [|split]].
  - intros e r He Hr. destruct cache as [|server0 cache'] eqn:Hcache.
    + subst out. rewrite servers_without_roster in He.
      apply list_elem_of_fmap in He as ([k st] & -> & _).
      by apply temperaturesOf_positive in Hr.
    + subst out. rewrite servers_with_roster in He by done.
      apply elem_of_app in He as [He|He].
      * apply list_elem_of_lookup in He as [i He].
        assert (Hi : (i < length (server0 :: cache'))%nat).
        { rewrite <- (rosterPass_length _ (Map_new data)). by eapply lookup_lt_Some. }
        apply lookup_lt_is_Some in Hi as [server Hi].
        destruct (rosterPass_lookup _ (Map_new data) i server Hi) as (st & Hst & _).
        rewrite Hst in He. injection He as <-.
        destruct st as [st|]; simpl in Hr.
        -- by apply temperaturesOf_positive in Hr.
        -- by apply elem_of_nil in Hr.
      * apply list_elem_of_fmap in He as ([k st] & -> & _).
        by apply temperaturesOf_positive in Hr.
  - intros -> i k st Hi. subst out. rewrite servers_without_roster.
    exists (statusServer k st). rewrite list_lookup_fmap, Hi. split; [done|]. apply Hstatus.
  - intros Hne k st Hin Hk. exists (statusServer k st). subst out.
    rewrite appended_part_drop by done. split; [|split; [done | apply Hstatus]].
    apply (list_elem_of_fmap_2 (fun kv => statusServer kv.1 kv.2) _ (k, st)).
    apply list_elem_of_filter. done.
  - intros Hc i server st Hi Hst.
    assert (Hne : cache <> []) by (intros ->; done).
    exists (rosterServer server (Some st)). subst out. split.
    { rewrite roster_part_lookup; [|done|by eapply lookup_lt_Some].
      rewrite (rosterPass_lookup_NoDup _ _ _ _ Hc Hi). by rewrite Hst. }
    simpl. split; [|split].
    + intros Ht. unfold temperaturesOf. by rewrite no_temperature_not_positive.
    + by intros -> ->.
    + by intros ->.
Qed.

End Facts.

(** The scenario of the specification: roster [a] (weight 5), [b]
    (weight 1); feed [a] with cpu 10 and [c] with cpu 99. *)
Example scenario_roster_and_feed :
  let cache := [sample_node "a" 5 VUndefined; sample_node "b" 1 VUndefined] in
  let data := [(js "a", sample_status (VNum 10) VUndefined VUndefined);
               (js "c", sample_status (VNum 99) VUndefined VUndefined)] in
  let out := servers (komariToNezhaWebsocketResponse (RT := sample_runtime) cache 0 data).1 in
  map id out = [97; 98; 99]
  /\ map (fun e => cpu (state e)) out = [VNum 10; zero; VNum 99]
  /\ map display_index out = [VNum (-5); VNum (-1); zero].
Proof. vm_compute. done. Qed.

(** C2, as stated, fails for a roster that holds a key twice: roster [a],
    [a], [b]; feed [a] with cpu 10 and [z] with cpu 99.  The key [a] is
    listed twice, the first time with its record and the second time
    offline. *)
Lemma roster_key_listed_twice :
  let cache := [sample_node "a" 5 VUndefined; sample_node "a" 3 VUndefined;
                sample_node "b" 1 VUndefined] in
  let data := [(js "a", sample_status (VNum 10) VUndefined VUndefined);
               (js "z", sample_status (VNum 99) VUndefined VUndefined)] in
  let out := servers (komariToNezhaWebsocketResponse (RT := sample_runtime) cache 0 data).1 in
  map Node.uuid cache = [js "a"; js "a"; js "b"]
  /\ map fst data = [js "a"; js "z"]
  /\ map uuidToNumber [js "a"; js "b"; js "z"] = [97; 98; 122]
  /\ map id out = [97; 97; 98; 122]
  /\ map (fun e => cpu (state e)) out = [VNum 10; zero; zero; VNum 99]
  /\ length (List.filter (fun e => id e =? uuidToNumber (js "a")) out) = 2%nat.
Proof. vm_compute. done. Qed.

Lemma reconciliation_covers_roster_and_feed_witness :
  let cache := [sample_node "a" 5 VUndefined; sample_node "a" 3 VUndefined;
                sample_node "b" 1 VUndefined] in
  let data := [(js "a", sample_status (VNum 10) VUndefined VUndefined);
               (js "z", sample_status (VNum 99) VUndefined VUndefined)] in
  let out := servers (komariToNezhaWebsocketResponse (RT := sample_runtime) cache 0 data).1 in
  cache <> []
  /\ (exists e, out !! 0%nat = Some e /\ cpu (state e) = VNum 10)
  /\ (exists e, out !! 1%nat = Some e /\ cpu (state e) = zero)
  /\ (exists e, out !! 3%nat = Some e /\ id e = 122 /\ cpu (state e) = VNum 99)
  /\ length out = 4%nat.
Proof.
  intros cache data out.
  assert (H1 : cache <> []) by discriminate.
  destruct (reconciliation_covers_roster_and_feed (RT := sample_runtime) cache 0 data H1)
    as (_ & Hroster & Hrest & _ & _ & _ & _ & _ & _ & Hlen & _).
  split; [exact H1|]. split; [|split; [|split]].
  - destruct (Hroster 0%nat _ eq_refl) as (e & He & Hm). exists e. split; [exact He|].
    destruct Hm as (_ & _ & _ & _ & _ & _ & _ & _ & _ & _ & _ & _ & _ & _ & Hdyn).
    change (found_record cache (Map_new data) 0)
      with (Some (sample_status (VNum 10) VUndefined VUndefined)) in Hdyn.
    destruct Hdyn as (_ & _ & (Hcpu & _) & _). exact Hcpu.
  - destruct (Hroster 1%nat _ eq_refl) as (e & He & Hm). exists e. split; [exact He|].
    destruct Hm as (_ & _ & _ & _ & _ & _ & _ & _ & _ & _ & _ & _ & _ & _ & Hdyn).
    change (found_record cache (Map_new data) 1) with (@None Status.t) in Hdyn.
    destruct Hdyn as (_ & _ & (Hcpu & _)). exact Hcpu.
  - destruct (Hrest 0%nat (js "z") (sample_status (VNum 99) VUndefined VUndefined) eq_refl)
      as (e & He & Hs). exists e. split; [exact He|].
    destruct Hs as (Hid & _ & _ & _ & _ & _ & _ & _ & _ & _ & _ & _ & _ & _ & _ & _
                    & (Hcpu & _) & _).
    split; [exact Hid | exact Hcpu].
  - exact Hlen.
Defined.

(** C3, as stated, fails: a cache that is not in weight order is listed as
    it is.  Roster [b] (weight 1), [a] (weight 5), empty feed: the view
    lists [b] before [a]. *)
Lemma roster_not_sorted_by_weight :
  let cache := [sample_node "b" 1 VUndefined; sample_node "a" 5 VUndefined] in
  map id (take (length cache)
            (servers (komariToNezhaWebsocketResponse (RT := sample_runtime) cache 0 []).1))
  = [98; 97]
  /\ map id (roster_by_descending_weight (RT := sample_runtime) cache []) = [97; 98]
  /\ take (length cache)
       (servers (komariToNezhaWebsocketResponse (RT := sample_runtime) cache 0 []).1)
     <> roster_by_descending_weight (RT := sample_runtime) cache [].
Proof.
  intros cache. split; [by vm_compute|]. split; [by vm_compute|].
  intros Heq. apply (f_equal (map id)) in Heq. vm_compute in Heq. discriminate.
Qed.

Lemma roster_part_in_cache_order_witness :
  let cache := [sample_node "b" 1 VUndefined; sample_node "a" 5 VUndefined] in
  let out := servers (komariToNezhaWebsocketResponse (RT := sample_runtime) cache 0 []).1 in
  cache <> []
  /\ map id (take (length cache) out) = map (fun server => uuidToNumber (Node.uuid server)) cache
  /\ map display_index (take (length cache) out)
     = map (fun server => neg_or_zero (RT := sample_runtime) (Node.weight server)) cache.
Proof.
  intros cache out.
  assert (H1 : cache <> []) by discriminate.
  destruct (roster_part_in_cache_order (RT := sample_runtime) cache 0 [] H1)
    as (_ & Hid & Hdi & _).
  repeat split; assumption.
Defined.

Lemma roster_entry_without_record_is_offline_witness :
  let cache := [sample_node "a" 5 VUndefined; sample_node "b" 1 VUndefined] in
  let data := [(js "a", sample_status (VNum 10) VUndefined VUndefined)] in
  cache !! 1%nat = Some (sample_node "b" 1 VUndefined)
  /\ (js "b" ∉ map fst data)
  /\ exists e,
       servers (komariToNezhaWebsocketResponse (RT := sample_runtime) cache 0 data).1 !! 1%nat
       = Some e
       /\ all_zero (state e)
       /\ last_active e = VStr (js "0000-00-00T00:00:00Z").
Proof.
  intros cache data.
  assert (H1 : cache !! 1%nat = Some (sample_node "b" 1 VUndefined)) by reflexivity.
  assert (H2 : Node.uuid (sample_node "b" 1 VUndefined) ∉ map fst data).
  { apply (bool_decide_unpack _). vm_compute. exact I. }
  destruct (roster_entry_without_record_is_offline (RT := sample_runtime)
              cache 0 data 1%nat _ H1 H2) as (e & He & _ & _ & Hz & _ & Hl & _).
  split; [exact H1|]. split; [exact H2|]. exists e.
  split; [exact He|]. split; [exact Hz | exact Hl].
Defined.

(** C8, as stated, fails in the path with a roster: the roster entry [a] has
    no GPU name, its record has the numeric [gpu] 50, and the entity of [a]
    has an empty GPU list. *)
Lemma numeric_gpu_dropped_without_gpu_name :
  let cache := [sample_node "a" 5 VUndefined] in
  let data := [(js "a", sample_status (VNum 10) VUndefined (VNum 50))] in
  ~ numeric_gpu_is_wrapped (RT := sample_runtime) cache 0 data.
Proof.
  intros cache data Hclaim.
  destruct (Hclaim 0%nat (sample_node "a" 5 VUndefined)
              (sample_status (VNum 10) VUndefined (VNum 50)))
    as (e & He & Hgpu); [reflexivity | by vm_compute | reflexivity |].
  vm_compute in He. injection He as <-. discriminate Hgpu.
Qed.

End KomariFacts.

(* ===================================================================== *)
(** ** Properties of the transport client                                 *)
(* ===================================================================== *)

Module RPC2Facts.
Import Js RPC2 RPC2Spec MapFacts.

(** A socket is opened by [connect] in the other states. *)
Lemma connect_opens_a_socket w :
  connectionState (client w) <> CONNECTED ->
  connectionState (client w) <> CONNECTING ->
  let w' := (connect w).2 in
  connectionState (client w') = CONNECTING
  /\ ws (client w') = Some (nextSocket w)
  /\ sockets w' !! nextSocket w = Some WS_CONNECTING
  /\ trace w' = trace w ++ [NewWebSocket (nextSocket w)]
  /\ timers w' !! nextTimer w = Some {| action := ConnectTimeout (nextSocket w); delay := 10000 |}.
Proof.
  intros H1 H2. unfold connect. simpl.
  rewrite !bool_decide_false by done. simpl.
  repeat split; by rewrite lookup_insert_eq.
Qed.

(** C9. [connect] called while the client is connected or connecting does
    nothing but return a promise that is already resolved: the client, the
    sockets, the listeners of earlier [connect]s, the timers, the exchanges
    and the waiting reactions are what they were, and no socket is
    created. *)
Theorem connect_when_connected_or_connecting w :
  connectionState (client w) = CONNECTED \/ connectionState (client w) = CONNECTING ->
  let w' := (connect w).2 in
  client w' = client w
  /\ sockets w' = sockets w /\ nextSocket w' = nextSocket w
  /\ opening w' = opening w
  /\ timers w' = timers w /\ nextTimer w' = nextTimer w
  /\ fallbacks w' = fallbacks w
  /\ exchanges w' = exchanges w /\ nextExchange w' = nextExchange w
  /\ microtasks w' = microtasks w
  /\ trace w' = trace w ++ [Settle (Connect (connect w).1) (Resolved VUndefined)].
Proof.
  intros Hstate. unfold connect. simpl.
  destruct Hstate as [-> | ->]; simpl; repeat split.
Qed.

Lemma connect_when_connected_or_connecting_witness :
  let w := setConnectionState CONNECTED (construct Options.defaults) in
  (connectionState (client w) = CONNECTED \/ connectionState (client w) = CONNECTING)
  /\ client (connect w).2 = client w
  /\ sockets (connect w).2 = sockets w
  /\ timers (connect w).2 = timers w.
Proof.
  intros w.
  assert (H : connectionState (client w) = CONNECTED \/ connectionState (client w) = CONNECTING)
    by (left; reflexivity).
  destruct (connect_when_connected_or_connecting w H) as (Hc & Hs & _ & _ & Ht & _).
  repeat split; assumption.
Defined.

(** What [onmessage] leaves of a parsed frame is what [handleMessage]
    leaves, with the call of the listener when it returned. *)
Lemma onmessage_parsed data w :
  onmessage (Parsed data) w = leaves (handleMessage data w)
  \/ onmessage (Parsed data) w
     = emit (Notify (onMessage data)) (leaves (handleMessage data w)).
Proof. unfold onmessage. destruct (handleMessage data w); simpl; auto. Qed.

(** A run from a world a client can reach ends in such a world. *)
Lemma reachable_run opts w inputs : reachable opts w -> reachable opts (run w inputs).
Proof.
  revert w. induction inputs as [|i inputs IH]; intros w Hw; [done|].
  simpl. apply IH. by constructor.
Qed.

(** *** [settleWs] and [clearPendingRequests] *)

Lemma settleWs_client p o w : client (settleWs p o w) = client w.
Proof. unfold settleWs. simpl. by destruct (fallbacks w !! p). Qed.

Lemma settleWs_timers p o w : timers (settleWs p o w) = timers w.
Proof. unfold settleWs. simpl. by destruct (fallbacks w !! p). Qed.

Lemma settleWs_trace p o w : trace (settleWs p o w) = trace w ++ [Settle (WsCall p) o].
Proof. unfold settleWs. simpl. by destruct (fallbacks w !! p). Qed.

Lemma settleWs_sockets p o w : sockets (settleWs p o w) = sockets w.
Proof. unfold settleWs. simpl. by destruct (fallbacks w !! p). Qed.

Lemma settleWs_nextPromise p o w : nextPromise (settleWs p o w) = nextPromise w.
Proof. unfold settleWs. simpl. by destruct (fallbacks w !! p). Qed.

Lemma clearTimer_if_lookup handle w t :
  timers (clearTimer_if handle w) !! t
  = if decide (handle = Some t) then None else timers w !! t.
Proof.
  destruct handle as [t'|]; cbn [clearTimer_if].
  - destruct (decide (Some t' = Some t)) as [[= ->]|Hne].
    + apply lookup_delete_eq.
    + apply lookup_delete_ne. congruence.
  - by destruct (decide (None = Some t)).
Qed.

Section ClearAll.
Variable error : Error.

Let reject_entry (w : World) (entry : RpcId * PendingRequest) : World :=
  settleWs (settles entry.2) (Rejected error) (clearTimer_if (timeout entry.2) w).

Lemma reject_all_client entries w : client (fold_left reject_entry entries w) = client w.
Proof.
  revert w. induction entries as [|entry entries IH]; intros w; simpl; [done|].
  rewrite IH. unfold reject_entry. rewrite settleWs_client. by destruct (timeout entry.2).
Qed.

Lemma reject_all_sockets entries w : sockets (fold_left reject_entry entries w) = sockets w.
Proof.
  revert w. induction entries as [|entry entries IH]; intros w; simpl; [done|].
  rewrite IH. unfold reject_entry. rewrite settleWs_sockets. by destruct (timeout entry.2).
Qed.

Lemma reject_all_trace entries w :
  trace (fold_left reject_entry entries w) = trace w ++ rejections error entries.
Proof.
  revert w. induction entries as [|entry entries IH]; intros w; simpl.
  - by rewrite app_nil_r.
  - rewrite IH. unfold reject_entry. rewrite settleWs_trace, <- app_assoc.
    by destruct (timeout entry.2).
Qed.

Lemma timeouts_of_cons (entry : RpcId * PendingRequest) entries :
  timeouts_of (entry :: entries)
  = match timeout entry.2 with
    | Some t => t :: timeouts_of entries
    | None => timeouts_of entries
    end.
Proof. reflexivity. Qed.

Lemma reject_all_timers entries w t :
  timers (fold_left reject_entry entries w) !! t
  = if decide (t ∈ timeouts_of entries) then None else timers w !! t.
Proof.
  revert w. induction entries as [|entry entries IH]; intros w; cbn [fold_left].
  - destruct (decide (t ∈ timeouts_of [])) as [Hin|_]; [|done].
    by apply elem_of_nil in Hin.
  - rewrite IH. unfold reject_entry. rewrite settleWs_timers, clearTimer_if_lookup.
    rewrite timeouts_of_cons.
    destruct (timeout entry.2) as [t'|].
    + destruct (decide (t ∈ timeouts_of entries)) as [Hin|Hnin];
        destruct (decide (Some t' = Some t)) as [[= ->]|Hne];
        destruct (decide (t ∈ _ :: timeouts_of entries)) as [Hin'|Hnin']; try done.
      * exfalso. apply Hnin'. by right.
      * exfalso. apply Hnin'. by right.
      * exfalso. apply Hnin'. left.
      * apply elem_of_cons in Hin' as [->|?]; done.
    + destruct (decide (None = Some t)); [done|].
      by destruct (decide (t ∈ timeouts_of entries)).
Qed.
End ClearAll.

Lemma clearPendingRequests_spec error w :
  let w' := clearPendingRequests error w in
  pendingRequests (client w') = []
  /\ trace w' = trace w ++ rejections error (pendingRequests (client w))
  /\ (forall t, timers w' !! t
               = if decide (t ∈ timeouts_of (pendingRequests (client w)))
                 then None else timers w !! t)
  /\ sockets w' = sockets w
  /\ ws (client w') = ws (client w)
  /\ connectionState (client w') = connectionState (client w)
  /\ requestId (client w') = requestId (client w)
  /\ reconnectAttempts (client w') = reconnectAttempts (client w)
  /\ reconnectTimeout (client w') = reconnectTimeout (client w)
  /\ heartbeatInterval (client w') = heartbeatInterval (client w)
  /\ options (client w') = options (client w).
Proof.
  unfold clearPendingRequests. simpl.
  rewrite reject_all_client, reject_all_trace, reject_all_sockets.
  repeat split. intros t. apply reject_all_timers.
Qed.


(** *** Reconnection *)

Lemma js_incr_exact n : n < 2 ^ 53 -> js_incr n = n + 1.
Proof. intros Hn. unfold js_incr. by rewrite (proj2 (Z.ltb_lt _ _) Hn). Qed.

Lemma js_incr_bounds n : n <= js_incr n <= n + 1.
Proof. unfold js_incr. destruct (n <? 2 ^ 53); lia. Qed.

(** The cases of the goal and of the hypotheses are split until none is
    left. *)
Ltac crunch :=
  repeat (simpl in *; simplify_eq; simpl in *;
          match goal with
          | |- context [match ?x with _ => _ end] => destruct x eqn:?
          | H : context [match ?x with _ => _ end] |- _ => destruct x eqn:?
          end);
  simpl in *; simplify_eq; simpl in *.

Lemma stopHeartbeat_timers w t tm :
  timers (stopHeartbeat w) !! t = Some tm -> timers w !! t = Some tm.
Proof.
  unfold stopHeartbeat. destruct (heartbeatInterval (client w)) as [hb|]; simpl; [|done].
  rewrite lookup_delete. by case_decide.
Qed.

(** The steps of the reconnection policy, in any world whose counter a
    double still counts exactly. *)
Lemma reconnection_steps w :
  reconnectAttempts (client w) < 2 ^ 53 ->
  (let w' := attemptReconnect w in
   reconnectAttempts (client w') = reconnectAttempts (client w) + 1
   /\ connectionState (client w') = RECONNECTING
   /\ reconnectTimeout (client w') = Some (nextTimer w)
   /\ timers w' !! nextTimer w
      = Some {| action := Reconnect;
                delay := Options.reconnectInterval (options (client w)) |}
   /\ trace w' = trace w ++ [Notify (onReconnecting (reconnectAttempts (client w) + 1))])
  /\ (Options.autoReconnect (options (client w)) = true ->
      reconnectAttempts (client w) < Options.maxReconnectAttempts (options (client w)) ->
      let w' := onclose w in
      reconnectAttempts (client w') = reconnectAttempts (client w) + 1
      /\ connectionState (client w') = RECONNECTING
      /\ (exists t, reconnectTimeout (client w') = Some t
                    /\ action <$> timers w' !! t = Some Reconnect))
  /\ (Options.maxReconnectAttempts (options (client w)) <= reconnectAttempts (client w) ->
      let w' := onclose w in
      connectionState (client w') = DISCONNECTED
      /\ reconnectAttempts (client w') = reconnectAttempts (client w)
      /\ reconnectTimeout (client w') = reconnectTimeout (client w)
      /\ nextTimer w' = nextTimer w
      /\ (forall t tm, timers w' !! t = Some tm -> timers w !! t = Some tm))
  /\ (reconnectAttempts (client (onopen w)) = 0
      /\ connectionState (client (onopen w)) = CONNECTED)
  /\ (forall s, sockets w !! s = Some WS_CONNECTING ->
      reconnectAttempts (client (socketOpens s w)) = 0
      /\ connectionState (client (socketOpens s w)) = CONNECTED).
Proof.
  intros Hexact. split; [|split; [|split; [|split]]].
  - unfold attemptReconnect. simpl. rewrite js_incr_exact by done.
    repeat split. by rewrite lookup_insert_eq.
  - intros Hauto Hlt. unfold onclose.
    assert (Hguard : Options.autoReconnect (options (client (emit (Notify onDisconnect)
                         (stopHeartbeat (setConnectionState DISCONNECTED w)))))
                     && (reconnectAttempts (client (emit (Notify onDisconnect)
                         (stopHeartbeat (setConnectionState DISCONNECTED w))))
                         <? Options.maxReconnectAttempts (options (client (emit (Notify onDisconnect)
                         (stopHeartbeat (setConnectionState DISCONNECTED w)))))) = true).
    { unfold stopHeartbeat. simpl. destruct (heartbeatInterval (client w)); simpl;
        rewrite Hauto; simpl; by apply Z.ltb_lt. }
    cbv zeta. rewrite Hguard. unfold attemptReconnect, stopHeartbeat. simpl.
    destruct (heartbeatInterval (client w)); simpl; rewrite js_incr_exact by done;
      (split; [done|]; split; [done|]; eexists; split; [done|]);
      by rewrite lookup_insert_eq.
  - intros Hge. unfold onclose.
    assert (Hguard : Options.autoReconnect (options (client (emit (Notify onDisconnect)
                         (stopHeartbeat (setConnectionState DISCONNECTED w)))))
                     && (reconnectAttempts (client (emit (Notify onDisconnect)
                         (stopHeartbeat (setConnectionState DISCONNECTED w))))
                         <? Options.maxReconnectAttempts (options (client (emit (Notify onDisconnect)
                         (stopHeartbeat (setConnectionState DISCONNECTED w)))))) = false).
    { unfold stopHeartbeat. simpl. destruct (heartbeatInterval (client w)); simpl;
        apply andb_false_iff; right; by apply Z.ltb_ge. }
    cbv zeta. rewrite Hguard. unfold stopHeartbeat. simpl.
    destruct (heartbeatInterval (client w)) as [hb|]; simpl; repeat split; try done.
    intros t tm. rewrite lookup_delete. by case_decide.
  - unfold onopen, startHeartbeat, stopHeartbeat. simpl.
    destruct (Options.enableHeartbeat (options (client w))); simpl; [|done].
    destruct (heartbeatInterval (client w)); done.
  - intros s Hs. unfold socketOpens. rewrite Hs.
    unfold onopen, startHeartbeat, stopHeartbeat. simpl.
    destruct (Options.enableHeartbeat (options (client w))); simpl;
      [destruct (heartbeatInterval (client w)); simpl|];
      destruct (opening w !! s) as [[c t]|]; done.
Qed.

Lemma attempts_bounded_same_client M w w' :
  client w' = client w -> attempts_bounded M w -> attempts_bounded M w'.
Proof. unfold attempts_bounded. by intros ->. Qed.

Lemma attempts_bounded_connect M w : attempts_bounded M w -> attempts_bounded M (connect w).2.
Proof. unfold attempts_bounded, connect. crunch; done. Qed.

Lemma attempts_bounded_callViaHTTP M caller method params opts w :
  attempts_bounded M w -> attempts_bounded M (callViaHTTP_ caller method params opts w).2.
Proof. unfold attempts_bounded, callViaHTTP_. crunch; done. Qed.

Lemma attempts_bounded_callViaWebSocket M caller method params opts w :
  attempts_bounded M w -> attempts_bounded M (callViaWebSocket_ caller method params opts w).2.
Proof.
  unfold attempts_bounded, callViaWebSocket_, sendMessage, settleWs. crunch; done.
Qed.

Lemma attempts_bounded_call M method params opts w :
  attempts_bounded M w -> attempts_bounded M (call method params opts w).2.
Proof.
  intros Hw. unfold call. cbn [newPromise]. cbv zeta.
  match goal with
  | |- context [if decide (connectionState (client ?W) = CONNECTED) then _ else _] =>
      assert (HW : attempts_bounded M W); [|destruct (decide (connectionState (client W) = CONNECTED))]
  end.
  - match goal with
    | |- attempts_bounded M (if ?b then _ else _) => destruct b
    end.
    + unfold autoConnect. case_decide; [|done]. by apply attempts_bounded_connect.
    + done.
  - simpl. by apply attempts_bounded_callViaWebSocket.
  - simpl. by apply attempts_bounded_callViaHTTP.
Qed.

Lemma attempts_bounded_disconnect M w :
  attempts_bounded M w -> attempts_bounded M (disconnect w).
Proof.
  unfold attempts_bounded, disconnect. cbv zeta.
  match goal with
  | |- context [clearPendingRequests ?e ?W] =>
      destruct (clearPendingRequests_spec e W)
        as (_ & _ & _ & _ & _ & _ & _ & -> & _ & _ & ->)
  end.
  destruct w as [[s0 ? ? ? ? rt hb ?] ? ? ? ? ? ? ? ? ? ? ?].
  destruct rt, hb, s0; done.
Qed.

Lemma attempts_bounded_onclose M w : attempts_bounded M w -> attempts_bounded M (onclose w).
Proof.
  unfold attempts_bounded, onclose, attemptReconnect, stopHeartbeat.
  intros [Hb HM]. crunch; try done.
  all: match goal with
       | H : _ && _ = true |- _ => apply andb_true_iff in H as [_ Hlt%Z.ltb_lt]
       end.
  all: split; [|done].
  all: pose proof (js_incr_bounds (reconnectAttempts (client w))); lia.
Qed.

Lemma attempts_bounded_onopen M w : attempts_bounded M w -> attempts_bounded M (onopen w).
Proof.
  unfold attempts_bounded, onopen, startHeartbeat, stopHeartbeat.
  intros [Hb HM]. crunch; (split; [lia | done]).
Qed.

Lemma attempts_bounded_handleMessage M data w :
  attempts_bounded M w -> attempts_bounded M (leaves (handleMessage data w)).
Proof.
  unfold attempts_bounded, handleMessage, leaves, settleWs, clearTimer_if. crunch; done.
Qed.

Lemma attempts_bounded_handle M i w :
  attempts_bounded M w -> attempts_bounded M (handle i w).
Proof.
  intros Hw. destruct i; cbn [handle].
  - by apply attempts_bounded_connect.
  - by apply attempts_bounded_disconnect.
  - by apply attempts_bounded_call.
  - by apply attempts_bounded_callViaWebSocket.
  - by apply attempts_bounded_callViaHTTP.
  - done.
  - unfold socketOpens. destruct (sockets w !! s) as [[]|]; try done.
    match goal with
    | |- attempts_bounded M (match opening ?W !! s with _ => _ end) =>
        assert (HW : attempts_bounded M W)
          by (apply attempts_bounded_onopen; revert Hw; by apply attempts_bounded_same_client);
        destruct (opening W !! s) as [[c t]|]; [|done]
    end.
    revert HW. by apply attempts_bounded_same_client.
  - unfold socketClosing. destruct (sockets w !! s) as [[]|]; try done.
  - unfold socketErrors, onerror. destruct (sockets w !! s); [|done]. simpl.
    destruct (opening w !! s) as [[c t]|]; done.
  - unfold socketCloses. destruct (sockets w !! s) as [[]|]; try done;
      apply attempts_bounded_onclose; revert Hw; by apply attempts_bounded_same_client.
  - unfold socketMessage.
    destruct (sockets w !! s) as [[]|]; try done; destruct frame; try done.
    all: destruct (onmessage_parsed data w) as [-> | ->].
    all: eapply attempts_bounded_same_client;
      [|apply (attempts_bounded_handleMessage M data w Hw)]; done.
  - unfold timerFires. destruct (timers w !! t) as [[[] ?]|]; try done.
    + revert Hw. unfold attempts_bounded, settleWs. crunch; done.
    + simpl. destruct (opening w !! s) as [[c t']|]; done.
    + apply attempts_bounded_connect. revert Hw. by apply attempts_bounded_same_client.
    + destruct (ws (client w)); [|done]. destruct (sockets w !! n) as [[]|]; done.
  - unfold httpReplies. destruct (exchanges w !! x); [|done]. simpl.
    destruct (x_adopt e); done.
Qed.

Lemma attempts_bounded_runJob M j w :
  attempts_bounded M w -> attempts_bounded M (runJob j w).
Proof.
  intros Hw. destruct j as [ctx [v|e]|q o|c e]; cbn [runJob]; try done.
  by apply attempts_bounded_callViaHTTP.
Qed.

Lemma attempts_bounded_drain M w : attempts_bounded M w -> attempts_bounded M (drain w).
Proof.
  unfold drain. generalize (microtasks w). intros jobs. revert w.
  induction jobs as [|j jobs IH]; intros w Hw; simpl; [done|].
  apply IH, attempts_bounded_runJob. exact Hw.
Qed.

Lemma attempts_bounded_step M i w : attempts_bounded M w -> attempts_bounded M (step w i).
Proof.
  intros Hw. unfold step. destruct (from_user i).
  - by apply attempts_bounded_handle.
  - by apply attempts_bounded_drain, attempts_bounded_handle, attempts_bounded_drain.
Qed.

Lemma attempts_bounded_reachable opts w :
  reachable opts w -> attempts_bounded (Options.maxReconnectAttempts opts) w.
Proof.
  induction 1 as [|w i _ IH].
  - unfold construct, autoConnect, connect.
    destruct (Options.autoConnect opts); simpl; (split; [simpl; lia | done]).
  - by apply attempts_bounded_step.
Qed.

(** *** At the maximum *)

Lemma halted_refl w : at_maximum w -> halted w w.
Proof.
  intros Hat. split; [done|]. split; [done|]. split; [done|]. split; [|done].
  exists []. by rewrite app_nil_r.
Qed.

Lemma halted_trans w1 w2 w3 : halted w1 w2 -> halted w2 w3 -> halted w1 w3.
Proof.
  intros (_ & Hc1 & Hm1 & (evs1 & Ht1 & Hv1) & Hr1) (Hat & Hc2 & Hm2 & (evs2 & Ht2 & Hv2) & Hr2).
  split; [done|]. split; [congruence|]. split; [congruence|]. split.
  - exists (evs1 ++ evs2). split; [by rewrite Ht2, Ht1, <- app_assoc|].
    by rewrite forallb_app, Hv1, Hv2.
  - intros t tm Ht Ha. apply Hr1; [|done]. by apply Hr2.
Qed.

Lemma halted_at w w' : halted w w' -> at_maximum w'.
Proof. by intros [? _]. Qed.

Ltac solve_halted :=
  unfold halted, at_maximum in *; simpl;
  split; [done|]; split; [done|]; split; [done|];
  split; [eexists; split; [rewrite <- ?app_assoc; try reflexivity; by rewrite app_nil_r|done]|];
  let t := fresh "t" in
  let tm := fresh "tm" in
  intros t tm;
  repeat (rewrite lookup_insert || rewrite lookup_delete);
  repeat case_decide; intros; simplify_eq; done.

Lemma halted_connect w : at_maximum w -> halted w (connect w).2.
Proof. intros Hat. unfold connect. crunch; solve_halted. Qed.

Lemma halted_callViaHTTP caller method params opts w :
  at_maximum w -> halted w (callViaHTTP_ caller method params opts w).2.
Proof. intros Hat. unfold callViaHTTP_. crunch; solve_halted. Qed.

Lemma halted_callViaWebSocket caller method params opts w :
  at_maximum w -> halted w (callViaWebSocket_ caller method params opts w).2.
Proof. intros Hat. unfold callViaWebSocket_, sendMessage, settleWs. crunch; solve_halted. Qed.

Lemma halted_call method params opts w :
  at_maximum w -> halted w (call method params opts w).2.
Proof.
  intros Hat. unfold call. cbn [newPromise]. cbv zeta.
  match goal with
  | |- context [if decide (connectionState (client ?W) = CONNECTED) then _ else _] =>
      assert (HW : halted w W); [|destruct (decide (connectionState (client W) = CONNECTED))]
  end.
  - match goal with
    | |- halted w (if ?b then _ else _) => destruct b
    end.
    + unfold autoConnect. case_decide; [|solve_halted].
      eapply halted_trans; [|apply halted_connect; exact Hat]. solve_halted.
    + solve_halted.
  - cbn [snd]. eapply halted_trans; [exact HW|].
    apply halted_callViaWebSocket, (halted_at _ _ HW).
  - cbn [snd]. eapply halted_trans; [exact HW|].
    apply halted_callViaHTTP, (halted_at _ _ HW).
Qed.

Lemma halted_clearPendingRequests error w :
  at_maximum w -> halted w (clearPendingRequests error w).
Proof.
  intros Hat.
  destruct (clearPendingRequests_spec error w)
    as (_ & Htr & Htm & _ & _ & _ & _ & Hra & _ & _ & Hop).
  split; [unfold at_maximum; by rewrite Hop, Hra|].
  split; [done|]. split; [by rewrite Hop|]. split.
  - exists (rejections error (pendingRequests (client w))). split; [done|].
    unfold rejections. generalize (pendingRequests (client w)). intros l. by induction l.
  - intros t tm. rewrite Htm. by case_decide.
Qed.

Lemma halted_disconnect w : at_maximum w -> halted w (disconnect w).
Proof.
  intros Hat. unfold disconnect. cbv zeta.
  eapply halted_trans; [|apply halted_clearPendingRequests].
  - destruct w as [[s0 ? ? ? ? rt hb ?] ? ? ? ? ? ? ? ? ? ? ?].
    unfold closeSocket. destruct rt, hb, s0; solve_halted.
  - destruct w as [[s0 ? ? ? ? rt hb ?] ? ? ? ? ? ? ? ? ? ? ?].
    by destruct rt, hb, s0.
Qed.

Lemma halted_onclose w : at_maximum w -> halted w (onclose w).
Proof.
  intros Hat. unfold onclose, stopHeartbeat. pose proof Hat as Hge. unfold at_maximum in Hge.
  destruct (heartbeatInterval (client (setConnectionState DISCONNECTED w))) eqn:Hhb;
    simpl in *; rewrite (proj2 (Z.ltb_ge _ _) Hge), andb_false_r; solve_halted.
Qed.

Lemma halted_handleMessage data w :
  at_maximum w -> halted w (leaves (handleMessage data w)).
Proof.
  intros Hat. unfold handleMessage, leaves, clearTimer_if, settleWs.
  crunch; solve_halted || by apply halted_refl.
Qed.

(** Whatever happens to the client, a socket that opens apart. *)
Lemma halted_handle i w : is_open i = false -> at_maximum w -> halted w (handle i w).
Proof.
  intros Hi Hat. destruct i; cbn [handle]; try done.
  - by apply halted_connect.
  - by apply halted_disconnect.
  - by apply halted_call.
  - by apply halted_callViaWebSocket.
  - by apply halted_callViaHTTP.
  - by apply halted_refl.
  - unfold socketClosing. crunch; solve_halted || by apply halted_refl.
  - unfold socketErrors, onerror, enqueue. crunch; solve_halted || by apply halted_refl.
  - unfold socketCloses.
    destruct (sockets w !! s) as [[]|]; try (by apply halted_refl).
    all: eapply halted_trans; [|apply halted_onclose; exact Hat]; solve_halted.
  - unfold socketMessage.
    destruct (sockets w !! s) as [[]|]; try (by apply halted_refl);
      (destruct frame; [by apply halted_refl|]).
    all: destruct (onmessage_parsed data w) as [-> | ->];
      [by apply halted_handleMessage|].
    all: pose proof (halted_handleMessage data w Hat) as H1.
    all: eapply halted_trans; [exact H1|]; pose proof (halted_at _ _ H1); solve_halted.
  - unfold timerFires.
    destruct (timers w !! t) as [[[i p method|s| |] ms]|] eqn:Htm; try (by apply halted_refl).
    + unfold settleWs. crunch; solve_halted.
    + unfold enqueue. crunch; solve_halted.
    + eapply halted_trans; [|apply halted_connect; exact Hat]. solve_halted.
    + crunch; solve_halted || by apply halted_refl.
  - unfold httpReplies, enqueue. crunch; solve_halted || by apply halted_refl.
Qed.

Lemma halted_drain w : at_maximum w -> halted w (drain w).
Proof.
  intros Hat. unfold drain.
  assert (H : forall jobs w0, halted w w0 ->
            halted w (fold_left (fun w j => runJob j (dequeue w)) jobs w0)).
  { induction jobs as [|j jobs IH]; intros w0 H0; cbn [fold_left]; [exact H0|].
    apply IH. eapply halted_trans; [exact H0|].
    pose proof (halted_at _ _ H0) as Hat0.
    destruct j as [ctx [v|e]|q o|c e]; cbn [runJob].
    - solve_halted.
    - eapply halted_trans; [|apply halted_callViaHTTP; exact Hat0]. solve_halted.
    - solve_halted.
    - solve_halted. }
  by apply H, halted_refl.
Qed.

Lemma halted_step i w : is_open i = false -> at_maximum w -> halted w (step w i).
Proof.
  intros Hi Hat. unfold step. destruct (from_user i); [by apply halted_handle|].
  pose proof (halted_drain w Hat) as H1.
  pose proof (halted_handle i _ Hi (halted_at _ _ H1)) as H2.
  pose proof (halted_drain _ (halted_at _ _ H2)) as H3.
  eapply halted_trans; [exact H1|]. eapply halted_trans; [exact H2|exact H3].
Qed.

Lemma halted_run inputs w :
  forallb (fun i => negb (is_open i)) inputs = true -> at_maximum w -> halted w (run w inputs).
Proof.
  revert w. induction inputs as [|i inputs IH]; intros w Hin Hat; [by apply halted_refl|].
  simpl in Hin. apply andb_true_iff in Hin as [Hi%negb_true_iff Hin].
  simpl. pose proof (halted_step i w Hi Hat) as H1.
  eapply halted_trans; [exact H1|]. apply IH; [done|]. exact (halted_at _ _ H1).
Qed.

(** [call] connects a client that is disconnected, and does not count it. *)
Lemma call_connects_uncounted method params opts w :
  Options.autoConnect (options (client w)) = true ->
  connectionState (client w) = DISCONNECTED ->
  let w' := (call method params opts w).2 in
  connectionState (client w') = CONNECTING
  /\ ws (client w') = Some (nextSocket w)
  /\ sockets w' !! nextSocket w = Some WS_CONNECTING
  /\ NewWebSocket (nextSocket w) ∈ trace w'
  /\ reconnectAttempts (client w') = reconnectAttempts (client w).
Proof.
  intros Hauto Hstate. unfold call, autoConnect, connect, callViaHTTP_. simpl.
  rewrite Hauto, Hstate. simpl.
  destruct (CallOptions.notification opts); simpl;
    (split; [done|]; split; [done|]; split; [by rewrite lookup_insert_eq|]; split; [|done]);
    rewrite !elem_of_app, !list_elem_of_singleton; tauto.
Qed.

(** C6, as amended.  In every world a client can reach, with a configured
    maximum a double counts exactly: the counter of reconnects lies between
    0 and the maximum.  Scheduling a reconnect counts it: when a socket
    closes with the counter below the maximum (and [autoReconnect] on), the
    counter grows by one, the client is reconnecting and the reconnect timer
    is armed.  When a socket closes with the counter at the maximum, no
    reconnect is scheduled: the client is disconnected, the counter is what
    it was and no timer is armed; and from then on, as long as no socket
    opens, whatever else happens, the counter stays, no reconnect is
    announced and no reconnect timer is armed.  The client need not stay
    disconnected: a [call] with [autoConnect] on connects it again, without
    counting.  When a socket opens, the counter is zero again and the
    client is connected, so reconnects are scheduled anew when that socket
    closes. *)
Theorem reconnection_policy opts w :
  reachable opts w ->
  Options.maxReconnectAttempts opts <= 2 ^ 53 ->
  let M := Options.maxReconnectAttempts (options (client w)) in
  M = Options.maxReconnectAttempts opts
  /\ 0 <= reconnectAttempts (client w) <= Z.max 0 M
  /\ (Options.autoReconnect (options (client w)) = true ->
      reconnectAttempts (client w) < M ->
      let w' := onclose w in
      reconnectAttempts (client w') = reconnectAttempts (client w) + 1
      /\ connectionState (client w') = RECONNECTING
      /\ (exists t, reconnectTimeout (client w') = Some t
                    /\ action <$> timers w' !! t = Some Reconnect))
  /\ (M <= reconnectAttempts (client w) ->
      let w' := onclose w in
      connectionState (client w') = DISCONNECTED
      /\ reconnectAttempts (client w') = reconnectAttempts (client w)
      /\ reconnectTimeout (client w') = reconnectTimeout (client w)
      /\ nextTimer w' = nextTimer w
      /\ (forall t tm, timers w' !! t = Some tm -> timers w !! t = Some tm))
  /\ (M <= reconnectAttempts (client w) ->
      forall inputs,
        forallb (fun i => negb (is_open i)) inputs = true ->
        let w' := run w inputs in
        reconnectAttempts (client w') = reconnectAttempts (client w)
        /\ (exists evs, trace w' = trace w ++ evs
                        /\ forall attempt, Notify (onReconnecting attempt) ∉ evs)
        /\ (forall t tm, timers w' !! t = Some tm -> action tm = Reconnect ->
              timers w !! t = Some tm))
  /\ (Options.autoConnect (options (client w)) = true ->
      connectionState (client w) = DISCONNECTED ->
      forall method params copts,
        let w' := (call method params copts w).2 in
        connectionState (client w') = CONNECTING
        /\ sockets w' !! nextSocket w = Some WS_CONNECTING
        /\ NewWebSocket (nextSocket w) ∈ trace w'
        /\ reconnectAttempts (client w') = reconnectAttempts (client w))
  /\ (forall s, sockets w !! s = Some WS_CONNECTING ->
      reconnectAttempts (client (socketOpens s w)) = 0
      /\ connectionState (client (socketOpens s w)) = CONNECTED).
Proof.
  intros Hreach Hmax M.
  destruct (attempts_bounded_reachable opts w Hreach) as [Hb HM]. fold M in HM.
  rewrite <- HM in Hb, Hmax.
  assert (Hat : M <= reconnectAttempts (client w) ->
            let w' := onclose w in
            connectionState (client w') = DISCONNECTED
            /\ reconnectAttempts (client w') = reconnectAttempts (client w)
            /\ reconnectTimeout (client w') = reconnectTimeout (client w)
            /\ nextTimer w' = nextTimer w
            /\ (forall t tm, timers w' !! t = Some tm -> timers w !! t = Some tm)).
  { intros Hge. unfold onclose.
    assert (Hguard : Options.autoReconnect (options (client (emit (Notify onDisconnect)
                       (stopHeartbeat (setConnectionState DISCONNECTED w)))))
                   && (reconnectAttempts (client (emit (Notify onDisconnect)
                       (stopHeartbeat (setConnectionState DISCONNECTED w))))
                       <? Options.maxReconnectAttempts (options (client (emit (Notify onDisconnect)
                       (stopHeartbeat (setConnectionState DISCONNECTED w)))))) = false).
    { unfold stopHeartbeat. simpl. destruct (heartbeatInterval (client w)); simpl;
        apply andb_false_iff; right; by apply Z.ltb_ge. }
    cbv zeta. rewrite Hguard. unfold stopHeartbeat. simpl.
    destruct (heartbeatInterval (client w)) as [hb|]; simpl; repeat split; try done.
    intros t tm. rewrite lookup_delete. by case_decide. }
  assert (Hopen : forall s, sockets w !! s = Some WS_CONNECTING ->
            reconnectAttempts (client (socketOpens s w)) = 0
            /\ connectionState (client (socketOpens s w)) = CONNECTED).
  { intros s Hs. unfold socketOpens. rewrite Hs.
    unfold onopen, startHeartbeat, stopHeartbeat. simpl.
    destruct (Options.enableHeartbeat (options (client w))); simpl;
      [destruct (heartbeatInterval (client w)); simpl|];
      destruct (opening w !! s) as [[c t]|]; done. }
  assert (Hstay : M <= reconnectAttempts (client w) ->
            forall inputs,
              forallb (fun i => negb (is_open i)) inputs = true ->
              let w' := run w inputs in
              reconnectAttempts (client w') = reconnectAttempts (client w)
              /\ (exists evs, trace w' = trace w ++ evs
                              /\ forall attempt, Notify (onReconnecting attempt) ∉ evs)
              /\ (forall t tm, timers w' !! t = Some tm -> action tm = Reconnect ->
                    timers w !! t = Some tm)).
  { intros Hge inputs Hin w'.
    destruct (halted_run inputs w Hin Hge) as (_ & Hc & _ & (evs & Htr & Hev) & Htm).
    split; [done|]. split; [|done].
    exists evs. split; [done|]. intros attempt Hin'.
    rewrite forallb_forall in Hev. apply list_elem_of_In in Hin'.
    by specialize (Hev _ Hin'). }
  assert (Hcall : Options.autoConnect (options (client w)) = true ->
            connectionState (client w) = DISCONNECTED ->
            forall method params copts,
              let w' := (call method params copts w).2 in
              connectionState (client w') = CONNECTING
              /\ sockets w' !! nextSocket w = Some WS_CONNECTING
              /\ NewWebSocket (nextSocket w) ∈ trace w'
              /\ reconnectAttempts (client w') = reconnectAttempts (client w)).
  { intros Hauto Hstate method params copts.
    destruct (call_connects_uncounted method params copts w Hauto Hstate)
      as (H1 & _ & H2 & H3 & H4). done. }
  split; [done|]. split; [done|].
  split; [|split; [exact Hat|split; [exact Hstay|split; [exact Hcall|exact Hopen]]]].
  destruct (Z_lt_le_dec (reconnectAttempts (client w)) (2 ^ 53)) as [Hexact|Hbig].
  - by destruct (reconnection_steps w Hexact) as (_ & Hbelow & _).
  - intros. lia.
Qed.

(** C6, as stated, fails: at the maximum the client does not stay
    disconnected and reconnects are scheduled again.  Five reconnects fail
    one after the other, so the counter is at the maximum, 5, and the
    client is disconnected.  A [call] then opens a sixth socket without
    counting; that socket opens, which resets the counter, and closes: a
    reconnect is scheduled, the sixth. *)
Lemma reconnects_resume_after_maximum :
  let copts := {| CallOptions.timeout := None; CallOptions.notification := false |} in
  let w5 := run (construct Options.defaults)
              [SocketCloses 0; TimerFires 2 0; SocketCloses 1; TimerFires 4 0;
               SocketCloses 2; TimerFires 6 0; SocketCloses 3; TimerFires 8 0;
               SocketCloses 4; TimerFires 10 0; SocketCloses 5] in
  let w6 := step w5 (DoCall (js "common:getNodes") VUndefined copts) in
  let w7 := run w6 [SocketOpens 6; SocketCloses 6] in
  (reconnectAttempts (client w5) = 5
   /\ Options.maxReconnectAttempts (options (client w5)) = 5
   /\ connectionState (client w5) = DISCONNECTED
   /\ sockets w5 !! 6%nat = None
   /\ timers w5 !! 14%nat = None)
  /\ (connectionState (client w6) = CONNECTING
      /\ reconnectAttempts (client w6) = 5
      /\ sockets w6 !! 6%nat = Some WS_CONNECTING)
  /\ (connectionState (client w7) = RECONNECTING
      /\ reconnectAttempts (client w7) = 1
      /\ reconnectTimeout (client w7) = Some 14%nat
      /\ action <$> timers w7 !! 14%nat = Some Reconnect
      /\ List.filter is_reconnecting (trace w7)
         = [Notify (onReconnecting 1); Notify (onReconnecting 2);
            Notify (onReconnecting 3); Notify (onReconnecting 4);
            Notify (onReconnecting 5); Notify (onReconnecting 1)]).
Proof. vm_compute. repeat split. Qed.

Lemma reconnection_policy_witness :
  let copts := {| CallOptions.timeout := None; CallOptions.notification := false |} in
  let w1 := run (construct Options.defaults) [SocketCloses 0; TimerFires 2 0] in
  let w5 := run w1 [SocketCloses 1; TimerFires 4 0; SocketCloses 2; TimerFires 6 0;
                    SocketCloses 3; TimerFires 8 0; SocketCloses 4; TimerFires 10 0;
                    SocketCloses 5] in
  let inputs := [DoCall (js "common:getNodes") VUndefined copts;
                 SocketErrors 6; SocketCloses 6; DoConnect; SocketCloses 7;
                 TimerFires 2 0] in
  reachable Options.defaults w5
  /\ Options.maxReconnectAttempts Options.defaults <= 2 ^ 53
  /\ reconnectAttempts (client w1) = 1
  /\ reconnectAttempts (client (onclose w1)) = reconnectAttempts (client w1) + 1
  /\ connectionState (client (onclose w1)) = RECONNECTING
  /\ reconnectAttempts (client w5) = 5
  /\ connectionState (client (onclose w5)) = DISCONNECTED
  /\ reconnectAttempts (client (run w5 inputs)) = reconnectAttempts (client w5)
  /\ (forall t tm, timers (run w5 inputs) !! t = Some tm -> action tm = Reconnect ->
        timers w5 !! t = Some tm).
Proof.
  intros copts w1 w5 inputs.
  assert (H1 : reachable Options.defaults w1)
    by (apply reachable_run, reachable_construct).
  assert (H5 : reachable Options.defaults w5) by (apply reachable_run, H1).
  assert (Hmax : Options.maxReconnectAttempts Options.defaults <= 2 ^ 53)
    by (apply Z.leb_le; vm_compute; reflexivity).
  assert (Hauto : Options.autoReconnect (options (client w1)) = true)
    by (vm_compute; reflexivity).
  assert (Hbelow : reconnectAttempts (client w1)
                   < Options.maxReconnectAttempts (options (client w1)))
    by (apply Z.ltb_lt; vm_compute; reflexivity).
  assert (Hat : Options.maxReconnectAttempts (options (client w5))
                <= reconnectAttempts (client w5))
    by (apply Z.leb_le; vm_compute; reflexivity).
  assert (Hin : forallb (fun i => negb (is_open i)) inputs = true)
    by (vm_compute; reflexivity).
  destruct (reconnection_policy Options.defaults w1 H1 Hmax) as (_ & _ & Hcount & _).
  destruct (Hcount Hauto Hbelow) as (Hinc & Hrec & _).
  destruct (reconnection_policy Options.defaults w5 H5 Hmax)
    as (_ & _ & _ & Hstop & Hstay & _).
  destruct (Hstop Hat) as (Hdis & _).
  destruct (Hstay Hat inputs Hin) as (Hsame & _ & Htimers).
  split; [exact H5|]. split; [exact Hmax|]. split; [vm_compute; reflexivity|].
  split; [exact Hinc|]. split; [exact Hrec|]. split; [vm_compute; reflexivity|].
  split; [exact Hdis|]. split; [exact Hsame | exact Htimers].
Defined.

(** *** Request ids *)

Lemma ids_wf_at_incr rid pending : ids_wf_at rid pending -> ids_wf_at (js_incr rid) pending.
Proof.
  intros (H0 & Hnd & Hk). pose proof (js_incr_bounds rid).
  split; [lia|]. split; [done|]. intros i Hi. destruct (Hk i Hi) as (n & -> & Hn).
  exists n. split; [done | lia].
Qed.

Lemma ids_wf_at_delete rid pending i :
  ids_wf_at rid pending -> ids_wf_at rid (Map_delete pending i).
Proof.
  intros (H0 & Hnd & Hk). split; [done|]. split; [by apply Map_delete_NoDup|].
  intros k Hin. apply Hk. eapply elem_of_sublist; [exact Hin|].
  apply (fmap_sublist fst), Map_delete_sublist.
Qed.

Lemma ids_wf_at_set rid pending entry :
  ids_wf_at rid pending ->
  ids_wf_at (js_incr rid) (Map_set pending (IdNum (js_incr rid)) entry).
Proof.
  intros Hwf. pose proof Hwf as (Hrid & _ & _).
  apply ids_wf_at_incr in Hwf as (H0 & Hnd & Hk).
  assert (H1 : 1 <= js_incr rid).
  { unfold js_incr in *. destruct (rid <? 2 ^ 53) eqn:E; [lia|]. apply Z.ltb_ge in E. lia. }
  split; [done|]. split; [by apply Map_set_NoDup|].
  intros i. rewrite Map_set_keys. case_decide; [by apply Hk|].
  rewrite elem_of_app, list_elem_of_singleton. intros [Hi| ->]; [by apply Hk|].
  exists (js_incr rid). split; [done | lia].
Qed.

Lemma ids_wf_at_nil rid pending : ids_wf_at rid pending -> ids_wf_at rid [].
Proof.
  intros (H0 & _ & _). split; [done|]. split; [apply NoDup_nil_2|].
  intros i Hi. by apply elem_of_nil in Hi.
Qed.

Create HintDb ids.
#[local] Hint Resolve ids_wf_at_incr ids_wf_at_delete ids_wf_at_set ids_wf_at_nil : ids.

Lemma ids_wf_connect w : ids_wf w -> ids_wf (connect w).2.
Proof. unfold ids_wf, connect. crunch; done. Qed.

Lemma ids_wf_callViaHTTP caller method params opts w :
  ids_wf w -> ids_wf (callViaHTTP_ caller method params opts w).2.
Proof. unfold ids_wf, callViaHTTP_. crunch; eauto with ids. Qed.

Lemma ids_wf_callViaWebSocket caller method params opts w :
  ids_wf w -> ids_wf (callViaWebSocket_ caller method params opts w).2.
Proof.
  unfold ids_wf, callViaWebSocket_, sendMessage, settleWs. crunch; eauto with ids.
Qed.

Lemma ids_wf_same_client w w' : client w' = client w -> ids_wf w -> ids_wf w'.
Proof. unfold ids_wf. by intros ->. Qed.

Lemma ids_wf_call method params opts w : ids_wf w -> ids_wf (call method params opts w).2.
Proof.
  intros Hw. unfold call. cbn [newPromise]. cbv zeta.
  match goal with
  | |- context [if decide (connectionState (client ?W) = CONNECTED) then _ else _] =>
      assert (HW : ids_wf W); [|destruct (decide (connectionState (client W) = CONNECTED))]
  end.
  - match goal with
    | |- ids_wf (if ?b then _ else _) => destruct b
    end.
    + unfold autoConnect. case_decide; [|done]. by apply ids_wf_connect.
    + done.
  - simpl. by apply ids_wf_callViaWebSocket.
  - simpl. by apply ids_wf_callViaHTTP.
Qed.

Lemma ids_wf_disconnect w : ids_wf w -> ids_wf (disconnect w).
Proof.
  unfold ids_wf, disconnect. cbv zeta.
  match goal with
  | |- context [clearPendingRequests ?e ?W] =>
      destruct (clearPendingRequests_spec e W)
        as (-> & _ & _ & _ & _ & _ & -> & _)
  end.
  destruct w as [[s0 ? ? ? ? rt hb ?] ? ? ? ? ? ? ? ? ? ? ?].
  destruct rt, hb, s0; simpl; eauto with ids.
Qed.

Lemma ids_wf_onclose w : ids_wf w -> ids_wf (onclose w).
Proof. unfold ids_wf, onclose, attemptReconnect, stopHeartbeat. crunch; done. Qed.

Lemma ids_wf_onopen w : ids_wf w -> ids_wf (onopen w).
Proof. unfold ids_wf, onopen, startHeartbeat, stopHeartbeat. crunch; done. Qed.

Lemma ids_wf_handleMessage data w : ids_wf w -> ids_wf (leaves (handleMessage data w)).
Proof.
  unfold ids_wf, handleMessage, leaves, settleWs, clearTimer_if. crunch; eauto with ids.
Qed.

Lemma ids_wf_handle i w : ids_wf w -> ids_wf (handle i w).
Proof.
  intros Hw. destruct i; cbn [handle].
  - by apply ids_wf_connect.
  - by apply ids_wf_disconnect.
  - by apply ids_wf_call.
  - by apply ids_wf_callViaWebSocket.
  - by apply ids_wf_callViaHTTP.
  - done.
  - unfold socketOpens. destruct (sockets w !! s) as [[]|]; try done.
    match goal with
    | |- ids_wf (match opening ?W !! s with _ => _ end) =>
        assert (HW : ids_wf W)
          by (apply ids_wf_onopen; revert Hw; by apply ids_wf_same_client);
        destruct (opening W !! s) as [[c t]|]; [|done]
    end.
    revert HW. by apply ids_wf_same_client.
  - unfold socketClosing. destruct (sockets w !! s) as [[]|]; try done.
  - unfold socketErrors, onerror. destruct (sockets w !! s); [|done]. simpl.
    destruct (opening w !! s) as [[c t]|]; done.
  - unfold socketCloses. destruct (sockets w !! s) as [[]|]; try done;
      apply ids_wf_onclose; revert Hw; by apply ids_wf_same_client.
  - unfold socketMessage.
    destruct (sockets w !! s) as [[]|]; try done; destruct frame; try done.
    all: destruct (onmessage_parsed data w) as [-> | ->].
    all: eapply ids_wf_same_client; [|apply (ids_wf_handleMessage data w Hw)]; done.
  - unfold timerFires. destruct (timers w !! t) as [[[] ?]|]; try done.
    + revert Hw. unfold ids_wf, settleWs. crunch; eauto with ids.
    + simpl. destruct (opening w !! s) as [[c t']|]; done.
    + apply ids_wf_connect. revert Hw. by apply ids_wf_same_client.
    + destruct (ws (client w)); [|done]. destruct (sockets w !! n) as [[]|]; done.
  - unfold httpReplies. destruct (exchanges w !! x); [|done]. simpl.
    destruct (x_adopt e); done.
Qed.

Lemma ids_wf_runJob j w : ids_wf w -> ids_wf (runJob j w).
Proof.
  intros Hw. destruct j as [ctx [v|e]|q o|c e]; cbn [runJob]; try done.
  by apply ids_wf_callViaHTTP.
Qed.

Lemma ids_wf_drain w : ids_wf w -> ids_wf (drain w).
Proof.
  unfold drain. generalize (microtasks w). intros jobs. revert w.
  induction jobs as [|j jobs IH]; intros w Hw; simpl; [done|].
  apply IH, ids_wf_runJob. exact Hw.
Qed.

Lemma ids_wf_step i w : ids_wf w -> ids_wf (step w i).
Proof.
  intros Hw. unfold step. destruct (from_user i).
  - by apply ids_wf_handle.
  - by apply ids_wf_drain, ids_wf_handle, ids_wf_drain.
Qed.

Lemma construct_client opts :
  requestId (client (construct opts)) = 0
  /\ pendingRequests (client (construct opts)) = []
  /\ reconnectAttempts (client (construct opts)) = 0.
Proof. unfold construct, autoConnect, connect. by destruct (Options.autoConnect opts). Qed.

Lemma ids_wf_reachable opts w : reachable opts w -> ids_wf w.
Proof.
  induction 1 as [|w i _ IH]; [|by apply ids_wf_step].
  unfold ids_wf. destruct (construct_client opts) as (-> & -> & _).
  split; [done|]. split; [apply NoDup_nil_2|]. intros i Hi. by apply elem_of_nil in Hi.
Qed.

Lemma ids_truthy rid pending i :
  ids_wf_at rid pending -> i ∈ map fst pending -> id_truthy i = true.
Proof.
  intros (_ & _ & Hk) Hi. destruct (Hk i Hi) as (n & -> & Hn). simpl.
  apply negb_true_iff, Z.eqb_neq. lia.
Qed.

(** A message whose id is that of an entry of the table removes the entry
    and disarms its timeout; it settles the entry unless its [error] is
    [null]. *)
Lemma handleMessage_match data entry w :
  id_truthy (response_id data) = true ->
  Map_get (pendingRequests (client w)) (response_id data) = Some entry ->
  leaves (handleMessage data w)
  = let w1 := clearTimer_if (timeout entry)
                (with_client
                   (fun c => set_pendingRequests
                               (Map_delete (pendingRequests c) (response_id data)) c) w) in
    match response_outcome data with
    | Some o => settleWs (settles entry) o w1
    | None => w1
    end.
Proof.
  intros Hid Hget. unfold handleMessage. rewrite Hid, Hget. simpl. by destruct data.
Qed.

(** Any other message is dropped. *)
Lemma handleMessage_miss data w :
  id_truthy (response_id data) = false
  \/ Map_get (pendingRequests (client w)) (response_id data) = None ->
  handleMessage data w = Returns w.
Proof.
  intros [Hid|Hget]; unfold handleMessage.
  - by rewrite Hid.
  - rewrite Hget. by destruct (id_truthy (response_id data)).
Qed.

(** What a matching message does to the trace, the table and the timers. *)
Lemma handleMessage_match_effect data entry w :
  id_truthy (response_id data) = true ->
  Map_get (pendingRequests (client w)) (response_id data) = Some entry ->
  let w' := leaves (handleMessage data w) in
  trace w' = trace w ++ response_settles (settles entry) data
  /\ pendingRequests (client w')
     = Map_delete (pendingRequests (client w)) (response_id data)
  /\ timers w' = match timeout entry with
                 | Some t => delete t (timers w)
                 | None => timers w
                 end.
Proof.
  intros Hid Hget. cbv zeta. rewrite (handleMessage_match data entry w Hid Hget).
  unfold response_settles. cbv zeta.
  destruct (response_outcome data) as [o|];
    rewrite ?settleWs_trace, ?settleWs_client, ?settleWs_timers;
    destruct (timeout entry); simpl; by rewrite ?app_nil_r.
Qed.

(** C10. In every world a client can reach, as long as a double counts the
    ids exactly: the id handed out is the one before plus one, the first one
    is 1; the ids in flight are pairwise distinct numbers between 1 and the
    last id handed out, none of them falsy; a new correlated request is
    entered at the end of the table under an id that is not in flight; and a
    message that carries the id of a request in flight is not dropped by
    the test of [handleMessage]: the id is truthy and the entry is taken off
    the table.  A response, with a result or with an error object, settles
    that request; a message with [error: null] makes [handleMessage] throw
    without settling it. *)
Theorem request_ids_fresh_and_truthy opts w :
  reachable opts w ->
  requestId (client w) < 2 ^ 53 ->
  let pending := pendingRequests (client w) in
  (generateRequestId w).1 = requestId (client w) + 1
  /\ (generateRequestId (construct opts)).1 = 1
  /\ NoDup (map fst pending)
  /\ (forall i, i ∈ map fst pending ->
        exists n, i = IdNum n /\ 1 <= n <= requestId (client w) /\ id_truthy i = true)
  /\ (IdNum (generateRequestId w).1 ∉ map fst pending)
  /\ (forall caller method params copts,
        connectionState (client w) = CONNECTED ->
        CallOptions.notification copts = false ->
        pendingRequests (client (callViaWebSocket_ caller method params copts w).2)
        = pending ++ [(IdNum (requestId (client w) + 1),
                       {| settles := nextPromise w; timeout := Some (nextTimer w) |})])
  /\ (forall data entry,
        Map_get pending (response_id data) = Some entry ->
        let w' := leaves (handleMessage data w) in
        id_truthy (response_id data) = true
        /\ Map_get (pendingRequests (client w')) (response_id data) = None
        /\ (forall o, response_outcome data = Some o ->
              handleMessage data w = Returns w'
              /\ trace w' = trace w ++ [Settle (WsCall (settles entry)) o])
        /\ (response_outcome data = None ->
              handleMessage data w = Throws ErrType w' /\ trace w' = trace w)).
Proof.
  intros Hreach Hexact pending.
  pose proof (ids_wf_reachable opts w Hreach) as Hwf.
  pose proof Hwf as (H0 & Hnd & Hk). fold pending in Hnd, Hk.
  assert (Hnext : (generateRequestId w).1 = requestId (client w) + 1)
    by (simpl; by apply js_incr_exact).
  assert (Hfresh : IdNum (requestId (client w) + 1) ∉ map fst pending).
  { intros Hin. destruct (Hk _ Hin) as (n & [= <-] & Hn). lia. }
  split; [done|]. split.
  { simpl. destruct (construct_client opts) as (-> & _). done. }
  split; [done|]. split.
  { intros i Hi. destruct (Hk i Hi) as (n & -> & Hn). exists n.
    split; [done|]. split; [done|]. simpl. apply negb_true_iff, Z.eqb_neq. lia. }
  split; [by rewrite Hnext|]. split.
  - intros caller method params copts Hc Hn.
    unfold callViaWebSocket_, sendMessage. simpl.
    assert (Hpend : forall f : gmap nat CallCtx -> gmap nat CallCtx,
              pendingRequests (client (with_fallbacks f w)) = pending) by done.
    destruct caller as [ctx|]; simpl; rewrite Hc; simpl; rewrite Hn; simpl;
      rewrite js_incr_exact by done;
      (destruct (ws (client w)) as [s|]; simpl;
       [destruct (sockets w !! s) as [[]|]; simpl|]);
      rewrite ?settleWs_client; simpl; by apply Map_set_absent.
  - intros data entry Hget w'. subst w'.
    assert (Hid : id_truthy (response_id data) = true).
    { eapply ids_truthy; [exact Hwf|]. apply Map_get_is_Some. by eexists. }
    destruct (handleMessage_match_effect data entry w Hid Hget) as (Htr & Hpend & _).
    split; [done|]. split; [rewrite Hpend; by apply Map_get_delete_eq|].
    unfold response_settles in Htr. split.
    + intros o Ho. rewrite Ho in Htr. split; [|done].
      unfold handleMessage. rewrite Hid. cbn [negb]. unfold pending in Hget.
      rewrite Hget. by destruct data.
    + intros Ho. rewrite Ho, app_nil_r in Htr. split; [|done].
      unfold handleMessage. rewrite Hid. cbn [negb]. unfold pending in Hget.
      rewrite Hget. by destruct data.
Qed.

Lemma request_ids_fresh_and_truthy_witness :
  let w := construct Options.defaults in
  reachable Options.defaults w
  /\ requestId (client w) < 2 ^ 53
  /\ (generateRequestId w).1 = 1
  /\ (IdNum (generateRequestId w).1 ∉ map fst (pendingRequests (client w))).
Proof.
  intros w.
  assert (H1 : reachable Options.defaults w) by apply reachable_construct.
  assert (H2 : requestId (client w) < 2 ^ 53) by (simpl; lia).
  destruct (request_ids_fresh_and_truthy Options.defaults w H1 H2)
    as (_ & Hfirst & _ & _ & Hfresh & _).
  split; [exact H1|]. split; [exact H2|]. split; [exact Hfirst | exact Hfresh].
Defined.

(** *** Settled at most once *)

Lemma settlements_app p (a b : list Event) :
  settlements p (a ++ b) = (settlements p a + settlements p b)%nat.
Proof. unfold settlements. by rewrite List.filter_app, length_app. Qed.

Lemma settlements_frame p (evs : list Event) :
  forallb (fun e => negb (is_ws_settle e)) evs = true -> settlements p evs = 0%nat.
Proof.
  induction evs as [|e evs IH]; [done|]. simpl.
  intros [He Hevs]%andb_true_iff. unfold settlements in *. simpl.
  destruct e as [| | | |[] ?| | |]; simpl in *; try done; by apply IH.
Qed.

Lemma refused_app p (a b : list Event) :
  refused p (a ++ b) <-> refused p a \/ refused p b.
Proof. unfold refused. apply elem_of_app. Qed.


Lemma refused_frame p (evs : list Event) :
  forallb (fun e => negb (is_ws_settle e)) evs = true -> ~ refused p evs.
Proof.
  unfold refused. intros Hall Hin. apply list_elem_of_In in Hin.
  rewrite forallb_forall in Hall. by apply Hall in Hin.
Qed.

Lemma frames_refl w : frames w w.
Proof.
  split; [done|]. split; [done|]. split; [done|]. exists []. by rewrite app_nil_r.
Qed.

Lemma frames_trans w1 w2 w3 : frames w1 w2 -> frames w2 w3 -> frames w1 w3.
Proof.
  intros (Hp1 & Hn1 & Ht1 & evs1 & Htr1 & He1) (Hp2 & Hn2 & Ht2 & evs2 & Htr2 & He2).
  split; [congruence|]. split; [lia|]. split; [eauto|].
  exists (evs1 ++ evs2). split.
  - by rewrite Htr2, Htr1, <- app_assoc.
  - rewrite forallb_app. by rewrite He1, He2.
Qed.

Lemma frames_request_timer w w' t i p :
  frames w w' -> request_timer w' t i p -> request_timer w t i p.
Proof.
  intros (_ & _ & Ht & _) (method & ms & Htm). exists method, ms. by apply Ht.
Qed.

Lemma once_frames w w' : once_inv w -> frames w w' -> once_inv w'.
Proof.
  intros [Hk He Ht Hs Hf] Hfr. pose proof Hfr as (Hp & Hn & Htm & evs & Htr & Hevs).
  assert (Hset : forall p, settlements p (trace w') = settlements p (trace w)).
  { intros p. rewrite Htr, settlements_app, (settlements_frame p evs) by done. lia. }
  assert (Href : forall p, refused p (trace w') <-> refused p (trace w)).
  { intros p. rewrite Htr, refused_app. pose proof (refused_frame p evs Hevs). tauto. }
  split.
  - by rewrite Hp.
  - intros i entry Hin. rewrite Hp in Hin. destruct (He i entry Hin) as (H1 & H2 & H3 & H4).
    split; [lia|]. split; [rewrite Href, Hset; done|]. split.
    + intros i2 entry2. rewrite Hp. apply H3.
    + intros t i' Hrt. apply H4. by eapply frames_request_timer.
  - intros t i p Hrt. apply (frames_request_timer _ _ _ _ _ Hfr) in Hrt.
    destruct (Ht t i p Hrt) as (H1 & H2 & H3).
    split; [lia|]. split; [rewrite Href, Hset; done|].
    intros t' i' Hrt'. eapply H3. by eapply frames_request_timer.
  - intros p. rewrite Href, Hset. apply Hs.
  - intros p Hp'. rewrite Hset. apply Hf. lia.
Qed.

Ltac solve_timers :=
  let t := fresh "t" in
  let tm := fresh "tm" in
  intros t tm;
  repeat (rewrite lookup_insert || rewrite lookup_delete);
  repeat case_decide; intros; simplify_eq; done.

Ltac solve_frames :=
  unfold frames; simpl;
  split; [done|]; split; [lia|]; split; [solve_timers|];
  eexists; split; [rewrite <- ?app_assoc; try reflexivity; by rewrite app_nil_r | done].

Lemma frames_connect w : frames w (connect w).2.
Proof. unfold connect. crunch; solve_frames. Qed.

Lemma frames_callViaHTTP caller method params opts w :
  frames w (callViaHTTP_ caller method params opts w).2.
Proof. unfold callViaHTTP_. crunch; solve_frames. Qed.

Lemma frames_onopen w : frames w (onopen w).
Proof. unfold onopen, startHeartbeat, stopHeartbeat. crunch; solve_frames. Qed.

Lemma frames_onclose w : frames w (onclose w).
Proof. unfold onclose, attemptReconnect, stopHeartbeat. crunch; solve_frames. Qed.

Lemma frames_runJob j w : frames w (runJob j w).
Proof.
  destruct j as [ctx [v|e]|q o|c e]; cbn [runJob].
  - solve_frames.
  - apply frames_callViaHTTP.
  - solve_frames.
  - solve_frames.
Qed.

Lemma frames_drain w : frames w (drain w).
Proof.
  unfold drain.
  assert (H : forall jobs w0, frames w w0 ->
            frames w (fold_left (fun w j => runJob j (dequeue w)) jobs w0)).
  { induction jobs as [|j jobs IH]; intros w0 H0; cbn [fold_left]; [exact H0|].
    apply IH. eapply frames_trans; [exact H0|].
    eapply frames_trans; [|apply frames_runJob]. solve_frames. }
  apply H, frames_refl.
Qed.

Lemma frames_socketOpens s w : frames w (socketOpens s w).
Proof.
  unfold socketOpens, onopen, startHeartbeat, stopHeartbeat.
  crunch; solve_frames || apply frames_refl.
Qed.

Lemma frames_socketClosing s w : frames w (socketClosing s w).
Proof. unfold socketClosing. crunch; solve_frames || apply frames_refl. Qed.

Lemma frames_socketErrors s w : frames w (socketErrors s w).
Proof. unfold socketErrors, onerror. crunch; solve_frames || apply frames_refl. Qed.

Lemma frames_socketCloses s w : frames w (socketCloses s w).
Proof.
  unfold socketCloses.
  destruct (sockets w !! s) as [[]|]; try apply frames_refl.
  all: eapply frames_trans; [|apply frames_onclose]; solve_frames.
Qed.

Lemma frames_httpReplies x reply w : frames w (httpReplies x reply w).
Proof. unfold httpReplies. crunch; solve_frames || apply frames_refl. Qed.

Lemma settlements_one p q o : settlements p [Settle (WsCall q) o] = if decide (q = p) then 1%nat else 0%nat.
Proof. unfold settlements. simpl. case_bool_decide; by case_decide. Qed.

Lemma refused_one p q o :
  refused p [Settle (WsCall q) o] <-> q = p /\ o = Rejected (Err WS_NOT_CONNECTED).
Proof.
  unfold refused. rewrite list_elem_of_singleton. split.
  - by intros [= -> ->].
  - by intros [-> ->].
Qed.

(** A call that is refused for want of an open socket. *)
Lemma once_refuse w w' p :
  once_inv w ->
  (p < nextPromise w)%nat ->
  pendingRequests (client w') = pendingRequests (client w) ->
  nextPromise w' = nextPromise w ->
  timers w' = timers w ->
  trace w' = trace w ++ [Settle (WsCall p) (Rejected (Err WS_NOT_CONNECTED))] ->
  once_inv w'.
Proof.
  intros [Hk He Ht Hs Hf] Hp Hpend Hnext Htm Htr.
  assert (Hset : forall q, q <> p -> settlements q (trace w') = settlements q (trace w)).
  { intros q Hq. rewrite Htr, settlements_app, settlements_one. rewrite decide_False by done. lia. }
  assert (Href : forall q, q <> p -> refused q (trace w') <-> refused q (trace w)).
  { intros q Hq. rewrite Htr, refused_app, refused_one. intuition congruence. }
  assert (Hrefp : refused p (trace w')).
  { rewrite Htr, refused_app, refused_one. by right. }
  assert (Hrt : forall t i q, request_timer w' t i q <-> request_timer w t i q).
  { intros t i q. unfold request_timer. by rewrite Htm. }
  split.
  - by rewrite Hpend.
  - intros i entry Hin. rewrite Hpend in Hin. destruct (He i entry Hin) as (H1 & H2 & H3 & H4).
    split; [lia|]. split; [|split].
    + destruct (decide (settles entry = p)) as [->|Hne]; [done|].
      rewrite Href, Hset by done. done.
    + intros i2 entry2. rewrite Hpend. apply H3.
    + intros t i'. rewrite Hrt. apply H4.
  - intros t i q. rewrite Hrt. intros Hq. destruct (Ht t i q Hq) as (H1 & H2 & H3).
    split; [lia|]. split.
    + destruct (decide (q = p)) as [->|Hne]; [done|]. rewrite Href, Hset by done. done.
    + intros t' i'. rewrite Hrt. apply H3.
  - intros q. destruct (decide (q = p)) as [->|Hne]; [done|]. rewrite Href, Hset by done. apply Hs.
  - intros q Hq. rewrite Hset by lia. apply Hf. lia.
Qed.

(** A promise that was not settled before is settled, and neither the table
    nor a timeout knows it any more. *)
Lemma once_settle w w' p o :
  once_inv w ->
  (p < nextPromise w)%nat ->
  (~ refused p (trace w) -> settlements p (trace w) = 0%nat) ->
  sublist (pendingRequests (client w')) (pendingRequests (client w)) ->
  nextPromise w' = nextPromise w ->
  (forall t tm, timers w' !! t = Some tm -> timers w !! t = Some tm) ->
  trace w' = trace w ++ [Settle (WsCall p) o] ->
  o <> Rejected (Err WS_NOT_CONNECTED) ->
  (forall i entry, (i, entry) ∈ pendingRequests (client w') -> settles entry <> p) ->
  (forall t i, ~ request_timer w' t i p) ->
  once_inv w'.
Proof.
  intros [Hk He Ht Hs Hf] Hp Hzero Hsub Hnext Htm Htr Ho Hnoentry Hnotimer.
  assert (Hset : forall q, q <> p -> settlements q (trace w') = settlements q (trace w)).
  { intros q Hq. rewrite Htr, settlements_app, settlements_one. rewrite decide_False by done. lia. }
  assert (Href : forall q, refused q (trace w') <-> refused q (trace w)).
  { intros q. rewrite Htr, refused_app, refused_one. intuition congruence. }
  assert (Hrt : forall t i q, request_timer w' t i q -> request_timer w t i q).
  { intros t i q (method & ms & Hq). exists method, ms. by apply Htm. }
  assert (Hin : forall i entry, (i, entry) ∈ pendingRequests (client w') ->
                  (i, entry) ∈ pendingRequests (client w)).
  { intros i entry Hi. by eapply elem_of_sublist. }
  split.
  - eapply sublist_NoDup; [exact Hk|]. by apply (fmap_sublist fst).
  - intros i entry Hi. pose proof (Hnoentry i entry Hi) as Hne.
    destruct (He i entry (Hin _ _ Hi)) as (H1 & H2 & H3 & H4).
    split; [lia|]. split; [by rewrite Href, Hset|]. split.
    + intros i2 entry2 Hi2. apply H3. by apply Hin.
    + intros t i' Hq. apply H4. by apply Hrt.
  - intros t i q Hq. assert (Hne : q <> p) by (intros ->; by eapply Hnotimer).
    destruct (Ht t i q (Hrt _ _ _ Hq)) as (H1 & H2 & H3).
    split; [lia|]. split; [by rewrite Href, Hset|].
    intros t' i' Hq'. eapply H3. by apply Hrt.
  - intros q. rewrite Href. intros Hq. destruct (decide (q = p)) as [->|Hne].
    + rewrite Htr, settlements_app, settlements_one, decide_True, Hzero by done. done.
    + rewrite Hset by done. by apply Hs.
  - intros q Hq. rewrite Hset by lia. apply Hf. lia.
Qed.

Lemma elem_of_Map_set {K V} `{EqDecision K} (m : list (K * V)) k v k2 v2 :
  NoDup (map fst m) ->
  (k2, v2) ∈ Map_set m k v ->
  (k2 = k /\ v2 = v) \/ ((k2, v2) ∈ m /\ k2 <> k).
Proof.
  induction m as [|[k' v'] m IH]; cbn [Map_set map fst]; intros Hnd Hin.
  - apply list_elem_of_singleton in Hin as [= -> ->]. by left.
  - apply NoDup_cons in Hnd as [Hk' Hnd]. destruct (decide (k' = k)) as [->|Hne].
    + apply elem_of_cons in Hin as [[= -> ->]|Hin]; [by left|]. right. split; [by right|].
      intros ->. apply Hk'. by apply (list_elem_of_fmap_2 fst) in Hin.
    + apply elem_of_cons in Hin as [[= -> ->]|Hin].
      * right. split; [left | done].
      * destruct (IH Hnd Hin) as [?|[? ?]]; [by left|]. right. split; [by right | done].
Qed.

(** A correlated request is entered in the table with its timeout. *)
Lemma once_register w w' i t method ms :
  once_inv w ->
  nextPromise w' = S (nextPromise w) ->
  pendingRequests (client w')
  = Map_set (pendingRequests (client w)) i
            {| settles := nextPromise w; timeout := Some t |} ->
  timers w' = <[t := {| action := RequestTimeout i (nextPromise w) method; delay := ms |}]>
                (timers w) ->
  (exists evs, trace w' = trace w ++ evs
               /\ forallb (fun e => negb (is_ws_settle e)) evs = true) ->
  once_inv w'.
Proof.
  intros [Hk He Ht Hs Hf] Hnext Hpend Htm (evs & Htr & Hevs).
  set (p := nextPromise w) in *.
  assert (Hset : forall q, settlements q (trace w') = settlements q (trace w)).
  { intros q. rewrite Htr, settlements_app, (settlements_frame q evs) by done. lia. }
  assert (Href : forall q, refused q (trace w') <-> refused q (trace w)).
  { intros q. rewrite Htr, refused_app. pose proof (refused_frame q evs Hevs). tauto. }
  assert (Hrt : forall t' i' q, request_timer w' t' i' q ->
            (t' = t /\ i' = i /\ q = p) \/ (t' <> t /\ request_timer w t' i' q)).
  { intros t' i' q (method' & ms' & Hq). rewrite Htm, lookup_insert in Hq.
    case_decide; [left | right].
    - by injection Hq as <- <- <- <-.
    - split; [done|]. by exists method', ms'. }
  assert (Hold : forall t' i', ~ request_timer w t' i' p).
  { intros t' i' Hq. destruct (Ht _ _ _ Hq) as (Hlt & _). lia. }
  assert (Hentries : forall i2 e2, (i2, e2) ∈ pendingRequests (client w') ->
            (i2 = i /\ e2 = {| settles := p; timeout := Some t |})
            \/ ((i2, e2) ∈ pendingRequests (client w) /\ i2 <> i /\ settles e2 <> p)).
  { intros i2 e2. rewrite Hpend. intros Hin.
    apply (elem_of_Map_set _ _ _ _ _ Hk) in Hin as [?|[Hin Hne]]; [by left|]. right.
    split; [done|]. split; [done|]. destruct (He _ _ Hin) as (Hlt & _). lia. }
  split.
  - rewrite Hpend. by apply Map_set_NoDup.
  - intros i2 e2 Hin. destruct (Hentries _ _ Hin) as [[-> ->]|(Hin2 & Hne & Hnp)]; simpl.
    + split; [lia|]. split; [intros _; rewrite Hset; apply Hf; lia|]. split.
      * intros i3 e3 Hin3 Heq. destruct (Hentries _ _ Hin3) as [[-> _]|(_ & _ & Hnp3)]; done.
      * intros t' i' Hq. destruct (Hrt _ _ _ Hq) as [(-> & -> & _)|[_ Hq']]; [done|].
        by apply Hold in Hq'.
    + destruct (He _ _ Hin2) as (H1 & H2 & H3 & H4).
      split; [lia|]. split; [by rewrite Href, Hset|]. split.
      * intros i3 e3 Hin3 Heq. destruct (Hentries _ _ Hin3) as [[-> ->]|(Hin3' & _ & _)].
        -- simpl in Heq. congruence.
        -- by eapply H3.
      * intros t' i' Hq. destruct (Hrt _ _ _ Hq) as [(_ & _ & Heq)|[_ Hq']]; [done|].
        by apply H4.
  - intros t' i' q Hq. destruct (Hrt _ _ _ Hq) as [(-> & -> & ->)|[Hne Hq']].
    + split; [lia|]. split; [intros _; rewrite Hset; apply Hf; lia|].
      intros t2 i2 Hq2. destruct (Hrt _ _ _ Hq2) as [(-> & _)|[_ Hq2']]; [done|].
      by apply Hold in Hq2'.
    + destruct (Ht _ _ _ Hq') as (H1 & H2 & H3).
      split; [lia|]. split; [by rewrite Href, Hset|].
      intros t2 i2 Hq2. destruct (Hrt _ _ _ Hq2) as [(_ & _ & ->)|[_ Hq2']].
      * by apply Hold in Hq'.
      * by eapply H3.
  - intros q. rewrite Href, Hset. apply Hs.
  - intros q Hq. rewrite Hset. apply Hf. lia.
Qed.

Lemma once_settleWs_refused p w :
  once_inv w -> (p < nextPromise w)%nat ->
  once_inv (settleWs p (Rejected (Err WS_NOT_CONNECTED)) w).
Proof.
  intros Hinv Hp. apply (once_refuse w _ p Hinv Hp).
  - by rewrite settleWs_client.
  - apply settleWs_nextPromise.
  - apply settleWs_timers.
  - apply settleWs_trace.
Qed.

Lemma once_settleWs p o w :
  once_inv w -> (p < nextPromise w)%nat ->
  (~ refused p (trace w) -> settlements p (trace w) = 0%nat) ->
  o <> Rejected (Err WS_NOT_CONNECTED) ->
  (forall i entry, (i, entry) ∈ pendingRequests (client w) -> settles entry <> p) ->
  (forall t i, ~ request_timer w t i p) ->
  once_inv (settleWs p o w).
Proof.
  intros Hinv Hp Hz Ho He Ht. apply (once_settle w _ p o Hinv Hp Hz).
  - by rewrite settleWs_client.
  - apply settleWs_nextPromise.
  - by rewrite settleWs_timers.
  - apply settleWs_trace.
  - done.
  - by rewrite settleWs_client.
  - intros t i. unfold request_timer. rewrite settleWs_timers. apply Ht.
Qed.

Lemma once_callViaWebSocket caller method params opts w :
  once_inv w -> once_inv (callViaWebSocket_ caller method params opts w).2.
Proof.
  intros Hinv. unfold callViaWebSocket_. cbn [newPromise]. cbv zeta.
  match goal with
  | |- context [if decide (connectionState (client ?W) = CONNECTED) then _ else _] =>
      set (w1 := W)
  end.
  set (p := nextPromise w) in *.
  assert (Hw1 : client w1 = client w /\ nextPromise w1 = S p /\ timers w1 = timers w
                /\ nextTimer w1 = nextTimer w
                /\ trace w1 = trace w ++ [Attempt ViaWebSocket (WsCall p) (outer <$> caller)]).
  { subst w1. by destruct caller. }
  destruct Hw1 as (Hc1 & Hn1 & Ht1 & Hnt1 & Htr1).
  assert (Hf1 : frames w w1).
  { split; [by rewrite Hc1|]. split; [lia|]. split; [by rewrite Ht1|].
    eexists. split; [exact Htr1 | done]. }
  pose proof (once_frames _ _ Hinv Hf1) as Hinv1.
  assert (Hfreshe : forall i entry, (i, entry) ∈ pendingRequests (client w) -> settles entry <> p).
  { intros i entry Hin. destruct (once_entry _ Hinv _ _ Hin) as (Hlt & _). lia. }
  assert (Hfresht : forall t i, ~ request_timer w t i p).
  { intros t i Hq. destruct (once_timer _ Hinv _ _ _ Hq) as (Hlt & _). lia. }
  assert (Hzero : settlements p (trace w) = 0%nat) by (apply (once_fresh _ Hinv); lia).
  destruct (decide (connectionState (client w1) = CONNECTED)) as [Hconn|Hconn]; cbn [snd].
  2: { apply once_settleWs_refused; [done | lia]. }
  destruct (CallOptions.notification opts).
  - unfold sendMessage.
    assert (Hsend : forall s request, once_inv (settleWs p (Resolved VUndefined)
                                                  (emit (Send s request) w1))).
    { intros s request.
      assert (Hf2 : frames w (emit (Send s request) w1)).
      { eapply frames_trans; [exact Hf1|]. solve_frames. }
      apply once_settleWs; [exact (once_frames _ _ Hinv Hf2)|..]; simpl.
      - lia.
      - intros _. rewrite Htr1, !settlements_app, Hzero. done.
      - done.
      - by rewrite Hc1.
      - intros t i. unfold request_timer. simpl. rewrite Ht1. apply Hfresht. }
    destruct (ws (client w1)) as [s|]; [destruct (sockets w1 !! s) as [[]|]|];
      cbn [snd]; first [apply Hsend | apply once_settleWs_refused; [done | lia]].
  - cbn [generateRequestId setTimer]. cbv zeta.
    match goal with
    | |- context [sendMessage ?r ?W] => set (w2 := W); set (request := r)
    end.
    assert (Hinv2 : once_inv w2).
    { apply (once_register w w2 (IdNum (js_incr (requestId (client w1)))) (nextTimer w) method
               (delay_or (CallOptions.timeout opts)
                         (Options.requestTimeout (options (client w1)))) Hinv).
      - exact Hn1.
      - rewrite <- Hc1, <- Hnt1. reflexivity.
      - rewrite <- Ht1, <- Hnt1. reflexivity.
      - eexists. split; [exact Htr1 | done]. }
    assert (Hp2 : (p < nextPromise w2)%nat).
    { replace (nextPromise w2) with (nextPromise w1) by reflexivity. lia. }
    unfold sendMessage.
    destruct (ws (client w2)) as [s|]; [destruct (sockets w2 !! s) as [[]|]|]; cbn [snd];
      try (by apply once_settleWs_refused).
    eapply once_frames; [exact Hinv2|]. solve_frames.
Qed.

Lemma elem_of_Map_delete {K V} `{EqDecision K} (m : list (K * V)) k k2 v2 :
  NoDup (map fst m) -> (k2, v2) ∈ Map_delete m k -> (k2, v2) ∈ m /\ k2 <> k.
Proof.
  intros Hnd. rewrite Map_delete_filter by done.
  intros [Hne Hin]%list_elem_of_filter. done.
Qed.

(** Entries and timeouts are dropped and nothing is settled. *)
Lemma once_forget w w' :
  once_inv w ->
  sublist (pendingRequests (client w')) (pendingRequests (client w)) ->
  nextPromise w' = nextPromise w ->
  (forall t tm, timers w' !! t = Some tm -> timers w !! t = Some tm) ->
  trace w' = trace w ->
  once_inv w'.
Proof.
  intros [Hk He Ht Hs Hf] Hsub Hnext Htm Htr.
  assert (Hrt : forall t i q, request_timer w' t i q -> request_timer w t i q).
  { intros t i q (method & ms & Hq). exists method, ms. by apply Htm. }
  assert (Hin : forall i entry, (i, entry) ∈ pendingRequests (client w') ->
                  (i, entry) ∈ pendingRequests (client w)).
  { intros i entry Hi. by eapply elem_of_sublist. }
  split; rewrite ?Htr, ?Hnext.
  - eapply sublist_NoDup; [exact Hk|]. by apply (fmap_sublist fst).
  - intros i entry Hi. destruct (He i entry (Hin _ _ Hi)) as (H1 & H2 & H3 & H4).
    split; [done|]. split; [done|]. split.
    + intros i2 entry2 Hi2. apply H3. by apply Hin.
    + intros t i' Hq. apply H4. by apply Hrt.
  - intros t i q Hq. destruct (Ht t i q (Hrt _ _ _ Hq)) as (H1 & H2 & H3).
    split; [done|]. split; [done|]. intros t' i' Hq'. eapply H3. by apply Hrt.
  - done.
  - done.
Qed.

Lemma once_handleMessage data w : once_inv w -> once_inv (leaves (handleMessage data w)).
Proof.
  intros Hinv.
  destruct (id_truthy (response_id data)) eqn:Hid;
    [|rewrite handleMessage_miss; [done | by left]].
  destruct (Map_get (pendingRequests (client w)) (response_id data)) as [entry|] eqn:Hget;
    [|rewrite handleMessage_miss; [done | by right]].
  rewrite (handleMessage_match data entry w Hid Hget). cbv zeta.
  pose proof (Map_get_Some_elem _ _ _ Hget) as Hin.
  destruct (once_entry _ Hinv _ _ Hin) as (Hlt & Hzero & Huniq & Htimer).
  destruct (response_outcome data) as [o|] eqn:Ho.
  - apply (once_settle w _ (settles entry) o Hinv Hlt Hzero).
    + rewrite settleWs_client. destruct (timeout entry); apply Map_delete_sublist.
    + rewrite settleWs_nextPromise. by destruct (timeout entry).
    + intros t tm. rewrite settleWs_timers, clearTimer_if_lookup. by case_decide.
    + rewrite settleWs_trace. by destruct (timeout entry).
    + destruct data; simpl in Ho; by simplify_eq.
    + intros i2 entry2. rewrite settleWs_client.
      replace (pendingRequests (client (clearTimer_if (timeout entry) _)))
        with (Map_delete (pendingRequests (client w)) (response_id data))
        by by destruct (timeout entry).
      intros [Hin2 Hne]%elem_of_Map_delete Heq; [|apply (once_keys _ Hinv)].
      apply Hne. by eapply Huniq.
    + intros t i (method & ms & Hq). rewrite settleWs_timers, clearTimer_if_lookup in Hq.
      case_decide as Hto; [done|]. apply Hto.
      apply (Htimer t i). by exists method, ms.
  - apply (once_forget w _ Hinv).
    + destruct (timeout entry); apply Map_delete_sublist.
    + by destruct (timeout entry).
    + intros t tm. rewrite clearTimer_if_lookup. by case_decide.
    + by destruct (timeout entry).
Qed.

Lemma once_requestTimeout t i p method ms w :
  timers w !! t = Some {| action := RequestTimeout i p method; delay := ms |} ->
  once_inv w ->
  once_inv (settleWs p (Rejected (Err (REQUEST_TIMED_OUT ++ method)))
              (with_client (fun c => set_pendingRequests (Map_delete (pendingRequests c) i) c)
                 (clearTimer t w))).
Proof.
  intros Htm Hinv.
  assert (Hq : request_timer w t i p) by (by exists method, ms).
  destruct (once_timer _ Hinv _ _ _ Hq) as (Hlt & Hzero & Huniq).
  apply (once_settle w _ p (Rejected (Err (REQUEST_TIMED_OUT ++ method))) Hinv Hlt Hzero).
  - rewrite settleWs_client. apply Map_delete_sublist.
  - by rewrite settleWs_nextPromise.
  - intros t' tm. rewrite settleWs_timers. simpl. rewrite lookup_delete. by case_decide.
  - by rewrite settleWs_trace.
  - unfold REQUEST_TIMED_OUT, WS_NOT_CONNECTED. simpl. intros [=].
  - intros i2 entry2. rewrite settleWs_client. simpl.
    intros [Hin2 Hne]%elem_of_Map_delete Heq; [|apply (once_keys _ Hinv)].
    destruct (once_entry _ Hinv _ _ Hin2) as (_ & _ & _ & Htimer).
    rewrite Heq in Htimer. destruct (Htimer t i Hq) as [-> _]. done.
  - intros t' i' (method' & ms' & Hq'). rewrite settleWs_timers in Hq'. simpl in Hq'.
    rewrite lookup_delete in Hq'. case_decide as Hne; [done|]. apply Hne. symmetry.
    apply (Huniq t' i'). by exists method', ms'.
Qed.

Lemma clearPendingRequests_nextPromise error w :
  nextPromise (clearPendingRequests error w) = nextPromise w.
Proof.
  unfold clearPendingRequests. simpl.
  generalize (pendingRequests (client w)). intros entries. revert w.
  induction entries as [|entry entries IH]; intros w; simpl; [done|].
  rewrite IH, settleWs_nextPromise. by destruct (timeout entry.2).
Qed.

Lemma rejections_none error (entries : list (RpcId * PendingRequest)) q :
  (forall i entry, (i, entry) ∈ entries -> settles entry <> q) ->
  settlements q (rejections error entries) = 0%nat.
Proof.
  induction entries as [|[i entry] entries IH]; intros Hall; [done|].
  unfold rejections. cbn [map]. change (?x :: ?l) with ([x] ++ l).
  rewrite settlements_app, settlements_one. simpl.
  rewrite decide_False by (eapply Hall; left).
  apply IH. intros i2 e2 Hin. eapply Hall. by right.
Qed.

Lemma rejections_at_most_one error (entries : list (RpcId * PendingRequest)) q :
  NoDup (map fst entries) ->
  (forall i1 e1 i2 e2, (i1, e1) ∈ entries -> (i2, e2) ∈ entries ->
     settles e1 = settles e2 -> i1 = i2) ->
  (settlements q (rejections error entries) <= 1)%nat.
Proof.
  induction entries as [|[i entry] entries IH]; intros Hnd Huniq; [unfold settlements; simpl; lia|].
  cbn [map fst] in Hnd. apply NoDup_cons in Hnd as [Hi Hnd].
  unfold rejections. cbn [map]. change (?x :: ?l) with ([x] ++ l).
  rewrite settlements_app, settlements_one. simpl. case_decide as Hq.
  - fold (rejections error entries). rewrite rejections_none; [done|].
    intros i2 e2 Hin Heq. apply Hi.
    rewrite (Huniq i entry i2 e2); [| left | by right | congruence].
    by apply (list_elem_of_fmap_2 fst) in Hin.
  - apply IH; [done|]. intros i1 e1 i2 e2 H1 H2. apply Huniq; by right.
Qed.

Lemma rejections_not_refused error (entries : list (RpcId * PendingRequest)) q :
  error <> Err WS_NOT_CONNECTED -> ~ refused q (rejections error entries).
Proof.
  intros Herr. unfold refused, rejections. intros Hin.
  apply list_elem_of_fmap in Hin as (entry & [= _ Heq] & _). congruence.
Qed.

Lemma once_clearPendingRequests error w :
  error <> Err WS_NOT_CONNECTED ->
  once_inv w -> once_inv (clearPendingRequests error w).
Proof.
  intros Herr Hinv.
  destruct (clearPendingRequests_spec error w) as (Hp & Htr & Htm & _).
  pose proof (clearPendingRequests_nextPromise error w) as Hn.
  set (w' := clearPendingRequests error w) in *.
  set (pending := pendingRequests (client w)) in *.
  assert (Href : forall q, refused q (trace w') <-> refused q (trace w)).
  { intros q. rewrite Htr, refused_app.
    pose proof (rejections_not_refused error pending q Herr). tauto. }
  assert (Hrt : forall t i q, request_timer w' t i q ->
            request_timer w t i q /\ t ∉ timeouts_of pending).
  { intros t i q (method & ms & Hq). rewrite Htm in Hq. case_decide; [done|].
    split; [by exists method, ms | done]. }
  assert (Hnot : forall t i q, request_timer w' t i q ->
            forall i2 e2, (i2, e2) ∈ pending -> settles e2 <> q).
  { intros t i q Hq i2 e2 Hin Heq. destruct (Hrt _ _ _ Hq) as [Hq' Hnt]. apply Hnt.
    destruct (once_entry _ Hinv _ _ Hin) as (_ & _ & _ & Htimer).
    rewrite Heq in Htimer. destruct (Htimer _ _ Hq') as [_ Hto].
    unfold timeouts_of. apply list_elem_of_omap. by exists (i2, e2). }
  split.
  - rewrite Hp. apply NoDup_nil_2.
  - intros i entry. rewrite Hp. intros Hin. by apply elem_of_nil in Hin.
  - intros t i q Hq. destruct (Hrt _ _ _ Hq) as [Hq' _].
    destruct (once_timer _ Hinv _ _ _ Hq') as (H1 & H2 & H3).
    split; [lia|]. split.
    + rewrite Href, Htr, settlements_app. intros Hr. rewrite (H2 Hr).
      rewrite rejections_none; [done|]. by eapply Hnot.
    + intros t' i' Hq2. eapply H3. by apply Hrt in Hq2 as [? _].
  - intros q. rewrite Href, Htr, settlements_app. intros Hr.
    destruct (decide (q ∈ map (fun e : RpcId * PendingRequest => settles e.2) pending))
      as [Hsome|Hnone].
    + apply list_elem_of_fmap in Hsome as ([i entry] & Heq & Hin). simpl in Heq.
      symmetry in Heq. destruct (once_entry _ Hinv _ _ Hin) as (_ & Hz & _). rewrite Heq in Hz.
      rewrite (Hz Hr). simpl. apply rejections_at_most_one; [apply (once_keys _ Hinv)|].
      intros i1 e1 i2 e2 H1 H2 Heq12.
      destruct (once_entry _ Hinv _ _ H2) as (_ & _ & Hu & _). by eapply Hu.
    + rewrite rejections_none; [pose proof (once_settled _ Hinv q Hr); lia|].
      intros i entry Hin Heq. apply Hnone.
      apply list_elem_of_fmap. exists (i, entry). done.
  - intros q Hq. rewrite Htr, settlements_app, (once_fresh _ Hinv) by lia.
    rewrite rejections_none; [done|]. intros i entry Hin.
    destruct (once_entry _ Hinv _ _ Hin) as (Hlt & _). lia.
Qed.

Lemma once_disconnect w : once_inv w -> once_inv (disconnect w).
Proof.
  intros Hinv. unfold disconnect. cbv zeta.
  apply once_clearPendingRequests; [unfold CONNECTION_CLOSED, WS_NOT_CONNECTED; by intros [=]|].
  eapply once_frames; [exact Hinv|].
  destruct w as [[s0 ? ? ? ? rt hb ?] ? ? ? ? ? ? ? ? ? ? ?].
  unfold closeSocket. destruct rt, hb, s0; solve_frames.
Qed.

Lemma once_call method params opts w : once_inv w -> once_inv (call method params opts w).2.
Proof.
  intros Hw. unfold call. cbn [newPromise]. cbv zeta.
  match goal with
  | |- context [if decide (connectionState (client ?W) = CONNECTED) then _ else _] =>
      assert (HW : frames w W); [|destruct (decide (connectionState (client W) = CONNECTED))]
  end.
  - match goal with
    | |- frames w (if ?b then _ else _) => destruct b
    end.
    + unfold autoConnect. case_decide; [|solve_frames].
      eapply frames_trans; [|apply frames_connect]. solve_frames.
    + solve_frames.
  - cbn [snd]. apply once_callViaWebSocket. by eapply once_frames.
  - cbn [snd]. eapply once_frames; [exact Hw|].
    eapply frames_trans; [exact HW | apply frames_callViaHTTP].
Qed.

Lemma once_handle i w : once_inv w -> once_inv (handle i w).
Proof.
  intros Hw. destruct i; cbn [handle].
  - eapply once_frames; [exact Hw | apply frames_connect].
  - by apply once_disconnect.
  - by apply once_call.
  - by apply once_callViaWebSocket.
  - eapply once_frames; [exact Hw | apply frames_callViaHTTP].
  - done.
  - eapply once_frames; [exact Hw | apply frames_socketOpens].
  - eapply once_frames; [exact Hw | apply frames_socketClosing].
  - eapply once_frames; [exact Hw | apply frames_socketErrors].
  - eapply once_frames; [exact Hw | apply frames_socketCloses].
  - unfold socketMessage.
    destruct (sockets w !! s) as [[]|]; try done; destruct frame; try done.
    all: destruct (onmessage_parsed data w) as [-> | ->];
      [apply (once_handleMessage data w Hw)|].
    all: eapply once_frames; [apply (once_handleMessage data w Hw) | solve_frames].
  - unfold timerFires. destruct (timers w !! t) as [[[i p method|s| |] ms]|] eqn:Htm; try done.
    + by eapply once_requestTimeout.
    + eapply once_frames; [exact Hw|]. simpl.
      destruct (opening w !! s) as [[c t']|]; solve_frames.
    + eapply once_frames; [exact Hw|].
      eapply frames_trans; [|apply frames_connect]. solve_frames.
    + eapply once_frames; [exact Hw|].
      destruct (ws (client w)) as [s|]; [|apply frames_refl].
      destruct (sockets w !! s) as [[]|]; solve_frames || apply frames_refl.
  - eapply once_frames; [exact Hw | apply frames_httpReplies].
Qed.

Lemma once_step i w : once_inv w -> once_inv (step w i).
Proof.
  intros Hw. unfold step. destruct (from_user i).
  - by apply once_handle.
  - eapply once_frames; [|apply frames_drain].
    apply once_handle. eapply once_frames; [exact Hw | apply frames_drain].
Qed.

Lemma once_construct opts : once_inv (construct opts).
Proof.
  assert (H0 : forall w, pendingRequests (client w) = [] -> timers w = ∅ ->
            trace w = [] -> once_inv w).
  { intros w Hp Ht Htr. split.
    - rewrite Hp. apply NoDup_nil_2.
    - intros i entry. rewrite Hp. intros Hin. by apply elem_of_nil in Hin.
    - intros t i p (method & ms & Hq). by rewrite Ht in Hq.
    - intros p _. rewrite Htr. unfold settlements. simpl. lia.
    - intros p _. by rewrite Htr. }
  unfold construct. destruct (Options.autoConnect opts); [|by apply H0].
  unfold autoConnect. cbn [client initialClient connectionState].
  rewrite decide_True by done.
  eapply once_frames; [|apply frames_connect]. by apply H0.
Qed.

Lemma once_reachable opts w : reachable opts w -> once_inv w.
Proof. induction 1; [apply once_construct | by apply once_step]. Qed.

(** *** A call that nothing can settle any more *)




















(** The scenario of the specification: a request is sent and gets the id 1,
    its response arrives and settles it, a duplicate of the response is
    ignored. *)
Example scenario_duplicate_response :
  let ok := VObj [(js "ok", VBool true)] in
  let w := run (construct Options.defaults)
             [SocketOpens 0;
              DoCallViaWebSocket (js "common:getNodes") VUndefined
                {| CallOptions.timeout := None; CallOptions.notification := false |};
              SocketMessage 0 (Parsed (SuccessResponse (IdNum 1) ok));
              SocketMessage 0 (Parsed (SuccessResponse (IdNum 1) ok))] in
  List.filter is_ws_settle (trace w) = [Settle (WsCall 1) (Resolved ok)]
  /\ pendingRequests (client w) = [].
Proof. vm_compute. done. Qed.



(** *** One attempt by each path at most *)

Lemma attempts_for_app q (a b : list Event) :
  attempts_for q (a ++ b) = attempts_for q a ++ attempts_for q b.
Proof. apply omap_app. Qed.

Lemma issued_app q (a b : list Event) : issued q (a ++ b) = issued q a ++ issued q b.
Proof. apply omap_app. Qed.

Lemma finals_app q (a b : list Event) : finals q (a ++ b) = finals q a ++ finals q b.
Proof. apply omap_app. Qed.

Lemma ws_outcomes_app p (a b : list Event) :
  ws_outcomes p (a ++ b) = ws_outcomes p a ++ ws_outcomes p b.
Proof. apply omap_app. Qed.

Lemma http_outcomes_app h (a b : list Event) :
  http_outcomes h (a ++ b) = http_outcomes h a ++ http_outcomes h b.
Proof. apply omap_app. Qed.

Lemma jobs_for_app q (a b : list Job) : jobs_for q (a ++ b) = jobs_for q a ++ jobs_for q b.
Proof. apply filter_app. Qed.

Lemma first_settle_app_Some p (a b : list Event) o :
  first_settle p a = Some o -> first_settle p (a ++ b) = Some o.
Proof.
  unfold first_settle. rewrite ws_outcomes_app.
  destruct (ws_outcomes p a); [done|]. done.
Qed.

Lemma first_settle_app_nil p (a b : list Event) :
  ws_outcomes p a = [] -> first_settle p (a ++ b) = first_settle p b.
Proof. unfold first_settle. rewrite ws_outcomes_app. by intros ->. Qed.

Lemma neutral_projections (evs : list Event) :
  forallb neutral evs = true ->
  (forall q, issued q evs = [] /\ attempts_for q evs = [] /\ finals q evs = [])
  /\ (forall p, ws_outcomes p evs = [])
  /\ (forall h, http_outcomes h evs = []).
Proof.
  induction evs as [|e evs IH]; [done|]. simpl. intros [He Hevs]%andb_true_iff.
  destruct (IH Hevs) as (H1 & H2 & H3).
  unfold issued, attempts_for, finals, ws_outcomes, http_outcomes in *.
  split; [|split].
  - intros q. destruct (H1 q) as (Ha & Hb & Hc). cbn [omap list_omap].
    rewrite Ha, Hb, Hc. by destruct e as [| ? ? []| | |[]| | |].
  - intros p. cbn [omap list_omap]. rewrite H2. by destruct e as [| ? ? []| | |[]| | |].
  - intros h. cbn [omap list_omap]. rewrite H3. by destruct e as [| ? ? []| | |[]| | |].
Qed.

Lemma on_ws_app q p (tr evs : list Event) :
  issued q evs = [] -> attempts_for q evs = [] ->
  on_ws q p tr -> on_ws q p (tr ++ evs).
Proof.
  intros Hi Ha (H1 & H2 & H3). unfold on_ws.
  rewrite issued_app, attempts_for_app, Hi, Ha, !app_nil_r.
  split; [done|]. split; [done|]. apply elem_of_app. by left.
Qed.

Lemma came_by_app via q h (tr evs : list Event) :
  issued q evs = [] -> attempts_for q evs = [] ->
  came_by via q h tr -> came_by via q h (tr ++ evs).
Proof.
  intros Hi Ha [Hatt Hvia]. split; [apply elem_of_app; by left|].
  destruct via as [p|].
  - destruct Hvia as (H1 & H2 & H3 & e & H4).
    rewrite issued_app, attempts_for_app, Hi, Ha, !app_nil_r.
    split; [done|]. split; [done|]. split; [apply elem_of_app; by left|].
    exists e. by apply first_settle_app_Some.
  - destruct Hvia as ((st & H1 & H2) & H3).
    rewrite issued_app, attempts_for_app, Hi, Ha, !app_nil_r. eauto.
Qed.

Lemma phase_trace_app q ph (tr evs : list Event) :
  issued q evs = [] -> attempts_for q evs = [] -> finals q evs = [] ->
  (forall p, ph = PAwaitWs p -> ws_outcomes p evs = []) ->
  (forall h, phase_http ph = Some h -> http_outcomes h evs = []) ->
  phase_trace q ph tr -> phase_trace q ph (tr ++ evs).
Proof.
  intros Hi Ha Hf Hws Hhttp.
  destruct ph as [|p|p ctx o|via h x|via h o|p v|via h o]; simpl.
  - rewrite issued_app, attempts_for_app, finals_app, Hi, Ha, Hf. by intros (-> & -> & ->).
  - intros (H1 & H2 & H3). rewrite ws_outcomes_app, finals_app, Hf, (Hws p), H2, H3 by done.
    split; [by apply on_ws_app | done].
  - intros (H1 & H2 & H3 & H4). rewrite finals_app, Hf, H4.
    split; [by apply on_ws_app|]. split; [done|]. split; [by apply first_settle_app_Some | done].
  - intros (H1 & H2 & H3). rewrite http_outcomes_app, finals_app, Hf, (Hhttp h), H2, H3 by done.
    split; [by apply came_by_app | done].
  - intros (H1 & H2 & H3). rewrite http_outcomes_app, finals_app, Hf, (Hhttp h), H2, H3 by done.
    split; [by apply came_by_app | done].
  - intros (H1 & H2 & H3). rewrite finals_app, Hf, H3.
    split; [by apply on_ws_app|]. split; [by apply first_settle_app_Some | done].
  - intros (H1 & H2 & H3). rewrite http_outcomes_app, finals_app, Hf, (Hhttp h), H2, H3 by done.
    split; [by apply came_by_app | done].
Qed.

Lemma phase_fallbacks_same q ph (fbs fbs' : gmap nat CallCtx) :
  (forall p ctx, outer ctx = q -> fbs' !! p = Some ctx <-> fbs !! p = Some ctx) ->
  phase_fallbacks q ph fbs -> phase_fallbacks q ph fbs'.
Proof.
  intros Hsame. destruct ph as [|p|p ctx o|via h x|via h o|p v|via h o]; simpl;
    try (intros Hno p' ctx' Hp' Hq; apply (Hno p' ctx'); [by apply Hsame | done]).
  intros [(ctx & Hp & Hq) Huniq]. split.
  - exists ctx. split; [by apply Hsame | done].
  - intros p' ctx' Hp' Hq'. apply (Huniq p' ctx'); [by apply Hsame | done].
Qed.

Lemma phase_exchanges_same q ph (exs exs' : gmap nat Exchange) :
  (forall x ex, x_adopt ex = Some q -> exs' !! x = Some ex <-> exs !! x = Some ex) ->
  phase_exchanges q ph exs -> phase_exchanges q ph exs'.
Proof.
  intros Hsame. destruct ph as [|p|p ctx o|via h x|via h o|p v|via h o]; simpl;
    try (intros Hno x' ex' Hx' Hq; apply (Hno x' ex'); [by apply Hsame | done]).
  intros [(ex & Hx & Hq & Hh) Huniq]. split.
  - exists ex. split; [by apply Hsame | done].
  - intros x' ex' Hx' Hq'. apply (Huniq x' ex'); [by apply Hsame | done].
Qed.

(** A call keeps its phase through a step that does not concern it. *)
Lemma phase_stable w w' q ph evs :
  phase_holds w q ph ->
  trace w' = trace w ++ evs ->
  issued q evs = [] -> attempts_for q evs = [] -> finals q evs = [] ->
  (forall p, ph = PAwaitWs p -> ws_outcomes p evs = []) ->
  (forall h, phase_http ph = Some h -> http_outcomes h evs = []) ->
  (forall p ctx, outer ctx = q -> fallbacks w' !! p = Some ctx <-> fallbacks w !! p = Some ctx) ->
  jobs_for q (microtasks w') = jobs_for q (microtasks w) ->
  (forall x ex, x_adopt ex = Some q -> exchanges w' !! x = Some ex <-> exchanges w !! x = Some ex) ->
  phase_holds w' q ph.
Proof.
  intros (Ht & Hf & Hj & Hx) Htr Hi Ha Hfin Hws Hhttp Hfb Hjobs Hex.
  split; [rewrite Htr; by apply phase_trace_app|].
  split; [by eapply phase_fallbacks_same|].
  split; [by rewrite Hjobs|]. by eapply phase_exchanges_same.
Qed.

Lemma quiet_refl w : quiet w w.
Proof. repeat split; try done. exists []. by rewrite app_nil_r. Qed.

Lemma quiet_trans w1 w2 w3 : quiet w1 w2 -> quiet w2 w3 -> quiet w1 w3.
Proof.
  intros (Hf1 & Hx1 & Hm1 & Hn1 & He1 & evs1 & Ht1 & Hv1)
         (Hf2 & Hx2 & Hm2 & Hn2 & He2 & evs2 & Ht2 & Hv2).
  split; [congruence|]. split; [congruence|].
  split; [intros q; by rewrite Hm2, Hm1|].
  split; [lia|]. split; [congruence|]. exists (evs1 ++ evs2). split.
  - by rewrite Ht2, Ht1, <- app_assoc.
  - by rewrite forallb_app, Hv1, Hv2.
Qed.

Lemma call_quiet w w' : call_inv w -> quiet w w' -> call_inv w'.
Proof.
  intros [Hph Hfr Hex] (Hf & Hx & Hm & Hn & He & evs & Htr & Hev).
  destruct (neutral_projections evs Hev) as (Hq & Hws & Hhttp).
  assert (Hstable : forall q ph, phase_holds w q ph -> phase_holds w' q ph).
  { intros q ph Hq'. destruct (Hq q) as (H1 & H2 & H3).
    apply (phase_stable w w' q ph evs); try done.
    - by rewrite Hf.
    - by rewrite Hx. }
  split.
  - intros q. destruct (Hph q) as [ph Hq']. exists ph. by apply Hstable.
  - intros n Hn'. destruct (Hfr n) as (H1 & H2 & H3 & H4); [lia|].
    split; [by apply Hstable|].
    rewrite Htr, ws_outcomes_app, http_outcomes_app, H2, H3, Hws, Hhttp, Hf. done.
  - intros x ex. rewrite Hx. intros Hx'. destruct (Hex x ex Hx') as (H1 & H2 & H3 & H4).
    split; [lia|]. split; [lia|].
    split; [by rewrite Htr, http_outcomes_app, H3, Hhttp | done].
Qed.

Lemma jobs_for_snoc q (jobs : list Job) j :
  jobs_for q (jobs ++ [j])
  = jobs_for q jobs ++ (if decide (job_call j = Some q) then [j] else []).
Proof.
  unfold jobs_for. by rewrite filter_app.
Qed.

(** The phase of a call that has a reaction waiting. *)
Lemma phase_of_fallback w q ph p ctx :
  phase_holds w q ph -> fallbacks w !! p = Some ctx -> outer ctx = q -> ph = PAwaitWs p.
Proof.
  intros (_ & Hf & _) Hp Hq.
  destruct ph as [|p'|? ? ?|? ? ?|? ? ?|? ?|? ? ?]; simpl in Hf;
    try (by destruct (Hf p ctx Hp)).
  destruct Hf as [_ Huniq]. by rewrite (Huniq p ctx Hp Hq).
Qed.

Lemma call_settleWs p o w :
  call_inv w -> (p < nextPromise w)%nat -> call_inv (settleWs p o w).
Proof.
  intros Hinv Hp. pose proof Hinv as [Hph Hfr Hex].
  set (w' := settleWs p o w).
  assert (Htr : trace w' = trace w ++ [Settle (WsCall p) o]) by apply settleWs_trace.
  assert (Hxs : exchanges w' = exchanges w).
  { subst w'. unfold settleWs. simpl. by destruct (fallbacks w !! p). }
  assert (Hnp : nextPromise w' = nextPromise w) by apply settleWs_nextPromise.
  assert (Hne : nextExchange w' = nextExchange w).
  { subst w'. unfold settleWs. simpl. by destruct (fallbacks w !! p). }
  assert (Hproj : forall q, issued q [Settle (WsCall p) o] = []
                            /\ attempts_for q [Settle (WsCall p) o] = []
                            /\ finals q [Settle (WsCall p) o] = []) by done.
  assert (Hhttp : forall h, http_outcomes h [Settle (WsCall p) o] = []) by done.
  assert (Hother : forall p1, p1 <> p -> ws_outcomes p1 [Settle (WsCall p) o] = []).
  { intros p1 Hne1. unfold ws_outcomes. simpl. by rewrite decide_False. }
  assert (Hexch : forall x ex, exchanges w' !! x = Some ex ->
            (x < nextExchange w')%nat
            /\ (x_promise ex < nextPromise w')%nat
            /\ http_outcomes (x_promise ex) (trace w') = []
            /\ forall x' ex', exchanges w' !! x' = Some ex' ->
                 x_promise ex' = x_promise ex -> x' = x).
  { intros x ex. rewrite Hxs, Hnp, Hne, Htr, http_outcomes_app, Hhttp, app_nil_r. apply Hex. }
  destruct (fallbacks w !! p) as [ctx|] eqn:Hfb.
  - assert (Hfbs : fallbacks w' = delete p (fallbacks w)).
    { subst w'. unfold settleWs. simpl. by rewrite Hfb. }
    assert (Hjobs : microtasks w' = microtasks w ++ [Fallback ctx o]).
    { subst w'. unfold settleWs. simpl. by rewrite Hfb. }
    assert (Hstable : forall q ph, q <> outer ctx -> phase_holds w q ph -> phase_holds w' q ph).
    { intros q ph Hq Hq'. destruct (Hproj q) as (H1 & H2 & H3).
      apply (phase_stable w w' q ph [Settle (WsCall p) o]); try done.
      - intros p1 ->. apply Hother. intros ->.
        destruct Hq' as (_ & [(ctx1 & Hp1 & Hq1) _] & _). congruence.
      - intros p' ctx' Hq1. rewrite Hfbs, lookup_delete_Some. split; [by intros [_ ?]|].
        intros Hp'. split; [|done]. intros <-. congruence.
      - rewrite Hjobs, jobs_for_snoc. rewrite decide_False; [by rewrite app_nil_r|].
        simpl. congruence.
      - intros x ex _. by rewrite Hxs. }
    split; [| |exact Hexch].
    + intros q. destruct (decide (q = outer ctx)) as [->|Hq].
      * destruct (Hph (outer ctx)) as [ph Hq'].
        pose proof (phase_of_fallback _ _ _ _ _ Hq' Hfb eq_refl) as ->.
        destruct Hq' as ((Hon & Hws & Hfin) & [_ Huniq] & Hj & Hx).
        exists (PWsSettled p ctx o). split; [|split; [|split]].
        -- rewrite Htr. simpl. split; [by apply on_ws_app|]. split; [done|]. split.
           ++ rewrite first_settle_app_nil by done. unfold first_settle, ws_outcomes. simpl.
              by rewrite decide_True.
           ++ by rewrite finals_app, Hfin.
        -- simpl. intros p' ctx'. rewrite Hfbs, lookup_delete_Some. intros [Hne' Hp'] Hq'.
           apply Hne'. symmetry. by eapply Huniq.
        -- rewrite Hjobs, jobs_for_snoc, Hj. simpl. by rewrite decide_True.
        -- simpl in *. by rewrite Hxs.
      * destruct (Hph q) as [ph Hq']. exists ph. by apply Hstable.
    + intros n Hn. rewrite Hnp in Hn. destruct (Hfr n Hn) as (H1 & H2 & H3 & H4).
      assert (Hnq : n <> outer ctx).
      { intros ->. destruct H1 as (_ & Hno & _). simpl in Hno. by destruct (Hno p ctx Hfb). }
      split; [by apply Hstable|].
      rewrite Htr, ws_outcomes_app, http_outcomes_app, H2, H3, Hhttp, Hother by lia.
      rewrite Hfbs, lookup_delete_None. auto.
  - assert (Hfbs : fallbacks w' = fallbacks w).
    { subst w'. unfold settleWs. simpl. by rewrite Hfb. }
    assert (Hjobs : microtasks w' = microtasks w).
    { subst w'. unfold settleWs. simpl. by rewrite Hfb. }
    assert (Hstable : forall q ph, phase_holds w q ph -> phase_holds w' q ph).
    { intros q ph Hq'. destruct (Hproj q) as (H1 & H2 & H3).
      apply (phase_stable w w' q ph [Settle (WsCall p) o]); try done.
      - intros p1 ->. apply Hother. intros ->.
        destruct Hq' as (_ & [(ctx1 & Hp1 & Hq1) _] & _). congruence.
      - intros p' ctx' _. by rewrite Hfbs.
      - by rewrite Hjobs.
      - intros x ex _. by rewrite Hxs. }
    split; [| |exact Hexch].
    + intros q. destruct (Hph q) as [ph Hq']. exists ph. by apply Hstable.
    + intros n Hn. rewrite Hnp in Hn. destruct (Hfr n Hn) as (H1 & H2 & H3 & H4).
      split; [by apply Hstable|].
      rewrite Htr, ws_outcomes_app, http_outcomes_app, H2, H3, Hhttp, Hother by lia.
      by rewrite Hfbs.
Qed.

Lemma jobs_for_connectCatch q (jobs : list Job) c e :
  jobs_for q (jobs ++ [ConnectCatch c e]) = jobs_for q jobs.
Proof. rewrite jobs_for_snoc. cbn [job_call]. rewrite decide_False by done. apply app_nil_r. Qed.

Ltac solve_quiet :=
  unfold quiet; simpl;
  split; [done|]; split; [done|];
  split; [intros ?; rewrite ?jobs_for_connectCatch; done|];
  split; [lia|]; split; [done|];
  eexists; split; [rewrite <- ?app_assoc; try reflexivity; by rewrite app_nil_r | done].

Lemma quiet_connect w : quiet w (connect w).2.
Proof. unfold connect. crunch; solve_quiet. Qed.

Lemma quiet_autoConnect w : quiet w (autoConnect w).
Proof. unfold autoConnect. case_decide; [apply quiet_connect | apply quiet_refl]. Qed.

Lemma quiet_onopen w : quiet w (onopen w).
Proof. unfold onopen, startHeartbeat, stopHeartbeat. crunch; solve_quiet. Qed.

Lemma quiet_onclose w : quiet w (onclose w).
Proof. unfold onclose, attemptReconnect, stopHeartbeat. crunch; solve_quiet. Qed.

Lemma quiet_socketOpens s w : quiet w (socketOpens s w).
Proof.
  unfold socketOpens, onopen, startHeartbeat, stopHeartbeat.
  crunch; solve_quiet || apply quiet_refl.
Qed.

Lemma quiet_socketClosing s w : quiet w (socketClosing s w).
Proof. unfold socketClosing. crunch; solve_quiet || apply quiet_refl. Qed.

Lemma quiet_socketErrors s w : quiet w (socketErrors s w).
Proof. unfold socketErrors, onerror, enqueue. crunch; solve_quiet || apply quiet_refl. Qed.

Lemma quiet_socketCloses s w : quiet w (socketCloses s w).
Proof.
  unfold socketCloses.
  destruct (sockets w !! s) as [[]|]; try apply quiet_refl.
  all: eapply quiet_trans; [|apply quiet_onclose]; solve_quiet.
Qed.

(** One call moves on, the others stay where they are. *)
Lemma call_move w w' q0 ph0 evs :
  call_inv w ->
  trace w' = trace w ++ evs ->
  (nextPromise w <= nextPromise w')%nat ->
  (q0 < nextPromise w')%nat ->
  phase_holds w' q0 ph0 ->
  (forall q, q <> q0 -> issued q evs = [] /\ attempts_for q evs = [] /\ finals q evs = []) ->
  (forall p, ws_outcomes p evs = []) ->
  (forall q ph h, q <> q0 -> phase_holds w q ph -> phase_http ph = Some h ->
     http_outcomes h evs = []) ->
  (forall n, (nextPromise w' <= n)%nat -> http_outcomes n evs = []) ->
  (forall p ctx, outer ctx <> q0 ->
     fallbacks w' !! p = Some ctx <-> fallbacks w !! p = Some ctx) ->
  (forall n, (nextPromise w' <= n)%nat -> fallbacks w' !! n = None) ->
  (forall q, q <> q0 -> jobs_for q (microtasks w') = jobs_for q (microtasks w)) ->
  (forall x ex q, x_adopt ex = Some q -> q <> q0 ->
     exchanges w' !! x = Some ex <-> exchanges w !! x = Some ex) ->
  exchanges_wf w' ->
  call_inv w'.
Proof.
  intros [Hph Hfr Hex] Htr Hnp Hq0 Hph0 Hproj Hws Hhttp Hhttpf Hfb Hfbf Hjobs Hxs Hwf.
  assert (Hstable : forall q ph, q <> q0 -> phase_holds w q ph -> phase_holds w' q ph).
  { intros q ph Hq Hq'. destruct (Hproj q Hq) as (H1 & H2 & H3).
    apply (phase_stable w w' q ph evs); try done.
    - intros h Hh. by eapply Hhttp.
    - intros p ctx Hc. apply Hfb. congruence.
    - by apply Hjobs.
    - intros x ex Hx. by eapply Hxs. }
  split; [| |exact Hwf].
  - intros q. destruct (decide (q = q0)) as [->|Hq]; [by exists ph0|].
    destruct (Hph q) as [ph Hq']. exists ph. by apply Hstable.
  - intros n Hn. destruct (Hfr n) as (H1 & H2 & H3 & H4); [lia|].
    split; [apply Hstable; [lia|done]|].
    rewrite Htr, ws_outcomes_app, http_outcomes_app, H2, H3, Hws, Hhttpf by done.
    auto.
Qed.

Lemma callViaHTTP_fields caller method params opts w :
  let w' := (callViaHTTP_ caller method params opts w).2 in
  exists request abort,
    trace w' = trace w ++ [Attempt ViaHTTP (HttpCall (nextPromise w)) caller;
                           Fetch (nextExchange w) request abort]
    /\ nextPromise w' = S (nextPromise w)
    /\ nextExchange w' = S (nextExchange w)
    /\ fallbacks w' = fallbacks w
    /\ microtasks w' = microtasks w
    /\ exchanges w'
       = <[nextExchange w := {| x_promise := nextPromise w; x_adopt := caller;
                                x_method := method;
                                x_notification := CallOptions.notification opts |}]>
           (exchanges w).
Proof.
  unfold callViaHTTP_. destruct (CallOptions.notification opts); simpl.
  all: eexists _, _; rewrite <- app_assoc; simpl; repeat split; reflexivity.
Qed.

(** A [fetch] is added. *)
Lemma exchanges_wf_insert w w' evs ex :
  call_inv w ->
  trace w' = trace w ++ evs ->
  (forall h, http_outcomes h evs = []) ->
  (nextPromise w <= x_promise ex < nextPromise w')%nat ->
  (nextExchange w < nextExchange w')%nat ->
  exchanges w' = <[nextExchange w := ex]> (exchanges w) ->
  exchanges_wf w'.
Proof.
  intros [_ Hfr Hex] Htr Hhttp Hp Hx Hxs.
  assert (Hnew : exchanges w !! nextExchange w = None).
  { destruct (exchanges w !! nextExchange w) as [ex0|] eqn:E; [|done].
    destruct (Hex _ _ E). lia. }
  intros x ex1. rewrite Hxs, Htr, http_outcomes_app, Hhttp, app_nil_r.
  rewrite lookup_insert_Some. intros [[<- <-]|[Hne Hold]].
  - split; [lia|]. split; [lia|]. split; [by apply Hfr; lia|].
    intros x' ex'. rewrite lookup_insert_Some. intros [[<- _]|[_ Hold']] Heq; [done|].
    destruct (Hex _ _ Hold') as (_ & Hlt & _). lia.
  - destruct (Hex _ _ Hold) as (H1 & H2 & H3 & H4).
    split; [lia|]. split; [lia|]. split; [done|].
    intros x' ex'. rewrite lookup_insert_Some. intros [[<- <-]|[_ Hold']] Heq; [lia|].
    by eapply H4.
Qed.

(** No [fetch] is added or answered. *)
Lemma exchanges_wf_same w w' evs :
  call_inv w ->
  trace w' = trace w ++ evs ->
  (forall h, http_outcomes h evs = []) ->
  (nextPromise w <= nextPromise w')%nat ->
  (nextExchange w <= nextExchange w')%nat ->
  exchanges w' = exchanges w ->
  exchanges_wf w'.
Proof.
  intros [_ _ Hex] Htr Hhttp Hp Hx Hxs x ex.
  rewrite Hxs, Htr, http_outcomes_app, Hhttp, app_nil_r. intros Hold.
  destruct (Hex _ _ Hold) as (H1 & H2 & H3 & H4).
  split; [lia|]. split; [lia|]. done.
Qed.

Lemma attempt_projections path inner caller q0 q :
  (forall c, caller = Some c -> c = q0) -> q <> q0 ->
  issued q [Attempt path inner caller] = []
  /\ attempts_for q [Attempt path inner caller] = []
  /\ finals q [Attempt path inner caller] = [].
Proof.
  intros Hc Hq. split; [done|]. split; [|done].
  unfold attempts_for. simpl. destruct caller as [c|]; [|done].
  rewrite decide_False; [done|]. rewrite (Hc c eq_refl). congruence.
Qed.

(** [callViaHTTP] begins, for the call [q0] or for none. *)
Lemma call_http_begin w w1 q0 ph0 caller method params opts evs1 :
  call_inv w ->
  trace w1 = trace w ++ evs1 ->
  fallbacks w1 = fallbacks w ->
  exchanges w1 = exchanges w ->
  nextExchange w1 = nextExchange w ->
  (nextPromise w <= nextPromise w1)%nat ->
  (q0 <= nextPromise w1)%nat ->
  (forall q, q <> q0 -> jobs_for q (microtasks w1) = jobs_for q (microtasks w)) ->
  (forall q, q <> q0 -> issued q evs1 = [] /\ attempts_for q evs1 = [] /\ finals q evs1 = []) ->
  (forall p, ws_outcomes p evs1 = []) ->
  (forall h, http_outcomes h evs1 = []) ->
  (forall c, caller = Some c -> c = q0) ->
  phase_holds (callViaHTTP_ caller method params opts w1).2 q0 ph0 ->
  call_inv (callViaHTTP_ caller method params opts w1).2.
Proof.
  intros Hinv Htr1 Hfb1 Hxs1 Hne1 Hnp1 Hq0 Hjobs1 Hproj1 Hws1 Hhttp1 Hc Hph0.
  destruct (callViaHTTP_fields caller method params opts w1)
    as (request & abort & Htr & Hnp & Hne & Hfb & Hmt & Hxs).
  set (w' := (callViaHTTP_ caller method params opts w1).2) in *.
  set (evs := [Attempt ViaHTTP (HttpCall (nextPromise w1)) caller;
               Fetch (nextExchange w1) request abort]) in *.
  pose proof Hinv as [_ Hfr Hex].
  assert (Hnew : exchanges w !! nextExchange w = None).
  { destruct (exchanges w !! nextExchange w) as [ex0|] eqn:E; [|done].
    destruct (Hex _ _ E). lia. }
  assert (Hhttp : forall h, http_outcomes h (evs1 ++ evs) = []).
  { intros h. by rewrite http_outcomes_app, Hhttp1. }
  apply (call_move w w' q0 ph0 (evs1 ++ evs)); try done.
  - by rewrite Htr, Htr1, <- app_assoc.
  - lia.
  - lia.
  - intros q Hq. destruct (Hproj1 q Hq) as (H1 & H2 & H3).
    rewrite issued_app, attempts_for_app, finals_app, H1, H2, H3.
    destruct (attempt_projections ViaHTTP (HttpCall (nextPromise w1)) caller q0 q Hc Hq)
      as (H4 & H5 & H6).
    split; [done|]. split; [|done].
    unfold evs, attempts_for in *. simpl in *.
    by destruct (attempt_for q (Attempt ViaHTTP (HttpCall (nextPromise w1)) caller)).
  - intros p. by rewrite ws_outcomes_app, Hws1.
  - intros p ctx _. by rewrite Hfb, Hfb1.
  - intros n Hn. rewrite Hfb, Hfb1. apply Hfr. lia.
  - intros q Hq. rewrite Hmt. by apply Hjobs1.
  - intros x ex q Hq Hne0. rewrite Hxs, Hxs1, Hne1, lookup_insert_Some. split.
    + intros [[<- <-]|[_ ?]]; [|done]. simpl in Hq. by destruct (Hne0 (Hc _ Hq)).
    + intros Hold. right. split; [|done]. intros <-. congruence.
  - apply (exchanges_wf_insert w w' (evs1 ++ evs)
             {| x_promise := nextPromise w1; x_adopt := caller; x_method := method;
                x_notification := CallOptions.notification opts |} Hinv).
    + by rewrite Htr, Htr1, <- app_assoc.
    + exact Hhttp.
    + simpl. lia.
    + lia.
    + rewrite Hxs, Hxs1, Hne1. reflexivity.
Qed.

(** [callViaWebSocket] registers its request, and then settles its promise
    at once or leaves it pending. *)
Lemma callViaWebSocket_shape caller method params opts w :
  exists w2 evs2,
    ((callViaWebSocket_ caller method params opts w).2 = w2
     \/ exists o, (callViaWebSocket_ caller method params opts w).2
                  = settleWs (nextPromise w) o w2)
    /\ trace w2
       = trace w ++ Attempt ViaWebSocket (WsCall (nextPromise w)) (outer <$> caller) :: evs2
    /\ forallb neutral evs2 = true
    /\ nextPromise w2 = S (nextPromise w)
    /\ nextExchange w2 = nextExchange w
    /\ exchanges w2 = exchanges w
    /\ microtasks w2 = microtasks w
    /\ fallbacks w2 = match caller with
                      | Some ctx => <[nextPromise w := ctx]> (fallbacks w)
                      | None => fallbacks w
                      end.
Proof.
  unfold callViaWebSocket_, newPromise, generateRequestId, setTimer, sendMessage.
  destruct caller as [ctx|]; cbn [fmap option_fmap option_map].
  all: cbn -[settleWs].
  all: repeat match goal with
       | |- context [decide ?P] => destruct (decide P)
       | |- context [if ?b then _ else _] => destruct b eqn:?
       | |- context [match ?x with _ => _ end] => destruct x eqn:?
       end; cbn -[settleWs].
  all: repeat (match goal with
               | H : context [match ?x with _ => _ end] |- _ => destruct x eqn:?
               end; simplify_eq).
  all: eexists _, _; (split; [first [right; eexists; reflexivity | left; reflexivity]|]).
  all: cbn; rewrite <- ?app_assoc; cbn.
  all: repeat split; try reflexivity.
Qed.

(** [callViaWebSocket] has registered its request, for the call [q0] or for
    none. *)
Lemma call_ws_register w w2 q0 ph0 caller p evs :
  call_inv w ->
  trace w2 = trace w ++ evs ->
  (forall q, q <> q0 -> issued q evs = [] /\ attempts_for q evs = [] /\ finals q evs = []) ->
  (forall p', ws_outcomes p' evs = []) ->
  (forall h, http_outcomes h evs = []) ->
  (nextPromise w <= p)%nat ->
  nextPromise w2 = S p ->
  (q0 <= p)%nat ->
  (nextExchange w <= nextExchange w2)%nat ->
  exchanges w2 = exchanges w ->
  (forall q, q <> q0 -> jobs_for q (microtasks w2) = jobs_for q (microtasks w)) ->
  fallbacks w2 = match caller with
                 | Some ctx => <[p := ctx]> (fallbacks w)
                 | None => fallbacks w
                 end ->
  (forall ctx, caller = Some ctx -> outer ctx = q0) ->
  phase_holds w2 q0 ph0 ->
  call_inv w2.
Proof.
  intros Hinv Htr Hproj Hws Hhttp Hp Hnp Hq0 Hne Hxs Hjobs Hfb Hc Hph0.
  pose proof Hinv as [_ Hfr _].
  destruct (Hfr p Hp) as (_ & _ & _ & Hnone).
  apply (call_move w w2 q0 ph0 evs); try done.
  - lia.
  - lia.
  - intros p' ctx Hctx. rewrite Hfb. destruct caller as [ctx0|]; [|done].
    rewrite lookup_insert_Some. split.
    + intros [[<- <-]|[_ ?]]; [|done]. by destruct (Hctx (Hc _ eq_refl)).
    + intros Hold. right. split; [|done]. intros <-. congruence.
  - intros n Hn. rewrite Hfb. destruct caller as [ctx0|].
    + rewrite lookup_insert_ne by lia. apply Hfr. lia.
    + apply Hfr. lia.
  - intros x ex q _ _. by rewrite Hxs.
  - apply (exchanges_wf_same w w2 evs Hinv); try done. lia.
Qed.

Lemma fresh_exchange w : call_inv w -> exchanges w !! nextExchange w = None.
Proof.
  intros [_ _ Hex]. destruct (exchanges w !! nextExchange w) as [ex0|] eqn:E; [|done].
  destruct (Hex _ _ E). lia.
Qed.

Lemma call_callViaHTTP method params opts w :
  call_inv w -> call_inv (callViaHTTP method params opts w).2.
Proof.
  intros Hinv. unfold callViaHTTP.
  apply (call_http_begin w w (nextPromise w) PUnborn None method params opts []);
    try done.
  - by rewrite app_nil_r.
  - destruct (callViaHTTP_fields None method params opts w)
      as (request & abort & Htr & Hnp & Hne & Hfb & Hmt & Hxs).
    destruct (ci_fresh w Hinv (nextPromise w)) as (Hun & _); [lia|].
    eapply (phase_stable w _ _ PUnborn); [exact Hun|exact Htr|done..| | |].
    + intros p ctx _. by rewrite Hfb.
    + by rewrite Hmt.
    + intros x ex Hq. rewrite Hxs, lookup_insert_Some. split.
      * intros [[<- <-]|[_ ?]]; [done|done].
      * intros Hold. right. split; [|done]. intros <-.
        rewrite (fresh_exchange w Hinv) in Hold. done.
Qed.

Lemma call_callViaWebSocket method params opts w :
  call_inv w -> call_inv (callViaWebSocket method params opts w).2.
Proof.
  intros Hinv. unfold callViaWebSocket.
  destruct (callViaWebSocket_shape None method params opts w)
    as (w2 & evs2 & Hres & Htr & Hneu & Hnp & Hne & Hxs & Hmt & Hfb).
  simpl in Htr.
  assert (Hneu' : forallb neutral
            (Attempt ViaWebSocket (WsCall (nextPromise w)) None :: evs2) = true) by done.
  destruct (neutral_projections _ Hneu') as (Hproj & Hws & Hhttp).
  assert (Hinv2 : call_inv w2).
  { apply (call_ws_register w w2 (nextPromise w) PUnborn None (nextPromise w)
             (Attempt ViaWebSocket (WsCall (nextPromise w)) None :: evs2)); try done.
    - lia.
    - by rewrite Hmt.
    - destruct (ci_fresh w Hinv (nextPromise w)) as (Hun & _); [lia|].
      destruct (Hproj (nextPromise w)) as (H1 & H2 & H3).
      eapply (phase_stable w _ _ PUnborn); [exact Hun|exact Htr|done..| | |].
      + intros p ctx _. by rewrite Hfb.
      + by rewrite Hmt.
      + intros x ex _. by rewrite Hxs. }
  destruct Hres as [->|[o ->]]; [done|].
  apply call_settleWs; [done|lia].
Qed.

(** [call] up to the choice of its path. *)
Lemma call_shape method params opts w :
  exists w1 evs,
    (call method params opts w).2
    = (if decide (connectionState (client w1) = CONNECTED)
       then (callViaWebSocket_
               (Some {| outer := nextPromise w; c_method := method; c_params := params;
                        c_options := opts |}) method params opts w1).2
       else (callViaHTTP_ (Some (nextPromise w)) method params opts w1).2)
    /\ (connectionState (client w1) = CONNECTED
        <-> connectionState (client w) = CONNECTED)
    /\ forallb neutral evs = true
    /\ trace w1 = trace w ++ Issued (nextPromise w) (connectionState (client w)) :: evs
    /\ fallbacks w1 = fallbacks w
    /\ exchanges w1 = exchanges w
    /\ nextExchange w1 = nextExchange w
    /\ (S (nextPromise w) <= nextPromise w1)%nat
    /\ forall q, jobs_for q (microtasks w1) = jobs_for q (microtasks w).
Proof.
  unfold call, newPromise. cbn -[autoConnect callViaWebSocket_ callViaHTTP_].
  set (w0 := emit (Issued (nextPromise w) (connectionState (client w)))
                  {| client := client w; sockets := sockets w; nextSocket := nextSocket w;
                     opening := opening w; timers := timers w; nextTimer := nextTimer w;
                     nextPromise := S (nextPromise w); fallbacks := fallbacks w;
                     exchanges := exchanges w; nextExchange := nextExchange w;
                     microtasks := microtasks w; trace := trace w |}).
  destruct (Options.autoConnect (options (client w))
            && bool_decide (connectionState (client w) = DISCONNECTED)) eqn:Hauto.
  - apply andb_true_iff in Hauto as [_ Hd]. apply bool_decide_eq_true in Hd.
    destruct (quiet_autoConnect w0) as (Hf & Hx & Hm & Hn & He & evs & Htr & Hev).
    exists (autoConnect w0), evs.
    split; [by destruct (decide _)|]. split.
    { rewrite Hd. unfold autoConnect, connect. simpl. rewrite Hd. simpl. done. }
    split; [done|]. split; [by rewrite Htr; unfold w0; simpl; rewrite <- app_assoc|].
    repeat split; done.
  - exists w0, []. split; [by destruct (decide _)|].
    repeat split; simpl; auto.
Qed.

Lemma issued_Issued q st : issued q [Issued q st] = [st].
Proof. unfold issued. simpl. by rewrite decide_True. Qed.

Lemma issued_Issued_ne q q' st : q' <> q -> issued q [Issued q' st] = [].
Proof. intros. unfold issued. simpl. by rewrite decide_False. Qed.

Lemma attempts_Attempt q path inner : attempts_for q [Attempt path inner (Some q)] = [path].
Proof. unfold attempts_for. simpl. by rewrite decide_True. Qed.

Lemma attempts_Attempt_ne q q' path inner :
  q' <> q -> attempts_for q [Attempt path inner (Some q')] = [].
Proof. intros. unfold attempts_for. simpl. by rewrite decide_False. Qed.

Lemma finals_Settle q o : finals q [Settle (Call q) o] = [o].
Proof. unfold finals. simpl. by rewrite decide_True. Qed.

Lemma finals_Settle_ne q q' o : q' <> q -> finals q [Settle (Call q') o] = [].
Proof. intros. unfold finals. simpl. by rewrite decide_False. Qed.

(** The events of [call] up to the choice of its path, seen from the call
    itself and from another. *)
Lemma issue_projections q st evs :
  forallb neutral evs = true ->
  (issued q (Issued q st :: evs) = [st]
   /\ attempts_for q (Issued q st :: evs) = []
   /\ finals q (Issued q st :: evs) = [])
  /\ (forall q', q' <> q ->
        issued q' (Issued q st :: evs) = []
        /\ attempts_for q' (Issued q st :: evs) = []
        /\ finals q' (Issued q st :: evs) = [])
  /\ (forall p, ws_outcomes p (Issued q st :: evs) = [])
  /\ (forall h, http_outcomes h (Issued q st :: evs) = []).
Proof.
  intros Hneu. destruct (neutral_projections evs Hneu) as (Hproj & Hws & Hhttp).
  change (Issued q st :: evs) with ([Issued q st] ++ evs).
  split; [|split; [|split]].
  - destruct (Hproj q) as (H1 & H2 & H3).
    by rewrite issued_app, attempts_for_app, finals_app, H1, H2, H3, issued_Issued.
  - intros q' Hq'. destruct (Hproj q') as (H1 & H2 & H3).
    by rewrite issued_app, attempts_for_app, finals_app, H1, H2, H3, issued_Issued_ne.
  - intros p. by rewrite ws_outcomes_app, Hws.
  - intros h. by rewrite http_outcomes_app, Hhttp.
Qed.

Lemma call_call method params opts w :
  call_inv w -> call_inv (call method params opts w).2.
Proof.
  intros Hinv.
  destruct (call_shape method params opts w)
    as (w1 & evs & -> & Hst & Hneu & Htr1 & Hfb1 & Hxs1 & Hne1 & Hnp1 & Hjobs1).
  set (q := nextPromise w) in *. set (st := connectionState (client w)) in *.
  destruct (ci_fresh w Hinv q) as ((Hun_tr & Hun_f & Hun_j & Hun_x) & Hqws & Hqhttp & _);
    [lia|].
  simpl in Hun_tr, Hun_f, Hun_j, Hun_x. destruct Hun_tr as (Hi & Ha & Hfin).
  destruct (issue_projections q st evs Hneu) as ((Hs1 & Hs2 & Hs3) & Hproj1 & Hws1 & Hhttp1).
  destruct (decide (connectionState (client w1) = CONNECTED)) as [Hc|Hc].
  - apply Hst in Hc. fold st in Hc.
    set (ctx := {| outer := q; c_method := method; c_params := params;
                   c_options := opts |}).
    destruct (callViaWebSocket_shape (Some ctx) method params opts w1)
      as (w2 & evs2 & Hres & Htr & Hneu2 & Hnp & Hne & Hxs & Hmt & Hfb).
    set (p := nextPromise w1) in *. simpl in Htr.
    destruct (neutral_projections evs2 Hneu2) as (Hproj2 & Hws2 & Hhttp2).
    destruct (ci_fresh w Hinv p) as (_ & Hpws & _ & Hpfb); [lia|].
    assert (Htr2 : trace w2 = trace w ++ (Issued q st :: evs)
                     ++ [Attempt ViaWebSocket (WsCall p) (Some q)] ++ evs2).
    { rewrite Htr, Htr1, <- app_assoc. reflexivity. }
    assert (Hinv2 : call_inv w2).
    { apply (call_ws_register w w2 q (PAwaitWs p) (Some ctx) p
               ((Issued q st :: evs) ++ [Attempt ViaWebSocket (WsCall p) (Some q)] ++ evs2));
        try done.
      - intros q' Hq'. destruct (Hproj1 q' Hq') as (H1 & H2 & H3).
        destruct (Hproj2 q') as (H4 & H5 & H6).
        rewrite !issued_app, !attempts_for_app, !finals_app, H1, H2, H3, H4, H5, H6.
        by rewrite attempts_Attempt_ne.
      - intros p'. by rewrite !ws_outcomes_app, Hws1, Hws2.
      - intros h. by rewrite !http_outcomes_app, Hhttp1, Hhttp2.
      - lia.
      - lia.
      - lia.
      - congruence.
      - intros q' _. by rewrite Hmt.
      - by rewrite Hfb, Hfb1.
      - by intros ctx' [= <-].
      - destruct (Hproj2 q) as (H4 & H5 & H6).
        split; [|split; [|split]].
        + simpl. rewrite Htr2. split; [split; [|split]|split].
          * by rewrite !issued_app, Hi, Hs1, H4, Hc.
          * by rewrite !attempts_for_app, Ha, Hs2, H5, attempts_Attempt.
          * rewrite !elem_of_app. right. right. left. by apply list_elem_of_singleton.
          * by rewrite !ws_outcomes_app, Hpws, Hws1, Hws2.
          * by rewrite !finals_app, Hfin, Hs3, H6.
        + simpl. rewrite Hfb, Hfb1. split.
          * exists ctx. by rewrite lookup_insert_eq.
          * intros p' ctx'. rewrite lookup_insert_Some. intros [[<- _]|[_ Hold]] Hq; [done|].
            by destruct (Hun_f _ _ Hold).
        + by rewrite Hmt, Hjobs1.
        + simpl. by rewrite Hxs, Hxs1. }
    destruct Hres as [->|[o ->]]; [done|].
    apply call_settleWs; [done|lia].
  - assert (Hst' : st <> CONNECTED) by (intros ?; by apply Hc, Hst).
    destruct (callViaHTTP_fields (Some q) method params opts w1)
      as (request & abort & Htr & Hnp & Hne & Hfb & Hmt & Hxs).
    destruct (ci_fresh w Hinv (nextPromise w1)) as (_ & _ & Hhfresh & _); [lia|].
    apply (call_http_begin w w1 q (PAwaitHttp None (nextPromise w1) (nextExchange w1))
             (Some q) method params opts (Issued q st :: evs)); try done.
    + lia.
    + lia.
    + by intros c [= <-].
    + set (w' := (callViaHTTP_ (Some q) method params opts w1).2) in *.
      assert (Htr2 : trace w' = trace w ++ (Issued q st :: evs)
                ++ [Attempt ViaHTTP (HttpCall (nextPromise w1)) (Some q)]
                ++ [Fetch (nextExchange w1) request abort]).
      { rewrite Htr, Htr1, <- app_assoc. reflexivity. }
      split; [|split; [|split]].
      * simpl. rewrite Htr2. split; [split; [|split]|split].
        -- rewrite !elem_of_app. right. right. left. by apply list_elem_of_singleton.
        -- exists st. by rewrite !issued_app, Hi, Hs1.
        -- by rewrite !attempts_for_app, Ha, Hs2, attempts_Attempt.
        -- by rewrite !http_outcomes_app, Hhfresh, Hhttp1.
        -- by rewrite !finals_app, Hfin, Hs3.
      * simpl. by rewrite Hfb, Hfb1.
      * by rewrite Hmt, Hjobs1.
      * simpl. rewrite Hxs, Hxs1, Hne1. split.
        -- eexists. by rewrite lookup_insert_eq.
        -- intros x' ex'. rewrite lookup_insert_Some. intros [[<- _]|[_ Hold]] Hq; [done|].
           by destruct (Hun_x _ _ Hold).
Qed.

Lemma jobs_for_cons q j (jobs : list Job) :
  jobs_for q (j :: jobs)
  = (if decide (job_call j = Some q) then [j] else []) ++ jobs_for q jobs.
Proof. unfold jobs_for. rewrite filter_cons. by destruct (decide _). Qed.

(** A call with a microtask waiting has been issued. *)
Lemma job_known w q j jobs :
  call_inv w -> microtasks w = j :: jobs -> job_call j = Some q -> (q < nextPromise w)%nat.
Proof.
  intros Hinv Hmt Hj. destruct (decide (q < nextPromise w)%nat) as [|Hge]; [done|].
  destruct (ci_fresh w Hinv q) as ((_ & _ & Hjobs & _) & _); [lia|].
  rewrite Hmt, jobs_for_cons, decide_True in Hjobs by done. done.
Qed.

(** The microtask at the head of the queue runs. *)
Lemma call_job w j jobs :
  call_inv w -> microtasks w = j :: jobs -> call_inv (runJob j (dequeue w)).
Proof.
  intros Hinv Hmt.
  assert (Hrest : forall q, job_call j <> Some q ->
            jobs_for q (microtasks (dequeue w)) = jobs_for q (microtasks w)).
  { intros q Hq. simpl. rewrite Hmt. simpl. by rewrite jobs_for_cons, decide_False. }
  destruct j as [ctx o|q0 o|c e].
  - set (q0 := outer ctx).
    pose proof (job_known w q0 _ _ Hinv Hmt eq_refl) as Hq0.
    destruct (ci_phase w Hinv q0) as [ph (Hpt & Hpf & Hpj & Hpx)].
    rewrite Hmt, jobs_for_cons, decide_True in Hpj by done.
    destruct ph as [|p|p ctx' o'|via h x|via h o'|p v|via h o']; simpl in Hpj; try done.
    injection Hpj as <- <- Hnil.
    simpl in Hpt, Hpf, Hpx. destruct Hpt as (Hon & _ & Hfirst & Hfin).
    destruct o as [v|e]; cbn [runJob].
    + apply (call_move w _ q0 (PDoneWs p v) [Settle (Call q0) (Resolved v)]); try done.
      * split; [|split; [|split]]; simpl.
        -- split; [by apply on_ws_app|]. split; [by apply first_settle_app_Some|].
           by rewrite finals_app, Hfin, finals_Settle.
        -- done.
        -- by rewrite Hmt.
        -- done.
      * intros q Hq. by rewrite finals_Settle_ne.
      * intros n Hn. apply (ci_fresh w Hinv n). simpl in Hn. lia.
      * intros q Hq. apply Hrest. simpl. intros [= <-]. by apply Hq.
      * by apply (exchanges_wf_same w _ [Settle (Call q0) (Resolved v)] Hinv).
    + destruct (callViaHTTP_fields (Some q0) (c_method ctx) (c_params ctx) (c_options ctx)
                  (dequeue w))
        as (request & abort & Htr & Hnp & Hne & Hfb & Hmt' & Hxs).
      destruct (ci_fresh w Hinv (nextPromise w)) as (_ & _ & Hhfresh & _); [lia|].
      destruct Hon as (Hi & Ha & Hin).
      apply (call_http_begin w (dequeue w) q0
               (PAwaitHttp (Some p) (nextPromise w) (nextExchange w))
               (Some q0) _ _ _ []); try done.
      * by rewrite app_nil_r.
      * simpl. lia.
      * intros q Hq. apply Hrest. simpl. intros [= <-]. by apply Hq.
      * by intros c [= <-].
      * split; [|split; [|split]]; simpl in *.
        -- rewrite Htr. split; [split|split].
           ++ rewrite elem_of_app. right. apply list_elem_of_here.
           ++ split; [by rewrite issued_app, Hi|].
              split; [rewrite attempts_for_app, Ha; unfold attempts_for; simpl;
                      by rewrite decide_True|].
              split; [rewrite elem_of_app; by left|].
              exists e. by apply first_settle_app_Some.
           ++ by rewrite http_outcomes_app, Hhfresh.
           ++ by rewrite finals_app, Hfin.
        -- by rewrite Hfb.
        -- by rewrite Hmt', Hmt.
        -- rewrite Hxs. split.
           ++ eexists. by rewrite lookup_insert_eq.
           ++ intros x' ex'. rewrite lookup_insert_Some. intros [[<- _]|[_ Hold]] Hq; [done|].
              by destruct (Hpx _ _ Hold).
  - pose proof (job_known w q0 _ _ Hinv Hmt eq_refl) as Hq0.
    destruct (ci_phase w Hinv q0) as [ph (Hpt & Hpf & Hpj & Hpx)].
    rewrite Hmt, jobs_for_cons, decide_True in Hpj by done.
    destruct ph as [|p|p ctx' o'|via h x|via h o'|p v|via h o']; simpl in Hpj; try done.
    injection Hpj as <- Hnil.
    simpl in Hpt, Hpf, Hpx. destruct Hpt as (Hcame & Hout & Hfin).
    cbn [runJob].
    apply (call_move w _ q0 (PDoneHttp via h o) [Settle (Call q0) o]); try done.
    + split; [|split; [|split]]; simpl.
      * split; [by apply came_by_app|]. split; [by rewrite http_outcomes_app, Hout|].
        by rewrite finals_app, Hfin, finals_Settle.
      * done.
      * by rewrite Hmt.
      * done.
    + intros q Hq. by rewrite finals_Settle_ne.
    + intros n Hn. apply (ci_fresh w Hinv n). simpl in Hn. lia.
    + intros q Hq. apply Hrest. simpl. intros [= <-]. by apply Hq.
    + by apply (exchanges_wf_same w _ [Settle (Call q0) o] Hinv).
  - apply (call_quiet w); [done|]. unfold runJob, dequeue, quiet. simpl.
    split; [done|]. split; [done|].
    split; [intros q; rewrite Hmt; simpl; by rewrite jobs_for_cons, decide_False|].
    split; [lia|]. split; [done|].
    eexists. split; [by rewrite <- app_assoc|done].
Qed.

Lemma runJob_microtasks j w : microtasks (runJob j w) = microtasks w.
Proof.
  destruct j as [ctx [v|e]|q o|c e]; cbn [runJob]; try done.
  by destruct (callViaHTTP_fields (Some (outer ctx)) (c_method ctx) (c_params ctx)
                 (c_options ctx) w) as (? & ? & _ & _ & _ & _ & -> & _).
Qed.

(** The microtasks run to the last. *)
Lemma call_drain w : call_inv w -> call_inv (drain w) /\ microtasks (drain w) = [].
Proof.
  unfold drain.
  assert (H : forall jobs w0, microtasks w0 = jobs -> call_inv w0 ->
            call_inv (fold_left (fun w j => runJob j (dequeue w)) jobs w0)
            /\ microtasks (fold_left (fun w j => runJob j (dequeue w)) jobs w0) = []).
  { induction jobs as [|j jobs IH]; intros w0 Hmt H0; cbn [fold_left]; [done|].
    apply IH.
    - rewrite runJob_microtasks. simpl. by rewrite Hmt.
    - by eapply call_job. }
  intros Hw. by apply H.
Qed.

(** A [fetch] is answered. *)
Lemma exchanges_wf_delete w w' x ex o :
  call_inv w ->
  exchanges w !! x = Some ex ->
  trace w' = trace w ++ [Settle (HttpCall (x_promise ex)) o] ->
  nextPromise w' = nextPromise w ->
  nextExchange w' = nextExchange w ->
  exchanges w' = delete x (exchanges w) ->
  exchanges_wf w'.
Proof.
  intros [_ _ Hex] Hx Htr Hnp Hne Hxs x1 ex1.
  rewrite Hxs, Htr, Hnp, Hne, lookup_delete_Some. intros [Hx1 Hold].
  destruct (Hex _ _ Hold) as (H1 & H2 & H3 & H4).
  split; [done|]. split; [done|]. split.
  - rewrite http_outcomes_app, H3. unfold http_outcomes. simpl.
    rewrite decide_False; [done|]. intros Heq. apply Hx1. by eapply H4.
  - intros x' ex'. rewrite lookup_delete_Some. intros [_ Hold'] Heq. by eapply H4.
Qed.

Lemma http_outcomes_one h h' o :
  http_outcomes h [Settle (HttpCall h') o] = if decide (h' = h) then [o] else [].
Proof. unfold http_outcomes. simpl. by destruct (decide _). Qed.

(** The promise of a [fetch] in flight belongs to the call that awaits it
    and to no other. *)
Lemma exchange_promise_of w x ex q ph h :
  call_inv w -> exchanges w !! x = Some ex ->
  phase_holds w q ph -> phase_http ph = Some h -> h = x_promise ex ->
  x_adopt ex = Some q.
Proof.
  intros Hinv Hx (Hpt & _ & _ & Hpx) Hh ->.
  destruct (ci_exchange w Hinv x ex Hx) as (_ & _ & Hout & Hinj).
  destruct ph as [|p|p ctx' o'|via h x'|via h o'|p v|via h o']; simpl in *;
    simplify_eq.
  - destruct Hpx as [(ex1 & Hx1 & Had & Hp1) _].
    by rewrite <- (Hinj _ _ Hx1 Hp1) in Hx; simplify_eq.
  - destruct Hpt as (_ & Hout' & _). congruence.
  - destruct Hpt as (_ & Hout' & _). congruence.
Qed.

Lemma call_httpReplies x reply w : call_inv w -> call_inv (httpReplies x reply w).
Proof.
  intros Hinv. unfold httpReplies.
  destruct (exchanges w !! x) as [ex|] eqn:Hx; [|done].
  set (o := callViaHTTP_result (x_method ex) (x_notification ex) reply).
  set (h := x_promise ex).
  destruct (ci_exchange w Hinv x ex Hx) as (Hlt & Hplt & Hout & Hinj).
  change (x_promise ex) with h in Hout.
  assert (Hproj : forall q, issued q [Settle (HttpCall h) o] = []
            /\ attempts_for q [Settle (HttpCall h) o] = []
            /\ finals q [Settle (HttpCall h) o] = []) by done.
  assert (Hfresh : forall n, (nextPromise w <= n)%nat ->
            http_outcomes n [Settle (HttpCall h) o] = []).
  { intros n Hn. rewrite http_outcomes_one, decide_False; [done|]. unfold h. lia. }
  destruct (x_adopt ex) as [q0|] eqn:Had.
  - destruct (ci_phase w Hinv q0) as [ph (Hpt & Hpf & Hpj & Hpx)].
    assert (Hq0 : (q0 < nextPromise w)%nat).
    { destruct (decide (q0 < nextPromise w)%nat) as [|Hge]; [done|].
      destruct (ci_fresh w Hinv q0) as ((_ & _ & _ & Hno) & _); [lia|].
      by destruct (Hno x ex Hx). }
    destruct ph as [|p|p ctx' o'|via h' x'|via h' o'|p v|via h' o']; simpl in Hpx;
      try (by destruct (Hpx x ex Hx)).
    destruct Hpx as [(ex1 & Hx1 & _ & Hp1) Huniq].
    pose proof (Huniq x ex Hx Had) as <-. rewrite Hx in Hx1. injection Hx1 as <-.
    fold h in Hp1. subst h'.
    simpl in Hpt, Hpf, Hpj. destruct Hpt as (Hcame & _ & Hfin).
    apply (call_move w _ q0 (PHttpSettled via h o) [Settle (HttpCall h) o]); try done.
    + split; [|split; [|split]]; simpl.
      * split; [by apply came_by_app|].
        split; [by rewrite http_outcomes_app, Hout, http_outcomes_one, decide_True|].
        by rewrite finals_app, Hfin.
      * done.
      * by rewrite jobs_for_snoc, Hpj, decide_True.
      * intros x' ex'. rewrite lookup_delete_Some. intros [Hne Hold] Hq.
        apply Hne. symmetry. by eapply Huniq.
    + intros q ph h1 Hq Hph Hh1. rewrite http_outcomes_one, decide_False; [done|].
      intros Heq. apply Hq.
      pose proof (exchange_promise_of w x ex q ph h1 Hinv Hx Hph Hh1 (eq_sym Heq)).
      congruence.
    + intros n Hn. apply (ci_fresh w Hinv n). simpl in Hn. lia.
    + intros q Hq. simpl. rewrite jobs_for_snoc, decide_False; [apply app_nil_r|].
      simpl. congruence.
    + intros x' ex' q Hq Hne. simpl. rewrite lookup_delete_Some.
      split; [by intros [_ ?]|]. intros Hold. split; [|done]. intros <-. congruence.
    + by apply (exchanges_wf_delete w _ x ex o Hinv).
  - destruct (ci_fresh w Hinv (nextPromise w)) as (Hun & _); [lia|].
    assert (Hstable : forall q ph, phase_holds w q ph ->
              phase_holds (emit (Settle (HttpCall h) o) (with_exchanges (delete x) w)) q ph).
    { intros q ph Hph. destruct (Hproj q) as (H1 & H2 & H3).
      apply (phase_stable w _ q ph [Settle (HttpCall h) o]); try done.
      - intros h1 Hh1. rewrite http_outcomes_one, decide_False; [done|].
        intros Heq.
        pose proof (exchange_promise_of w x ex q ph h1 Hinv Hx Hph Hh1 (eq_sym Heq)).
        congruence.
      - intros x' ex' Hq. simpl. rewrite lookup_delete_Some.
        split; [by intros [_ ?]|]. intros Hold. split; [|done]. intros <-. congruence. }
    split.
    + intros q. destruct (ci_phase w Hinv q) as [ph Hph]. exists ph. by apply Hstable.
    + intros n Hn. simpl in Hn. destruct (ci_fresh w Hinv n Hn) as (H1 & H2 & H3 & H4).
      split; [by apply Hstable|]. simpl.
      by rewrite ws_outcomes_app, http_outcomes_app, H2, H3, Hfresh.
    + by apply (exchanges_wf_delete w _ x ex o Hinv).
Qed.

Lemma call_handleMessage data w :
  once_inv w -> call_inv w -> call_inv (leaves (handleMessage data w)).
Proof.
  intros Honce Hinv. unfold handleMessage.
  destruct (negb (id_truthy (response_id data))); [done|].
  destruct (Map_get (pendingRequests (client w)) (response_id data)) as [pending|] eqn:Hget;
    [|done].
  apply Map_get_Some_elem in Hget.
  destruct (once_entry w Honce _ _ Hget) as (Hlt & _).
  set (w1 := clearTimer_if (timeout pending)
               (with_client
                  (fun c => set_pendingRequests
                              (Map_delete (pendingRequests c) (response_id data)) c) w)).
  assert (Hq : quiet w w1).
  { unfold w1, clearTimer_if. destruct (timeout pending); solve_quiet. }
  assert (Hn : nextPromise w1 = nextPromise w).
  { unfold w1, clearTimer_if. by destruct (timeout pending). }
  destruct data; cbn [leaves];
    [apply call_settleWs; (eapply call_quiet; [exact Hinv|exact Hq]) || lia ..
    |eapply call_quiet; [exact Hinv|exact Hq]].
Qed.

Lemma call_clearPendingRequests error w :
  once_inv w -> call_inv w -> call_inv (clearPendingRequests error w).
Proof.
  intros Honce Hinv. unfold clearPendingRequests.
  assert (H : forall entries w0,
            call_inv w0 ->
            (forall i entry, (i, entry) ∈ entries -> (settles entry < nextPromise w0)%nat) ->
            call_inv (fold_left
                        (fun w (entry : RpcId * PendingRequest) =>
                           settleWs (settles entry.2) (Rejected error)
                                    (clearTimer_if (timeout entry.2) w))
                        entries w0)).
  { induction entries as [|[i entry] entries IH]; intros w0 H0 Hlt; cbn [fold_left snd];
      [done|].
    assert (Hq : quiet w0 (clearTimer_if (timeout entry) w0)).
    { unfold clearTimer_if. destruct (timeout entry); solve_quiet. }
    assert (Hn : nextPromise (clearTimer_if (timeout entry) w0) = nextPromise w0).
    { unfold clearTimer_if. by destruct (timeout entry). }
    apply IH.
    - apply call_settleWs; [by eapply call_quiet|].
      simpl. rewrite Hn. apply (Hlt i). apply list_elem_of_here.
    - intros i' entry' Hin. rewrite settleWs_nextPromise, Hn.
      apply (Hlt i'). by apply list_elem_of_further. }
  eapply call_quiet; [apply H; [exact Hinv|]|solve_quiet].
  intros i entry Hin. by destruct (once_entry w Honce _ _ Hin).
Qed.

Lemma call_disconnect w : once_inv w -> call_inv w -> call_inv (disconnect w).
Proof.
  intros Honce Hinv. unfold disconnect. cbv zeta.
  match goal with
  | |- call_inv (clearPendingRequests _ ?W) =>
      assert (Hf : frames w W); [|assert (Hq : quiet w W)]
  end.
  - destruct w as [[s0 ? ? ? ? rt hb ?] ? ? ? ? ? ? ? ? ? ? ?].
    unfold closeSocket. destruct rt, hb, s0; solve_frames.
  - destruct w as [[s0 ? ? ? ? rt hb ?] ? ? ? ? ? ? ? ? ? ? ?].
    unfold closeSocket. destruct rt, hb, s0; solve_quiet.
  - apply call_clearPendingRequests; [by eapply once_frames | by eapply call_quiet].
Qed.

Lemma call_timerFires t clock w :
  once_inv w -> call_inv w -> call_inv (timerFires t clock w).
Proof.
  intros Honce Hinv. unfold timerFires.
  destruct (timers w !! t) as [[[i p method|s| |] ms]|] eqn:Htm; try done.
  - destruct (once_timer w Honce t i p) as (Hlt & _); [by exists method, ms|].
    apply call_settleWs; [|simpl; lia].
    eapply call_quiet; [exact Hinv|solve_quiet].
  - eapply call_quiet; [exact Hinv|]. simpl. unfold enqueue.
    destruct (opening w !! s) as [[c t']|]; solve_quiet.
  - eapply call_quiet; [exact Hinv|].
    eapply quiet_trans; [|apply quiet_connect]. solve_quiet.
  - eapply call_quiet; [exact Hinv|].
    destruct (ws (client w)) as [s|]; [|apply quiet_refl].
    destruct (sockets w !! s) as [[]|]; solve_quiet || apply quiet_refl.
Qed.

Lemma call_handle i w : once_inv w -> call_inv w -> call_inv (handle i w).
Proof.
  intros Honce Hinv. destruct i; cbn [handle].
  - eapply call_quiet; [exact Hinv | apply quiet_connect].
  - by apply call_disconnect.
  - by apply call_call.
  - by apply call_callViaWebSocket.
  - by apply call_callViaHTTP.
  - done.
  - eapply call_quiet; [exact Hinv | apply quiet_socketOpens].
  - eapply call_quiet; [exact Hinv | apply quiet_socketClosing].
  - eapply call_quiet; [exact Hinv | apply quiet_socketErrors].
  - eapply call_quiet; [exact Hinv | apply quiet_socketCloses].
  - unfold socketMessage.
    destruct (sockets w !! s) as [[]|]; try done; destruct frame; try done.
    all: destruct (onmessage_parsed data w) as [-> | ->];
      [apply (call_handleMessage data w Honce Hinv)|].
    all: eapply call_quiet; [apply (call_handleMessage data w Honce Hinv) | solve_quiet].
  - by apply call_timerFires.
  - by apply call_httpReplies.
Qed.




(** Between two handlers of the browser no microtask is left. *)
Lemma step_settled w i : call_inv w -> once_inv w -> from_user i = false ->
  microtasks (step w i) = [].
Proof.
  intros Hinv Honce Hi. unfold step. rewrite Hi.
  apply call_drain, call_handle.
  - eapply once_frames; [exact Honce | apply frames_drain].
  - by apply call_drain.
Qed.




(** Two scenarios: a call issued while connected whose request times out
    is tried again by HTTP, once, and returns what HTTP gave; a call issued
    while the socket is still connecting goes to HTTP at once. *)
Example scenario_timeout_then_http :
  let w := run (construct Options.defaults)
             [SocketOpens 0;
              DoCall (js "common:getNodes") VUndefined
                {| CallOptions.timeout := None; CallOptions.notification := false |};
              TimerFires 3 0;
              HttpReplies 0 (Responds true 200 (js "OK")
                               (Json (SuccessResponse (IdNum 2) VNull)))] in
  issued 1 (trace w) = [CONNECTED]
  /\ attempts_for 1 (trace w) = [ViaWebSocket; ViaHTTP]
  /\ ws_outcomes 2 (trace w) = [Rejected (Err (REQUEST_TIMED_OUT ++ js "common:getNodes"))]
  /\ http_outcomes 3 (trace w) = [Resolved VNull]
  /\ finals 1 (trace w) = [Resolved VNull].
Proof. vm_compute. done. Qed.

Example scenario_connecting_goes_to_http :
  let w := run (construct Options.defaults)
             [DoCall (js "common:getNodes") VUndefined
                {| CallOptions.timeout := None; CallOptions.notification := false |}] in
  issued 1 (trace w) = [CONNECTING]
  /\ attempts_for 1 (trace w) = [ViaHTTP].
Proof. vm_compute. done. Qed.


End RPC2Facts.

(* ===================================================================== *)
(** ** Facts about the other helpers of [src/lib/utils.ts]                *)
(* ===================================================================== *)

Module UtilsFacts.
Import Js Utils UtilsSpec.

Lemma js_app a b : js (a +:+ b) = js a ++ js b.
Proof.
  unfold js. induction a as [|c a IH]; [done|]. simpl. by rewrite IH.
Qed.

Lemma js_inj a b : js a = js b -> a = b.
Proof.
  unfold js. revert b. induction a as [|c a IH]; intros [|d b]; simpl; try done.
  intros [= Hc Hab]. f_equal; [|by apply IH].
  apply Nat2Z.inj in Hc.
  by rewrite <- (ascii_nat_embedding c), <- (ascii_nat_embedding d), Hc.
Qed.

Lemma numberToString_inj a b : numberToString a = numberToString b -> a = b.
Proof. unfold numberToString. intros H. apply js_inj in H. by apply (inj pretty). Qed.

Lemma storageKey_inj a b : storageKey a = storageKey b -> a = b.
Proof.
  unfold storageKey. intros H. apply app_inv_head, app_inv_tail in H.
  by apply numberToString_inj.
Qed.

(** X4. [formatRelativeTime] in closed form, for the age [d] of the
    timestamp in milliseconds, at most 2^53 in size: a timestamp of the
    future reads "0s"; below one minute the whole seconds, below one hour
    the whole minutes, below 25 hours the whole hours (so a full day and
    more still reads "24h"), and from 25 hours on the whole days. *)
Theorem formatRelativeTime_closed_form clock timestamp :
  Z.abs (clock - timestamp) <= 2 ^ 53 ->
  let d := clock - timestamp in
  formatRelativeTime clock timestamp
  = if d <? 0 then js "0s"
    else if d <? 60000 then numberToString (d / 1000) ++ js "s"
    else if d <? 3600000 then numberToString (d / 60000) ++ js "m"
    else if d <? 90000000 then numberToString (d / 3600000) ++ js "h"
    else numberToString (d / 86400000) ++ js "d".
Proof.
  intros _ d. unfold formatRelativeTime. fold d. cbv zeta.
  change (1000 * 60 * 60) with 3600000. change (1000 * 60) with 60000.
  destruct (Z.ltb_spec d 0) as [Hneg|Hpos].
  - assert (Hh : d / 3600000 < 0) by (apply Z.div_lt_upper_bound; lia).
    pose proof (Z.rem_bound_pos_neg d 3600000 ltac:(lia) ltac:(lia)) as Hm.
    pose proof (Z.rem_bound_pos_neg d 60000 ltac:(lia) ltac:(lia)) as Hs.
    assert (Hm' : Z.rem d 3600000 / 60000 <= 0).
    { apply Z.lt_succ_r, Z.div_lt_upper_bound; lia. }
    assert (Hs' : Z.rem d 60000 / 1000 <= 0).
    { apply Z.lt_succ_r, Z.div_lt_upper_bound; lia. }
    destruct (Z.ltb_spec 24 (d / 3600000)); [lia|].
    destruct (Z.ltb_spec 0 (d / 3600000)); [lia|].
    destruct (Z.ltb_spec 0 (Z.rem d 3600000 / 60000)); [lia|].
    destruct (Z.leb_spec 0 (Z.rem d 60000 / 1000)) as [Hs0|]; [|done].
    assert (Z.rem d 60000 / 1000 = 0) as -> by lia. done.
  - assert (Hh : 0 <= d / 3600000) by (apply Z.div_pos; lia).
    destruct (Z.ltb_spec 24 (d / 3600000)) as [Hd|Hd].
    { assert (90000000 <= d).
      { destruct (Z.le_gt_cases 90000000 d) as [|Hlt]; [done|].
        assert (d / 3600000 < 25) by (apply Z.div_lt_upper_bound; lia). lia. }
      destruct (Z.ltb_spec d 60000); [lia|]. destruct (Z.ltb_spec d 3600000); [lia|].
      destruct (Z.ltb_spec d 90000000); [lia|].
      rewrite Z.div_div by lia. done. }
    assert (d < 90000000).
    { destruct (Z.le_gt_cases 90000000 d) as [Hge|]; [|done].
      assert (25 <= d / 3600000) by (apply Z.div_le_lower_bound; lia). lia. }
    destruct (Z.ltb_spec d 90000000); [|lia].
    destruct (Z.ltb_spec 0 (d / 3600000)) as [Hh1|Hh0].
    { assert (3600000 <= d).
      { destruct (Z.le_gt_cases 3600000 d) as [|Hlt]; [done|].
        rewrite Z.div_small in Hh1 by lia. lia. }
      destruct (Z.ltb_spec d 60000); [lia|]. destruct (Z.ltb_spec d 3600000); [lia|]. done. }
    assert (d < 3600000).
    { destruct (Z.le_gt_cases 3600000 d) as [Hge|]; [|done].
      assert (1 <= d / 3600000) by (apply Z.div_le_lower_bound; lia). lia. }
    destruct (Z.ltb_spec d 3600000); [|lia].
    rewrite (Z.rem_small d 3600000) by lia.
    destruct (Z.ltb_spec 0 (d / 60000)) as [Hm1|Hm0].
    { assert (60000 <= d).
      { destruct (Z.le_gt_cases 60000 d) as [|Hlt]; [done|].
        rewrite Z.div_small in Hm1 by lia. lia. }
      destruct (Z.ltb_spec d 60000); [lia|]. done. }
    assert (d < 60000).
    { destruct (Z.le_gt_cases 60000 d) as [Hge|]; [|done].
      assert (1 <= d / 60000) by (apply Z.div_le_lower_bound; lia). lia. }
    destruct (Z.ltb_spec d 60000); [|lia].
    rewrite (Z.rem_small d 60000) by lia.
    destruct (Z.leb_spec 0 (d / 1000)) as [|Hs]; [done|].
    assert (0 <= d / 1000) by (apply Z.div_pos; lia). lia.
Qed.

Lemma formatRelativeTime_closed_form_witness :
  Z.abs (1700000090000 - 1700000000000) <= 2 ^ 53
  /\ formatRelativeTime 1700000090000 1700000000000 = js "1m"
  /\ formatRelativeTime 1700090000000 1700000000000 = js "1d"
  /\ formatRelativeTime 1700086400000 1700000000000 = js "24h".
Proof.
  assert (H : Z.abs (1700000090000 - 1700000000000) <= 2 ^ 53) by (vm_compute; discriminate).
  split; [exact H|]. split; [|split; by vm_compute].
  rewrite (formatRelativeTime_closed_form 1700000090000 1700000000000 H). by vm_compute.
Defined.

Lemma or_else_defaulted v : defaulted (or_else v emptyString).
Proof. unfold defaulted, or_else. destruct (truthy v) eqn:E; auto. Qed.

Lemma or_else_kept v : kept_or_empty v (or_else v emptyString).
Proof. unfold kept_or_empty, or_else. by destruct (truthy v). Qed.

Section ParseFacts.
Context `{PF : Platform}.

(** X5. [parsePublicNote] answers [null] exactly when the note is empty,
    is no JSON, is the JSON [null], or has neither a billing nor a plan
    part that is truthy.  Otherwise the answer has a billing part exactly
    when the note has a truthy one, and likewise a plan part; [endDate] is
    what the note says, and every other field, the four others of the
    billing part and the seven of the plan part, is what the note says if
    that is truthy and the empty text if not, so none of them is ever
    [undefined], [null], [0] or [false]. *)
Theorem parsePublicNote_fields publicNote :
  match parsePublicNote publicNote with
  | None =>
      publicNote = []
      \/ JSON_parse publicNote = None
      \/ JSON_parse publicNote = Some VNull
      \/ JSON_parse publicNote = Some VUndefined
      \/ exists data, JSON_parse publicNote = Some data
           /\ truthy (prop data "billingDataMod") = false
           /\ truthy (prop data "planDataMod") = false
  | Some r =>
      publicNote <> []
      /\ exists data, JSON_parse publicNote = Some data
           /\ data <> VNull /\ data <> VUndefined
           /\ (is_Some (billingDataMod r) <-> truthy (prop data "billingDataMod") = true)
           /\ (is_Some (planDataMod r) <-> truthy (prop data "planDataMod") = true)
           /\ (is_Some (billingDataMod r) \/ is_Some (planDataMod r))
           /\ (forall b, billingDataMod r = Some b ->
                 let noted := prop (prop data "billingDataMod") in
                 endDate b = noted "endDate"
                 /\ startDate b = or_else (noted "startDate") emptyString
                 /\ kept_or_empty (noted "startDate") (startDate b)
                 /\ kept_or_empty (noted "autoRenewal") (autoRenewal b)
                 /\ kept_or_empty (noted "cycle") (cycle b)
                 /\ kept_or_empty (noted "amount") (amount b)
                 /\ Forall defaulted [startDate b; autoRenewal b; cycle b; amount b])
           /\ (forall p, planDataMod r = Some p ->
                 let noted := prop (prop data "planDataMod") in
                 kept_or_empty (noted "bandwidth") (bandwidth p)
                 /\ kept_or_empty (noted "trafficVol") (trafficVol p)
                 /\ kept_or_empty (noted "trafficType") (trafficType p)
                 /\ kept_or_empty (noted "IPv4") (IPv4 p)
                 /\ kept_or_empty (noted "IPv6") (IPv6 p)
                 /\ kept_or_empty (noted "networkRoute") (networkRoute p)
                 /\ kept_or_empty (noted "extra") (extra p)
                 /\ Forall defaulted [bandwidth p; trafficVol p; trafficType p;
                                      IPv4 p; IPv6 p; networkRoute p; extra p])
  end.
Proof.
  unfold parsePublicNote.
  destruct publicNote as [|c note]; [by left|].
  destruct (JSON_parse (c :: note)) as [data|] eqn:Hparse; [|by right; left].
  set (b := prop data "billingDataMod"). set (p := prop data "planDataMod").
  assert (Hb : Forall defaulted [startDate (billingOf b); autoRenewal (billingOf b);
                                 cycle (billingOf b); amount (billingOf b)]).
  { repeat (constructor; [apply or_else_defaulted|]). constructor. }
  assert (Hp : Forall defaulted [bandwidth (planOf p); trafficVol (planOf p);
                                 trafficType (planOf p); IPv4 (planOf p); IPv6 (planOf p);
                                 networkRoute (planOf p); extra (planOf p)]).
  { repeat (constructor; [apply or_else_defaulted|]). constructor. }
  assert (Hmain :
    match (if negb (truthy b) && negb (truthy p) then None
           else if truthy b && negb (truthy p) then
             Some {| billingDataMod := Some (billingOf b); planDataMod := None |}
           else if negb (truthy b) && truthy p then
             Some {| billingDataMod := None; planDataMod := Some (planOf p) |}
           else
             Some {| billingDataMod := Some (billingOf b);
                     planDataMod := Some (planOf p) |}) with
    | None => truthy b = false /\ truthy p = false
    | Some r =>
        (is_Some (billingDataMod r) <-> truthy b = true)
        /\ (is_Some (planDataMod r) <-> truthy p = true)
        /\ (is_Some (billingDataMod r) \/ is_Some (planDataMod r))
        /\ (forall b', billingDataMod r = Some b' -> b' = billingOf b)
        /\ (forall p', planDataMod r = Some p' -> p' = planOf p)
    end).
  { destruct (truthy b), (truthy p); simpl.
    - split; [split; [done|by eexists]|]. split; [split; [done|by eexists]|].
      split; [left; by eexists|]. split; by intros ? [= <-].
    - split; [split; [done|by eexists]|]. split; [split; [by intros [? [=]]|done]|].
      split; [left; by eexists|]. split; [by intros ? [= <-]|by intros ? [=]].
    - split; [split; [by intros [? [=]]|done]|]. split; [split; [done|by eexists]|].
      split; [right; by eexists|]. split; [by intros ? [=]|by intros ? [= <-]].
    - done. }
  assert (Hshape : forall r,
    (if negb (truthy b) && negb (truthy p) then None
     else if truthy b && negb (truthy p) then
       Some {| billingDataMod := Some (billingOf b); planDataMod := None |}
     else if negb (truthy b) && truthy p then
       Some {| billingDataMod := None; planDataMod := Some (planOf p) |}
     else
       Some {| billingDataMod := Some (billingOf b); planDataMod := Some (planOf p) |})
    = Some r ->
    data <> VNull -> data <> VUndefined ->
    c :: note <> []
    /\ exists data0, Some data = Some data0
         /\ data0 <> VNull /\ data0 <> VUndefined
         /\ (is_Some (billingDataMod r) <-> truthy (prop data0 "billingDataMod") = true)
         /\ (is_Some (planDataMod r) <-> truthy (prop data0 "planDataMod") = true)
         /\ (is_Some (billingDataMod r) \/ is_Some (planDataMod r))
         /\ (forall b0, billingDataMod r = Some b0 ->
               let noted := prop (prop data0 "billingDataMod") in
               endDate b0 = noted "endDate"
               /\ startDate b0 = or_else (noted "startDate") emptyString
               /\ kept_or_empty (noted "startDate") (startDate b0)
               /\ kept_or_empty (noted "autoRenewal") (autoRenewal b0)
               /\ kept_or_empty (noted "cycle") (cycle b0)
               /\ kept_or_empty (noted "amount") (amount b0)
               /\ Forall defaulted [startDate b0; autoRenewal b0; cycle b0; amount b0])
         /\ (forall p0, planDataMod r = Some p0 ->
               let noted := prop (prop data0 "planDataMod") in
               kept_or_empty (noted "bandwidth") (bandwidth p0)
               /\ kept_or_empty (noted "trafficVol") (trafficVol p0)
               /\ kept_or_empty (noted "trafficType") (trafficType p0)
               /\ kept_or_empty (noted "IPv4") (IPv4 p0)
               /\ kept_or_empty (noted "IPv6") (IPv6 p0)
               /\ kept_or_empty (noted "networkRoute") (networkRoute p0)
               /\ kept_or_empty (noted "extra") (extra p0)
               /\ Forall defaulted [bandwidth p0; trafficVol p0; trafficType p0;
                                    IPv4 p0; IPv6 p0; networkRoute p0; extra p0])).
  { intros r Hr Hn Hu. rewrite Hr in Hmain. destruct Hmain as (H1 & H2 & H3 & H4 & H5).
    split; [done|]. exists data. split; [done|]. split; [done|]. split; [done|].
    split; [exact H1|]. split; [exact H2|]. split; [exact H3|]. split.
    - intros b0 Hb0. rewrite (H4 _ Hb0). cbv zeta. split; [done|]. split; [done|].
      do 4 (split; [apply or_else_kept|]). exact Hb.
    - intros p0 Hp0. rewrite (H5 _ Hp0). cbv zeta.
      do 7 (split; [apply or_else_kept|]). exact Hp. }
  assert (Hnone :
    (if negb (truthy b) && negb (truthy p) then None
     else if truthy b && negb (truthy p) then
       Some {| billingDataMod := Some (billingOf b); planDataMod := None |}
     else if negb (truthy b) && truthy p then
       Some {| billingDataMod := None; planDataMod := Some (planOf p) |}
     else
       Some {| billingDataMod := Some (billingOf b); planDataMod := Some (planOf p) |})
    = None ->
    c :: note = []
    \/ Some data = None
    \/ Some data = Some VNull
    \/ Some data = Some VUndefined
    \/ exists data0, Some data = Some data0
         /\ truthy (prop data0 "billingDataMod") = false
         /\ truthy (prop data0 "planDataMod") = false).
  { intros Hr. rewrite Hr in Hmain. do 4 right. by exists data. }
  destruct data; try (by right; right; left); try (by right; right; right; left).
  all: match goal with
       | |- match ?X with _ => _ end =>
           destruct X as [r|] eqn:Hr; [by apply Hshape|by apply Hnone]
       end.
Qed.

(** X6. [getDaysBetweenDates] is the distance of the two times in whole
    days, the nearest count and the upper one in a tie, for two dates less
    than 2^26 days apart: it is within half a day of the distance and 0 for
    a date and itself.  The two orders of the dates give counts that
    cancel, except in a tie, where they add up to 1. *)
Theorem getDaysBetweenDates_nearest date1 date2 t1 t2 :
  Date_getTime date1 = Some t1 ->
  Date_getTime date2 = Some t2 ->
  Z.abs (t1 - t2) < 2 ^ 26 * 86400000 ->
  exists n m,
    getDaysBetweenDates date1 date2 = Some n
    /\ getDaysBetweenDates date2 date1 = Some m
    /\ 2 * (n * 86400000) - 86400000 <= 2 * (t1 - t2) < 2 * (n * 86400000) + 86400000
    /\ (t1 = t2 -> n = 0)
    /\ (if decide ((t1 - t2) mod 86400000 = 43200000) then n + m = 1 else n + m = 0).
Proof.
  intros H1 H2 _.
  unfold getDaysBetweenDates. cbv zeta. change (24 * 60 * 60 * 1000) with 86400000.
  rewrite H1, H2.
  unfold Math_round_div. change (2 * 86400000) with 172800000.
  set (x := t1 - t2). replace (t2 - t1) with (- x) by (unfold x; lia).
  eexists _, _. split; [done|]. split; [done|].
  pose proof (Z.div_mod (2 * x + 86400000) 172800000 ltac:(lia)) as Hn.
  pose proof (Z.mod_pos_bound (2 * x + 86400000) 172800000 ltac:(lia)) as Hnb.
  pose proof (Z.div_mod (2 * - x + 86400000) 172800000 ltac:(lia)) as Hm.
  pose proof (Z.mod_pos_bound (2 * - x + 86400000) 172800000 ltac:(lia)) as Hmb.
  pose proof (Z.div_mod x 86400000 ltac:(lia)) as Hx.
  pose proof (Z.mod_pos_bound x 86400000 ltac:(lia)) as Hxb.
  set (n := (2 * x + 86400000) / 172800000) in *.
  set (m := (2 * - x + 86400000) / 172800000) in *.
  set (q := x / 86400000) in *. set (r := x mod 86400000) in *.
  split; [lia|]. split; [intros ->; unfold x in *; lia|].
  destruct (decide (r = 43200000)); lia.
Qed.


Lemma cycles_shift n months t :
  cycles n months (dayjs_add_months t months) = dayjs_add_months (cycles n months t) months.
Proof. induction n as [|n IH]; simpl; [done|]. by rewrite IH. Qed.

Lemma nextCycle_finds months checkDate :
  (forall t, t < dayjs_add_months t months) ->
  forall (n : nat) nextDate,
    checkDate - nextDate < Z.of_nat n ->
    exists k : nat,
      (1 <= k <= S n)%nat
      /\ checkDate < cycles k months nextDate
      /\ (forall j : nat, (1 <= j < k)%nat -> cycles j months nextDate <= checkDate)
      /\ forall fuel : nat, (k <= fuel)%nat ->
           nextCycle fuel months checkDate nextDate = Some (cycles k months nextDate).
Proof.
  intros Hgrow. induction n as [|n IH]; intros nextDate Hn.
  - exists 1%nat. pose proof (Hgrow nextDate). simpl.
    split; [lia|]. split; [lia|]. split; [intros j Hj; lia|].
    intros [|fuel] Hfuel; [lia|]. simpl.
    destruct (Z.leb_spec (dayjs_add_months nextDate months) checkDate); [lia|done].
  - pose proof (Hgrow nextDate) as Hstep.
    destruct (Z.leb_spec (dayjs_add_months nextDate months) checkDate) as [Hle|Hgt].
    + destruct (IH (dayjs_add_months nextDate months)) as (k & Hk & Hafter & Hbefore & Hrun);
        [lia|].
      exists (S k). split; [lia|]. cbn [cycles]. rewrite <- cycles_shift.
      split; [done|]. split.
      * intros [|[|j]] Hj; [lia|simpl; lia|].
        change (cycles (S (S j)) months nextDate)
          with (dayjs_add_months (cycles (S j) months nextDate) months).
        rewrite <- cycles_shift. apply Hbefore. lia.
      * intros [|fuel] Hfuel; [lia|]. cbn [nextCycle].
        destruct (Z.leb_spec (dayjs_add_months nextDate months) checkDate); [|lia].
        apply Hrun. lia.
    + exists 1%nat. simpl. split; [lia|]. split; [lia|]. split; [intros j Hj; lia|].
      intros [|fuel] Hfuel; [lia|]. simpl.
      destruct (Z.leb_spec (dayjs_add_months nextDate months) checkDate); [lia|done].
Qed.

(** X7. [getNextCycleTime], for a valid start, a positive number of months
    and a calendar in which adding them makes a time later: the loop ends,
    and the answer is the first of the times start + 1 cycle, start + 2
    cycles, ... that is later than the date to check.  It is never the
    start itself, not even when the start is later than that date. *)
Theorem getNextCycleTime_first_cycle_after startDate months specifiedDate :
  validTime startDate = true ->
  0 < months ->
  (forall t, t < dayjs_add_months t months) ->
  exists k : nat,
    (1 <= k)%nat
    /\ specifiedDate < cycles k months startDate
    /\ (forall j : nat, (1 <= j < k)%nat -> cycles j months startDate <= specifiedDate)
    /\ forall fuel : nat, (k <= fuel)%nat ->
         getNextCycleTime fuel startDate months specifiedDate
         = Some (inr (cycles k months startDate)).
Proof.
  intros Hvalid Hmonths Hgrow.
  destruct (nextCycle_finds months specifiedDate Hgrow
              (Z.to_nat (specifiedDate - startDate + 1)) startDate)
    as (k & Hk & Hafter & Hbefore & Hrun); [lia|].
  exists k. split; [lia|]. split; [done|]. split; [done|].
  intros fuel Hfuel. unfold getNextCycleTime. rewrite Hvalid.
  destruct (Z.leb_spec months 0); [lia|]. simpl. by rewrite Hrun.
Qed.

End ParseFacts.

Lemma getDaysBetweenDates_nearest_witness :
  let date1 := js "1970-01-02T12:00:00.000Z" in
  let date2 := js "1970-01-01T00:00:00.000Z" in
  @Date_getTime sample_platform date1 = Some 129600000
  /\ @Date_getTime sample_platform date2 = Some 0
  /\ Z.abs (129600000 - 0) < 2 ^ 26 * 86400000
  /\ exists n m,
       @getDaysBetweenDates sample_platform date1 date2 = Some n
       /\ @getDaysBetweenDates sample_platform date2 date1 = Some m
       /\ n + m = 1.
Proof.
  intros date1 date2.
  assert (H1 : @Date_getTime sample_platform date1 = Some 129600000) by (by vm_compute).
  assert (H2 : @Date_getTime sample_platform date2 = Some 0) by (by vm_compute).
  assert (H3 : Z.abs (129600000 - 0) < 2 ^ 26 * 86400000) by (by vm_compute).
  split; [exact H1|]. split; [exact H2|]. split; [exact H3|].
  destruct (@getDaysBetweenDates_nearest sample_platform date1 date2 _ _ H1 H2 H3)
    as (n & m & Hn & Hm & _ & _ & Hnm).
  exists n, m. split; [exact Hn|]. split; [exact Hm|]. exact Hnm.
Defined.

Lemma getNextCycleTime_first_cycle_after_witness :
  validTime 0 = true
  /\ 0 < 1
  /\ (forall t, t < @dayjs_add_months sample_platform t 1)
  /\ exists k : nat,
       (1 <= k)%nat
       /\ 7776000005 < @cycles sample_platform k 1 0
       /\ (forall j : nat, (1 <= j < k)%nat -> @cycles sample_platform j 1 0 <= 7776000005)
       /\ forall fuel : nat, (k <= fuel)%nat ->
            @getNextCycleTime sample_platform fuel 0 1 7776000005
            = Some (inr (@cycles sample_platform k 1 0)).
Proof.
  assert (H1 : validTime 0 = true) by reflexivity.
  assert (H2 : 0 < 1) by lia.
  assert (H3 : forall t, t < @dayjs_add_months sample_platform t 1) by (intros t; simpl; lia).
  split; [exact H1|]. split; [exact H2|]. split; [exact H3|].
  exact (@getNextCycleTime_first_cycle_after sample_platform 0 1 7776000005 H1 H2 H3).
Defined.

Lemma handlePublicNote_note (serverId : Z) (publicNote : jsstring)
    (sessionStorage : gmap jsstring jsstring) :
  publicNote <> [] ->
  handlePublicNote serverId publicNote sessionStorage
  = (publicNote, <[storageKey serverId := publicNote]> sessionStorage).
Proof.
  intros Hnote. unfold handlePublicNote. destruct publicNote as [|c note]; [done|].
  by destruct (sessionStorage !! storageKey serverId) as [[|]|].
Qed.

Lemma handlePublicNote_empty (serverId : Z) (sessionStorage : gmap jsstring jsstring) :
  handlePublicNote serverId [] sessionStorage
  = (default [] (sessionStorage !! storageKey serverId), sessionStorage).
Proof.
  unfold handlePublicNote. by destruct (sessionStorage !! storageKey serverId) as [[|]|].
Qed.

(** X8. [handlePublicNote] remembers the last note of a server that was
    not empty: called with a note, it answers the note and stores it;
    called again for the same server with the empty note, it answers the
    stored one and leaves the storage as it is.  The note of one server
    changes nothing for another. *)
Theorem handlePublicNote_remembers (serverId : Z) (publicNote : jsstring)
    (sessionStorage : gmap jsstring jsstring) :
  publicNote <> [] ->
  let stored := (handlePublicNote serverId publicNote sessionStorage).2 in
  (handlePublicNote serverId publicNote sessionStorage).1 = publicNote
  /\ handlePublicNote serverId [] stored = (publicNote, stored)
  /\ handlePublicNote serverId publicNote stored = (publicNote, stored)
  /\ forall other note,
       other <> serverId ->
       stored !! storageKey other = sessionStorage !! storageKey other
       /\ (handlePublicNote other note stored).1
          = (handlePublicNote other note sessionStorage).1.
Proof.
  intros Hnote. rewrite (handlePublicNote_note _ _ _ Hnote). cbn [fst snd]. cbv zeta.
  split; [done|]. split; [|split].
  - by rewrite handlePublicNote_empty, lookup_insert_eq.
  - by rewrite (handlePublicNote_note _ _ _ Hnote), insert_insert_eq.
  - intros other note Hother.
    assert (Hkey : storageKey serverId <> storageKey other).
    { intros Heq. apply Hother. symmetry. by apply storageKey_inj. }
    split; [by apply lookup_insert_ne|].
    destruct note as [|c note].
    + rewrite !handlePublicNote_empty. cbn [fst]. by rewrite lookup_insert_ne.
    + by rewrite !handlePublicNote_note.
Qed.

Lemma handlePublicNote_remembers_witness :
  js "traffic: 1TB" <> []
  /\ handlePublicNote 7 [] (handlePublicNote 7 (js "traffic: 1TB") ∅).2
     = (js "traffic: 1TB", (handlePublicNote 7 (js "traffic: 1TB") ∅).2).
Proof.
  assert (H : js "traffic: 1TB" <> []) by done.
  split; [exact H|].
  exact (proj1 (proj2 (handlePublicNote_remembers 7 (js "traffic: 1TB") ∅ H))).
Defined.

End UtilsFacts.

(* ===================================================================== *)
(** ** Facts about [uuidToNumber] and [countryFlagToCode]                *)
(* ===================================================================== *)

Module KomariHelpersFacts.
Import Js Komari KomariHelpersSpec.

Lemma ToInt32_mod z : ToInt32 z mod 2 ^ 32 = z mod 2 ^ 32.
Proof.
  unfold ToInt32. cbv zeta. destruct (z mod 2 ^ 32 <? 2 ^ 31).
  - apply Z.mod_mod. lia.
  - rewrite <- (Z.mod_add _ 1) by lia.
    replace (z mod 2 ^ 32 - 2 ^ 32 + 1 * 2 ^ 32) with (z mod 2 ^ 32) by lia.
    apply Z.mod_mod. lia.
Qed.

Lemma ToInt32_range z : - 2 ^ 31 <= ToInt32 z < 2 ^ 31.
Proof.
  unfold ToInt32. cbv zeta. pose proof (Z.mod_pos_bound z (2 ^ 32) ltac:(lia)).
  destruct (z mod 2 ^ 32 <? 2 ^ 31) eqn:E; [apply Z.ltb_lt in E|apply Z.ltb_ge in E]; lia.
Qed.

Lemma shl_5_mod h : shl h 5 mod 2 ^ 32 = (32 * h) mod 2 ^ 32.
Proof.
  unfold shl. rewrite ToInt32_mod. change (5 mod 32) with 5.
  rewrite Z.shiftl_mul_pow2 by lia. change (2 ^ 5) with 32.
  rewrite Z.mul_comm, Z.mul_mod, ToInt32_mod, <- Z.mul_mod by lia. done.
Qed.

Lemma hash_step_mod h h' c :
  h mod 2 ^ 32 = h' mod 2 ^ 32 ->
  (c + (shl h 5 - h)) mod 2 ^ 32 = (31 * h' + c) mod 2 ^ 32.
Proof.
  intros Hh.
  rewrite Z.add_mod, Zminus_mod, shl_5_mod, Hh by lia.
  rewrite (Z.mul_mod 32 h), Hh, <- Z.mul_mod by lia.
  rewrite <- Zminus_mod, <- Z.add_mod by lia. f_equal. lia.
Qed.

Lemma hash_fold_mod uuid h h' :
  h mod 2 ^ 32 = h' mod 2 ^ 32 ->
  fold_left (fun hash charCode => charCode + (shl hash 5 - hash)) uuid h mod 2 ^ 32
  = fold_left (fun h c => 31 * h + c) uuid h' mod 2 ^ 32.
Proof.
  revert h h'. induction uuid as [|c uuid IH]; intros h h' Hh; simpl; [done|].
  apply IH. by apply hash_step_mod.
Qed.

Lemma polyHash_app a b : polyHash (a ++ b) = polyHash a * 31 ^ Z.of_nat (length b) + polyHash b.
Proof.
  unfold polyHash. rewrite fold_left_app. generalize (fold_left (fun h c => 31 * h + c) a 0).
  intros h0.
  assert (H : forall l h, fold_left (fun h c => 31 * h + c) l h
                          = h * 31 ^ Z.of_nat (length l)
                            + fold_left (fun h c => 31 * h + c) l 0).
  { induction l as [|c l IH]; intros h; simpl length; simpl fold_left.
    - change (Z.of_nat 0) with 0. lia.
    - rewrite IH, (IH (31 * 0 + c)), Nat2Z.inj_succ, Z.pow_succ_r by lia. lia. }
  apply H.
Qed.

Lemma uuidToNumber_poly uuid : uuidToNumber uuid = polyHash uuid mod 2 ^ 32.
Proof. unfold uuidToNumber, ToUint32, polyHash. cbv zeta. by apply hash_fold_mod. Qed.

(** X1. [uuidToNumber] is the polynomial hash of the code units with base
    31, reduced to 32 bits without sign: the id of a uuid is
    [(c0 * 31^(n-1) + ... + c(n-1)) mod 2^32], a number from 0 to
    [2^32 - 1]; the empty uuid has the id 0, and one more code unit [c]
    turns the id [h] into [(31 * h + c) mod 2^32]. *)
Theorem uuidToNumber_polynomial_hash uuid :
  uuidToNumber uuid = polyHash uuid mod 2 ^ 32
  /\ 0 <= uuidToNumber uuid < 2 ^ 32
  /\ uuidToNumber [] = 0
  /\ forall c, uuidToNumber (uuid ++ [c]) = (31 * uuidToNumber uuid + c) mod 2 ^ 32.
Proof.
  split; [apply uuidToNumber_poly|]. split.
  { unfold uuidToNumber, ToUint32. cbv zeta. apply Z.mod_pos_bound. lia. }
  split; [done|].
  intros c. rewrite !uuidToNumber_poly, polyHash_app. simpl length.
  change (31 ^ Z.of_nat 1) with 31. change (polyHash [c]) with (31 * 0 + c).
  rewrite (Z.add_mod (31 * (polyHash uuid mod 2 ^ 32))), (Z.mul_mod 31), Z.mod_mod by lia.
  rewrite <- Z.mul_mod, <- Z.add_mod by lia. f_equal. lia.
Qed.

(** The running hash stays where a double counts exactly, for every uuid of
    code units that is shorter than [2^20]. *)
Lemma uuidHash_bound uuid :
  Forall (fun c => 0 <= c < 65536) uuid ->
  Z.abs (uuidHash uuid) <= Z.of_nat (length uuid) * 2 ^ 32.
Proof.
  unfold uuidHash. intros Hu.
  assert (H : forall l h, Forall (fun c => 0 <= c < 65536) l ->
            Z.abs (fold_left (fun hash charCode => charCode + (shl hash 5 - hash)) l h)
            <= Z.abs h + Z.of_nat (length l) * 2 ^ 32).
  { induction l as [|c l IH]; intros h Hl; simpl length; simpl fold_left; [lia|].
    inversion Hl as [|? ? Hc Hl']; subst.
    etransitivity; [apply IH; exact Hl'|].
    pose proof (ToInt32_range (Z.shiftl (ToInt32 h) (5 mod 32))) as Hr.
    unfold shl. lia. }
  specialize (H uuid 0 Hu). simpl in H. lia.
Qed.

Lemma mod_congruence_ctx M a b k p s :
  M <> 0 -> a mod M = b mod M -> (p + (a * k + s)) mod M = (p + (b * k + s)) mod M.
Proof.
  intros HM Hab.
  rewrite (Z.add_mod p (a * k + s)), (Z.add_mod (a * k) s), (Z.mul_mod a k) by done.
  rewrite (Z.add_mod p (b * k + s)), (Z.add_mod (b * k) s), (Z.mul_mod b k) by done.
  by rewrite Hab.
Qed.

(** Equal hashes of two parts of equal length give equal ids, whatever
    comes before and after. *)
Lemma uuidToNumber_congruence p a b s :
  length a = length b ->
  polyHash a mod 2 ^ 32 = polyHash b mod 2 ^ 32 ->
  uuidToNumber (p ++ a ++ s) = uuidToNumber (p ++ b ++ s).
Proof.
  intros Hlen Hab. rewrite !uuidToNumber_poly, !polyHash_app, !length_app, Hlen.
  apply mod_congruence_ctx; [lia|done].
Qed.

(** X2. The ids are not unique: two uuids that differ only in that one has
    "Aa" where the other has "BB" are different and have the same id. *)
Theorem uuidToNumber_collides p s :
  p ++ js "Aa" ++ s <> p ++ js "BB" ++ s
  /\ uuidToNumber (p ++ js "Aa" ++ s) = uuidToNumber (p ++ js "BB" ++ s).
Proof.
  split.
  - intros Heq. apply app_inv_head in Heq. discriminate Heq.
  - by apply uuidToNumber_congruence.
Qed.

Lemma codePoints_pair hi lo rest :
  55296 <= hi <= 56319 -> 56320 <= lo <= 57343 ->
  codePoints (hi :: lo :: rest) = (65536 + (hi - 55296) * 1024 + (lo - 56320)) :: codePoints rest.
Proof.
  intros Hhi Hlo. cbn [codePoints].
  destruct (Z.leb_spec 55296 hi), (Z.leb_spec hi 56319),
    (Z.leb_spec 56320 lo), (Z.leb_spec lo 57343); try lia. done.
Qed.

(** X3. [countryFlagToCode] undoes the flag: the flag of a country code in
    capital letters gives the code back in small letters, and the empty
    flag gives the empty code. *)
Theorem countryFlagToCode_of_flag code :
  Forall (fun c => 65 <= c <= 90) code ->
  countryFlagToCode (regionalIndicators code) = lowerAscii code.
Proof.
  unfold countryFlagToCode, lowerAscii.
  induction 1 as [|c code Hc _ IH]; [done|].
  cbn [regionalIndicators flat_map app]. rewrite codePoints_pair by lia.
  cbn [map]. f_equal; [|exact IH].
  unfold ToUint16. rewrite Z.mod_small by lia. lia.
Qed.

Lemma countryFlagToCode_of_flag_witness :
  Forall (fun c => 65 <= c <= 90) (js "US")
  /\ countryFlagToCode (regionalIndicators (js "US")) = js "us".
Proof.
  assert (H : Forall (fun c => 65 <= c <= 90) (js "US"))
    by (repeat (constructor; [split; by vm_compute|]); constructor).
  split; [exact H|]. exact (countryFlagToCode_of_flag (js "US") H).
Defined.

End KomariHelpersFacts.

(* ===================================================================== *)
(** ** Facts about the timers of the transport client                     *)
(* ===================================================================== *)

Module RPC2TimersFacts.
Import Js RPC2 RPC2Spec RPC2Timers MapFacts RPC2Facts.

Lemma timers_inv_view w w' : timer_view w' = timer_view w -> timers_inv w -> timers_inv w'.
Proof.
  unfold timer_view. intros [= Htm Hnt Hop Hhb Hrt Hp He Hd] [H1 H2 H3 H4 H5 H6 H7].
  split; rewrite ?Htm, ?Hnt, ?Hop, ?Hhb, ?Hrt, ?Hp, ?He, ?Hd; done.
Qed.

(** A timer that is no timeout of a request is disarmed. *)
Lemma timers_inv_clear t w :
  timers_inv w ->
  (forall tm, timers w !! t = Some tm -> is_request_timer tm = false) ->
  timers_inv (clearTimer t w).
Proof.
  intros [H1 H2 H3 H4 H5 H6 H7] Hkind. split; simpl.
  - intros t' tm. rewrite lookup_delete_Some. intros [_ Ht']. eauto.
  - intros hb tm Hf. rewrite lookup_delete_Some. intros [_ Ht']. eauto.
  - intros rt tm Hf. rewrite lookup_delete_Some. intros [_ Ht']. eauto.
  - intros s c t' tm Hs. rewrite lookup_delete_Some. intros [_ Ht']. eauto.
  - done.
  - intros t' tm. rewrite lookup_delete_Some. intros [_ Ht']. eauto.
  - intros i entry Hin. destruct (H7 i entry Hin) as (t' & method & ms & Hto & Ht').
    exists t', method, ms. split; [done|]. rewrite lookup_delete_Some. split; [|done].
    intros <-. by specialize (Hkind _ Ht').
Qed.

Lemma stopHeartbeat_inv w : timers_inv w -> timers_inv (stopHeartbeat w).
Proof.
  intros Hinv. unfold stopHeartbeat.
  destruct (heartbeatInterval (client w)) as [hb|] eqn:Hhb; [|done].
  pose proof Hinv as [H1 H2 H3 H4 H5 H6 H7]. split; simpl.
  - intros t' tm. rewrite lookup_delete_Some. intros [_ Ht']. eauto.
  - done.
  - intros rt tm Hf. rewrite lookup_delete_Some. intros [_ Ht']. eauto.
  - intros s c t' tm Hs. rewrite lookup_delete_Some. intros [_ Ht']. eauto.
  - destruct H5 as (_ & H5b & H5c). done.
  - intros t' tm. rewrite lookup_delete_Some. intros [Hne Ht'] Ha.
    destruct (H6 _ _ Ht' Ha) as (Hf & _). congruence.
  - intros i entry Hin. destruct (H7 i entry Hin) as (t' & method & ms & Hto & Ht').
    exists t', method, ms. split; [done|]. rewrite lookup_delete_Some. split; [|done].
    intros <-. by specialize (H2 _ _ Hhb Ht').
Qed.

Lemma stopHeartbeat_field w : heartbeatInterval (client (stopHeartbeat w)) = None.
Proof. unfold stopHeartbeat. by destruct (heartbeatInterval (client w)) eqn:E. Qed.

(** A timer is armed under a fresh handle, for the heartbeat, for a
    reconnect, for a [connect] or for a request. *)
Lemma timers_inv_arm_heartbeat w :
  timers_inv w -> heartbeatInterval (client w) = None ->
  Options.enableHeartbeat (options (client w)) = true ->
  timers_inv (with_client (set_heartbeatInterval (Some (nextTimer w)))
                (setTimer Heartbeat (Options.heartbeatInterval (options (client w))) w).2).
Proof.
  intros [H1 H2 H3 H4 (H5a & H5b & H5c) H6 H7] Hnone Hen. split; simpl.
  - intros t tm. rewrite lookup_insert_Some. intros [[<- _]|[_ Ht]]; [lia|].
    specialize (H1 _ _ Ht). lia.
  - intros hb tm [= <-]. rewrite lookup_insert_eq. by intros [= <-].
  - intros rt tm Hf. rewrite lookup_insert_Some. intros [[<- _]|[_ Ht]]; [|eauto].
    specialize (H5b _ Hf). lia.
  - intros s c t tm Hs. rewrite lookup_insert_Some. intros [[<- _]|[_ Ht]]; [|eauto].
    specialize (H5c _ _ _ Hs). lia.
  - split; [intros hb [= <-]; lia|]. split.
    + intros rt Hf. specialize (H5b _ Hf). lia.
    + intros s c t Hs. specialize (H5c _ _ _ Hs). lia.
  - intros t tm. rewrite lookup_insert_Some. intros [[<- <-]|[_ Ht]] Ha; [done|].
    destruct (H6 _ _ Ht Ha) as (Hf & _). congruence.
  - intros i entry Hin. destruct (H7 i entry Hin) as (t' & method & ms & Hto & Ht').
    exists t', method, ms. split; [done|]. rewrite lookup_insert_ne; [done|].
    specialize (H1 _ _ Ht'). lia.
Qed.

Lemma startHeartbeat_inv w : timers_inv w -> timers_inv (startHeartbeat w).
Proof.
  intros Hinv. unfold startHeartbeat.
  destruct (Options.enableHeartbeat (options (client w))) eqn:Hen; [|done].
  pose proof (stopHeartbeat_inv w Hinv) as Hs.
  pose proof (stopHeartbeat_field w) as Hf.
  assert (Hopt : options (client (stopHeartbeat w)) = options (client w)).
  { unfold stopHeartbeat. by destruct (heartbeatInterval (client w)). }
  rewrite <- Hopt in Hen.
  exact (timers_inv_arm_heartbeat (stopHeartbeat w) Hs Hf Hen).
Qed.

Lemma timers_inv_arm_reconnect w ms :
  timers_inv w ->
  timers_inv (with_client (set_reconnectTimeout (Some (nextTimer w)))
                (setTimer Reconnect ms w).2).
Proof.
  intros [H1 H2 H3 H4 (H5a & H5b & H5c) H6 H7]. split; simpl.
  - intros t tm. rewrite lookup_insert_Some. intros [[<- _]|[_ Ht]]; [lia|].
    specialize (H1 _ _ Ht). lia.
  - intros hb tm Hf. rewrite lookup_insert_Some. intros [[<- _]|[_ Ht]]; [|eauto].
    specialize (H5a _ Hf). lia.
  - intros rt tm [= <-]. rewrite lookup_insert_eq. by intros [= <-].
  - intros s c t tm Hs. rewrite lookup_insert_Some. intros [[<- _]|[_ Ht]]; [|eauto].
    specialize (H5c _ _ _ Hs). lia.
  - split; [intros hb Hf; specialize (H5a _ Hf); lia|]. split.
    + intros rt [= <-]. lia.
    + intros s c t Hs. specialize (H5c _ _ _ Hs). lia.
  - intros t tm. rewrite lookup_insert_Some. intros [[<- <-]|[_ Ht]] Ha; [done|]. eauto.
  - intros i entry Hin. destruct (H7 i entry Hin) as (t' & method & ms' & Hto & Ht').
    exists t', method, ms'. split; [done|]. rewrite lookup_insert_ne; [done|].
    specialize (H1 _ _ Ht'). lia.
Qed.

Lemma timers_inv_arm_connect w s c :
  timers_inv w ->
  timers_inv (with_opening (insert s (c, nextTimer w))
                (setTimer (ConnectTimeout s) 10000 w).2).
Proof.
  intros [H1 H2 H3 H4 (H5a & H5b & H5c) H6 H7]. split; simpl.
  - intros t tm. rewrite lookup_insert_Some. intros [[<- _]|[_ Ht]]; [lia|].
    specialize (H1 _ _ Ht). lia.
  - intros hb tm Hf. rewrite lookup_insert_Some. intros [[<- _]|[_ Ht]]; [|eauto].
    specialize (H5a _ Hf). lia.
  - intros rt tm Hf. rewrite lookup_insert_Some. intros [[<- _]|[_ Ht]]; [|eauto].
    specialize (H5b _ Hf). lia.
  - intros s' c' t tm. rewrite lookup_insert_Some.
    intros [[<- [= <- <-]]|[_ Hs]].
    + rewrite lookup_insert_eq. by intros [= <-].
    + rewrite lookup_insert_Some. intros [[<- _]|[_ Ht]]; [|eauto].
      specialize (H5c _ _ _ Hs). lia.
  - split; [intros hb Hf; specialize (H5a _ Hf); lia|]. split.
    + intros rt Hf. specialize (H5b _ Hf). lia.
    + intros s' c' t. rewrite lookup_insert_Some. intros [[<- [= <- <-]]|[_ Hs]]; [lia|].
      specialize (H5c _ _ _ Hs). lia.
  - intros t tm. rewrite lookup_insert_Some. intros [[<- <-]|[_ Ht]] Ha; [done|]. eauto.
  - intros i entry Hin. destruct (H7 i entry Hin) as (t' & method & ms' & Hto & Ht').
    exists t', method, ms'. split; [done|]. rewrite lookup_insert_ne; [done|].
    specialize (H1 _ _ Ht'). lia.
Qed.

Lemma timers_inv_arm_request w i p method ms :
  timers_inv w -> NoDup (map fst (pendingRequests (client w))) ->
  timers_inv
    (with_client
       (fun c => set_pendingRequests
                   (Map_set (pendingRequests c) i
                            {| settles := p; timeout := Some (nextTimer w) |}) c)
       (setTimer (RequestTimeout i p method) ms w).2).
Proof.
  intros [H1 H2 H3 H4 (H5a & H5b & H5c) H6 H7] Hnd. split; simpl.
  - intros t tm. rewrite lookup_insert_Some. intros [[<- _]|[_ Ht]]; [lia|].
    specialize (H1 _ _ Ht). lia.
  - intros hb tm Hf. rewrite lookup_insert_Some. intros [[<- _]|[_ Ht]]; [|eauto].
    specialize (H5a _ Hf). lia.
  - intros rt tm Hf. rewrite lookup_insert_Some. intros [[<- _]|[_ Ht]]; [|eauto].
    specialize (H5b _ Hf). lia.
  - intros s c t tm Hs. rewrite lookup_insert_Some. intros [[<- _]|[_ Ht]]; [|eauto].
    specialize (H5c _ _ _ Hs). lia.
  - split; [intros hb Hf; specialize (H5a _ Hf); lia|]. split.
    + intros rt Hf. specialize (H5b _ Hf). lia.
    + intros s c t Hs. specialize (H5c _ _ _ Hs). lia.
  - intros t tm. rewrite lookup_insert_Some. intros [[<- <-]|[_ Ht]] Ha; [done|]. eauto.
  - intros i' entry Hin. apply (elem_of_Map_set _ _ _ _ _ Hnd) in Hin as [[-> ->]|[Hin Hne]].
    + exists (nextTimer w), method, ms. split; [done|]. simpl. by rewrite lookup_insert_eq.
    + destruct (H7 i' entry Hin) as (t' & method' & ms' & Hto & Ht').
      exists t', method', ms'. split; [done|]. rewrite lookup_insert_ne; [done|].
      specialize (H1 _ _ Ht'). lia.
Qed.

(** A request leaves the table and its timeout is disarmed; [t] is the
    timeout of the entry if it is there, or the timer that has just gone
    off for it. *)
Lemma timers_inv_drop_request w i t :
  timers_inv w -> NoDup (map fst (pendingRequests (client w))) ->
  (forall tm, timers w !! t = Some tm ->
     exists p method, action tm = RequestTimeout i p method) ->
  timers_inv
    (clearTimer t
       (with_client (fun c => set_pendingRequests (Map_delete (pendingRequests c) i) c) w)).
Proof.
  intros [H1 H2 H3 H4 H5 H6 H7] Hnd Hkind. split; simpl.
  - intros t' tm. rewrite lookup_delete_Some. intros [_ Ht']. eauto.
  - intros hb tm Hf. rewrite lookup_delete_Some. intros [_ Ht']. eauto.
  - intros rt tm Hf. rewrite lookup_delete_Some. intros [_ Ht']. eauto.
  - intros s c t' tm Hs. rewrite lookup_delete_Some. intros [_ Ht']. eauto.
  - done.
  - intros t' tm. rewrite lookup_delete_Some. intros [_ Ht']. eauto.
  - intros i' entry Hin. apply (elem_of_Map_delete _ _ _ _ Hnd) in Hin as [Hin Hne].
    destruct (H7 i' entry Hin) as (t' & method & ms & Hto & Ht').
    exists t', method, ms. split; [done|]. rewrite lookup_delete_Some. split; [|done].
    intros <-. destruct (Hkind _ Ht') as (p & m & Ha). simpl in Ha. congruence.
Qed.

Lemma settleWs_view p o w : timer_view (settleWs p o w) = timer_view w.
Proof. unfold settleWs. simpl. by destruct (fallbacks w !! p). Qed.

Lemma connect_inv w : timers_inv w -> timers_inv (connect w).2.
Proof.
  intros Hinv. unfold connect, newPromise. cbn -[setTimer].
  destruct (bool_decide (connectionState (client w) = CONNECTED)
            || bool_decide (connectionState (client w) = CONNECTING)).
  - by apply (timers_inv_view w).
  - eapply timers_inv_view; [|apply (timers_inv_arm_connect w (nextSocket w) (nextPromise w) Hinv)].
    reflexivity.
Qed.

Lemma autoConnect_inv w : timers_inv w -> timers_inv (autoConnect w).
Proof. intros Hinv. unfold autoConnect. case_decide; [by apply connect_inv|done]. Qed.

Lemma callViaHTTP_view caller method params opts w :
  timer_view (callViaHTTP_ caller method params opts w).2 = timer_view w.
Proof. unfold callViaHTTP_. by destruct (CallOptions.notification opts). Qed.

Lemma callViaWebSocket_inv caller method params opts w :
  timers_inv w -> NoDup (map fst (pendingRequests (client w))) ->
  timers_inv (callViaWebSocket_ caller method params opts w).2.
Proof.
  intros Hinv Hnd.
  assert (Hsame : forall w', timer_view w' = timer_view w -> timers_inv w')
    by (intros w' Hv; by apply (timers_inv_view w)).
  assert (Harm : forall i p m ms w',
            timer_view w'
            = timer_view
                (with_client
                   (fun c => set_pendingRequests
                               (Map_set (pendingRequests c) i
                                        {| settles := p; timeout := Some (nextTimer w) |}) c)
                   (setTimer (RequestTimeout i p m) ms w).2) ->
            timers_inv w').
  { intros i p m ms w' Hv. eapply timers_inv_view; [exact Hv|].
    by apply timers_inv_arm_request. }
  unfold callViaWebSocket_, newPromise, generateRequestId, sendMessage, setTimer.
  destruct caller as [ctx|]; cbn -[settleWs].
  all: destruct (decide (connectionState (client w) = CONNECTED)); cbn -[settleWs];
    [|apply Hsame; by rewrite settleWs_view].
  all: destruct (CallOptions.notification opts); cbn -[settleWs].
  all: destruct (ws (client w)) as [s|]; [destruct (sockets w !! s) as [[]|]|];
    cbn -[settleWs].
  all: first [ apply Hsame; rewrite ?settleWs_view; reflexivity
             | eapply Harm; rewrite ?settleWs_view; reflexivity ].
Qed.

Lemma call_timers_inv method params opts w :
  timers_inv w -> NoDup (map fst (pendingRequests (client w))) ->
  timers_inv (call method params opts w).2.
Proof.
  intros Hinv Hnd. unfold call, newPromise. cbn -[autoConnect callViaWebSocket_ callViaHTTP_].
  match goal with
  | |- context [if decide (connectionState (client ?W) = CONNECTED) then _ else _] =>
      assert (HW : timers_inv W
                   /\ pendingRequests (client W) = pendingRequests (client w));
        [|destruct (decide (connectionState (client W) = CONNECTED))]
  end.
  - destruct (Options.autoConnect (options (client w))
              && bool_decide (connectionState (client w) = DISCONNECTED)).
    + split.
      * apply autoConnect_inv. by apply (timers_inv_view w).
      * unfold autoConnect, connect. simpl. case_decide; [|done].
        by destruct (bool_decide _ || bool_decide _).
    + split; [by apply (timers_inv_view w)|done].
  - destruct HW as [HW Hp]. cbn [snd]. apply callViaWebSocket_inv; [done|]. by rewrite Hp.
  - destruct HW as [HW Hp]. cbn [snd]. eapply timers_inv_view; [|exact HW].
    apply callViaHTTP_view.
Qed.

Lemma handleMessage_timers_inv data w :
  timers_inv w -> NoDup (map fst (pendingRequests (client w))) ->
  timers_inv (leaves (handleMessage data w)).
Proof.
  intros Hinv Hnd. unfold handleMessage.
  destruct (negb (id_truthy (response_id data))); [done|].
  destruct (Map_get (pendingRequests (client w)) (response_id data)) as [pending|] eqn:Hget;
    [|done].
  apply Map_get_Some_elem in Hget.
  destruct (ti_pending w Hinv _ _ Hget) as (t & method & ms & Hto & Ht).
  rewrite Hto. cbn [clearTimer_if].
  assert (H : timers_inv
                (clearTimer t
                   (with_client
                      (fun c => set_pendingRequests
                                  (Map_delete (pendingRequests c) (response_id data)) c) w))).
  { apply timers_inv_drop_request; [done|done|].
    intros tm. rewrite Ht. intros [= <-]. by eexists _, _. }
  destruct data; cbn [leaves]; try exact H;
    (eapply timers_inv_view; [|exact H]); by rewrite settleWs_view.
Qed.

Lemma timers_inv_clear_idle t w :
  timers_inv w -> pendingRequests (client w) = [] -> timers_inv (clearTimer t w).
Proof.
  intros [H1 H2 H3 H4 H5 H6 H7] Hp. split; simpl.
  - intros t' tm. rewrite lookup_delete_Some. intros [_ Ht']. eauto.
  - intros hb tm Hf. rewrite lookup_delete_Some. intros [_ Ht']. eauto.
  - intros rt tm Hf. rewrite lookup_delete_Some. intros [_ Ht']. eauto.
  - intros s c t' tm Hs. rewrite lookup_delete_Some. intros [_ Ht']. eauto.
  - done.
  - intros t' tm. rewrite lookup_delete_Some. intros [_ Ht']. eauto.
  - rewrite Hp. intros i entry Hin. by apply elem_of_nil in Hin.
Qed.

Lemma clearPendingRequests_timers_inv error w :
  timers_inv w -> timers_inv (clearPendingRequests error w).
Proof.
  intros Hinv. unfold clearPendingRequests.
  assert (H0 : timers_inv (with_client (set_pendingRequests []) w)).
  { destruct Hinv as [H1 H2 H3 H4 H5 H6 H7]. split; try done.
    simpl. intros i entry Hin. by apply elem_of_nil in Hin. }
  revert H0. generalize (pendingRequests (client w)). clear Hinv.
  intros entries. revert w. induction entries as [|[i entry] entries IH]; intros w H0;
    cbn [fold_left snd]; [done|].
  apply IH. unfold clearTimer_if. destruct (timeout entry) as [t|].
  - eapply timers_inv_view; [|apply (timers_inv_clear_idle t); [exact H0|done]].
    unfold timer_view, settleWs. simpl. by destruct (fallbacks w !! settles entry).
  - eapply timers_inv_view; [|exact H0].
    unfold timer_view, settleWs. simpl. by destruct (fallbacks w !! settles entry).
Qed.

Lemma disconnect_timers_inv w : timers_inv w -> timers_inv (disconnect w).
Proof.
  intros Hinv. unfold disconnect. cbv zeta.
  apply clearPendingRequests_timers_inv.
  set (w1 := with_client (fun c => set_options (Options.set_autoReconnect false (options c)) c) w).
  assert (H1 : timers_inv w1) by (by apply (timers_inv_view w)).
  set (w2 := match reconnectTimeout (client w1) with
             | Some t => with_client (set_reconnectTimeout None) (clearTimer t w1)
             | None => w1
             end).
  assert (H2 : timers_inv w2).
  { subst w2. destruct (reconnectTimeout (client w1)) as [rt|] eqn:Hrt; [|done].
    assert (Hc : timers_inv (clearTimer rt w1)).
    { apply timers_inv_clear; [done|]. intros tm Htm.
      unfold is_request_timer. by rewrite (ti_reconnect w1 H1 rt tm Hrt Htm). }
    destruct Hc as [C1 C2 C3 C4 (C5a & C5b & C5c) C6 C7]. by split. }
  set (w3 := match heartbeatInterval (client w2) with
             | Some t => with_client (set_heartbeatInterval None) (clearTimer t w2)
             | None => w2
             end).
  assert (H3 : timers_inv w3) by apply (stopHeartbeat_inv w2 H2).
  set (w4 := match ws (client w3) with
             | Some s => with_client (set_ws None) (closeSocket s w3)
             | None => w3
             end).
  assert (H4 : timers_inv w4).
  { subst w4. destruct (ws (client w3)); [|done]. by apply (timers_inv_view w3). }
  by apply (timers_inv_view w4).
Qed.

Lemma onopen_timers_inv w : timers_inv w -> timers_inv (onopen w).
Proof.
  intros Hinv. unfold onopen.
  set (w1 := with_client (set_reconnectAttempts 0) (setConnectionState CONNECTED w)).
  assert (H1 : timers_inv w1) by (by apply (timers_inv_view w)).
  eapply timers_inv_view; [|apply (startHeartbeat_inv w1 H1)]. reflexivity.
Qed.

Lemma attemptReconnect_timers_inv w : timers_inv w -> timers_inv (attemptReconnect w).
Proof.
  intros Hinv. unfold attemptReconnect.
  eapply timers_inv_view;
    [|apply (timers_inv_arm_reconnect w (Options.reconnectInterval (options (client w))) Hinv)].
  reflexivity.
Qed.

Lemma onclose_timers_inv w : timers_inv w -> timers_inv (onclose w).
Proof.
  intros Hinv. unfold onclose.
  set (w1 := emit (Notify onDisconnect) (stopHeartbeat (setConnectionState DISCONNECTED w))).
  assert (H1 : timers_inv w1).
  { eapply timers_inv_view;
      [|apply (stopHeartbeat_inv (setConnectionState DISCONNECTED w));
        by apply (timers_inv_view w)].
    reflexivity. }
  destruct (_ && _); [by apply attemptReconnect_timers_inv|done].
Qed.

(** The listeners of a [connect] are taken off and its timer is disarmed. *)
Lemma timers_inv_drop_opening w s c t :
  timers_inv w -> opening w !! s = Some (c, t) ->
  timers_inv (with_opening (delete s) (clearTimer t w)).
Proof.
  intros Hinv Hs.
  assert (Hc : timers_inv (clearTimer t w)).
  { apply timers_inv_clear; [done|]. intros tm Htm.
    unfold is_request_timer. by rewrite (ti_opening w Hinv s c t tm Hs Htm). }
  destruct Hc as [C1 C2 C3 C4 (C5a & C5b & C5c) C6 C7]. split; try done.
  - intros s' c' t' tm. simpl. rewrite lookup_delete_Some. intros [_ Hs']. by eapply C4.
  - split; [done|]. split; [done|].
    intros s' c' t'. simpl. rewrite lookup_delete_Some. intros [_ Hs']. by eapply C5c.
Qed.

Lemma socketOpens_timers_inv s w : timers_inv w -> timers_inv (socketOpens s w).
Proof.
  intros Hinv. unfold socketOpens.
  destruct (sockets w !! s) as [[]|]; try done.
  set (w1 := onopen (with_sockets (insert s WS_OPEN) w)).
  assert (H1 : timers_inv w1).
  { apply onopen_timers_inv. by apply (timers_inv_view w). }
  destruct (opening w1 !! s) as [[c t]|] eqn:Hs; [|done].
  eapply timers_inv_view; [|apply (timers_inv_drop_opening w1 s c t H1 Hs)]. reflexivity.
Qed.

Lemma socketErrors_timers_inv s w : timers_inv w -> timers_inv (socketErrors s w).
Proof.
  intros Hinv. unfold socketErrors.
  destruct (sockets w !! s); [|done].
  set (w1 := onerror w).
  assert (H1 : timers_inv w1) by (by apply (timers_inv_view w)).
  destruct (opening w1 !! s) as [[c t]|] eqn:Hs; [|done].
  eapply timers_inv_view; [|apply (timers_inv_drop_opening w1 s c t H1 Hs)]. reflexivity.
Qed.

Lemma socketCloses_timers_inv s w : timers_inv w -> timers_inv (socketCloses s w).
Proof.
  intros Hinv. unfold socketCloses.
  destruct (sockets w !! s) as [[]|]; try done.
  all: apply onclose_timers_inv; by apply (timers_inv_view w).
Qed.

Lemma timerFires_timers_inv t clock w :
  timers_inv w -> NoDup (map fst (pendingRequests (client w))) ->
  timers_inv (timerFires t clock w).
Proof.
  intros Hinv Hnd. unfold timerFires.
  destruct (timers w !! t) as [[[i p method|s| |] ms]|] eqn:Htm; try done.
  - eapply timers_inv_view;
      [|apply (timers_inv_drop_request w i t Hinv Hnd);
        intros tm; rewrite Htm; intros [= <-]; by eexists _, _].
    by rewrite settleWs_view.
  - set (w1 := clearTimer t w).
    assert (H1 : timers_inv w1).
    { apply timers_inv_clear; [done|]. intros tm. rewrite Htm. by intros [= <-]. }
    destruct (opening w1 !! s) as [[c t']|] eqn:Hs; [|done].
    eapply timers_inv_view; [|apply (timers_inv_drop_opening w1 s c t' H1 Hs)]. reflexivity.
  - apply connect_inv. apply timers_inv_clear; [done|].
    intros tm. rewrite Htm. by intros [= <-].
  - destruct (ws (client w)) as [s|]; [|done].
    destruct (sockets w !! s) as [[]|]; try done. by apply (timers_inv_view w).
Qed.

Lemma httpReplies_view x reply w : timer_view (httpReplies x reply w) = timer_view w.
Proof.
  unfold httpReplies. destruct (exchanges w !! x) as [ex|]; [|done].
  by destruct (x_adopt ex).
Qed.

Lemma runJob_view j w : timer_view (runJob j w) = timer_view w.
Proof.
  destruct j as [ctx [v|e]|q o|c e]; cbn [runJob]; try done.
  apply callViaHTTP_view.
Qed.

Lemma drain_view w : timer_view (drain w) = timer_view w.
Proof.
  unfold drain.
  assert (H : forall jobs w0,
            timer_view (fold_left (fun w j => runJob j (dequeue w)) jobs w0) = timer_view w0).
  { induction jobs as [|j jobs IH]; intros w0; cbn [fold_left]; [done|].
    by rewrite IH, runJob_view. }
  apply H.
Qed.

Lemma handle_timers_inv i w : once_inv w -> timers_inv w -> timers_inv (handle i w).
Proof.
  intros Honce Hinv. pose proof (once_keys w Honce) as Hnd.
  destruct i; cbn [handle].
  - by apply connect_inv.
  - by apply disconnect_timers_inv.
  - by apply call_timers_inv.
  - by apply callViaWebSocket_inv.
  - eapply timers_inv_view; [|exact Hinv]. apply callViaHTTP_view.
  - done.
  - by apply socketOpens_timers_inv.
  - unfold socketClosing. destruct (sockets w !! s) as [[]|]; try done.
    by apply (timers_inv_view w).
  - by apply socketErrors_timers_inv.
  - by apply socketCloses_timers_inv.
  - unfold socketMessage.
    destruct (sockets w !! s) as [[]|]; try done; destruct frame; try done.
    all: destruct (onmessage_parsed data w) as [-> | ->];
      [apply (handleMessage_timers_inv data w Hinv Hnd)|].
    all: eapply timers_inv_view; [|apply (handleMessage_timers_inv data w Hinv Hnd)];
      reflexivity.
  - by apply timerFires_timers_inv.
  - eapply timers_inv_view; [|exact Hinv]. apply httpReplies_view.
Qed.

Lemma step_timers_inv i w : once_inv w -> timers_inv w -> timers_inv (step w i).
Proof.
  intros Honce Hinv. unfold step. destruct (from_user i).
  - by apply handle_timers_inv.
  - eapply timers_inv_view; [apply drain_view|].
    apply handle_timers_inv.
    + eapply once_frames; [exact Honce | apply frames_drain].
    + eapply timers_inv_view; [apply drain_view|exact Hinv].
Qed.

Lemma construct_timers_inv opts : timers_inv (construct opts).
Proof.
  assert (H0 : forall w, pendingRequests (client w) = [] -> timers w = ∅ -> opening w = ∅ ->
            heartbeatInterval (client w) = None -> reconnectTimeout (client w) = None ->
            timers_inv w).
  { intros w Hp Ht Ho Hh Hr. split; rewrite ?Hp, ?Ht, ?Ho, ?Hh, ?Hr; try done.
    intros i entry Hin. by apply elem_of_nil in Hin. }
  unfold construct. destruct (Options.autoConnect opts); [|by apply H0].
  apply autoConnect_inv. by apply H0.
Qed.

Lemma timers_inv_reachable opts w : reachable opts w -> timers_inv w.
Proof.
  induction 1; [apply construct_timers_inv|].
  apply step_timers_inv; [by eapply once_reachable|done].
Qed.

(** X9. In every world a client can reach, every request in the
    correlation table has its timeout armed: the entry holds the handle of
    a timer that is armed for exactly this id and promise.  When that timer
    goes off, the entry is removed, the timer is gone and the promise of
    the entry is rejected with the timeout error. *)
Theorem pending_request_has_armed_timeout opts w i entry :
  reachable opts w ->
  (i, entry) ∈ pendingRequests (client w) ->
  exists t method ms,
    timeout entry = Some t
    /\ timers w !! t
       = Some {| action := RequestTimeout i (settles entry) method; delay := ms |}
    /\ (forall clock,
          Map_get (pendingRequests (client (timerFires t clock w))) i = None
          /\ timers (timerFires t clock w) !! t = None
          /\ trace (timerFires t clock w)
             = trace w ++ [Settle (WsCall (settles entry))
                                  (Rejected (Err (REQUEST_TIMED_OUT ++ method)))]).
Proof.
  intros Hreach Hin.
  pose proof (timers_inv_reachable opts w Hreach) as Hinv.
  pose proof (once_reachable opts w Hreach) as Honce.
  destruct (ti_pending w Hinv i entry Hin) as (t & method & ms & Hto & Ht).
  exists t, method, ms. split; [done|]. split; [done|].
  intros clock. unfold timerFires. rewrite Ht. rewrite settleWs_client, settleWs_timers, settleWs_trace.
  simpl. split; [|split; [|done]].
  - apply Map_get_delete_eq, (once_keys w Honce).
  - apply lookup_delete_eq.
Qed.

Lemma pending_request_has_armed_timeout_witness :
  let w := run (construct Options.defaults)
             [SocketOpens 0;
              DoCallViaWebSocket (js "common:getNodes") VUndefined
                {| CallOptions.timeout := None; CallOptions.notification := false |}] in
  let entry := {| settles := 1%nat; timeout := Some 3%nat |} in
  reachable Options.defaults w
  /\ (IdNum 1, entry) ∈ pendingRequests (client w)
  /\ exists t method ms,
       timeout entry = Some t
       /\ timers w !! t
          = Some {| action := RequestTimeout (IdNum 1) (settles entry) method; delay := ms |}
       /\ (forall clock,
             Map_get (pendingRequests (client (timerFires t clock w))) (IdNum 1) = None
             /\ timers (timerFires t clock w) !! t = None
             /\ trace (timerFires t clock w)
                = trace w ++ [Settle (WsCall (settles entry))
                                     (Rejected (Err (REQUEST_TIMED_OUT ++ method)))]).
Proof.
  intros w entry.
  assert (H1 : reachable Options.defaults w)
    by (apply reachable_run, reachable_construct).
  assert (H2 : (IdNum 1, entry) ∈ pendingRequests (client w))
    by (vm_compute; apply list_elem_of_here).
  split; [exact H1|]. split; [exact H2|].
  exact (pending_request_has_armed_timeout Options.defaults w (IdNum 1) entry H1 H2).
Defined.

(** X10. In every world a client can reach, at most one heartbeat is
    armed, and it is the one whose handle the client holds: no interval of
    an earlier connection is left running.  A heartbeat is armed only for a
    client with [enableHeartbeat] on, and its period is the configured
    [heartbeatInterval]. *)
Theorem heartbeat_is_single opts w :
  reachable opts w ->
  (forall t tm,
     timers w !! t = Some tm -> action tm = Heartbeat ->
     heartbeatInterval (client w) = Some t
     /\ Options.enableHeartbeat (options (client w)) = true
     /\ delay tm = Options.heartbeatInterval (options (client w)))
  /\ (forall t1 t2 tm1 tm2,
        timers w !! t1 = Some tm1 -> action tm1 = Heartbeat ->
        timers w !! t2 = Some tm2 -> action tm2 = Heartbeat ->
        t1 = t2)
  /\ (heartbeatInterval (client w) = None ->
      forall t tm, timers w !! t = Some tm -> action tm <> Heartbeat).
Proof.
  intros Hreach. pose proof (timers_inv_reachable opts w Hreach) as Hinv.
  split; [apply (ti_beat w Hinv)|]. split.
  - intros t1 t2 tm1 tm2 H1 A1 H2 A2.
    destruct (ti_beat w Hinv _ _ H1 A1) as (F1 & _).
    destruct (ti_beat w Hinv _ _ H2 A2) as (F2 & _). congruence.
  - intros Hnone t tm Ht Ha. destruct (ti_beat w Hinv _ _ Ht Ha) as (F & _). congruence.
Qed.

Lemma heartbeat_is_single_witness :
  let w := run (construct Options.defaults) [SocketOpens 0] in
  reachable Options.defaults w
  /\ heartbeatInterval (client w) = Some 2%nat
  /\ (forall t tm,
        timers w !! t = Some tm -> action tm = Heartbeat ->
        heartbeatInterval (client w) = Some t
        /\ Options.enableHeartbeat (options (client w)) = true
        /\ delay tm = Options.heartbeatInterval (options (client w))).
Proof.
  intros w.
  assert (H1 : reachable Options.defaults w)
    by (apply reachable_run, reachable_construct).
  split; [exact H1|]. split; [reflexivity|].
  exact (proj1 (heartbeat_is_single Options.defaults w H1)).
Defined.

End RPC2TimersFacts.

(* ===================================================================== *)
(** ** Facts about the wire and about [disconnect]                        *)
(* ===================================================================== *)

Module RPC2WireFacts.
Import Js RPC2 RPC2Spec RPC2Wire MapFacts RPC2Facts.

Lemma wire_ids_app (a b : list Event) : wire_ids (a ++ b) = wire_ids a ++ wire_ids b.
Proof. apply omap_app. Qed.

Lemma StronglySorted_snoc (l : list Z) x :
  StronglySorted Z.lt l -> Forall (fun y => y < x) l -> StronglySorted Z.lt (l ++ [x]).
Proof.
  induction 1 as [|y l Hl IH Hy]; intros Hx; simpl.
  - repeat constructor.
  - apply Forall_cons in Hx as [Hyx Hx]. constructor; [by apply IH|].
    apply Forall_app. split; [done|]. by constructor.
Qed.

Lemma wire_inv_step w w' : wire_inv w -> wire_step w w' -> wire_inv w'.
Proof.
  intros [H0 Hw] (evs & Htr & [[Hid Hevs]|[Hid Hevs]]).
  - split; [by rewrite Hid|]. rewrite Hid, Htr, wire_ids_app, Hevs, app_nil_r. exact Hw.
  - pose proof (js_incr_bounds (requestId (client w))) as Hb.
    split; [lia|]. intros Hlt.
    assert (Hold : requestId (client w) < 2 ^ 53).
    { destruct (Z.lt_ge_cases (requestId (client w)) (2 ^ 53)) as [|Hge]; [done|].
      rewrite Hid in Hlt. unfold js_incr in Hlt.
      destruct (Z.ltb_spec (requestId (client w)) (2 ^ 53)); lia. }
    destruct (Hw Hold) as [Hs Hf].
    rewrite Hid, (js_incr_exact _ Hold) in *.
    rewrite Htr, wire_ids_app.
    destruct Hevs as [->| ->].
    + rewrite app_nil_r. split; [done|].
      eapply Forall_impl; [exact Hf|]. simpl. intros n Hn. lia.
    + split.
      * apply StronglySorted_snoc; [done|].
        eapply Forall_impl; [exact Hf|]. simpl. intros n Hn. lia.
      * apply Forall_app. split.
        -- eapply Forall_impl; [exact Hf|]. simpl. intros n Hn. lia.
        -- constructor; [lia|constructor].
Qed.

Ltac solve_wire :=
  unfold wire_step; simpl;
  eexists; split; [rewrite <- ?app_assoc; try reflexivity; by rewrite app_nil_r|];
  simpl;
  first [ by left
        | right; split; [reflexivity|]; first [by left | by right] ].

Lemma wire_step_refl w : wire_step w w.
Proof. exists []. split; [by rewrite app_nil_r|by left]. Qed.

Lemma wire_connect w : wire_step w (connect w).2.
Proof. unfold connect. crunch; solve_wire. Qed.

Lemma wire_callViaHTTP caller method params opts w :
  wire_step w (callViaHTTP_ caller method params opts w).2.
Proof. unfold callViaHTTP_. crunch; solve_wire. Qed.

Lemma wire_callViaWebSocket caller method params opts w :
  wire_step w (callViaWebSocket_ caller method params opts w).2.
Proof. unfold callViaWebSocket_, sendMessage, settleWs. crunch; solve_wire. Qed.

Lemma wire_rejections error (entries : list (RpcId * PendingRequest)) :
  wire_ids (rejections error entries) = [].
Proof. unfold rejections. induction entries as [|e entries IH]; [done|]. exact IH. Qed.

Lemma wire_clearPendingRequests error w : wire_step w (clearPendingRequests error w).
Proof.
  destruct (clearPendingRequests_spec error w) as (_ & Htr & _ & _ & _ & _ & Hid & _).
  exists (rejections error (pendingRequests (client w))). split; [done|].
  left. split; [done|apply wire_rejections].
Qed.

Lemma wire_inv_disconnect w : wire_inv w -> wire_inv (disconnect w).
Proof.
  intros Hinv. unfold disconnect. cbv zeta.
  eapply wire_inv_step; [|apply wire_clearPendingRequests].
  eapply wire_inv_step; [exact Hinv|].
  destruct w as [[s0 ? ? ? ? rt hb ?] ? ? ? ? ? ? ? ? ? ? ?].
  unfold closeSocket. destruct rt, hb, s0; solve_wire.
Qed.

Lemma wire_inv_call method params opts w : wire_inv w -> wire_inv (call method params opts w).2.
Proof.
  intros Hw. unfold call. cbn [newPromise]. cbv zeta.
  match goal with
  | |- context [if decide (connectionState (client ?W) = CONNECTED) then _ else _] =>
      assert (HW : wire_inv W); [|destruct (decide (connectionState (client W) = CONNECTED))]
  end.
  - match goal with
    | |- wire_inv (if ?b then _ else _) => destruct b
    end.
    + unfold autoConnect. case_decide.
      * eapply wire_inv_step; [|apply wire_connect].
        eapply wire_inv_step; [exact Hw|solve_wire].
      * eapply wire_inv_step; [exact Hw|solve_wire].
    + eapply wire_inv_step; [exact Hw|solve_wire].
  - cbn [snd]. eapply wire_inv_step; [exact HW|apply wire_callViaWebSocket].
  - cbn [snd]. eapply wire_inv_step; [exact HW|apply wire_callViaHTTP].
Qed.

Lemma wire_handleMessage data w : wire_step w (leaves (handleMessage data w)).
Proof.
  unfold handleMessage, leaves, clearTimer_if, settleWs.
  crunch; solve_wire || apply wire_step_refl.
Qed.

Lemma wire_onopen w : wire_step w (onopen w).
Proof. unfold onopen, startHeartbeat, stopHeartbeat. crunch; solve_wire. Qed.

Lemma wire_onclose w : wire_step w (onclose w).
Proof. unfold onclose, attemptReconnect, stopHeartbeat. crunch; solve_wire. Qed.

Lemma wire_socketOpens s w : wire_step w (socketOpens s w).
Proof.
  unfold socketOpens, onopen, startHeartbeat, stopHeartbeat.
  crunch; solve_wire || apply wire_step_refl.
Qed.

Lemma wire_socketErrors s w : wire_step w (socketErrors s w).
Proof. unfold socketErrors, onerror, enqueue. crunch; solve_wire || apply wire_step_refl. Qed.

Lemma wire_inv_socketCloses s w : wire_inv w -> wire_inv (socketCloses s w).
Proof.
  intros Hw. unfold socketCloses.
  destruct (sockets w !! s) as [[]|]; try done.
  all: eapply wire_inv_step; [|apply wire_onclose];
    eapply wire_inv_step; [exact Hw|solve_wire].
Qed.

Lemma wire_inv_timerFires t clock w : wire_inv w -> wire_inv (timerFires t clock w).
Proof.
  intros Hw. unfold timerFires.
  destruct (timers w !! t) as [[[i p method|s| |] ms]|] eqn:Htm; try done.
  - eapply wire_inv_step; [exact Hw|]. unfold settleWs. crunch; solve_wire.
  - eapply wire_inv_step; [exact Hw|]. unfold enqueue. crunch; solve_wire.
  - eapply wire_inv_step; [|apply wire_connect].
    eapply wire_inv_step; [exact Hw|solve_wire].
  - eapply wire_inv_step; [exact Hw|]. unfold heartbeatRequest.
    crunch; solve_wire || apply wire_step_refl.
Qed.

Lemma wire_httpReplies x reply w : wire_step w (httpReplies x reply w).
Proof.
  unfold httpReplies, enqueue.
  destruct (exchanges w !! x) as [ex|]; [|apply wire_step_refl].
  destruct (x_adopt ex); solve_wire.
Qed.

Lemma wire_inv_runJob j w : wire_inv w -> wire_inv (runJob j (dequeue w)).
Proof.
  intros Hw.
  assert (Hd : wire_inv (dequeue w)) by (eapply wire_inv_step; [exact Hw|solve_wire]).
  destruct j as [ctx [v|e]|q o|c e]; cbn [runJob].
  - eapply wire_inv_step; [exact Hd|solve_wire].
  - eapply wire_inv_step; [exact Hd|apply wire_callViaHTTP].
  - eapply wire_inv_step; [exact Hd|solve_wire].
  - eapply wire_inv_step; [exact Hd|solve_wire].
Qed.

Lemma wire_inv_drain w : wire_inv w -> wire_inv (drain w).
Proof.
  unfold drain. generalize (microtasks w). intros jobs. revert w.
  induction jobs as [|j jobs IH]; intros w Hw; cbn [fold_left]; [done|].
  by apply IH, wire_inv_runJob.
Qed.

Lemma wire_inv_handle i w : wire_inv w -> wire_inv (handle i w).
Proof.
  intros Hw. destruct i; cbn [handle].
  - eapply wire_inv_step; [exact Hw|apply wire_connect].
  - by apply wire_inv_disconnect.
  - by apply wire_inv_call.
  - eapply wire_inv_step; [exact Hw|apply wire_callViaWebSocket].
  - eapply wire_inv_step; [exact Hw|apply wire_callViaHTTP].
  - done.
  - eapply wire_inv_step; [exact Hw|apply wire_socketOpens].
  - unfold socketClosing. by destruct (sockets w !! s) as [[]|].
  - eapply wire_inv_step; [exact Hw|apply wire_socketErrors].
  - by apply wire_inv_socketCloses.
  - unfold socketMessage.
    destruct (sockets w !! s) as [[]|]; try done; destruct frame; try done.
    all: destruct (onmessage_parsed data w) as [-> | ->];
      [eapply wire_inv_step; [exact Hw|apply wire_handleMessage]|].
    all: eapply wire_inv_step; [|solve_wire];
      eapply wire_inv_step; [exact Hw|apply wire_handleMessage].
  - by apply wire_inv_timerFires.
  - eapply wire_inv_step; [exact Hw|apply wire_httpReplies].
Qed.

Lemma wire_inv_reachable opts w : reachable opts w -> wire_inv w.
Proof.
  induction 1 as [|w i Hreach IH].
  - assert (H0 : wire_inv {| client := initialClient opts; sockets := ∅; nextSocket := 0;
                             opening := ∅; timers := ∅; nextTimer := 1; nextPromise := 0;
                             fallbacks := ∅; exchanges := ∅; nextExchange := 0;
                             microtasks := []; trace := [] |}).
    { split; simpl; [lia|]. intros _. split; constructor. }
    unfold construct. destruct (Options.autoConnect opts); [|done].
    unfold autoConnect. case_decide; [|done].
    eapply wire_inv_step; [exact H0|apply wire_connect].
  - unfold step. destruct (from_user i); [by apply wire_inv_handle|].
    by apply wire_inv_drain, wire_inv_handle, wire_inv_drain.
Qed.

(** X11. As long as a double counts the ids exactly, the requests a client
    has put on the wire, by socket or by HTTP, carry increasing ids: no two
    requests of a client have the same id, and every id is a number from 1
    to the last id handed out. *)
Theorem wire_ids_increase opts w :
  reachable opts w ->
  requestId (client w) < 2 ^ 53 ->
  StronglySorted Z.lt (wire_ids (trace w))
  /\ NoDup (wire_ids (trace w))
  /\ Forall (fun n => 1 <= n <= requestId (client w)) (wire_ids (trace w)).
Proof.
  intros Hreach Hlt. destruct (wire_inv_reachable opts w Hreach) as [_ Hw].
  destruct (Hw Hlt) as [Hs Hf]. split; [done|]. split; [|done].
  clear -Hs. induction Hs as [|n l Hl IH Hn]; constructor; [|done].
  intros Hin. rewrite Forall_forall in Hn. specialize (Hn n Hin). lia.
Qed.

Lemma wire_ids_increase_witness :
  let w := run (construct Options.defaults)
             [SocketOpens 0;
              DoCall (js "common:getNodes") VUndefined
                {| CallOptions.timeout := None; CallOptions.notification := false |};
              TimerFires 3 0;
              DoCallViaHTTP (js "common:getMe") VUndefined
                {| CallOptions.timeout := None; CallOptions.notification := false |}] in
  reachable Options.defaults w
  /\ requestId (client w) < 2 ^ 53
  /\ wire_ids (trace w) = [1; 2; 3]
  /\ StronglySorted Z.lt (wire_ids (trace w)).
Proof.
  intros w.
  assert (H1 : reachable Options.defaults w)
    by (apply reachable_run, reachable_construct).
  assert (H2 : requestId (client w) < 2 ^ 53) by (vm_compute; reflexivity).
  split; [exact H1|]. split; [exact H2|]. split; [vm_compute; reflexivity|].
  exact (proj1 (wire_ids_increase Options.defaults w H1 H2)).
Defined.

(** *** After [disconnect] *)

Lemma calm_refl w : Options.autoReconnect (options (client w)) = false -> calm w w.
Proof.
  intros Hoff. split; [done|]. split; [|done]. exists []. by rewrite app_nil_r.
Qed.

Lemma calm_trans w1 w2 w3 : calm w1 w2 -> calm w2 w3 -> calm w1 w3.
Proof.
  intros (_ & (evs1 & Ht1 & Hv1) & Hr1) (Hoff & (evs2 & Ht2 & Hv2) & Hr2).
  split; [done|]. split.
  - exists (evs1 ++ evs2). split; [by rewrite Ht2, Ht1, <- app_assoc|].
    by rewrite forallb_app, Hv1, Hv2.
  - intros t tm Ht Ha. apply Hr1; [|done]. by apply Hr2.
Qed.

Ltac solve_calm :=
  unfold calm; simpl;
  split; [done|];
  split; [eexists; split; [rewrite <- ?app_assoc; try reflexivity; by rewrite app_nil_r|done]|];
  solve_timers.

Lemma calm_connect w :
  Options.autoReconnect (options (client w)) = false -> calm w (connect w).2.
Proof. intros Hoff. unfold connect. crunch; solve_calm. Qed.

Lemma calm_callViaHTTP caller method params opts w :
  Options.autoReconnect (options (client w)) = false ->
  calm w (callViaHTTP_ caller method params opts w).2.
Proof. intros Hoff. unfold callViaHTTP_. crunch; solve_calm. Qed.

Lemma calm_callViaWebSocket caller method params opts w :
  Options.autoReconnect (options (client w)) = false ->
  calm w (callViaWebSocket_ caller method params opts w).2.
Proof. intros Hoff. unfold callViaWebSocket_, sendMessage, settleWs. crunch; solve_calm. Qed.

Lemma calm_off w w' : calm w w' -> Options.autoReconnect (options (client w')) = false.
Proof. by intros [? _]. Qed.

Lemma calm_call method params opts w :
  Options.autoReconnect (options (client w)) = false ->
  calm w (call method params opts w).2.
Proof.
  intros Hoff. unfold call. cbn [newPromise]. cbv zeta.
  match goal with
  | |- context [if decide (connectionState (client ?W) = CONNECTED) then _ else _] =>
      assert (HW : calm w W); [|destruct (decide (connectionState (client W) = CONNECTED))]
  end.
  - match goal with
    | |- calm w (if ?b then _ else _) => destruct b
    end.
    + unfold autoConnect. case_decide; [|solve_calm].
      eapply calm_trans; [|apply calm_connect; exact Hoff]. solve_calm.
    + solve_calm.
  - cbn [snd]. eapply calm_trans; [exact HW|]. apply calm_callViaWebSocket, (calm_off _ _ HW).
  - cbn [snd]. eapply calm_trans; [exact HW|]. apply calm_callViaHTTP, (calm_off _ _ HW).
Qed.

Lemma calm_clearPendingRequests error w :
  Options.autoReconnect (options (client w)) = false ->
  calm w (clearPendingRequests error w).
Proof.
  intros Hoff.
  destruct (clearPendingRequests_spec error w)
    as (_ & Htr & Htm & _ & _ & _ & _ & _ & _ & _ & Hop).
  split; [by rewrite Hop|]. split.
  - exists (rejections error (pendingRequests (client w))). split; [done|].
    unfold rejections. generalize (pendingRequests (client w)). intros l. by induction l.
  - intros t tm. rewrite Htm. by case_decide.
Qed.

Lemma calm_disconnect w : calm (disconnect w) (disconnect w) /\
  (Options.autoReconnect (options (client w)) = false -> calm w (disconnect w)).
Proof.
  assert (Hoff : Options.autoReconnect (options (client (disconnect w))) = false).
  { unfold disconnect. cbv zeta.
    match goal with
    | |- context [clearPendingRequests ?e ?W] =>
        destruct (clearPendingRequests_spec e W)
          as (_ & _ & _ & _ & _ & _ & _ & _ & _ & _ & ->)
    end.
    destruct w as [[s0 ? ? ? ? rt hb ?] ? ? ? ? ? ? ? ? ? ? ?].
    by destruct rt, hb, s0. }
  split; [by apply calm_refl|].
  intros Hw. unfold disconnect. cbv zeta.
  eapply calm_trans; [|apply calm_clearPendingRequests].
  - destruct w as [[s0 ? ? ? ? rt hb ?] ? ? ? ? ? ? ? ? ? ? ?].
    unfold closeSocket. destruct rt, hb, s0; solve_calm.
  - destruct w as [[s0 ? ? ? ? rt hb ?] ? ? ? ? ? ? ? ? ? ? ?].
    by destruct rt, hb, s0.
Qed.

Lemma calm_onclose w :
  Options.autoReconnect (options (client w)) = false -> calm w (onclose w).
Proof.
  intros Hoff. unfold onclose, stopHeartbeat.
  destruct (heartbeatInterval (client (setConnectionState DISCONNECTED w))) eqn:Hhb;
    simpl in *; rewrite Hoff; simpl; solve_calm.
Qed.

Lemma calm_handle i w :
  Options.autoReconnect (options (client w)) = false -> calm w (handle i w).
Proof.
  intros Hoff. destruct i; cbn [handle].
  - by apply calm_connect.
  - by apply calm_disconnect.
  - by apply calm_call.
  - by apply calm_callViaWebSocket.
  - by apply calm_callViaHTTP.
  - by apply calm_refl.
  - unfold socketOpens, onopen, startHeartbeat, stopHeartbeat.
    crunch; solve_calm || by apply calm_refl.
  - unfold socketClosing. crunch; solve_calm || by apply calm_refl.
  - unfold socketErrors, onerror, enqueue. crunch; solve_calm || by apply calm_refl.
  - unfold socketCloses.
    destruct (sockets w !! s) as [[]|]; try (by apply calm_refl).
    all: eapply calm_trans; [|apply calm_onclose; exact Hoff]; solve_calm.
  - unfold socketMessage, onmessage, handleMessage, clearTimer_if, settleWs.
    crunch; solve_calm || by apply calm_refl.
  - unfold timerFires.
    destruct (timers w !! t) as [[[i p method|s| |] ms]|] eqn:Htm; try (by apply calm_refl).
    + unfold settleWs. crunch; solve_calm.
    + unfold enqueue. crunch; solve_calm.
    + eapply calm_trans; [|apply calm_connect; exact Hoff]. solve_calm.
    + crunch; solve_calm || by apply calm_refl.
  - unfold httpReplies, enqueue. crunch; solve_calm || by apply calm_refl.
Qed.

Lemma calm_drain w :
  Options.autoReconnect (options (client w)) = false -> calm w (drain w).
Proof.
  intros Hoff. unfold drain.
  assert (H : forall jobs w0, calm w w0 ->
            calm w (fold_left (fun w j => runJob j (dequeue w)) jobs w0)).
  { induction jobs as [|j jobs IH]; intros w0 H0; cbn [fold_left]; [exact H0|].
    apply IH. eapply calm_trans; [exact H0|].
    pose proof (calm_off _ _ H0) as Hoff0.
    destruct j as [ctx [v|e]|q o|c e]; cbn [runJob].
    - solve_calm.
    - eapply calm_trans; [|apply calm_callViaHTTP; exact Hoff0]. solve_calm.
    - solve_calm.
    - solve_calm. }
  by apply H, calm_refl.
Qed.

Lemma calm_step i w :
  Options.autoReconnect (options (client w)) = false -> calm w (step w i).
Proof.
  intros Hoff. unfold step. destruct (from_user i); [by apply calm_handle|].
  pose proof (calm_drain w Hoff) as H1.
  pose proof (calm_handle i _ (calm_off _ _ H1)) as H2.
  pose proof (calm_drain _ (calm_off _ _ H2)) as H3.
  eapply calm_trans; [exact H1|]. eapply calm_trans; [exact H2|exact H3].
Qed.

Lemma calm_run inputs w :
  Options.autoReconnect (options (client w)) = false -> calm w (run w inputs).
Proof.
  revert w. induction inputs as [|i inputs IH]; intros w Hoff; [by apply calm_refl|].
  simpl. pose proof (calm_step i w Hoff) as H1.
  eapply calm_trans; [exact H1|]. apply IH, (calm_off _ _ H1).
Qed.

(** X12. After [disconnect], whatever happens to the client later, no
    reconnect is scheduled any more: [autoReconnect] stays off, no reconnect
    is announced to the listeners, and no reconnect timer is armed (a
    reconnect timer that is armed later was armed, and left armed, before
    the [disconnect]).  This does not say that no socket is opened: a
    [connect], a [call] with [autoConnect] on, or such a timer left armed
    can still open one. *)
Theorem no_reconnect_scheduled_after_disconnect w0 inputs :
  let w := disconnect w0 in
  let w' := run w inputs in
  Options.autoReconnect (options (client w')) = false
  /\ (exists evs, trace w' = trace w ++ evs
                  /\ forall attempt, Notify (onReconnecting attempt) ∉ evs)
  /\ (forall t tm, timers w' !! t = Some tm -> action tm = Reconnect ->
        timers w !! t = Some tm).
Proof.
  intros w w'.
  destruct (calm_disconnect w0) as [Hd _]. fold w in Hd.
  destruct (calm_run inputs w (calm_off _ _ Hd)) as (Hoff & (evs & Htr & Hev) & Htm).
  split; [done|]. split; [|done].
  exists evs. split; [done|]. intros attempt Hin.
  rewrite forallb_forall in Hev. apply list_elem_of_In in Hin.
  by specialize (Hev _ Hin).
Qed.

(** A world in which [disconnect] has nothing to do. *)
Lemma disconnect_fixed w :
  ws (client w) = None -> reconnectTimeout (client w) = None ->
  heartbeatInterval (client w) = None -> pendingRequests (client w) = [] ->
  connectionState (client w) = DISCONNECTED ->
  Options.autoReconnect (options (client w)) = false ->
  disconnect w = w.
Proof.
  destruct w as [[s0 st rid pend ra rt hb [o1 o2 o3 o4 o5 o6 o7]] ? ? ? ? ? ? ? ? ? ? ?].
  simpl. intros -> -> -> -> -> ->. reflexivity.
Qed.

(** X13. [disconnect] twice is [disconnect] once: the second call finds
    nothing to close, to disarm or to reject, and leaves the world, its
    trace included, exactly as it is. *)
Theorem disconnect_idempotent w : disconnect (disconnect w) = disconnect w.
Proof.
  assert (H : let w' := disconnect w in
              ws (client w') = None /\ reconnectTimeout (client w') = None
              /\ heartbeatInterval (client w') = None /\ pendingRequests (client w') = []
              /\ connectionState (client w') = DISCONNECTED
              /\ Options.autoReconnect (options (client w')) = false).
  { unfold disconnect. cbv zeta.
    match goal with
    | |- context [clearPendingRequests ?e ?W] =>
        destruct (clearPendingRequests_spec e W)
          as (-> & _ & _ & _ & -> & -> & _ & _ & -> & -> & ->)
    end.
    destruct w as [[s0 ? ? ? ? rt hb ?] ? ? ? ? ? ? ? ? ? ? ?].
    by destruct rt, hb, s0. }
  destruct H as (H1 & H2 & H3 & H4 & H5 & H6). by apply disconnect_fixed.
Qed.

End RPC2WireFacts.

(* ===================================================================== *)
(** ** Facts about [batchCall]                                            *)
(* ===================================================================== *)

Module RPC2BatchFacts.
Import Js RPC2 RPC2Spec RPC2Batch MapFacts RPC2Facts.

Lemma batchRequest_spec requests : forall w,
  requestId (client w) + Z.of_nat (length (correlated requests)) <= 2 ^ 53 ->
  let batch := (batchRequest requests w).1 in
  let w' := (batchRequest requests w).2 in
  w' = with_client
         (set_requestId (requestId (client w) + Z.of_nat (length (correlated requests)))) w
  /\ map method batch = map b_method requests
  /\ map params batch = map b_params requests
  /\ map (fun request => bool_decide (id request = IdAbsent)) batch
     = map b_notification requests
  /\ batch_ids batch
     = map (fun k => requestId (client w) + 1 + Z.of_nat k)
           (seq 0 (length (correlated requests))).
Proof.
  induction requests as [|req rest IH]; intros w Hbound.
  - simpl. split; [|done]. rewrite Z.add_0_r.
    by destruct w as [[] ? ? ? ? ? ? ? ? ? ? ?].
  - cbn [batchRequest]. unfold correlated in *. rewrite filter_cons in Hbound |- *.
    destruct (b_notification req) eqn:Hn.
    + rewrite decide_False in Hbound |- * by done.
      specialize (IH w Hbound). destruct (batchRequest rest w) as [batch w1].
      cbn [fst snd] in *. destruct IH as (-> & Hm & Hp & Hi & Hids).
      split; [done|]. cbn [map]. rewrite Hm, Hp, Hi, Hn.
      split; [done|]. split; [done|]. split; [done|]. exact Hids.
    + rewrite decide_True in Hbound |- * by done. cbn [length] in Hbound |- *.
      unfold generateRequestId.
      assert (Hlt : requestId (client w) < 2 ^ 53) by lia.
      rewrite (js_incr_exact _ Hlt).
      set (w0 := with_client (set_requestId (requestId (client w) + 1)) w).
      assert (Hb0 : requestId (client w0)
                    + Z.of_nat (length (filter (fun req => b_notification req = false) rest))
                    <= 2 ^ 53) by (simpl; lia).
      specialize (IH w0 Hb0). destruct (batchRequest rest w0) as [batch w1].
      cbn [fst snd] in *. destruct IH as (-> & Hm & Hp & Hi & Hids).
      split.
      { subst w0. destruct w as [[] ? ? ? ? ? ? ? ? ? ? ?].
        unfold with_client, set_requestId. simpl. do 2 f_equal. lia. }
      cbn [map]. rewrite Hm, Hp, Hi, Hn.
      split; [done|]. split; [done|]. split; [done|].
      change (batch_ids ({| method := b_method req; params := b_params req;
                            id := IdNum (requestId (client w) + 1) |} :: batch))
        with ((requestId (client w) + 1) :: batch_ids batch).
      cbn [seq map]. f_equal; [lia|].
      rewrite Hids, <- seq_shift, map_map. apply map_ext. intros k. simpl. lia.
Qed.

(** X14. [batchCall] numbers the requests of a batch that expect a
    response with consecutive ids, from the id after the last one handed
    out and in the order of the batch; a notification gets none.  Methods
    and parameters go out as given, in order, and nothing of the client but
    its counter changes.  (As long as a double counts the ids exactly.) *)
Theorem batchCall_numbers_requests requests w :
  requestId (client w) + Z.of_nat (length (correlated requests)) <= 2 ^ 53 ->
  let batch := (batchRequest requests w).1 in
  let w' := (batchRequest requests w).2 in
  w' = with_client
         (set_requestId (requestId (client w) + Z.of_nat (length (correlated requests)))) w
  /\ map method batch = map b_method requests
  /\ map params batch = map b_params requests
  /\ map (fun request => bool_decide (id request = IdAbsent)) batch
     = map b_notification requests
  /\ batch_ids batch
     = map (fun k => requestId (client w) + 1 + Z.of_nat k)
           (seq 0 (length (correlated requests)))
  /\ NoDup (batch_ids batch).
Proof.
  intros Hbound batch w'.
  destruct (batchRequest_spec requests w Hbound) as (H1 & H2 & H3 & H4 & H5).
  fold batch in H2, H3, H4, H5. fold w' in H1.
  split; [done|]. split; [done|]. split; [done|]. split; [done|]. split; [done|].
  rewrite H5. apply NoDup_fmap_2; [|apply NoDup_ListNoDup, seq_NoDup].
  intros a b Hab. lia.
Qed.

Lemma batchCall_numbers_requests_witness :
  let requests := [ {| b_method := js "a"; b_params := VNull; b_notification := false |};
                    {| b_method := js "b"; b_params := VNull; b_notification := true |};
                    {| b_method := js "c"; b_params := VNull; b_notification := false |} ] in
  let w := construct Options.defaults in
  requestId (client w) + Z.of_nat (length (correlated requests)) <= 2 ^ 53
  /\ map id (batchRequest requests w).1 = [IdNum 1; IdAbsent; IdNum 2]
  /\ batch_ids (batchRequest requests w).1 = [1; 2].
Proof.
  intros requests w.
  assert (H : requestId (client w) + Z.of_nat (length (correlated requests)) <= 2 ^ 53)
    by (vm_compute; discriminate).
  split; [exact H|]. split; [reflexivity|].
  destruct (batchCall_numbers_requests requests w H) as (_ & _ & _ & _ & H5 & _).
  rewrite H5. reflexivity.
Defined.

Lemma batchResults_spec responses :
  batchResults responses
  = match find is_error responses with
    | Some (ErrorResponse _ code message) => inl (ErrRpc code message)
    | Some (NullErrorResponse _ _) => inl ErrType
    | _ => inr (map result_of responses)
    end.
Proof.
  induction responses as [|[i result|i code message|i result] rest IH]; simpl;
    [done| |done|done].
  rewrite IH. by destruct (find is_error rest) as [[]|].
Qed.

(** X15. [batchCall] answers by position in the response, not by id: when
    the exchange succeeds and no response of the batch is an error, it
    resolves with the results in the order of the responses, as many as
    there are responses (a batch with notifications gets fewer results than
    it has requests); the first response in that order that is an error
    makes it reject with that error, whatever the others are (with the
    [TypeError] of the engine if the [error] of that response is [null]);
    and a reply that is not [ok] makes it reject with the HTTP status,
    whatever the body. *)
Theorem batchCall_results_by_position status statusText responses :
  match find is_error responses with
  | Some (ErrorResponse _ code message) =>
      batchCall_result (BatchResponds true status statusText (JsonBatch responses))
      = Rejected (ErrRpc code message)
  | Some (NullErrorResponse _ _) =>
      batchCall_result (BatchResponds true status statusText (JsonBatch responses))
      = Rejected ErrType
  | _ =>
      batchCall_result (BatchResponds true status statusText (JsonBatch responses))
      = Resolved (VArr (map result_of responses))
      /\ Forall (fun data => is_error data = false) responses
  end
  /\ forall body,
       batchCall_result (BatchResponds false status statusText body)
       = Rejected (ErrHttp status statusText).
Proof.
  split; [|done].
  unfold batchCall_result. simpl. rewrite batchResults_spec.
  destruct (find is_error responses) as [[i result|i code message|i result]|] eqn:Hfind;
    [| done | done |].
  - apply find_some in Hfind as [_ Hfind]. done.
  - split; [done|]. apply Forall_forall. intros data Hin.
    apply list_elem_of_In in Hin.
    pose proof (find_none _ _ Hfind data Hin). done.
Qed.

End RPC2BatchFacts.

(* ===================================================================== *)
(** ** Facts about the promise of [connect]                               *)
(* ===================================================================== *)

Module RPC2ConnectFacts.
Import Js RPC2 RPC2Spec RPC2Timers RPC2Connect MapFacts RPC2Facts RPC2TimersFacts.

Lemma connect_outcomes_app c tr1 tr2 :
  connect_outcomes c (tr1 ++ tr2) = connect_outcomes c tr1 ++ connect_outcomes c tr2.
Proof. apply omap_app. Qed.

Lemma catches_app c jobs1 jobs2 :
  catches c (jobs1 ++ jobs2) = catches c jobs1 ++ catches c jobs2.
Proof. apply omap_app. Qed.

(** A [connect] with its listeners on is waiting. *)
Lemma status_waiting w c s t :
  conn_inv w -> opening w !! s = Some (c, t) -> status_holds w c (Waiting s t).
Proof.
  intros Hinv Hop. destruct (cn_status w Hinv c) as [st Hst].
  destruct st as [|s' t'|e|o]; simpl in Hst.
  - by destruct (proj1 Hst s t).
  - destruct Hst as (Hop' & Huniq & Hrest).
    pose proof (Huniq _ _ Hop) as ->. rewrite Hop in Hop'. by simplify_eq.
  - by destruct (proj1 Hst s t).
  - by destruct (proj1 Hst s t).
Qed.

Lemma status_cstep w w' c st : cstep w w' -> status_holds w c st -> status_holds w' c st.
Proof.
  intros (_ & _ & _ & Hop & Htm & Hmt & Htr).
  destruct st as [|s t|e|o]; unfold status_holds, not_waiting;
    rewrite Hop, Hmt, Htr; try done.
  intros (H1 & H2 & H3 & H4). split; [done|]. split; [done|]. split; [|done].
  by rewrite (Htm _ _ _ H1).
Qed.

Lemma evolves_cstep w w' : conn_inv w -> cstep w w' -> evolves w w'.
Proof.
  intros Hinv Hstep. split.
  - pose proof Hstep as (Hns & Hnp & Hnt & Hop & _). split.
    + intros c. destruct (cn_status w Hinv c) as [st Hst]. exists st.
      by eapply status_cstep.
    + intros c Hc. eapply status_cstep; [done|]. apply (cn_fresh w Hinv). lia.
    + intros s c t. rewrite Hop, Hns. intros H.
      destruct (cn_opening w Hinv _ _ _ H). lia.
  - intros c st Hst. exists st. split; [by eapply status_cstep|done].
Qed.

Lemma cstep_refl w : cstep w w.
Proof. by repeat split. Qed.

Lemma cstep_trans w1 w2 w3 : cstep w1 w2 -> cstep w2 w3 -> cstep w1 w3.
Proof.
  intros (A1 & A2 & A3 & A4 & A5 & A6 & A7) (B1 & B2 & B3 & B4 & B5 & B6 & B7).
  split; [congruence|]. split; [lia|]. split; [lia|]. split; [congruence|].
  split; [|split].
  - intros s c t H. rewrite <- (A5 _ _ _ H). apply (B5 s c t). by rewrite A4.
  - intros c. by rewrite B6.
  - intros c. by rewrite B7.
Qed.

Lemma evolves_refl w : conn_inv w -> evolves w w.
Proof. intros H. split; [done|]. intros c st Hst. by exists st. Qed.

Lemma evolves_trans w1 w2 w3 : evolves w1 w2 -> evolves w2 w3 -> evolves w1 w3.
Proof.
  intros [_ H1] [Hinv H2]. split; [done|]. intros c st Hst.
  destruct (H1 _ _ Hst) as (st2 & Hst2 & Hb2).
  destruct (H2 _ _ Hst2) as (st3 & Hst3 & Hb3).
  exists st3. split; [done|]. auto.
Qed.

Lemma evolves_inv w w' : evolves w w' -> conn_inv w'.
Proof. by intros [? _]. Qed.

Lemma frees_cstep w w' t : cstep w w' -> frees w t -> frees w' t.
Proof. intros (_ & _ & _ & Hop & _). unfold frees. by rewrite Hop. Qed.

Lemma status_but c0 w w' c st :
  cstep_but c0 w w' -> c <> c0 -> status_holds w c st -> status_holds w' c st.
Proof.
  intros (Hop & Htm & Hmt & Htr) Hc.
  destruct st as [|s t|e|o]; unfold status_holds, not_waiting;
    rewrite (Hmt _ Hc), (Htr _ Hc).
  - intros (H1 & H2). split; [|done]. intros s t. rewrite (Hop _ _ _ Hc). apply H1.
  - intros (H1 & H2 & H3 & H4). split; [by apply Hop|]. split.
    + intros s' t'. rewrite (Hop _ _ _ Hc). apply H2.
    + split; [|done]. by rewrite (Htm _ _ _ Hc H1).
  - intros (H1 & H2). split; [|done]. intros s t. rewrite (Hop _ _ _ Hc). apply H1.
  - intros (H1 & H2). split; [|done]. intros s t. rewrite (Hop _ _ _ Hc). apply H1.
Qed.

(** A step that moves one [connect] on. *)
Lemma evolves_one c0 st0 w w' :
  conn_inv w ->
  cstep_but c0 w w' ->
  status_holds w' c0 st0 -> begun st0 = true ->
  (c0 < nextPromise w')%nat -> (nextPromise w <= nextPromise w')%nat ->
  (forall s c t, opening w' !! s = Some (c, t) ->
     (s < nextSocket w')%nat /\ (t < nextTimer w')%nat) ->
  evolves w w'.
Proof.
  intros Hinv Hbut Hst0 Hb0 Hc0 Hnp Hop. split; [split|].
  - intros c. destruct (decide (c = c0)) as [->|Hc]; [by exists st0|].
    destruct (cn_status w Hinv c) as [st Hst]. exists st. by eapply status_but.
  - intros c Hc. eapply status_but; [done|lia|]. apply (cn_fresh w Hinv). lia.
  - done.
  - intros c st Hst. destruct (decide (c = c0)) as [->|Hc]; [by exists st0|].
    exists st. split; [by eapply status_but|done].
Qed.

(** Two connects that wait have two timers. *)
Lemma waiting_timers_differ w s1 c1 t1 s2 c2 t2 :
  conn_inv w ->
  opening w !! s1 = Some (c1, t1) -> opening w !! s2 = Some (c2, t2) ->
  c1 <> c2 -> t1 <> t2.
Proof.
  intros Hinv H1 H2 Hc ->.
  destruct (status_waiting _ _ _ _ Hinv H1) as (_ & _ & Ht1 & _).
  destruct (status_waiting _ _ _ _ Hinv H2) as (_ & _ & Ht2 & _).
  rewrite Ht1 in Ht2. injection Ht2 as ->. rewrite H1 in H2. by simplify_eq.
Qed.

(** The listeners of a [connect] are taken off: what is left to show is the
    status of its promise. *)
Lemma evolves_leave s0 c0 t0 st0 w w' :
  conn_inv w ->
  opening w !! s0 = Some (c0, t0) ->
  opening w' = delete s0 (opening w) ->
  (forall t, timers w' !! t = timers w !! t
             \/ exists ms, timers w !! t = Some {| action := ConnectTimeout s0; delay := ms |}) ->
  nextSocket w' = nextSocket w -> nextTimer w' = nextTimer w -> nextPromise w' = nextPromise w ->
  (forall c, c <> c0 -> catches c (microtasks w') = catches c (microtasks w)) ->
  (forall c, c <> c0 -> connect_outcomes c (trace w') = connect_outcomes c (trace w)) ->
  (not_waiting w' c0 -> status_holds w' c0 st0) -> begun st0 = true ->
  evolves w w'.
Proof.
  intros Hinv Hs0 Hop Htm Hns Hnt Hnp Hmt Htr Hst0 Hb0.
  pose proof (status_waiting _ _ _ _ Hinv Hs0) as (_ & Huniq & Ht0 & _).
  apply (evolves_one c0 st0); try done.
  - split; [|split; [|done]].
    + intros s c t Hc. rewrite Hop, lookup_delete_Some. split; [by intros [_ ?]|].
      intros H. split; [|done]. intros <-. rewrite Hs0 in H. by simplify_eq.
    + intros s c t Hc H. destruct (Htm t) as [->|[ms Hms]]; [done|].
      destruct (status_waiting _ _ _ _ Hinv H) as (_ & _ & Ht & _).
      rewrite Ht in Hms. injection Hms as -> _. rewrite Hs0 in H. by simplify_eq.
  - apply Hst0. intros s t. rewrite Hop, lookup_delete_Some. intros [Hne H].
    apply Hne. symmetry. by eapply Huniq.
  - rewrite Hnp. destruct (decide (c0 < nextPromise w)%nat) as [|Hge]; [done|].
    destruct (cn_fresh w Hinv c0) as [Hnw _]; [lia|]. by destruct (Hnw s0 t0).
  - lia.
  - intros s c t. rewrite Hop, lookup_delete_Some, Hns, Hnt. intros [_ H].
    by apply (cn_opening w Hinv) in H.
Qed.

Ltac cstep_side H :=
  let Heq := fresh in
  intros Heq;
  first
    [ match goal with
      | Hb : handles_bound _ |- _ => pose proof (Hb _ _ _ H); lia
      end
    | rewrite <- Heq in H;
      match goal with
      | Hf : frees _ _ |- _ => exact (Hf _ _ H)
      end ].

Ltac solve_cstep :=
  unfold cstep; simpl;
  split; [done|]; split; [lia|]; split; [lia|]; split; [done|];
  split; [|split];
  [ let s := fresh "s" in
    let c := fresh "c" in
    let t := fresh "t" in
    let H := fresh "H" in
    intros s c t H;
    repeat first
      [ rewrite lookup_insert_ne by cstep_side H
      | rewrite lookup_delete_ne by cstep_side H ];
    done
  | let c := fresh "c" in
    intros c; rewrite ?catches_app; simpl; by rewrite ?app_nil_r
  | let c := fresh "c" in
    intros c; rewrite ?connect_outcomes_app; simpl; by rewrite ?app_nil_r ].

Lemma conn_inv_bound w : conn_inv w -> handles_bound w.
Proof. intros Hinv s c t H. by destruct (cn_opening w Hinv _ _ _ H). Qed.

Lemma handles_bound_cstep w w' : cstep w w' -> handles_bound w -> handles_bound w'.
Proof.
  intros (_ & _ & Hnt & Hop & _) Hb s c t. rewrite Hop. intros H.
  pose proof (Hb _ _ _ H). lia.
Qed.

Lemma cstep_callViaHTTP caller method params opts w :
  cstep w (callViaHTTP_ caller method params opts w).2.
Proof. unfold callViaHTTP_. crunch; solve_cstep. Qed.

Lemma cstep_callViaWebSocket caller method params opts w :
  handles_bound w -> cstep w (callViaWebSocket_ caller method params opts w).2.
Proof. intros Hb. unfold callViaWebSocket_, sendMessage, settleWs. crunch; solve_cstep. Qed.

Lemma connect_outcomes_other c c0 o tr :
  c <> c0 -> connect_outcomes c (tr ++ [Settle (Connect c0) o]) = connect_outcomes c tr.
Proof.
  intros Hc. rewrite connect_outcomes_app. unfold connect_outcomes at 2. simpl.
  rewrite decide_False by done. by rewrite app_nil_r.
Qed.

Lemma connect_outcomes_same c o tr :
  connect_outcomes c (tr ++ [Settle (Connect c) o]) = connect_outcomes c tr ++ [o].
Proof.
  rewrite connect_outcomes_app. unfold connect_outcomes at 2. simpl.
  by rewrite decide_True.
Qed.

(** [connect] moves its own promise on, and no other: the promise is
    resolved at once, or it waits for the new socket. *)
Lemma evolves_connect w :
  conn_inv w ->
  evolves w (connect w).2
  /\ exists st, status_holds (connect w).2 (connect w).1 st /\ begun st = true.
Proof.
  intros Hinv. destruct (cn_fresh w Hinv (nextPromise w)) as (Hnw & Hmt & Htr); [lia|].
  unfold connect. cbn [newPromise]. cbv zeta.
  match goal with
  | |- context [if ?b then _ else _] => destruct b
  end; cbn [fst snd].
  - assert (Hst : status_holds
                    (emit (Settle (Connect (nextPromise w)) (Resolved VUndefined))
                       (newPromise w).2)
                    (nextPromise w) (Settled (Resolved VUndefined))).
    { split; [done|]. split; [done|]. split; [|by left].
      simpl. by rewrite connect_outcomes_same, Htr. }
    split; [|by eexists].
    eapply evolves_one; [done| |exact Hst|done|simpl; lia|simpl; lia|].
    + split; [done|]. split; [done|]. split; [done|].
      intros c Hc. simpl. by rewrite connect_outcomes_other.
    + simpl. apply (cn_opening w Hinv).
  - match goal with
    | |- evolves w ?W /\ _ =>
        assert (Hst : status_holds W (nextPromise w)
                        (Waiting (nextSocket w) (nextTimer w)))
    end.
    { simpl. split; [by rewrite lookup_insert_eq|]. split.
      - intros s' t'. rewrite lookup_insert_Some. intros [[? _]|[_ H]]; [done|].
        by destruct (Hnw s' t').
      - split; [by rewrite lookup_insert_eq|]. split; [done|].
        rewrite connect_outcomes_app, Htr. done. }
    split; [|by eexists].
    eapply evolves_one; [done| |exact Hst|done|simpl; lia|simpl; lia|].
    + split; [|split; [|split]]; simpl.
      * intros s c t Hc. rewrite lookup_insert_Some. split.
        -- intros [[_ ?]|[_ ?]]; [by simplify_eq|done].
        -- intros H. right. split; [|done].
           destruct (cn_opening w Hinv _ _ _ H). lia.
      * intros s c t Hc H. rewrite lookup_insert_ne; [done|].
        destruct (cn_opening w Hinv _ _ _ H). lia.
      * done.
      * intros c Hc. rewrite connect_outcomes_app. simpl. by rewrite app_nil_r.
    + simpl. intros s c t. rewrite lookup_insert_Some.
      intros [[<- [= _ <-]]|[_ H]]; [lia|].
      destruct (cn_opening w Hinv _ _ _ H). lia.
Qed.

Lemma evolves_call method params opts w :
  conn_inv w -> evolves w (call method params opts w).2.
Proof.
  intros Hinv. unfold call. cbn [newPromise]. cbv zeta.
  match goal with
  | |- context [if decide (connectionState (client ?W) = CONNECTED) then _ else _] =>
      assert (HW : evolves w W); [|destruct (decide (connectionState (client W) = CONNECTED))]
  end.
  - match goal with
    | |- evolves w (if ?b then _ else _) => destruct b
    end.
    + unfold autoConnect. case_decide; [|apply evolves_cstep; [done|solve_cstep]].
      eapply evolves_trans; [|apply evolves_connect].
      * apply evolves_cstep; [done|solve_cstep].
      * eapply evolves_inv, evolves_cstep; [done|solve_cstep].
    + apply evolves_cstep; [done|solve_cstep].
  - cbn [snd]. eapply evolves_trans; [exact HW|].
    apply evolves_cstep; [by eapply evolves_inv|].
    apply cstep_callViaWebSocket, conn_inv_bound. by eapply evolves_inv.
  - cbn [snd]. eapply evolves_trans; [exact HW|].
    apply evolves_cstep; [by eapply evolves_inv|]. apply cstep_callViaHTTP.
Qed.

(** *** The handles the client holds are no timers of a [connect] *)

Lemma frees_armed w t tm :
  conn_inv w -> timers w !! t = Some tm ->
  (forall s, action tm <> ConnectTimeout s) -> frees w t.
Proof.
  intros Hinv Ht Hkind s c Hop.
  destruct (status_waiting _ _ _ _ Hinv Hop) as (_ & _ & Ht' & _).
  rewrite Ht in Ht'. injection Ht' as ->. by destruct (Hkind s).
Qed.

Lemma frees_heartbeat w hb :
  timers_inv w -> conn_inv w -> heartbeatInterval (client w) = Some hb -> frees w hb.
Proof.
  intros Htm Hinv Hhb s c Hop.
  destruct (status_waiting _ _ _ _ Hinv Hop) as (_ & _ & Ht & _).
  by pose proof (ti_heartbeat w Htm _ _ Hhb Ht).
Qed.

Lemma frees_reconnect w rt :
  timers_inv w -> conn_inv w -> reconnectTimeout (client w) = Some rt -> frees w rt.
Proof.
  intros Htm Hinv Hrt s c Hop.
  destruct (status_waiting _ _ _ _ Hinv Hop) as (_ & _ & Ht & _).
  by pose proof (ti_reconnect w Htm _ _ Hrt Ht).
Qed.

Lemma frees_pending w i entry t :
  timers_inv w -> conn_inv w ->
  (i, entry) ∈ pendingRequests (client w) -> timeout entry = Some t -> frees w t.
Proof.
  intros Htm Hinv Hin Hto s c Hop.
  destruct (status_waiting _ _ _ _ Hinv Hop) as (_ & _ & Ht & _).
  destruct (ti_pending w Htm _ _ Hin) as (t' & method & ms & Hto' & Ht').
  rewrite Hto in Hto'. injection Hto' as <-. rewrite Ht in Ht'. done.
Qed.

Lemma cstep_clearPendingRequests error w :
  (forall entry t, entry ∈ pendingRequests (client w) -> timeout entry.2 = Some t ->
     frees w t) ->
  cstep w (clearPendingRequests error w).
Proof.
  intros Hfree. unfold clearPendingRequests.
  eapply cstep_trans; [|solve_cstep].
  revert Hfree. generalize (pendingRequests (client w)). intros l. revert w.
  induction l as [|entry l IH]; intros w Hfree; cbn [fold_left]; [apply cstep_refl|].
  assert (H1 : cstep w (settleWs (settles entry.2) (Rejected error)
                          (clearTimer_if (timeout entry.2) w))).
  { unfold settleWs, clearTimer_if.
    destruct (timeout entry.2) as [t|] eqn:Hto.
    - pose proof (Hfree entry t (list_elem_of_here _ _) Hto). crunch; solve_cstep.
    - crunch; solve_cstep. }
  eapply cstep_trans; [exact H1|]. apply IH.
  intros entry' t Hin Hto. eapply frees_cstep; [exact H1|].
  eapply Hfree; [|done]. by apply list_elem_of_further.
Qed.

Lemma cstep_disconnect w : timers_inv w -> conn_inv w -> cstep w (disconnect w).
Proof.
  intros Htm Hinv. unfold disconnect. cbv zeta.
  match goal with
  | |- cstep w (clearPendingRequests ?e ?W) =>
      assert (H1 : cstep w W /\ pendingRequests (client W) = pendingRequests (client w))
  end.
  { pose proof (frees_heartbeat w) as Hhb. pose proof (frees_reconnect w) as Hrt.
    destruct w as [[s0 ? ? ? ? rt hb ?] ? ? ? ? ? ? ? ? ? ? ?].
    unfold closeSocket.
    destruct rt as [rt|]; [pose proof (Hrt rt Htm Hinv eq_refl)|];
      (destruct hb as [hb|]; [pose proof (Hhb hb Htm Hinv eq_refl)|]);
      destruct s0; (split; [solve_cstep|done]). }
  destruct H1 as [H1 Hp]. eapply cstep_trans; [exact H1|].
  apply cstep_clearPendingRequests. rewrite Hp. intros [i entry] t Hin Hto.
  eapply frees_cstep; [exact H1|]. by eapply frees_pending.
Qed.

Lemma cstep_onopen w :
  handles_bound w ->
  match heartbeatInterval (client w) with Some hb => frees w hb | None => True end ->
  cstep w (onopen w).
Proof.
  intros Hb Hhb. unfold onopen, startHeartbeat, stopHeartbeat.
  crunch; solve_cstep.
Qed.

Lemma cstep_onclose w :
  handles_bound w ->
  match heartbeatInterval (client w) with Some hb => frees w hb | None => True end ->
  cstep w (onclose w).
Proof.
  intros Hb Hhb. unfold onclose, attemptReconnect, stopHeartbeat.
  crunch; solve_cstep.
Qed.

Lemma cstep_handleMessage data w :
  timers_inv w -> conn_inv w -> cstep w (leaves (handleMessage data w)).
Proof.
  intros Htm Hinv. unfold handleMessage, leaves, clearTimer_if, settleWs.
  destruct (negb (id_truthy (response_id data))); [apply cstep_refl|].
  destruct (Map_get (pendingRequests (client w)) (response_id data)) as [pending|] eqn:Hget;
    [|apply cstep_refl].
  apply Map_get_Some_elem in Hget.
  destruct (timeout pending) as [t|] eqn:Hto.
  - pose proof (frees_pending w _ _ t Htm Hinv Hget Hto). crunch; solve_cstep.
  - crunch; solve_cstep.
Qed.

Lemma heartbeat_freed w :
  timers_inv w -> conn_inv w ->
  match heartbeatInterval (client w) with Some hb => frees w hb | None => True end.
Proof.
  intros Htm Hinv. destruct (heartbeatInterval (client w)) eqn:Hhb; [|done].
  by eapply frees_heartbeat.
Qed.

(** The [open] event resolves the [connect] that waits for the socket. *)
Lemma evolves_socketOpens s w :
  timers_inv w -> conn_inv w -> evolves w (socketOpens s w).
Proof.
  intros Htm Hinv. unfold socketOpens.
  destruct (sockets w !! s) as [[]|]; try (by apply evolves_refl).
  match goal with
  | |- context [opening ?W !! s] => assert (H1 : cstep w W)
  end.
  { eapply cstep_trans; [|apply cstep_onopen].
    - solve_cstep.
    - apply (conn_inv_bound w Hinv).
    - apply (heartbeat_freed w Htm Hinv). }
  pose proof (evolves_cstep _ _ Hinv H1) as H2.
  match goal with
  | |- context [opening ?W !! s] => destruct (opening W !! s) as [[c t]|] eqn:Hop
  end; [|done].
  eapply evolves_trans; [exact H2|].
  apply (evolves_leave s c t (Settled (Resolved VUndefined)));
    [by eapply evolves_inv|done|done| |done|done|done|done| | |done].
  - intros t'. simpl. destruct (decide (t' = t)) as [->|]; [|left; by rewrite lookup_delete_ne].
    right. destruct (status_waiting _ _ _ _ (evolves_inv _ _ H2) Hop) as (_ & _ & Ht & _).
    by eexists.
  - intros c' Hc. by apply connect_outcomes_other.
  - intros Hnw. destruct (status_waiting _ _ _ _ (evolves_inv _ _ H2) Hop)
      as (_ & _ & _ & Hmt & Htr).
    split; [done|]. split; [done|]. split; [|by left].
    cbn [trace emit]. rewrite connect_outcomes_same.
    cbn [trace with_opening clearTimer with_timers]. by rewrite Htr.
Qed.

(** The [error] event rejects the [connect] that waits for the socket. *)
Lemma evolves_socketErrors s w : conn_inv w -> evolves w (socketErrors s w).
Proof.
  intros Hinv. unfold socketErrors.
  destruct (sockets w !! s); [|by apply evolves_refl].
  assert (H1 : cstep w (onerror w)) by solve_cstep.
  pose proof (evolves_cstep _ _ Hinv H1) as H2.
  destruct (opening (onerror w) !! s) as [[c t]|] eqn:Hop; [|done].
  eapply evolves_trans; [exact H2|].
  apply (evolves_leave s c t (Failing (Err WS_CONNECT_FAILED)));
    [by eapply evolves_inv|done|done| |done|done|done| |done| |done].
  - intros t'. simpl. destruct (decide (t' = t)) as [->|]; [|left; by rewrite lookup_delete_ne].
    right. destruct (status_waiting _ _ _ _ (evolves_inv _ _ H2) Hop) as (_ & _ & Ht & _).
    by eexists.
  - intros c' Hc. simpl. rewrite catches_app. unfold catches at 2. simpl.
    rewrite decide_False by done. by rewrite app_nil_r.
  - intros Hnw. destruct (status_waiting _ _ _ _ (evolves_inv _ _ H2) Hop)
      as (_ & _ & _ & Hmt & Htr).
    split; [done|]. split; [|split; [done|by left]].
    simpl in *. rewrite catches_app, Hmt. unfold catches. simpl. by rewrite decide_True.
Qed.

Lemma cstep_socketCloses s w :
  timers_inv w -> conn_inv w -> cstep w (socketCloses s w).
Proof.
  intros Htm Hinv. unfold socketCloses.
  destruct (sockets w !! s) as [[]|]; try apply cstep_refl.
  all: eapply cstep_trans; [|apply cstep_onclose];
    [solve_cstep|apply (conn_inv_bound w Hinv)|apply (heartbeat_freed w Htm Hinv)].
Qed.

(** A timer goes off: the one of a [connect] that waits rejects it. *)
Lemma evolves_timerFires t clock w :
  conn_inv w -> evolves w (timerFires t clock w).
Proof.
  intros Hinv. unfold timerFires.
  destruct (timers w !! t) as [[[i p method|s| |] ms]|] eqn:Ht; try (by apply evolves_refl).
  - assert (Hf : frees w t) by (eapply frees_armed; [done|exact Ht|done]).
    apply evolves_cstep; [done|]. unfold settleWs. crunch; solve_cstep.
  - cbn [opening clearTimer with_timers].
    destruct (opening w !! s) as [[c t']|] eqn:Hop.
    + apply (evolves_leave s c t' (Failing (Err WS_CONNECT_TIMEOUT)));
        [done|done|done| |done|done|done| |done| |done].
      * intros t1. simpl.
        destruct (decide (t1 = t')) as [->|].
        { right. destruct (status_waiting _ _ _ _ Hinv Hop) as (_ & _ & Ht' & _).
          by eexists. }
        destruct (decide (t1 = t)) as [->|]; [right; by eexists|].
        left. by rewrite !lookup_delete_ne.
      * intros c' Hc. simpl. rewrite catches_app. unfold catches at 2. simpl.
        rewrite decide_False by done. by rewrite app_nil_r.
      * intros Hnw. destruct (status_waiting _ _ _ _ Hinv Hop) as (_ & _ & _ & Hmt & Htr).
        split; [done|]. split; [|split; [done|by right]].
        simpl in *. rewrite catches_app, Hmt. unfold catches. simpl. by rewrite decide_True.
    + assert (Hf : frees w t).
      { intros s' c Hop'.
        destruct (status_waiting _ _ _ _ Hinv Hop') as (_ & _ & Ht' & _).
        rewrite Ht in Ht'. injection Ht' as -> _. by rewrite Hop in Hop'. }
      apply evolves_cstep; [done|solve_cstep].
  - assert (Hf : frees w t) by (eapply frees_armed; [done|exact Ht|done]).
    assert (H1 : cstep w (clearTimer t w)) by solve_cstep.
    eapply evolves_trans; [by apply evolves_cstep|].
    apply evolves_connect. by eapply evolves_inv, evolves_cstep.
  - apply evolves_cstep; [done|]. crunch; solve_cstep.
Qed.

Lemma cstep_httpReplies x reply w : cstep w (httpReplies x reply w).
Proof. unfold httpReplies, enqueue. crunch; solve_cstep. Qed.

Lemma evolves_handle i w :
  timers_inv w -> conn_inv w -> evolves w (handle i w).
Proof.
  intros Htm Hinv. destruct i; cbn [handle].
  - by apply evolves_connect.
  - by apply evolves_cstep, cstep_disconnect.
  - by apply evolves_call.
  - by apply evolves_cstep, cstep_callViaWebSocket, conn_inv_bound.
  - by apply evolves_cstep, cstep_callViaHTTP.
  - by apply evolves_refl.
  - by apply evolves_socketOpens.
  - apply evolves_cstep; [done|]. unfold socketClosing. crunch; solve_cstep.
  - by apply evolves_socketErrors.
  - by apply evolves_cstep, cstep_socketCloses.
  - apply evolves_cstep; [done|]. unfold socketMessage.
    destruct (sockets w !! s) as [[]|]; try apply cstep_refl.
    all: destruct frame; [apply cstep_refl|].
    all: destruct (onmessage_parsed data w) as [-> | ->];
      [apply (cstep_handleMessage data w Htm Hinv)|].
    all: eapply cstep_trans; [apply (cstep_handleMessage data w Htm Hinv)|solve_cstep].
  - by apply evolves_timerFires.
  - by apply evolves_cstep, cstep_httpReplies.
Qed.

Lemma cstep_dequeue j jobs w :
  microtasks w = j :: jobs -> (forall c, catch_of c j = None) -> cstep w (dequeue w).
Proof.
  intros Hmt Hj. unfold dequeue, cstep. simpl. repeat (split; [done|]). split; [|done].
  intros c. rewrite Hmt. unfold catches. simpl. by rewrite Hj.
Qed.

(** The [catch] of a [connect] runs: its promise is rejected. *)
Lemma evolves_runJob j jobs w :
  conn_inv w -> microtasks w = j :: jobs -> evolves w (runJob j (dequeue w)).
Proof.
  intros Hinv Hmt. destruct j as [ctx [v|e]|q o|c e]; cbn [runJob].
  - apply evolves_cstep; [done|].
    eapply cstep_trans; [by eapply cstep_dequeue|solve_cstep].
  - apply evolves_cstep; [done|].
    eapply cstep_trans; [by eapply cstep_dequeue|apply cstep_callViaHTTP].
  - apply evolves_cstep; [done|].
    eapply cstep_trans; [by eapply cstep_dequeue|solve_cstep].
  - destruct (cn_status w Hinv c) as [st Hst].
    assert (Hc : catches c (microtasks w) = e :: catches c jobs).
    { rewrite Hmt. unfold catches. simpl. by rewrite decide_True. }
    destruct st as [|s t|e'|o]; simpl in Hst.
    { destruct Hst as (_ & Hnil & _). by rewrite Hnil in Hc. }
    { destruct Hst as (_ & _ & _ & Hnil & _). by rewrite Hnil in Hc. }
    2: { destruct Hst as (_ & Hnil & _). by rewrite Hnil in Hc. }
    destruct Hst as (Hnw & Hone & Htr & Herr). rewrite Hone in Hc.
    injection Hc as <- Hrest.
    assert (Hst' : status_holds (runJob (ConnectCatch c e') (dequeue w)) c
                     (Settled (Rejected e'))).
    { split; [done|]. split; [simpl; by rewrite Hmt|]. split; [|right; by eexists].
      cbn [runJob trace emit]. rewrite connect_outcomes_same, connect_outcomes_app.
      simpl. by rewrite Htr. }
    apply (evolves_one c (Settled (Rejected e'))); try done.
    + split; [done|]. split; [done|]. split.
      * intros c' Hc'. simpl. rewrite Hmt. unfold catches. simpl.
        by rewrite decide_False.
      * intros c' Hc'. cbn [runJob trace emit].
        rewrite connect_outcomes_other by done. rewrite connect_outcomes_app. simpl.
        by rewrite app_nil_r.
    + simpl. destruct (decide (c < nextPromise w)%nat) as [|Hge]; [done|].
      destruct (cn_fresh w Hinv c) as (_ & Hnil & _); [lia|].
      rewrite Hone in Hnil. done.
    + simpl. apply (cn_opening w Hinv).
Qed.

Lemma evolves_drain w : conn_inv w -> evolves w (drain w).
Proof.
  intros Hinv. unfold drain.
  assert (H : forall jobs w0, microtasks w0 = jobs -> evolves w w0 ->
            evolves w (fold_left (fun w j => runJob j (dequeue w)) jobs w0)).
  { induction jobs as [|j jobs IH]; intros w0 Hmt H0; cbn [fold_left]; [done|].
    apply IH.
    - rewrite runJob_microtasks. simpl. by rewrite Hmt.
    - eapply evolves_trans; [exact H0|].
      eapply evolves_runJob; [by eapply evolves_inv|exact Hmt]. }
  apply H; [done|by apply evolves_refl].
Qed.

Lemma evolves_step i w :
  once_inv w -> timers_inv w -> conn_inv w -> evolves w (step w i).
Proof.
  intros Honce Htm Hinv. unfold step. destruct (from_user i).
  - by apply evolves_handle.
  - pose proof (evolves_drain w Hinv) as H1.
    assert (H2 : evolves (drain w) (handle i (drain w))).
    { apply evolves_handle; [|by eapply evolves_inv].
      eapply timers_inv_view; [apply drain_view|exact Htm]. }
    pose proof (evolves_drain _ (evolves_inv _ _ H2)) as H3.
    eapply evolves_trans; [exact H1|]. eapply evolves_trans; [exact H2|exact H3].
Qed.

Lemma conn_inv_construct opts : conn_inv (construct opts).
Proof.
  assert (H0 : conn_inv {| client := initialClient opts; sockets := ∅; nextSocket := 0;
                           opening := ∅; timers := ∅; nextTimer := 1; nextPromise := 0;
                           fallbacks := ∅; exchanges := ∅; nextExchange := 0;
                           microtasks := []; trace := [] |}).
  { split.
    - intros c. by exists Unborn.
    - done.
    - intros s c t. simpl. by rewrite lookup_empty. }
  unfold construct. cbv zeta. destruct (Options.autoConnect opts); [|done].
  unfold autoConnect. case_decide; [|done].
  by eapply evolves_inv, evolves_connect.
Qed.

Lemma conn_inv_reachable opts w : reachable opts w -> conn_inv w.
Proof.
  induction 1 as [|w i Hr IH]; [apply conn_inv_construct|].
  eapply evolves_inv, evolves_step; [by eapply once_reachable| |done].
  by eapply timers_inv_reachable.
Qed.

Lemma evolves_run opts inputs w :
  reachable opts w -> evolves w (run w inputs).
Proof.
  revert w. induction inputs as [|i inputs IH]; intros w Hr.
  - apply evolves_refl. by eapply conn_inv_reachable.
  - simpl. eapply evolves_trans; [|apply IH, reachable_step, Hr].
    apply evolves_step; [by eapply once_reachable| |by eapply conn_inv_reachable].
    by eapply timers_inv_reachable.
Qed.

(** X16. The promise of a [connect] is settled at most once, and it is
    never left waiting without a limit. Whatever happens after [connect]
    has returned its promise, the promise is in one of three states: it
    waits, with the listeners of its socket still on and its timer of
    10 s armed; or the executor has rejected it, with one of its two
    errors, and the [catch] of [connect] is queued, once; or it is settled,
    exactly once, resolved with [undefined] or rejected with one of the two
    errors. *)
Theorem connect_settles_once opts w inputs :
  reachable opts w ->
  let c := (connect w).1 in
  let w' := run (connect w).2 inputs in
  (length (connect_outcomes c (trace w')) <= 1)%nat
  /\ ((exists s t, status_holds w' c (Waiting s t))
      \/ (exists e, status_holds w' c (Failing e))
      \/ (exists o, status_holds w' c (Settled o))).
Proof.
  intros Hr c w'.
  pose proof (conn_inv_reachable _ _ Hr) as Hinv.
  destruct (evolves_connect w Hinv) as (_ & st & Hst & Hb).
  assert (Hr' : reachable opts (connect w).2) by apply (reachable_step opts w DoConnect Hr).
  destruct (evolves_run opts inputs _ Hr') as [_ Hev].
  destruct (Hev _ _ Hst) as (st' & Hst' & Hb'). specialize (Hb' Hb).
  fold c w' in Hst'.
  destruct st' as [|s t|e|o]; [done| | |]; simpl in Hst'.
  - destruct Hst' as (? & ? & ? & ? & Htr). split; [rewrite Htr; simpl; lia|].
    left. by exists s, t.
  - destruct Hst' as (? & ? & Htr & ?). split; [rewrite Htr; simpl; lia|].
    right. left. by exists e.
  - destruct Hst' as (? & ? & Htr & ?). split; [rewrite Htr; simpl; lia|].
    right. right. by exists o.
Qed.

Lemma connect_settles_once_witness :
  let opts := {| Options.autoConnect := false; Options.autoReconnect := true;
                 Options.reconnectInterval := 3000; Options.maxReconnectAttempts := 5;
                 Options.requestTimeout := 30000; Options.enableHeartbeat := true;
                 Options.heartbeatInterval := 15000; Options.headers := [] |} in
  let w := construct opts in
  let c := (connect w).1 in
  let w' := run (connect w).2 [SocketErrors 0; SocketOpens 0; TimerFires 1 0] in
  reachable opts w
  /\ connect_outcomes c (trace w') = [Rejected (Err WS_CONNECT_FAILED)]
  /\ (length (connect_outcomes c (trace w')) <= 1)%nat
  /\ ((exists s t, status_holds w' c (Waiting s t))
      \/ (exists e, status_holds w' c (Failing e))
      \/ (exists o, status_holds w' c (Settled o))).
Proof.
  intros opts w c w'.
  assert (Hr : reachable opts w) by apply reachable_construct.
  split; [exact Hr|]. split; [by vm_compute|].
  exact (connect_settles_once opts w [SocketErrors 0; SocketOpens 0; TimerFires 1 0] Hr).
Defined.

End RPC2ConnectFacts.

(* ===================================================================== *)
(** ** Facts about the server groups                                      *)
(* ===================================================================== *)

Module NezhaApiFacts.
Import Js Komari Utils NezhaApi NezhaApiSpec.

Section Classes.
Context {A : Type} (eqv : A -> A -> bool).
Hypothesis eqv_refl : forall a, eqv a a = true.
Hypothesis eqv_sym : forall a b, eqv a b = true -> eqv b a = true.
Hypothesis eqv_trans : forall a b c, eqv a b = true -> eqv b c = true -> eqv a c = true.

Lemma reps_snoc l x : reps eqv (l ++ [x]) = add_rep eqv (reps eqv l) x.
Proof. unfold reps. by rewrite fold_left_app. Qed.

Lemma class_in_snoc l x r :
  class_in eqv (l ++ [x]) r = class_in eqv l r ++ (if eqv x r then [x] else []).
Proof.
  unfold class_in. rewrite filter_app. f_equal.
  destruct (eqv x r) eqn:Hx.
  - by rewrite filter_cons_True, filter_nil.
  - rewrite filter_cons_False, filter_nil; [done|]. by rewrite Hx.
Qed.

Lemma existsb_eqv x R : existsb (eqv x) R = true <-> exists r, r ∈ R /\ eqv x r = true.
Proof.
  rewrite existsb_exists. split; intros (r & Hr & He); exists r; split; try done.
  - by apply list_elem_of_In.
  - by apply list_elem_of_In.
Qed.

Lemma class_map_same l x R :
  (forall r, r ∈ R -> eqv x r = false) ->
  map (class_in eqv (l ++ [x])) R = map (class_in eqv l) R.
Proof.
  intros H. apply map_ext_in. intros r Hr. rewrite class_in_snoc.
  rewrite (H r); [by rewrite app_nil_r|]. by apply list_elem_of_In.
Qed.

Lemma reps_inv_snoc l R x :
  reps_inv eqv l R -> reps_inv eqv (l ++ [x]) (add_rep eqv R x).
Proof.
  intros [Hin Hap Hcov Hperm]. unfold add_rep.
  destruct (existsb (eqv x) R) eqn:Hex.
  - apply existsb_eqv in Hex as (r0 & Hr0 & Hx0).
    apply list_elem_of_split in Hr0 as (R1 & R2 & ->).
    assert (H1 : forall r, r ∈ R1 -> eqv x r = false).
    { intros r Hr. destruct (eqv x r) eqn:Hxr; [|done].
      apply list_elem_of_lookup in Hr as [i Hi].
      assert (i = length R1).
      { apply (Hap i (length R1) r r0).
        - rewrite lookup_app_l; [done|]. by eapply lookup_lt_Some.
        - by rewrite list_lookup_middle.
        - eapply eqv_trans; [apply eqv_sym; exact Hxr|exact Hx0]. }
      apply lookup_lt_Some in Hi. lia. }
    assert (H2 : forall r, r ∈ R2 -> eqv x r = false).
    { intros r Hr. destruct (eqv x r) eqn:Hxr; [|done].
      apply list_elem_of_lookup in Hr as [i Hi].
      assert (length R1 + S i = length R1)%nat; [|lia].
      apply (Hap (length R1 + S i)%nat (length R1) r r0).
      - rewrite lookup_app_r by lia.
        replace (length R1 + S i - length R1)%nat with (S i) by lia. done.
      - by rewrite list_lookup_middle.
      - eapply eqv_trans; [apply eqv_sym; exact Hxr|exact Hx0]. }
    split.
    + intros r Hr. apply elem_of_app. left. by apply Hin.
    + done.
    + intros y. rewrite elem_of_app, list_elem_of_singleton. intros [Hy | ->].
      * by apply Hcov.
      * exists r0. split; [|done]. apply elem_of_app. right. apply list_elem_of_here.
    + rewrite map_app, concat_app in Hperm. cbn [map concat] in Hperm.
      rewrite map_app, concat_app. cbn [map concat].
      rewrite (class_map_same l x R1 H1), (class_map_same l x R2 H2).
      rewrite class_in_snoc, Hx0.
      etransitivity; [|apply Permutation_app_tail, Hperm].
      rewrite <- !app_assoc. do 2 apply Permutation_app_head.
      apply Permutation_app_comm.
  - assert (Hnone : forall r, r ∈ R -> eqv x r = false).
    { intros r Hr. destruct (eqv x r) eqn:Hxr; [|done].
      assert (existsb (eqv x) R = true) by (apply existsb_eqv; eauto). congruence. }
    assert (Hempty : class_in eqv l x = []).
    { apply elem_of_nil_inv. intros y. unfold class_in. rewrite list_elem_of_filter.
      intros [Hyx Hy]. destruct (Hcov y Hy) as (r & Hr & Hyr).
      pose proof (Hnone r Hr) as Hxr.
      assert (eqv x r = true); [|congruence].
      eapply eqv_trans; [apply eqv_sym; exact Hyx|exact Hyr]. }
    split.
    + intros r. rewrite !elem_of_app, list_elem_of_singleton. intros [Hr | ->]; [|by right].
      left. by apply Hin.
    + intros i j ri rj Hi Hj He.
      apply lookup_snoc_Some in Hi as [[Hi1 Hi]|[-> <-]];
        apply lookup_snoc_Some in Hj as [[Hj1 Hj]|[-> <-]]; try done.
      * by eapply Hap.
      * apply list_elem_of_lookup_2, Hnone in Hi. apply eqv_sym in He. congruence.
      * apply list_elem_of_lookup_2, Hnone in Hj. congruence.
    + intros y. rewrite elem_of_app, list_elem_of_singleton. intros [Hy | ->].
      * destruct (Hcov y Hy) as (r & Hr & Hyr). exists r. split; [|done].
        apply elem_of_app. by left.
      * exists x. split; [|done]. apply elem_of_app. right. apply list_elem_of_here.
    + rewrite map_app, concat_app. cbn [map concat].
      rewrite (class_map_same l x R Hnone), class_in_snoc, Hempty, eqv_refl.
      cbn [app]. by apply Permutation_app_tail.
Qed.

Lemma reps_inv_reps l : reps_inv eqv l (reps eqv l).
Proof.
  induction l as [|x l IH] using rev_ind.
  - split; [done|done| |done]. intros x Hx. by apply elem_of_nil in Hx.
  - rewrite reps_snoc. by apply reps_inv_snoc.
Qed.

End Classes.

(** *** [===] on the groups is an equivalence *)

Lemma strict_equal_refl v : strict_equal true v v = true.
Proof.
  destruct v; simpl; try done.
  - by destruct b.
  - apply Qeq_bool_refl.
  - by apply bool_decide_eq_true.
Qed.

Lemma strict_equal_sym same a b : strict_equal same a b = strict_equal same b a.
Proof.
  destruct a, b; simpl; try done.
  - by destruct b, b0.
  - apply Qeq_bool_comm.
  - apply bool_decide_ext. split; congruence.
Qed.

Lemma strict_equal_trans s1 s2 s3 a b c :
  (s1 = true -> s2 = true -> s3 = true) ->
  strict_equal s1 a b = true -> strict_equal s2 b c = true -> strict_equal s3 a c = true.
Proof.
  intros Hs. destruct a, b; simpl; try done; destruct c; simpl; try done.
  - destruct b, b0, b1; done.
  - apply Qeq_bool_trans.
  - rewrite !bool_decide_eq_true. congruence.
Qed.

Lemma strict_equal_weaken same a b :
  strict_equal false a b = true -> strict_equal same a b = true.
Proof. by destruct a, b. Qed.

Lemma strict_equal_truthy same a b : strict_equal same a b = true -> truthy a = truthy b.
Proof.
  destruct a, b; simpl; try done.
  - destruct b, b0; done.
  - intros H. apply Qeq_bool_eq in H. unfold Qeq in H. unfold is_zero.
    f_equal. apply Bool.eq_iff_eq_true. rewrite !Z.eqb_eq.
    pose proof (Pos2Z.is_pos (Qden q)). pose proof (Pos2Z.is_pos (Qden q0)). nia.
  - rewrite bool_decide_eq_true. by intros ->.
Qed.

Lemma same_group_refl a : same_group a a = true.
Proof. unfold same_group. rewrite bool_decide_eq_true_2 by done. apply strict_equal_refl. Qed.

Lemma same_group_sym a b : same_group a b = true -> same_group b a = true.
Proof.
  unfold same_group. rewrite strict_equal_sym.
  by rewrite (bool_decide_ext (a.1 = b.1) (b.1 = a.1)) by (split; congruence).
Qed.

Lemma same_group_trans a b c :
  same_group a b = true -> same_group b c = true -> same_group a c = true.
Proof.
  unfold same_group. apply strict_equal_trans.
  rewrite !bool_decide_eq_true. congruence.
Qed.

Lemma grouped_with_refl a : grouped_with a a = true.
Proof. apply same_group_refl. Qed.

Lemma grouped_with_sym a b : grouped_with a b = true -> grouped_with b a = true.
Proof. apply same_group_sym. Qed.

Lemma grouped_with_trans a b c :
  grouped_with a b = true -> grouped_with b c = true -> grouped_with a c = true.
Proof. apply same_group_trans. Qed.

(** *** The [forEach] *)

Lemma existsb_map {A B : Type} (f : B -> bool) (g : A -> B) l :
  existsb f (map g l) = existsb (fun x => f (g x)) l.
Proof. induction l as [|x l IH]; simpl; [done|]. by rewrite IH. Qed.

Lemma member_nullish v k :
  member v k = if nullish v then None else Some (prop v k).
Proof. by destruct v. Qed.

(** The [forEach] throws exactly when a value is [null] or [undefined];
    otherwise the groups are the first entries of the classes of the
    entries that have a group. *)
Lemma extractGroups_spec entries acc :
  extractGroups (map group_of acc) entries
  = if existsb (fun entry => nullish entry.2.2) entries then None
    else Some (map group_of
                 (fold_left (add_rep grouped_with)
                    (filter (fun entry => has_group entry.2 = true) entries) acc)).
Proof.
  revert acc. induction entries as [|entry entries IH]; intros acc; [done|].
  cbn [extractGroups existsb]. unfold collect. rewrite member_nullish.
  destruct (nullish entry.2.2); [done|]. cbn [orb].
  rewrite existsb_map.
  change (fun x => same_group (entry.1, prop entry.2.2 "group") (group_of x))
    with (grouped_with entry).
  unfold has_group at 1.
  destruct (truthy (prop entry.2.2 "group")) eqn:Hg; cbn [andb].
  - rewrite filter_cons_True by done. cbn [fold_left]. unfold add_rep at 2.
    destruct (existsb (grouped_with entry) acc); cbn [negb]; [apply IH|].
    change (entry.1, prop entry.2.2 "group") with (group_of entry).
    change (map group_of acc ++ [group_of entry])
      with (map group_of acc ++ map group_of [entry]).
    rewrite <- map_app. apply IH.
  - rewrite filter_cons_False by (rewrite Hg; done). apply IH.
Qed.

Lemma indexed_from_snd {A : Type} (P : A -> bool) n (l : list A) :
  map snd (filter (fun entry => P entry.2 = true) (indexed_from n l))
  = filter (fun x => P x = true) l.
Proof.
  revert n. induction l as [|x l IH]; intros n; [done|]. cbn [indexed_from].
  destruct (P x) eqn:Hx.
  - rewrite !filter_cons_True by done. cbn [map]. by rewrite IH.
  - rewrite !filter_cons_False by (simpl; congruence). apply IH.
Qed.

Lemma existsb_indexed_from {A : Type} (P : A -> bool) n (l : list A) :
  existsb (fun entry => P entry.2) (indexed_from n l) = existsb P l.
Proof. revert n. induction l as [|x l IH]; intros n; simpl; [done|]. by rewrite IH. Qed.

Lemma map_imap {A B C : Type} (f : B -> C) (g : nat -> A -> B) (l : list A) :
  map f (imap g l) = imap (fun i x => f (g i x)) l.
Proof.
  revert g. induction l as [|x l IH]; intros g; [done|]. simpl. by rewrite IH.
Qed.

Lemma imap_const {A B : Type} (f : A -> B) (l : list A) : imap (fun _ x => f x) l = map f l.
Proof. induction l as [|x l IH]; [done|]. simpl. by rewrite <- IH. Qed.

Lemma imap_index {A : Type} (l : list A) : imap (fun i _ => i) l = seq 0 (length l).
Proof.
  enough (H : forall n, imap (fun i _ => (n + i)%nat) l = seq n (length l)) by apply (H 0%nat).
  induction l as [|x l IH]; intros n; [done|]. simpl. rewrite Nat.add_0_r. f_equal.
  rewrite <- IH. apply imap_ext. intros i y _. simpl. lia.
Qed.

(** The members of a group among all entries are its members among the
    entries that have a group. *)
Lemma class_in_has_group (l : list (nat * (jsstring * value))) r :
  has_group r.2 = true ->
  class_in grouped_with l r
  = class_in grouped_with (filter (fun entry => has_group entry.2 = true) l) r.
Proof.
  intros Hr. unfold class_in. induction l as [|x l IH]; [done|].
  destruct (grouped_with x r) eqn:Hx.
  - assert (has_group x.2 = true).
    { pose proof (strict_equal_truthy _ _ _ Hx) as Ht. unfold has_group in *.
      simpl in Ht. congruence. }
    rewrite (filter_cons_True (fun entry => has_group entry.2 = true)) by done.
    rewrite !filter_cons_True by done. by rewrite IH.
  - rewrite filter_cons_False by congruence.
    destruct (has_group x.2) eqn:Hhx.
    + rewrite (filter_cons_True (fun entry => has_group entry.2 = true)) by done.
      rewrite filter_cons_False by congruence. done.
    + rewrite (filter_cons_False (fun entry => has_group entry.2 = true)) by congruence.
      done.
Qed.

Lemma serversOf_class entries r :
  serversOf entries (group_of r)
  = map (fun entry => uuidToNumber entry.2.1) (class_in grouped_with (indexed entries) r).
Proof. done. Qed.

(** What [fetchServerGroup] returns, in terms of the classes. *)
Lemma fetchServerGroup_returns stamp kmNodes response :
  fetchServerGroup stamp kmNodes = Returns response ->
  exists entries,
    Object_entries kmNodes = Some entries
    /\ response
       = {| success := true;
            data :=
              imap (fun index g =>
                      {| group := {| id := index;
                                     created_at := stamp (2 * index)%nat;
                                     updated_at := stamp (2 * index + 1)%nat;
                                     name := g.2 |};
                         servers := serversOf entries g |})
                   (map group_of
                      (reps grouped_with
                         (filter (fun entry => has_group entry.2 = true)
                                 (indexed entries)))) |}.
Proof.
  unfold fetchServerGroup.
  destruct (truthy (optional_member kmNodes "error")); [done|].
  destruct (Object_entries kmNodes) as [entries|]; [|done].
  pose proof (extractGroups_spec (indexed entries) []) as Hspec.
  cbn [map] in Hspec. rewrite Hspec.
  destruct (existsb _ (indexed entries)); [done|].
  intros [= <-]. by exists entries.
Qed.

(** X17. The groups [fetchServerGroup] returns divide the nodes that have
    a group: the ids of the groups are their positions, from 0 on; every
    group has a name that counts as true and at least one server; no two
    groups have the same name; and the server lists, taken together, hold
    the id of every node with a group once for each such node, and nothing
    else. *)
Theorem fetchServerGroup_partitions stamp kmNodes response :
  fetchServerGroup stamp kmNodes = Returns response ->
  exists entries,
    Object_entries kmNodes = Some entries
    /\ success response = true
    /\ map (fun g => id (group g)) (data response) = seq 0 (length (data response))
    /\ Forall (fun g => truthy (name (group g)) = true /\ servers g <> []) (data response)
    /\ (forall i j gi gj,
          data response !! i = Some gi -> data response !! j = Some gj -> i <> j ->
          strict_equal false (name (group gi)) (name (group gj)) = false)
    /\ Permutation (concat (map servers (data response)))
                   (map (fun entry => uuidToNumber entry.1)
                        (filter (fun entry => has_group entry = true) entries)).
Proof.
  intros H. apply fetchServerGroup_returns in H as (entries & He & ->).
  exists entries. split; [done|]. split; [done|]. cbn [data].
  set (T := filter (fun entry => has_group entry.2 = true) (indexed entries)).
  destruct (reps_inv_reps grouped_with grouped_with_refl grouped_with_sym
              grouped_with_trans T) as [Hin Hap Hcov Hperm].
  set (R := reps grouped_with T) in *.
  assert (HT : forall r, r ∈ R -> has_group r.2 = true /\ r ∈ indexed entries).
  { intros r Hr. apply Hin in Hr. unfold T in Hr.
    apply list_elem_of_filter in Hr. done. }
  split; [|split; [|split]].
  - rewrite map_imap. cbn [group id]. rewrite length_imap. apply imap_index.
  - apply Forall_lookup. intros i g. rewrite list_lookup_imap, list_lookup_fmap.
    destruct (R !! i) as [r|] eqn:Hi; [|done]. simpl. intros [= <-]. cbn [group name servers].
    destruct (HT r) as [Hg Hr]; [by eapply list_elem_of_lookup_2|].
    split; [exact Hg|]. rewrite serversOf_class.
    assert (Hrr : r ∈ class_in grouped_with (indexed entries) r).
    { apply list_elem_of_filter. split; [apply grouped_with_refl|done]. }
    intros Hnil. apply (f_equal length) in Hnil. rewrite length_map in Hnil.
    destruct (class_in grouped_with (indexed entries) r); [|done].
    by apply elem_of_nil in Hrr.
  - intros i j gi gj. rewrite !list_lookup_imap, !list_lookup_fmap.
    destruct (R !! i) as [ri|] eqn:Hi; [|done].
    destruct (R !! j) as [rj|] eqn:Hj; [|done].
    simpl. intros [= <-] [= <-] Hij. cbn [group name].
    destruct (strict_equal false (prop ri.2.2 "group") (prop rj.2.2 "group")) eqn:Heq; [|done].
    destruct Hij. apply (Hap i j ri rj Hi Hj).
    apply (strict_equal_weaken _ _ _ Heq).
  - rewrite map_imap. cbn [servers]. rewrite imap_const, map_map.
    rewrite (map_ext_in _ (fun r => map (fun entry => uuidToNumber entry.2.1)
                                      (class_in grouped_with T r))).
    2: { intros r Hr. apply list_elem_of_In in Hr. rewrite serversOf_class.
         by rewrite (class_in_has_group _ r (proj1 (HT r Hr))). }
    rewrite <- (map_map (class_in grouped_with T)
                  (map (fun entry : nat * (jsstring * value) => uuidToNumber entry.2.1))).
    rewrite <- concat_map.
    rewrite <- (indexed_from_snd has_group 0 entries).
    rewrite map_map. by apply Permutation_map.
Qed.

Lemma fetchServerGroup_partitions_witness :
  let kmNodes :=
    VObj [(js "a", VObj [(js "group", VStr (js "x"))]);
          (js "b", VObj [(js "group", VStr (js "y"))]);
          (js "c", VObj [(js "group", VStr (js "x"))]);
          (js "d", VObj [])] in
  let stamp := fun _ : nat => js "2024-01-01T00:00:00.000Z" in
  let response :=
    {| success := true;
       data := [ {| group := {| id := 0; created_at := stamp 0%nat; updated_at := stamp 1%nat;
                               name := VStr (js "x") |};
                    servers := [97; 99] |};
                 {| group := {| id := 1; created_at := stamp 2%nat; updated_at := stamp 3%nat;
                               name := VStr (js "y") |};
                    servers := [98] |} ] |} in
  fetchServerGroup stamp kmNodes = Returns response
  /\ exists entries,
       Object_entries kmNodes = Some entries
       /\ Permutation (concat (map servers (data response)))
                      (map (fun entry => uuidToNumber entry.1)
                           (filter (fun entry => has_group entry = true) entries)).
Proof.
  intros kmNodes stamp response.
  assert (H : fetchServerGroup stamp kmNodes = Returns response) by (vm_compute; reflexivity).
  split; [exact H|].
  destruct (fetchServerGroup_partitions stamp kmNodes response H)
    as (entries & He & _ & _ & _ & _ & Hperm).
  exists entries. split; [exact He|exact Hperm].
Defined.

(** X18. How [fetchServerGroup] fails. An [error] member of the answer
    that counts as true is thrown, whatever else the answer holds.
    Otherwise the function throws a [TypeError] exactly when the answer is
    [null] or [undefined] or one of its nodes is; in every other case,
    that of an answer without nodes included, it returns. *)
Theorem fetchServerGroup_fails stamp kmNodes :
  (forall message,
     fetchServerGroup stamp kmNodes = ThrowsError message
     <-> message = optional_member kmNodes "error" /\ truthy message = true)
  /\ (fetchServerGroup stamp kmNodes = ThrowsTypeError
      <-> truthy (optional_member kmNodes "error") = false
          /\ match Object_entries kmNodes with
             | None => True
             | Some entries => Exists (fun entry => nullish entry.2 = true) entries
             end)
  /\ ((exists response, fetchServerGroup stamp kmNodes = Returns response)
      <-> truthy (optional_member kmNodes "error") = false
          /\ exists entries,
               Object_entries kmNodes = Some entries
               /\ Forall (fun entry => nullish entry.2 = false) entries).
Proof.
  unfold fetchServerGroup.
  destruct (truthy (optional_member kmNodes "error")) eqn:Herr.
  { split; [|split].
    - intros message. split; [by intros [= <-]|]. by intros [-> _].
    - split; [done|]. by intros [? _].
    - split; [by intros [? ?]|]. by intros [? _]. }
  destruct (Object_entries kmNodes) as [entries|] eqn:He.
  2: { split; [|split].
       - intros message. split; [done|]. intros [-> Ht]. congruence.
       - done.
       - split; [by intros [? ?]|]. by intros (_ & ? & ? & _). }
  pose proof (extractGroups_spec (indexed entries) []) as Hspec.
  cbn [map] in Hspec. rewrite Hspec. clear Hspec.
  unfold indexed. rewrite (existsb_indexed_from (fun entry => nullish entry.2) 0 entries).
  destruct (existsb (fun entry => nullish entry.2) entries) eqn:Hex.
  - assert (HE : Exists (fun entry => nullish entry.2 = true) entries).
    { apply existsb_exists in Hex as (entry & Hin & Hn).
      apply Exists_exists. exists entry. split; [by apply list_elem_of_In|done]. }
    split; [|split].
    + intros message. split; [done|]. intros [-> Ht]. congruence.
    + done.
    + split; [by intros [? ?]|]. intros (_ & entries' & [= <-] & Hall).
      apply Exists_exists in HE as (entry & Hin & Hn).
      rewrite Forall_forall in Hall. specialize (Hall entry Hin). simpl in *. congruence.
  - assert (HA : Forall (fun entry => nullish entry.2 = false) entries).
    { apply Forall_forall. intros entry Hin.
      destruct (nullish entry.2) eqn:Hn; [|done].
      assert (existsb (fun entry => nullish entry.2) entries = true); [|congruence].
      apply existsb_exists. exists entry. split; [by apply list_elem_of_In|done]. }
    split; [|split].
    + intros message. split; [done|]. intros [-> Ht]. congruence.
    + split; [done|]. intros [_ HE].
      apply Exists_exists in HE as (entry & Hin & Hn).
      rewrite Forall_forall in HA. specialize (HA entry Hin). simpl in *. congruence.
    + split; [|by eexists]. intros _. split; [done|]. by exists entries.
Qed.

End NezhaApiFacts.

(* ===================================================================== *)
(** ** More facts about the reconciler                                    *)
(* ===================================================================== *)

Module KomariViewFacts.
Import Js Komari KomariSpec KomariViewSpec Utils MapFacts KomariFacts.

Section Facts.
Context `{RT : Runtime} `{PF : Platform}.

Lemma or_else_zero v : number_or_zero (or_else v zero).
Proof. unfold or_else, number_or_zero. destruct (truthy v) eqn:Hv; auto. Qed.

Lemma statusServer_defaulted uuid status : state_defaulted (state (statusServer uuid status)).
Proof. repeat split; apply or_else_zero. Qed.

Lemma rosterServer_defaulted server status :
  state_defaulted (state (rosterServer server status)).
Proof.
  destruct status as [status|]; simpl.
  - repeat split; apply or_else_zero.
  - repeat split; by left.
Qed.

Lemma rosterPass_defaulted cache m :
  Forall (fun e => state_defaulted (state e)) (rosterPass cache m).1.
Proof.
  revert m. induction cache as [|server cache IH]; intros m; [by constructor|].
  rewrite rosterPass_cons. cbn [fst]. constructor; [apply rosterServer_defaulted|apply IH].
Qed.

(** X19. No entity of the view has a dynamic field that is missing: in
    every state, with or without a roster and whatever the feed holds,
    each of the fifteen numeric fields is 0 or a value that counts as
    true, so never [undefined], [null], [NaN], [false] or the empty
    text. *)
Theorem view_fields_defaulted cache clock data :
  Forall (fun e => state_defaulted (state e))
         (servers (komariToNezhaWebsocketResponse cache clock data).1).
Proof.
  destruct cache as [|server cache].
  - rewrite servers_without_roster. apply Forall_map, Forall_forall.
    intros kv _. apply statusServer_defaulted.
  - rewrite servers_with_roster by done. apply Forall_app. split.
    + apply rosterPass_defaulted.
    + apply Forall_map, Forall_forall. intros kv _. apply statusServer_defaulted.
Qed.

(** X20. A roster entry that the feed does not have is shown as not online
    by [formatNezhaInfo] at any time later than 30 s after the epoch: its
    marker starts with "000", so its last active time is 0 and not a
    date. *)
Theorem roster_entry_without_record_not_online cache clock data i server now :
  cache !! i = Some server ->
  Node.uuid server ∉ map fst data ->
  30000 < now ->
  exists e,
    servers (komariToNezhaWebsocketResponse cache clock data).1 !! i = Some e
    /\ lastActiveTime (last_active e) = Some (Some 0)
    /\ online now (last_active e) = Some false.
Proof.
  intros Hi Hk Hnow.
  assert (Hne : cache <> []) by (intros ->; done).
  destruct (rosterPass_lookup cache (Map_new data) i server Hi) as (st & Hst & _ & Hnone).
  rewrite Hnone in Hst by by rewrite Map_new_keys.
  exists (rosterServer server None). split.
  { rewrite roster_part_lookup; [done | done | by eapply lookup_lt_Some]. }
  split; [done|]. unfold online. simpl.
  f_equal. apply Z.leb_gt. lia.
Qed.

End Facts.

Lemma roster_entry_without_record_not_online_witness :
  let cache := [sample_node "a" 5 VUndefined; sample_node "b" 1 VUndefined] in
  let data := [(js "a", sample_status (VNum 10) VUndefined VUndefined)] in
  cache !! 1%nat = Some (sample_node "b" 1 VUndefined)
  /\ (js "b" ∉ map fst data)
  /\ exists e,
       servers (komariToNezhaWebsocketResponse (RT := sample_runtime) cache 0 data).1 !! 1%nat
       = Some e
       /\ online (PF := UtilsSpec.sample_platform) 1700000000000 (last_active e) = Some false.
Proof.
  intros cache data.
  assert (H1 : cache !! 1%nat = Some (sample_node "b" 1 VUndefined)) by reflexivity.
  assert (H2 : Node.uuid (sample_node "b" 1 VUndefined) ∉ map fst data).
  { apply (bool_decide_unpack _). vm_compute. exact I. }
  assert (H3 : 30000 < 1700000000000) by lia.
  destruct (roster_entry_without_record_not_online
              (RT := sample_runtime) (PF := UtilsSpec.sample_platform)
              cache 0 data 1%nat _ 1700000000000 H1 H2 H3) as (e & He & _ & Ho).
  split; [exact H1|]. split; [exact H2|]. exists e. split; [exact He|exact Ho].
Defined.

End KomariViewFacts.

(* ===================================================================== *)
(** ** Facts about the connection state                                   *)
(* ===================================================================== *)

Module RPC2StateFacts.
Import Js RPC2 RPC2Spec RPC2Timers RPC2Connect RPC2State.
Import MapFacts RPC2Facts RPC2TimersFacts RPC2ConnectFacts.

(** The microtasks run to the last. *)
Lemma drain_empties w : microtasks (drain w) = [].
Proof.
  unfold drain.
  assert (H : forall jobs w0, microtasks w0 = jobs ->
            microtasks (fold_left (fun w j => runJob j (dequeue w)) jobs w0) = []).
  { induction jobs as [|j jobs IH]; intros w0 Hmt; cbn [fold_left]; [done|].
    apply IH. rewrite runJob_microtasks. simpl. by rewrite Hmt. }
  by apply H.
Qed.

Lemma timer_facts_of w : timers_inv w -> conn_inv w -> timer_facts w.
Proof.
  intros Htm Hinv. split.
  - apply (ti_bound w Htm).
  - apply (ti_heartbeat w Htm).
  - apply (ti_reconnect w Htm).
  - intros s c t Hop. destruct (status_waiting _ _ _ _ Hinv Hop) as (_ & _ & Ht & _).
    split; [done|]. by destruct (cn_opening w Hinv _ _ _ Hop).
  - intros i entry t tm Hin Hto Ht.
    destruct (ti_pending w Htm _ _ Hin) as (t' & method & ms & Hto' & Ht').
    rewrite Hto in Hto'. injection Hto' as <-. rewrite Ht in Ht'. by injection Ht' as ->.
Qed.

Lemma state_inv_sstep w w' : sstep w w' -> state_inv w -> state_inv w'.
Proof.
  intros (Hst & Hws & Hrt & Hhb & Hopt & Hop & Htm & Hmt) [H1 H2 H3]. split.
  - rewrite Hst, Hmt. intros Hc Hn. destruct (H1 Hc Hn) as (s & c & t & Hs & Ho & Ht).
    exists s, c, t. rewrite Hws, Hop. split; [done|]. split; [done|]. by apply Htm.
  - rewrite Hst. intros Hc. destruct (H2 Hc) as (t & Hh & Ht).
    exists t. rewrite Hrt, Hopt. split; [done|]. by apply Htm.
  - rewrite Hst, Hopt. intros Hc He. destruct (H3 Hc He) as (t & Hh & Ht).
    exists t. rewrite Hhb, Hopt. split; [done|]. by apply Htm.
Qed.

Lemma sstep_refl w : sstep w w.
Proof. by repeat split. Qed.

Lemma sstep_trans w1 w2 w3 : sstep w1 w2 -> sstep w2 w3 -> sstep w1 w3.
Proof.
  intros (A1 & A2 & A3 & A4 & A5 & A6 & A7 & A8) (B1 & B2 & B3 & B4 & B5 & B6 & B7 & B8).
  repeat (split; [congruence|]). split; [|congruence].
  intros t tm Ht Hk. apply B7; [|done]. by apply A7.
Qed.

(** A timer that is armed stays armed under the handles that are given out
    and the timeouts of requests that are disarmed. *)
Ltac keep_timer Hf :=
  let t := fresh "t" in
  let tm := fresh "tm" in
  let Ht := fresh "Ht" in
  let Hk := fresh "Hk" in
  intros t tm Ht Hk;
  repeat first
    [ rewrite lookup_insert_ne
        by (intros <-; pose proof (tf_bound _ Hf _ _ Ht); lia)
    | rewrite lookup_delete_ne
        by (intros <-; simplify_eq; simpl in Hk; done) ];
  exact Ht.

Ltac solve_sstep Hf :=
  unfold sstep; simpl;
  do 6 (split; [done|]);
  split; [keep_timer Hf|];
  rewrite ?existsb_app; simpl; by rewrite ?orb_false_r.

Lemma sstep_callViaHTTP caller method params opts w :
  sstep w (callViaHTTP_ caller method params opts w).2.
Proof.
  assert (Hf : True) by done. unfold callViaHTTP_. crunch; solve_sstep Hf.
Qed.

Lemma sstep_callViaWebSocket caller method params opts w :
  timer_facts w -> sstep w (callViaWebSocket_ caller method params opts w).2.
Proof. intros Hf. unfold callViaWebSocket_, sendMessage, settleWs. crunch; solve_sstep Hf. Qed.

Lemma state_inv_connect w : state_inv w -> state_inv (connect w).2.
Proof.
  intros Hinv. unfold connect. cbn [newPromise]. cbv zeta.
  match goal with
  | |- context [if ?b then _ else _] => destruct b
  end; cbn [snd].
  - eapply state_inv_sstep; [|exact Hinv]. unfold sstep. simpl.
    do 6 (split; [done|]). split; [done|]. done.
  - split; simpl; try done. intros _ _.
    exists (nextSocket w), (nextPromise w), (nextTimer w). simpl.
    split; [done|]. by rewrite !lookup_insert_eq.
Qed.

Lemma disconnect_state w : connectionState (client (disconnect w)) = DISCONNECTED.
Proof.
  unfold disconnect. cbv zeta.
  match goal with
  | |- context [clearPendingRequests ?e ?W] =>
      destruct (clearPendingRequests_spec e W)
        as (_ & _ & _ & _ & _ & -> & _)
  end.
  done.
Qed.

Lemma state_inv_disconnect w : state_inv (disconnect w).
Proof. split; rewrite disconnect_state; done. Qed.

Lemma state_inv_call method params opts w :
  timers_inv w -> conn_inv w -> state_inv w -> state_inv (call method params opts w).2.
Proof.
  intros Htm Hcn Hinv. unfold call. cbn [newPromise]. cbv zeta.
  match goal with
  | |- context [if decide (connectionState (client ?W) = CONNECTED) then _ else _] =>
      assert (HW : timers_inv W /\ conn_inv W /\ state_inv W);
        [|destruct (decide (connectionState (client W) = CONNECTED))]
  end.
  - match goal with
    | |- context [emit ?e ?W0] =>
        assert (H0 : timers_inv (emit e W0) /\ conn_inv (emit e W0) /\ state_inv (emit e W0))
    end.
    { split; [by apply (timers_inv_view w)|]. split.
      - eapply evolves_inv, evolves_cstep; [exact Hcn|]. solve_cstep.
      - eapply state_inv_sstep; [|exact Hinv]. unfold sstep. simpl.
        do 6 (split; [done|]). split; [done|]. done. }
    destruct H0 as (H1 & H2 & H3).
    match goal with
    | |- context [if ?b then _ else _] => destruct b
    end; [|done].
    unfold autoConnect. case_decide; [|done].
    split; [by apply connect_inv|]. split; [|by apply state_inv_connect].
    by eapply evolves_inv, evolves_connect.
  - destruct HW as (H1 & H2 & H3). cbn [snd].
    eapply state_inv_sstep; [|exact H3]. by apply sstep_callViaWebSocket, timer_facts_of.
  - destruct HW as (H1 & H2 & H3). cbn [snd].
    eapply state_inv_sstep; [|exact H3]. apply sstep_callViaHTTP.
Qed.

(** Two timers of two kinds have two handles. *)
Ltac other_timer Hf :=
  let Heq := fresh in
  intros Heq; subst;
  repeat match goal with
         | H : opening _ !! _ = Some _ |- _ =>
             let Hlt := fresh in
             apply (tf_opening _ Hf) in H; destruct H as [H Hlt]
         | H : heartbeatInterval _ = Some ?t, H' : timers _ !! ?t = Some _ |- _ =>
             apply (tf_heartbeat _ Hf _ _ H) in H'; simpl in H'
         | H : reconnectTimeout _ = Some ?t, H' : timers _ !! ?t = Some _ |- _ =>
             apply (tf_reconnect _ Hf _ _ H) in H'; simpl in H'
         end;
  simplify_eq; try lia; try done.

Lemma state_inv_socketOpens s w :
  timer_facts w -> state_inv w -> state_inv (socketOpens s w).
Proof.
  intros Hf [H1 H2 H3]. unfold socketOpens, onopen, startHeartbeat, stopHeartbeat.
  destruct (sockets w !! s) as [[]|]; try done.
  pose proof (tf_bound w Hf) as Hb.
  crunch; (split; simpl; [done|done|]); intros _ He; try congruence.
  all: unfold heartbeat_armed; simpl; eexists; (split; [reflexivity|]).
  all: repeat first [ rewrite lookup_delete_ne by other_timer Hf
                    | rewrite lookup_insert_eq ]; try done.
Qed.

(** A state that holds of a world holds of one that lost the timer of a
    connect and has its [catch] queued. *)
Ltac solve_state Hf H1 H2 H3 :=
  split; simpl;
  [ rewrite ?existsb_app; simpl; rewrite ?orb_true_r; try done
  | let Hc := fresh in
    let t := fresh "t" in
    let Hh := fresh in
    let Ht := fresh in
    intros Hc; destruct (H2 Hc) as (t & Hh & Ht);
    exists t; simpl; split; [exact Hh|];
    repeat first [ rewrite lookup_delete_ne by other_timer Hf
                 | rewrite lookup_insert_ne by other_timer Hf ];
    exact Ht
  | let Hc := fresh in
    let He := fresh in
    let t := fresh "t" in
    let Hh := fresh in
    let Ht := fresh in
    intros Hc He; destruct (H3 Hc He) as (t & Hh & Ht);
    exists t; simpl; split; [exact Hh|];
    repeat first [ rewrite lookup_delete_ne by other_timer Hf
                 | rewrite lookup_insert_ne by other_timer Hf ];
    exact Ht ].

Lemma sstep_onerror w : sstep w (onerror w).
Proof. unfold sstep, onerror. simpl. by repeat split. Qed.

Lemma state_inv_socketErrors s w :
  timer_facts w -> state_inv w -> state_inv (socketErrors s w).
Proof.
  intros Hf Hinv. unfold socketErrors.
  destruct (sockets w !! s); [|done].
  destruct (opening (onerror w) !! s) as [[c t]|] eqn:Hop.
  - destruct Hinv as [H1 H2 H3]. simpl in Hop. solve_state Hf H1 H2 H3.
  - eapply state_inv_sstep; [apply sstep_onerror|done].
Qed.

Lemma state_inv_socketCloses s w :
  timer_facts w -> state_inv w -> state_inv (socketCloses s w).
Proof.
  intros Hf [H1 H2 H3]. unfold socketCloses, onclose, attemptReconnect, stopHeartbeat.
  destruct (sockets w !! s) as [[]|]; try done.
  all: crunch; (split; simpl; [done| |done]).
  all: try done.
  all: intros _; unfold reconnect_armed; simpl; eexists; (split; [reflexivity|]).
  all: by rewrite lookup_insert_eq.
Qed.

Lemma sstep_clearTimer t w :
  (forall tm, timers w !! t = Some tm -> is_request_timer tm = true) ->
  sstep w (clearTimer t w).
Proof.
  intros Hk. unfold sstep. simpl. do 6 (split; [done|]). split; [|done].
  intros t' tm Ht Hr. rewrite lookup_delete_ne; [done|]. intros ->.
  rewrite (Hk _ Ht) in Hr. done.
Qed.

Lemma sstep_handleMessage data w :
  timer_facts w -> sstep w (leaves (handleMessage data w)).
Proof.
  intros Hf. unfold handleMessage, leaves, clearTimer_if, settleWs.
  destruct (negb (id_truthy (response_id data))); [apply sstep_refl|].
  destruct (Map_get (pendingRequests (client w)) (response_id data)) as [pending|] eqn:Hget;
    [|apply sstep_refl].
  apply Map_get_Some_elem in Hget.
  destruct (timeout pending) as [t|] eqn:Hto.
  - assert (H1 : sstep w (clearTimer t w)).
    { apply sstep_clearTimer. intros tm Htm. by eapply (tf_pending w Hf). }
    eapply sstep_trans; [exact H1|].
    assert (Hf' : True) by done.
    crunch; solve_sstep Hf'.
  - assert (Hf' : True) by done. crunch; solve_sstep Hf'.
Qed.

Lemma sstep_httpReplies x reply w : sstep w (httpReplies x reply w).
Proof.
  assert (Hf : True) by done. unfold httpReplies, enqueue. crunch; solve_sstep Hf.
Qed.

Lemma state_inv_timerFires t clock w :
  timer_facts w -> state_inv w -> state_inv (timerFires t clock w).
Proof.
  intros Hf Hinv. unfold timerFires.
  destruct (timers w !! t) as [[[i p method|s| |] ms]|] eqn:Ht; try done.
  - eapply state_inv_sstep; [|exact Hinv].
    eapply sstep_trans; [apply (sstep_clearTimer t)|].
    { intros tm Htm. rewrite Ht in Htm. by injection Htm as <-. }
    assert (Hf' : True) by done. unfold settleWs. crunch; solve_sstep Hf'.
  - destruct Hinv as [H1 H2 H3]. cbn [opening clearTimer with_timers].
    destruct (opening w !! s) as [[c t']|] eqn:Hop.
    + solve_state Hf H1 H2 H3.
    + split; simpl.
      * intros Hc Hn. destruct (H1 Hc Hn) as (s' & c & t' & Hs & Ho & Ht').
        exists s', c, t'. simpl. split; [done|]. split; [done|].
        rewrite lookup_delete_ne; [done|]. intros ->.
        rewrite Ht in Ht'. injection Ht' as -> _. congruence.
      * intros Hc. destruct (H2 Hc) as (rt & Hh & Hrt).
        exists rt. simpl. split; [done|]. rewrite lookup_delete_ne; [done|].
        intros ->. congruence.
      * intros Hc He. destruct (H3 Hc He) as (hb & Hh & Hhb).
        exists hb. simpl. split; [done|]. rewrite lookup_delete_ne; [done|].
        intros ->. congruence.
  - destruct Hinv as [H1 H2 H3]. unfold connect. cbn [newPromise]. cbv zeta.
    match goal with
    | |- context [if ?b then _ else _] => destruct b eqn:Hb
    end; cbn [snd].
    + simpl in Hb. split; simpl.
      * intros Hc Hn. destruct (H1 Hc Hn) as (s' & c & t' & Hs & Ho & Ht').
        exists s', c, t'. simpl. split; [done|]. split; [done|].
        rewrite lookup_delete_ne; [done|]. intros ->.
        unfold connect_timer in *. congruence.
      * intros Hc. rewrite Hc in Hb. done.
      * intros Hc He. destruct (H3 Hc He) as (hb & Hh & Hhb).
        exists hb. simpl. split; [done|]. rewrite lookup_delete_ne; [done|].
        intros ->. congruence.
    + split; simpl; try done. intros _ _.
      exists (nextSocket w), (nextPromise w), (nextTimer w). simpl.
      split; [done|]. by rewrite !lookup_insert_eq.
  - eapply state_inv_sstep; [|exact Hinv].
    assert (Hf' : True) by done. crunch; solve_sstep Hf' || apply sstep_refl.
Qed.

Lemma state_inv_handle i w :
  timers_inv w -> conn_inv w -> state_inv w -> state_inv (handle i w).
Proof.
  intros Htm Hcn Hinv. pose proof (timer_facts_of w Htm Hcn) as Hf.
  destruct i; cbn [handle].
  - by apply state_inv_connect.
  - apply state_inv_disconnect.
  - by apply state_inv_call.
  - eapply state_inv_sstep; [|exact Hinv]. by apply sstep_callViaWebSocket.
  - eapply state_inv_sstep; [|exact Hinv]. apply sstep_callViaHTTP.
  - done.
  - by apply state_inv_socketOpens.
  - eapply state_inv_sstep; [|exact Hinv]. unfold socketClosing.
    assert (Hf' : True) by done. crunch; solve_sstep Hf' || apply sstep_refl.
  - by apply state_inv_socketErrors.
  - by apply state_inv_socketCloses.
  - eapply state_inv_sstep; [|exact Hinv]. unfold socketMessage.
    destruct (sockets w !! s) as [[]|]; try apply sstep_refl.
    all: destruct frame; [apply sstep_refl|].
    all: destruct (onmessage_parsed data w) as [-> | ->];
      [by apply sstep_handleMessage|].
    all: eapply sstep_trans; [by apply sstep_handleMessage|].
    all: unfold sstep; simpl; by repeat split.
  - by apply state_inv_timerFires.
  - eapply state_inv_sstep; [|exact Hinv]. apply sstep_httpReplies.
Qed.

Lemma state_inv_runJob j jobs w :
  microtasks w = j :: jobs -> state_inv w -> state_inv (runJob j (dequeue w)).
Proof.
  intros Hmt Hinv.
  assert (Hd : is_catch j = false -> sstep w (dequeue w)).
  { intros Hj. unfold sstep, dequeue. simpl. do 7 (split; [done|]).
    rewrite Hmt. simpl. by rewrite Hj. }
  destruct j as [ctx [v|e]|q o|c e]; cbn [runJob].
  - eapply state_inv_sstep; [|exact Hinv]. eapply sstep_trans; [by apply Hd|].
    unfold sstep. simpl. by repeat split.
  - eapply state_inv_sstep; [|exact Hinv]. eapply sstep_trans; [by apply Hd|].
    apply sstep_callViaHTTP.
  - eapply state_inv_sstep; [|exact Hinv]. eapply sstep_trans; [by apply Hd|].
    unfold sstep. simpl. by repeat split.
  - split; simpl; done.
Qed.

Lemma state_inv_drain w : state_inv w -> state_inv (drain w).
Proof.
  unfold drain.
  assert (H : forall jobs w0, microtasks w0 = jobs -> state_inv w0 ->
            state_inv (fold_left (fun w j => runJob j (dequeue w)) jobs w0)).
  { induction jobs as [|j jobs IH]; intros w0 Hmt H0; cbn [fold_left]; [done|].
    apply IH.
    - rewrite runJob_microtasks. simpl. by rewrite Hmt.
    - by eapply state_inv_runJob. }
  intros Hw. by apply H.
Qed.

Lemma state_inv_step i w :
  once_inv w -> timers_inv w -> conn_inv w -> state_inv w -> state_inv (step w i).
Proof.
  intros Honce Htm Hcn Hinv. unfold step. destruct (from_user i).
  - by apply state_inv_handle.
  - apply state_inv_drain, state_inv_handle.
    + eapply timers_inv_view; [apply drain_view|exact Htm].
    + by eapply evolves_inv, evolves_drain.
    + by apply state_inv_drain.
Qed.

Lemma state_inv_construct opts : state_inv (construct opts).
Proof.
  assert (H0 : state_inv {| client := initialClient opts; sockets := ∅; nextSocket := 0;
                            opening := ∅; timers := ∅; nextTimer := 1; nextPromise := 0;
                            fallbacks := ∅; exchanges := ∅; nextExchange := 0;
                            microtasks := []; trace := [] |}) by (split; done).
  unfold construct. cbv zeta. destruct (Options.autoConnect opts); [|done].
  unfold autoConnect. case_decide; [|done]. by apply state_inv_connect.
Qed.

Lemma state_inv_reachable opts w : reachable opts w -> state_inv w.
Proof.
  induction 1 as [|w i Hr IH]; [apply state_inv_construct|].
  apply state_inv_step; [by eapply once_reachable| | |done].
  - by eapply timers_inv_reachable.
  - by eapply conn_inv_reachable.
Qed.

(** *** No [catch] of a [connect] is left queued *)

Lemma connect_microtasks w : microtasks (connect w).2 = microtasks w.
Proof.
  unfold connect. cbn [newPromise]. cbv zeta.
  by match goal with
     | |- context [if ?b then _ else _] => destruct b
     end.
Qed.

Lemma clearPendingRequests_no_catch error w :
  existsb is_catch (microtasks (clearPendingRequests error w))
  = existsb is_catch (microtasks w).
Proof.
  unfold clearPendingRequests. simpl.
  generalize (pendingRequests (client w)). intros l. revert w.
  induction l as [|entry l IH]; intros w; cbn [fold_left]; [done|].
  rewrite IH. unfold settleWs, clearTimer_if.
  destruct (timeout entry.2); crunch; rewrite ?existsb_app; simpl; by rewrite ?orb_false_r.
Qed.

Lemma disconnect_no_catch w :
  existsb is_catch (microtasks (disconnect w)) = existsb is_catch (microtasks w).
Proof.
  unfold disconnect. cbv zeta. rewrite clearPendingRequests_no_catch.
  destruct w as [[s0 ? ? ? ? rt hb ?] ? ? ? ? ? ? ? ? ? ? ?].
  unfold closeSocket. by destruct rt, hb, s0.
Qed.

Lemma call_no_catch method params opts w :
  existsb is_catch (microtasks (call method params opts w).2)
  = existsb is_catch (microtasks w).
Proof.
  unfold call, autoConnect, connect, callViaWebSocket_, callViaHTTP_, sendMessage, settleWs.
  crunch; rewrite ?existsb_app; simpl; by rewrite ?orb_false_r.
Qed.

Lemma user_no_catch i w :
  from_user i = true ->
  existsb is_catch (microtasks (handle i w)) = existsb is_catch (microtasks w).
Proof.
  destruct i; try done; intros _; cbn [handle].
  - by rewrite connect_microtasks.
  - apply disconnect_no_catch.
  - apply call_no_catch.
  - unfold callViaWebSocket, callViaWebSocket_, sendMessage, settleWs.
    crunch; rewrite ?existsb_app; simpl; by rewrite ?orb_false_r.
  - unfold callViaHTTP, callViaHTTP_. crunch; done.
Qed.

Lemma no_catch_reachable opts w :
  reachable opts w -> existsb is_catch (microtasks w) = false.
Proof.
  induction 1 as [|w i Hr IH].
  - unfold construct. cbv zeta. destruct (Options.autoConnect opts); [|done].
    unfold autoConnect. case_decide; [|done]. by rewrite connect_microtasks.
  - unfold step. destruct (from_user i) eqn:Hi.
    + by rewrite user_no_catch.
    + by rewrite drain_empties.
Qed.

(** X21. The states in which the client waits or beats are backed by a
    timer that is armed, in every world a client can reach.  While the
    state is CONNECTING, the connect of the client's socket is waiting with
    its timer of 10 s armed; while it is RECONNECTING, the reconnect whose
    handle the client holds is armed, with the configured delay; while it
    is CONNECTED and heartbeats are enabled, the heartbeat whose handle the
    client holds is armed, with the configured period.  So the client
    cannot stay in CONNECTING or in RECONNECTING for ever. *)
Theorem waiting_states_have_timers opts w :
  reachable opts w ->
  (connectionState (client w) = CONNECTING -> connecting w)
  /\ (connectionState (client w) = RECONNECTING -> reconnect_armed w)
  /\ (connectionState (client w) = CONNECTED ->
      Options.enableHeartbeat (options (client w)) = true -> heartbeat_armed w).
Proof.
  intros Hr. destruct (state_inv_reachable _ _ Hr) as [H1 H2 H3].
  split; [|by split]. intros Hc. apply H1; [done|]. by eapply no_catch_reachable.
Qed.

Lemma waiting_states_have_timers_witness :
  let w := run (construct Options.defaults) [SocketOpens 0; SocketCloses 0] in
  reachable Options.defaults w
  /\ connectionState (client w) = RECONNECTING
  /\ reconnect_armed w.
Proof.
  intros w.
  assert (Hr : reachable Options.defaults w) by (apply reachable_run, reachable_construct).
  assert (Hs : connectionState (client w) = RECONNECTING) by (by vm_compute).
  split; [exact Hr|]. split; [exact Hs|].
  exact (proj1 (proj2 (waiting_states_have_timers Options.defaults w Hr)) Hs).
Defined.

End RPC2StateFacts.
